(** * Piskel command-line tools and palette-matching service: a shallow embedding

    The development follows the JavaScript sources function by function:
    - [cli/piskel-transform.js]  (findContentBounds, cropPng, resizePng, transformPiskel)
    - [cli/palette-match.js]     (parseGplPalette, parseImagePalette, colorDistance,
                                  findNearestColor, matchPngToPalette, processPiskelFile)
    - [cli/png-to-piskel.js]     (applyPaletteToImageData)
    - [cli/piskel-to-png.js]     (scalePng, extractFrames, createSpritesheet, exportPiskel)
    - [PaletteMatchingService]   (matchToPalette, buildPaletteData_, matchFrameToPalette_)

    JavaScript numbers that hold integers are modelled as [Z]; the 32-bit
    conversions performed by the bitwise operators are written out.  Pixel
    buffers ([Buffer], a [Uint8Array]) are lists of [Z] updated by index. *)

From Stdlib Require Import ZArith Lia List Bool String Ascii.
From stdpp Require Import base option list gmap.

Local Open Scope Z_scope.

(** ** JavaScript integer operators *)

Module JS.

(** [ToInt32]: reduction modulo 2^32 into the signed range. *)
Definition toInt32 (z : Z) : Z := (z + 2 ^ 31) mod 2 ^ 32 - 2 ^ 31.

(** [a << n], [a >> n], [a | b], [a & b] for a constant shift count [0 <= n < 32]. *)
Definition shl (a n : Z) : Z := toInt32 (Z.shiftl (toInt32 a) n).
Definition sar (a n : Z) : Z := Z.shiftr (toInt32 a) n.
Definition bor (a b : Z) : Z := Z.lor (toInt32 a) (toInt32 b).
Definition band (a b : Z) : Z := Z.land (toInt32 a) (toInt32 b).

(** [a >>> 0]: [ToUint32]. *)
Definition toUint32 (z : Z) : Z := z mod 2 ^ 32.

(** [a >>> n] *)
Definition shr_u (a n : Z) : Z := Z.shiftr (toUint32 a) n.

(** An element read from an array: [None] is [undefined]. *)
Definition jsval := option Z.

(** Conversion performed when a value is stored into a [Uint8Array]:
    [undefined] becomes 0, an integer is reduced modulo 256. *)
Definition toUint8 (v : jsval) : Z :=
  match v with
  | None => 0
  | Some z => z mod 256
  end.

(** [for (let i = 0; i < n; i++) body] over a state [S]. *)
Definition for_range {S : Type} (n : Z) (body : Z -> S -> S) (s : S) : S :=
  fold_left (fun acc i => body i acc) (map Z.of_nat (seq 0 (Z.to_nat n))) s.

End JS.

(** ** Pixel buffers *)

(** [data[i]] on a typed array: [undefined] outside [0 .. length-1]. *)
Definition buf_get (d : list Z) (i : Z) : JS.jsval :=
  if i <? 0 then None else d !! Z.to_nat i.

(** [data[i] = v] on a typed array: ignored outside [0 .. length-1]. *)
Definition buf_set (d : list Z) (i : Z) (v : JS.jsval) : list Z :=
  if i <? 0 then d else <[Z.to_nat i := JS.toUint8 v]> d.

(** The four assignments [dst[dstIdx + c] = src[srcIdx + c]], c = 0..3, that
    every copy loop of the tools performs. *)
Definition copy_pixel (src : list Z) (srcIdx : Z) (dst : list Z) (dstIdx : Z) : list Z :=
  let dst := buf_set dst dstIdx (buf_get src srcIdx) in
  let dst := buf_set dst (dstIdx + 1) (buf_get src (srcIdx + 1)) in
  let dst := buf_set dst (dstIdx + 2) (buf_get src (srcIdx + 2)) in
  buf_set dst (dstIdx + 3) (buf_get src (srcIdx + 3)).

Definition is_byte (v : Z) : Prop := 0 <= v < 256.
Definition bytes (d : list Z) : Prop := Forall is_byte d.

(** A pngjs image object. *)
Record PNG := mkPNG { width : Z; height : Z; data : list Z }.

(** [new PNG({width, height})] as pngjs builds it: the dimensions are coerced
    with [| 0]; the buffer holds [4 * width * height] zero bytes when both
    dimensions are positive and is [null] (here: the empty list, recognised by
    [has_data]) otherwise. *)
Definition new_PNG (w h : Z) : PNG :=
  let w' := JS.toInt32 w in
  let h' := JS.toInt32 h in
  mkPNG w' h'
    (if (0 <? w') && (0 <? h') then replicate (Z.to_nat (4 * w' * h')) 0 else []).

Definition has_data (p : PNG) : bool := (0 <? width p) && (0 <? height p).

(** A decoded image: positive dimensions, [4 * width * height] bytes. *)
Definition wf_png (p : PNG) : Prop :=
  0 < width p /\ 0 < height p /\
  Z.of_nat (length (data p)) = 4 * width p * height p /\
  bytes (data p).

(** ** Colours and the redmean distance (cli/palette-match.js) *)

Record Color := mkColor { r : Z; g : Z; b : Z }.

Definition byte_color (c : Color) : Prop := is_byte (r c) /\ is_byte (g c) /\ is_byte (b c).

(** The distance on numbers, with the 32-bit conversions of [>>]. *)
Definition redmean (r1 g1 b1 r2 g2 b2 : Z) : Z :=
  let rMean := JS.sar (r1 + r2) 1 in
  let dr := r1 - r2 in
  let dg := g1 - g2 in
  let db := b1 - b2 in
  JS.sar ((512 + rMean) * dr * dr) 8 + 4 * dg * dg + JS.sar ((767 - rMean) * db * db) 8.

(** [colorDistance(r1, g1, b1, r2, g2, b2)].  The first three arguments are
    read from the pixel buffer and are [undefined] past its end; the result
    [None] is [NaN].  An undefined [r1] or [b1] makes the red or blue product
    NaN, which [>> 8] (and [>> 1] for [rMean]) converts to 0; an undefined
    [g1] makes the unshifted green term, and with it the sum, NaN.  The
    products are the exact integers; the code's doubles are the same numbers
    while a product stays below 2^53, which holds for components up to
    200000 (all bytes, and the numerals of an ordinary palette file). *)
Definition colorDistance (r1 g1 b1 : JS.jsval) (r2 g2 b2 : Z) : option Z :=
  let rMean := match r1 with Some r1 => JS.sar (r1 + r2) 1 | None => 0 end in
  let red :=
    match r1 with
    | Some r1 => JS.sar ((512 + rMean) * (r1 - r2) * (r1 - r2)) 8
    | None => 0
    end in
  let blue :=
    match b1 with
    | Some b1 => JS.sar ((767 - rMean) * (b1 - b2) * (b1 - b2)) 8
    | None => 0
    end in
  match g1 with
  | Some g1 => Some (red + 4 * (g1 - g2) * (g1 - g2) + blue)
  | None => None
  end.

(** The state of the scan in [findNearestColor]: [minDist] ([None] is
    [Infinity]), [nearest] ([None] is [undefined]) and, as an observer of the
    loop, the number of palette entries the loop has looked at. *)
Record scan_state := mkScan { minDist : option Z; nearest : option Color; visited : nat }.

(** [dist < minDist]; false when [dist] is NaN. *)
Definition lt_minDist (dist : option Z) (m : option Z) : bool :=
  match dist, m with
  | None, _ => false
  | Some _, None => true
  | Some x, Some d => x <? d
  end.

Fixpoint scan_palette (r0 g0 b0 : JS.jsval) (palette : list Color) (st : scan_state)
  : scan_state :=
  match palette with
  | [] => st
  | color :: rest =>
      let dist := colorDistance r0 g0 b0 (r color) (g color) (b color) in
      if lt_minDist dist (minDist st) then
        let st' := mkScan dist (Some color) (S (visited st)) in
        match dist with
        | Some 0 => st' (* break *)
        | _ => scan_palette r0 g0 b0 rest st'
        end
      else scan_palette r0 g0 b0 rest (mkScan (minDist st) (nearest st) (S (visited st)))
  end.

Definition findNearestColor_scan (r0 g0 b0 : JS.jsval) (palette : list Color) : scan_state :=
  scan_palette r0 g0 b0 palette (mkScan None (head palette) 0%nat).

Definition findNearestColor (r0 g0 b0 : JS.jsval) (palette : list Color) : option Color :=
  nearest (findNearestColor_scan r0 g0 b0 palette).

(** The distance from the pixel [(r0,g0,b0)] to a palette entry. *)
Definition dist_to (r0 g0 b0 : Z) (c : Color) : Z :=
  redmean r0 g0 b0 (r c) (g c) (b c).

(** ** Arithmetic of the 32-bit operators on small operands *)

Lemma toInt32_small (z : Z) : - 2 ^ 31 <= z < 2 ^ 31 -> JS.toInt32 z = z.
Proof.
  intros Hz. unfold JS.toInt32.
  rewrite Z.mod_small by lia. lia.
Qed.

Lemma sar_small (z n : Z) :
  0 <= n -> - 2 ^ 31 <= z < 2 ^ 31 -> JS.sar z n = z / 2 ^ n.
Proof.
  intros Hn Hz. unfold JS.sar. rewrite toInt32_small by exact Hz.
  apply Z.shiftr_div_pow2; exact Hn.
Qed.

Lemma shl2_small (z : Z) : - 2 ^ 29 <= z < 2 ^ 29 -> JS.shl z 2 = 4 * z.
Proof.
  intros Hz. unfold JS.shl.
  rewrite (toInt32_small z) by lia.
  rewrite Z.shiftl_mul_pow2 by lia.
  rewrite toInt32_small by lia. lia.
Qed.

Lemma square_byte_diff (x y : Z) :
  is_byte x -> is_byte y -> 0 <= (x - y) * (x - y) <= 65025.
Proof.
  unfold is_byte. intros Hx Hy.
  assert (H : - 255 <= x - y <= 255) by lia.
  generalize dependent (x - y). intros d Hd. split.
  - apply Z.square_nonneg.
  - destruct (Z.le_gt_cases 0 d).
    + change 65025 with (255 * 255). apply Z.mul_le_mono_nonneg; lia.
    + replace (d * d) with ((- d) * (- d)) by lia.
      change 65025 with (255 * 255). apply Z.mul_le_mono_nonneg; lia.
Qed.

Lemma weighted_square_nonneg (w d : Z) : 0 <= w -> 0 <= w * d * d / 256.
Proof.
  intros Hw. apply Z.div_pos; [| lia].
  rewrite <- Z.mul_assoc. apply Z.mul_nonneg_nonneg; [exact Hw | apply Z.square_nonneg].
Qed.

Lemma weighted_square_zero (w d : Z) : 512 <= w -> w * d * d / 256 = 0 -> d = 0.
Proof.
  intros Hw H0. apply Z.div_small_iff in H0; [| lia].
  destruct (Z.eq_dec d 0) as [|Hne]; [assumption | exfalso].
  assert (Hsq : 1 <= d * d).
  { pose proof (Z.square_nonneg d). destruct (Z.eq_dec (d * d) 0) as [Hz|]; [| lia].
    apply Z.mul_eq_0 in Hz. lia. }
  rewrite <- Z.mul_assoc in H0.
  assert (512 * 1 <= w * (d * d)) by (apply Z.mul_le_mono_nonneg; lia).
  lia.
Qed.

Section Redmean.

Variables r1 g1 b1 r2 g2 b2 : Z.
Hypothesis Hr1 : is_byte r1.
Hypothesis Hg1 : is_byte g1.
Hypothesis Hb1 : is_byte b1.
Hypothesis Hr2 : is_byte r2.
Hypothesis Hg2 : is_byte g2.
Hypothesis Hb2 : is_byte b2.

Let rMean := (r1 + r2) / 2.

Lemma rMean_range : 0 <= rMean <= 255.
Proof.
  unfold rMean, is_byte in *. split.
  - apply Z.div_pos; lia.
  - assert ((r1 + r2) / 2 < 256); [apply Z.div_lt_upper_bound; lia | lia].
Qed.

(** On bytes no 32-bit wrap-around happens: the distance is the plain
    integer expression with floor divisions. *)
Lemma redmean_bytes :
  redmean r1 g1 b1 r2 g2 b2 =
    ((512 + rMean) * (r1 - r2) * (r1 - r2)) / 256
    + 4 * (g1 - g2) * (g1 - g2)
    + ((767 - rMean) * (b1 - b2) * (b1 - b2)) / 256.
Proof.
  pose proof rMean_range as Hm. unfold rMean in *.
  unfold redmean, is_byte in *.
  assert (Hs : JS.sar (r1 + r2) 1 = (r1 + r2) / 2).
  { rewrite sar_small; [reflexivity | lia | lia]. }
  rewrite Hs.
  pose proof (square_byte_diff r1 r2 Hr1 Hr2) as Hdr.
  pose proof (square_byte_diff b1 b2 Hb1 Hb2) as Hdb.
  rewrite !sar_small; try lia.
  - change (2 ^ 8) with 256. reflexivity.
  - rewrite <- Z.mul_assoc. nia.
  - rewrite <- Z.mul_assoc. nia.
Qed.

Lemma redmean_nonneg : 0 <= redmean r1 g1 b1 r2 g2 b2.
Proof.
  rewrite redmean_bytes. pose proof rMean_range as Hm.
  pose proof (weighted_square_nonneg (512 + rMean) (r1 - r2)).
  pose proof (weighted_square_nonneg (767 - rMean) (b1 - b2)).
  pose proof (Z.square_nonneg (g1 - g2)).
  lia.
Qed.

(** Distance zero identifies the colour: the weights of the red and blue
    terms are at least 512, so one step of difference already contributes 2. *)
Lemma redmean_zero :
  redmean r1 g1 b1 r2 g2 b2 = 0 <-> r1 = r2 /\ g1 = g2 /\ b1 = b2.
Proof.
  rewrite redmean_bytes. pose proof rMean_range as Hm.
  split.
  - intros H0.
    pose proof (weighted_square_nonneg (512 + rMean) (r1 - r2)) as Hr.
    pose proof (weighted_square_nonneg (767 - rMean) (b1 - b2)) as Hb.
    pose proof (Z.square_nonneg (g1 - g2)) as Hg.
    assert (Hr0 : (512 + rMean) * (r1 - r2) * (r1 - r2) / 256 = 0) by lia.
    assert (Hb0 : (767 - rMean) * (b1 - b2) * (b1 - b2) / 256 = 0) by lia.
    assert (Hg0 : (g1 - g2) * (g1 - g2) = 0) by lia.
    apply weighted_square_zero in Hr0; [| lia].
    apply weighted_square_zero in Hb0; [| lia].
    apply Z.mul_eq_0 in Hg0. lia.
  - intros (-> & -> & ->).
    rewrite !Z.sub_diag, !Z.mul_0_r. reflexivity.
Qed.

End Redmean.

(** ** The palette scan of [findNearestColor] *)

Lemma colorDistance_numbers (r1 g1 b1 r2 g2 b2 : Z) :
  colorDistance (Some r1) (Some g1) (Some b1) r2 g2 b2 = Some (redmean r1 g1 b1 r2 g2 b2).
Proof. reflexivity. Qed.

Section Scan.

Variables r0 g0 b0 : Z.

Local Abbreviation dist := (dist_to r0 g0 b0).
Local Abbreviation scan := (scan_palette (Some r0) (Some g0) (Some b0)).

(** Entries that the loop only counts (no improvement) keep the state. *)
Definition no_better (l : list Color) (m : option Z) : Prop :=
  forall c, c ∈ l -> lt_minDist (Some (dist c)) m = false.

(** [c] is the first entry of [pre ++ c :: post] with the least distance. *)
Definition first_least (pre : list Color) (c : Color) (post : list Color) : Prop :=
  (forall c', c' ∈ pre -> dist c < dist c') /\
  (forall c', c' ∈ post -> dist c <= dist c').

Lemma scan_palette_cons (color : Color) (rest : list Color) (st : scan_state) :
  scan (color :: rest) st =
    if lt_minDist (Some (dist color)) (minDist st) then
      if dist color =? 0 then mkScan (Some (dist color)) (Some color) (S (visited st))
      else scan rest (mkScan (Some (dist color)) (Some color) (S (visited st)))
    else scan rest (mkScan (minDist st) (nearest st) (S (visited st))).
Proof.
  cbn [scan_palette]. rewrite colorDistance_numbers. fold (dist color).
  destruct (lt_minDist (Some (dist color)) (minDist st)); [| reflexivity].
  destruct (dist color) as [| p | p]; reflexivity.
Qed.

Lemma scan_palette_spec (l : list Color) :
  forall st,
    (forall c, c ∈ l -> 0 <= dist c) ->
    (forall m, minDist st = Some m -> 0 < m) ->
    (no_better l (minDist st) /\
       nearest (scan l st) = nearest st /\
       minDist (scan l st) = minDist st)
    \/
    (exists pre c post,
       l = pre ++ c :: post /\
       nearest (scan l st) = Some c /\
       minDist (scan l st) = Some (dist c) /\
       lt_minDist (Some (dist c)) (minDist st) = true /\
       first_least pre c post).
Proof.
  induction l as [| color rest IH]; intros st Hnn Hpos.
  - left. split; [| split; reflexivity].
    intros c Hc. inversion Hc.
  - rewrite scan_palette_cons.
    assert (Hnn' : forall c, c ∈ rest -> 0 <= dist c).
    { intros c Hc. apply Hnn. apply elem_of_cons. right. exact Hc. }
    assert (Hcol : 0 <= dist color).
    { apply Hnn. apply elem_of_cons. left. reflexivity. }
    destruct (lt_minDist (Some (dist color)) (minDist st)) eqn:Hlt.
    + right. destruct (dist color =? 0) eqn:Hz.
      * exists [], color, rest. cbn.
        repeat split; try reflexivity; try exact Hlt.
        -- intros c' Hc'. inversion Hc'.
        -- intros c' Hc'. apply Z.eqb_eq in Hz. rewrite Hz. apply Hnn'. exact Hc'.
      * apply Z.eqb_neq in Hz.
        destruct (IH (mkScan (Some (dist color)) (Some color) (S (visited st))) Hnn')
          as [(Hnb & Hn & Hm) | (pre & c & post & -> & Hn & Hm & Hlt' & Hpre & Hpost)].
        -- cbn. intros m [= <-]. lia.
        -- exists [], color, rest. cbn in *.
           repeat split; try assumption.
           ++ intros c' Hc'. inversion Hc'.
           ++ intros c' Hc'. specialize (Hnb c' Hc'). cbn in Hnb.
              apply Z.ltb_ge in Hnb. exact Hnb.
        -- exists (color :: pre), c, post. cbn in *.
           apply Z.ltb_lt in Hlt'.
           repeat split; try assumption.
           ++ destruct (minDist st) as [m|]; cbn in *; [| reflexivity].
              apply Z.ltb_lt in Hlt. apply Z.ltb_lt. lia.
           ++ intros c' Hc'. apply elem_of_cons in Hc' as [-> | Hc'];
                [exact Hlt' | apply Hpre; exact Hc'].
    + destruct (IH (mkScan (minDist st) (nearest st) (S (visited st))) Hnn')
        as [(Hnb & Hn & Hm) | (pre & c & post & -> & Hn & Hm & Hlt' & Hpre & Hpost)].
      * cbn. exact Hpos.
      * left. cbn in *. repeat split; try assumption.
        intros c Hc. apply elem_of_cons in Hc as [-> | Hc]; [exact Hlt | apply Hnb; exact Hc].
      * right. exists (color :: pre), c, post. cbn in *.
        repeat split; try assumption.
        intros c' Hc'. apply elem_of_cons in Hc' as [-> | Hc']; [| apply Hpre; exact Hc'].
        destruct (minDist st) as [m|]; cbn in *; [| discriminate].
        apply Z.ltb_lt in Hlt'. apply Z.ltb_ge in Hlt. lia.
Qed.

(** The loop stops at an entry of distance 0 that improves on the running
    minimum: whatever follows is not looked at. *)
Lemma scan_palette_break (pre : list Color) :
  forall c post st,
    (forall c', c' ∈ pre -> 0 < dist c') ->
    (forall m, minDist st = Some m -> 0 < m) ->
    dist c = 0 ->
    scan (pre ++ c :: post) st = scan (pre ++ [c]) st /\
    visited (scan (pre ++ c :: post) st) = (visited st + S (length pre))%nat /\
    nearest (scan (pre ++ c :: post) st) = Some c.
Proof.
  induction pre as [| p pre IH]; intros c post st Hpre Hpos Hz.
  - cbn [app]. rewrite !scan_palette_cons. rewrite Hz.
    assert (Hlt : lt_minDist (Some 0) (minDist st) = true).
    { destruct (minDist st) as [m|] eqn:Hm; cbn; [| reflexivity].
      apply Z.ltb_lt. apply Hpos. reflexivity. }
    rewrite Hlt. cbn. repeat split; [lia].
  - cbn [app]. rewrite !scan_palette_cons.
    assert (Hp : 0 < dist p) by (apply Hpre; apply elem_of_cons; left; reflexivity).
    assert (Hpre' : forall c', c' ∈ pre -> 0 < dist c').
    { intros c' Hc'. apply Hpre. apply elem_of_cons. right. exact Hc'. }
    destruct (lt_minDist (Some (dist p)) (minDist st)).
    + destruct (dist p =? 0) eqn:Hpz; [apply Z.eqb_eq in Hpz; lia |].
      destruct (IH c post (mkScan (Some (dist p)) (Some p) (S (visited st))) Hpre')
        as (He & Hv & Hn); [cbn; intros m [= <-]; exact Hp | exact Hz |].
      cbn in Hv. rewrite He at 1. rewrite Hv, Hn. cbn. repeat split; [lia].
    + destruct (IH c post (mkScan (minDist st) (nearest st) (S (visited st))) Hpre')
        as (He & Hv & Hn); [cbn; exact Hpos | exact Hz |].
      cbn in Hv. rewrite He at 1. rewrite Hv, Hn. cbn. repeat split; [lia].
Qed.

End Scan.

Lemma dist_to_nonneg (r0 g0 b0 : Z) (c : Color) :
  is_byte r0 -> is_byte g0 -> is_byte b0 -> byte_color c -> 0 <= dist_to r0 g0 b0 c.
Proof.
  intros Hr Hg Hb (Hcr & Hcg & Hcb). unfold dist_to.
  apply redmean_nonneg; assumption.
Qed.

Lemma dist_to_zero (r0 g0 b0 : Z) (c : Color) :
  is_byte r0 -> is_byte g0 -> is_byte b0 -> byte_color c ->
  dist_to r0 g0 b0 c = 0 <-> r c = r0 /\ g c = g0 /\ b c = b0.
Proof.
  intros Hr Hg Hb (Hcr & Hcg & Hcb). unfold dist_to.
  rewrite redmean_zero by assumption.
  intuition congruence.
Qed.

(** What [findNearestColor] returns on a non-empty palette of byte colours. *)
Lemma findNearestColor_spec (r0 g0 b0 : Z) (palette : list Color) :
  is_byte r0 -> is_byte g0 -> is_byte b0 ->
  Forall byte_color palette -> palette <> [] ->
  exists pre c post,
    palette = pre ++ c :: post /\
    findNearestColor (Some r0) (Some g0) (Some b0) palette = Some c /\
    first_least r0 g0 b0 pre c post.
Proof.
  intros Hr Hg Hb Hpal Hne.
  assert (Hnn : forall c, c ∈ palette -> 0 <= dist_to r0 g0 b0 c).
  { intros c Hc. apply dist_to_nonneg; try assumption.
    rewrite Forall_forall in Hpal. apply Hpal. exact Hc. }
  destruct (scan_palette_spec r0 g0 b0 palette (mkScan None (head palette) 0%nat) Hnn)
    as [(Hnb & _) | (pre & c & post & Heq & Hn & _ & _ & Hfl)].
  - cbn. discriminate.
  - destruct palette as [| c rest]; [congruence |].
    specialize (Hnb c). cbn in Hnb. discriminate Hnb. apply elem_of_cons. left. reflexivity.
  - exists pre, c, post. repeat split; try assumption; apply Hfl.
Qed.

(** ** Exceptions and loops that can be left by one *)

Inductive exn :=
| TypeError        (* property access on [undefined] or [null] *)
| SyntaxError      (* [JSON.parse(undefined)] *)
| FrameOutOfRange  (* [new Error('Frame N out of range ...')] *)
| NoFramesFound.   (* [new Error('No frames found')] *)

Inductive completion :=
| Normal
| Throw (e : exn).

(** The result of a call: a returned value or an exception. *)
Inductive outcome (A : Type) :=
| Returns (a : A)
| Throws (e : exn).
Arguments Returns {A} a.
Arguments Throws {A} e.

(** A loop body mutates the state and completes normally or throws; the
    state reached at the throw stays observable. *)
Fixpoint run_loop {S : Type} (body : Z -> S -> S * completion) (idxs : list Z) (s : S)
  : S * completion :=
  match idxs with
  | [] => (s, Normal)
  | i :: rest =>
      match body i s with
      | (s', Normal) => run_loop body rest s'
      | (s', Throw e) => (s', Throw e)
      end
  end.

(** The indices of [for (let i = 0; i < len; i += 4)]. *)
Definition pixel_starts (len : nat) : list Z :=
  map (fun k => 4 * Z.of_nat k) (seq 0 ((len + 3) / 4)).

(** The indices of [for (var i = 0; i < len; i++)]. *)
Definition indices (len : nat) : list Z := map Z.of_nat (seq 0 len).

(** ** cli/palette-match.js: matching one decoded image *)

(** [ToInt32] of a value read from a buffer: [undefined] counts as 0. *)
Definition int_of (v : JS.jsval) : Z :=
  match v with
  | Some z => z
  | None => 0
  end.

(** [(r << 16) | (g << 8) | b] *)
Definition color_key (r0 g0 b0 : JS.jsval) : Z :=
  JS.bor (JS.bor (JS.shl (int_of r0) 16) (JS.shl (int_of g0) 8)) (int_of b0).

(** [a === 0] *)
Definition is_zero (a : JS.jsval) : bool :=
  match a with
  | Some 0 => true
  | _ => false
  end.

(** [v !== x] for a buffer element [v] and a number [x]. *)
Definition differs (v : JS.jsval) (x : Z) : bool :=
  match v with
  | Some y => negb (y =? x)
  | None => true
  end.

(** The image being matched, the [colorCache] Map and the [modified] flag.  A
    cached value is what [findNearestColor] returned, [undefined] included. *)
Record match_state := mkMatch {
  m_data : list Z;
  m_cache : gmap Z (option Color);
  m_modified : bool
}.

(** [png.data[i] = c.r; png.data[i + 1] = c.g; png.data[i + 2] = c.b] *)
Definition write_rgb (d : list Z) (i : Z) (c : Color) : list Z :=
  buf_set (buf_set (buf_set d i (Some (r c))) (i + 1) (Some (g c))) (i + 2) (Some (b c)).

(** The comparison and the assignments that close the loop body of
    [matchPngToPalette]; [nearest.r] throws when [nearest] is undefined. *)
Definition store_nearest (i : Z) (n : option Color) (d : list Z)
    (cache : gmap Z (option Color)) (modified : bool) : match_state * completion :=
  match n with
  | None => (mkMatch d cache modified, Throw TypeError)
  | Some c =>
      if differs (buf_get d i) (r c) || differs (buf_get d (i + 1)) (g c)
         || differs (buf_get d (i + 2)) (b c)
      then (mkMatch (write_rgb d i c) cache true, Normal)
      else (mkMatch d cache modified, Normal)
  end.

(** One iteration of the loop of [matchPngToPalette]. *)
Definition match_pixel (palette : list Color) (i : Z) (st : match_state)
  : match_state * completion :=
  let d := m_data st in
  let a := buf_get d (i + 3) in
  if is_zero a then (st, Normal)
  else
    let r0 := buf_get d i in
    let g0 := buf_get d (i + 1) in
    let b0 := buf_get d (i + 2) in
    let key := color_key r0 g0 b0 in
    match m_cache st !! key with
    | Some n => store_nearest i n d (m_cache st) (m_modified st)
    | None =>
        let n := findNearestColor r0 g0 b0 palette in
        store_nearest i n d (<[key := n]> (m_cache st)) (m_modified st)
    end.

(** [matchPngToPalette(base64Data, palette, colorCache)] on the decoded image:
    the pixel data it returns (re-encoded when modified, the input otherwise)
    and the cache it leaves behind. *)
Definition matchPngToPalette (png : list Z) (palette : list Color)
    (colorCache : gmap Z (option Color)) : match_state * completion :=
  run_loop (match_pixel palette) (pixel_starts (length png)) (mkMatch png colorCache false).

(** The same pass with the cache removed: [findNearestColor] is called afresh
    for every pixel whose alpha is not 0. *)
Definition match_pixel_nocache (palette : list Color) (i : Z) (st : match_state)
  : match_state * completion :=
  let d := m_data st in
  let a := buf_get d (i + 3) in
  if is_zero a then (st, Normal)
  else
    let n := findNearestColor (buf_get d i) (buf_get d (i + 1)) (buf_get d (i + 2)) palette in
    store_nearest i n d (m_cache st) (m_modified st).

Definition matchPngToPalette_nocache (png : list Z) (palette : list Color)
  : match_state * completion :=
  run_loop (match_pixel_nocache palette) (pixel_starts (length png)) (mkMatch png ∅ false).

(** ** The container document *)

(** A chunk: [layout] is the array of one-element arrays [[frameIndex], ...];
    [base64PNG] is the decoded spritesheet, [None] when the field is missing
    or empty.  A sheet that a tool writes stands for its encoding: the
    encoder ([PNG.sync.write]) is taken to return, and decoding what it
    returns to give the sheet back, as is the case for a sheet with at least
    one pixel. *)
Record Chunk := mkChunk { layout : list (list Z); base64PNG : option PNG }.

(** A layer after [JSON.parse]: [chunks] may be missing; old files carry one
    image on the layer itself. *)
Record Layer := mkLayer {
  layer_name : string;
  opacity : Z;
  frameCount : Z;
  chunks : option (list Chunk);
  layer_base64PNG : option PNG
}.

Record Piskel := mkPiskel {
  piskel_name : string;
  fps : Z;
  piskel_width : Z;
  piskel_height : Z;
  layers : list Layer;
  hiddenFrames : list Z
}.

Definition set_chunk_png (c : Chunk) (d : list Z) : Chunk :=
  mkChunk (layout c)
    (match base64PNG c with
     | Some p => Some (mkPNG (width p) (height p) d)
     | None => None
     end).

(** ** cli/palette-match.js: [processPiskelFile] *)

Section ProcessFile.

(** The matching pass over one image, with or without the shared cache. *)
Variable pass : list Z -> gmap Z (option Color) -> match_state * completion.

(** [for (const chunk of layerData.chunks)] *)
Fixpoint process_chunks (cs : list Chunk) (cache : gmap Z (option Color))
  : list Chunk * gmap Z (option Color) * completion :=
  match cs with
  | [] => ([], cache, Normal)
  | c :: rest =>
      match base64PNG c with
      | None =>
          let '(rest', cache', k) := process_chunks rest cache in
          (c :: rest', cache', k)
      | Some p =>
          match pass (data p) cache with
          | (st, Normal) =>
              let '(rest', cache', k) := process_chunks rest (m_cache st) in
              (set_chunk_png c (m_data st) :: rest', cache', k)
          | (st, Throw e) => (c :: rest, m_cache st, Throw e)
          end
      end
  end.

Definition process_layer (l : Layer) (cache : gmap Z (option Color))
  : Layer * gmap Z (option Color) * completion :=
  match chunks l with
  | Some cs =>
      let '(cs', cache', k) := process_chunks cs cache in
      (mkLayer (layer_name l) (opacity l) (frameCount l) (Some cs') (layer_base64PNG l),
       cache', k)
  | None =>
      match layer_base64PNG l with
      | Some p =>
          match pass (data p) cache with
          | (st, Normal) =>
              (mkLayer (layer_name l) (opacity l) (frameCount l) None
                 (Some (mkPNG (width p) (height p) (m_data st))),
               m_cache st, Normal)
          | (st, Throw e) => (l, m_cache st, Throw e)
          end
      | None => (l, cache, Normal)
      end
  end.

(** [for (let i = 0; i < data.piskel.layers.length; i++)] *)
Fixpoint process_layers (ls : list Layer) (cache : gmap Z (option Color))
  : list Layer * gmap Z (option Color) * completion :=
  match ls with
  | [] => ([], cache, Normal)
  | l :: rest =>
      match process_layer l cache with
      | (l', cache', Normal) =>
          let '(rest', cache'', k) := process_layers rest cache' in
          (l' :: rest', cache'', k)
      | (l', cache', Throw e) => (l :: rest, cache', Throw e)
      end
  end.

End ProcessFile.

(** [processPiskelFile]: one [colorCache] for all layers and chunks of the
    file.  The value returned is the layer list that is written out; a throw
    leaves the function before anything is written. *)
Definition processPiskelFile (doc : Piskel) (palette : list Color) : outcome (list Layer) :=
  match process_layers (fun png cache => matchPngToPalette png palette cache) (layers doc) ∅ with
  | (ls, _, Normal) => Returns ls
  | (_, _, Throw e) => Throws e
  end.

(** The file pass with the cache removed. *)
Definition processPiskelFile_nocache (doc : Piskel) (palette : list Color)
  : outcome (list Layer) :=
  match process_layers (fun png _ => matchPngToPalette_nocache png palette) (layers doc) ∅ with
  | (ls, _, Normal) => Returns ls
  | (_, _, Throw e) => Throws e
  end.

(** ** Reading and writing buffers *)

Lemma buf_set_length (d : list Z) (i : Z) (v : JS.jsval) :
  length (buf_set d i v) = length d.
Proof.
  unfold buf_set. destruct (i <? 0); [reflexivity | apply length_insert].
Qed.

Lemma buf_get_set_ne (d : list Z) (i j : Z) (v : JS.jsval) :
  i <> j -> buf_get (buf_set d i v) j = buf_get d j.
Proof.
  intros Hne. unfold buf_get, buf_set.
  destruct (j <? 0) eqn:Hj; [reflexivity |].
  destruct (i <? 0) eqn:Hi; [reflexivity |].
  apply Z.ltb_ge in Hi, Hj.
  apply list_lookup_insert_ne. intros Heq. apply Hne.
  apply Z2Nat.inj; assumption.
Qed.

Lemma buf_get_set_eq (d : list Z) (i : Z) (v : JS.jsval) :
  0 <= i < Z.of_nat (length d) -> buf_get (buf_set d i v) i = Some (JS.toUint8 v).
Proof.
  intros Hi. unfold buf_get, buf_set.
  destruct (i <? 0) eqn:Hneg; [apply Z.ltb_lt in Hneg; lia |].
  apply list_lookup_insert_eq. lia.
Qed.

Lemma buf_get_Some (d : list Z) (i : Z) :
  0 <= i < Z.of_nat (length d) -> exists v, buf_get d i = Some v.
Proof.
  intros Hi. unfold buf_get.
  destruct (i <? 0) eqn:Hneg; [apply Z.ltb_lt in Hneg; lia |].
  destruct (lookup_lt_is_Some_2 d (Z.to_nat i)) as [v Hv]; [lia |].
  exists v. exact Hv.
Qed.

Lemma buf_get_byte (d : list Z) (i v : Z) :
  bytes d -> buf_get d i = Some v -> is_byte v.
Proof.
  intros Hd Hget. unfold buf_get in Hget.
  destruct (i <? 0); [discriminate |].
  unfold bytes in Hd. rewrite Forall_forall in Hd.
  apply Hd. apply list_elem_of_lookup. eauto.
Qed.

Lemma buf_set_bytes (d : list Z) (i : Z) (v : JS.jsval) :
  bytes d -> bytes (buf_set d i v).
Proof.
  intros Hd. unfold buf_set. destruct (i <? 0); [exact Hd |].
  unfold bytes in *. apply Forall_insert; [exact Hd |].
  unfold is_byte, JS.toUint8. destruct v as [z|]; [| lia].
  apply Z.mod_pos_bound. lia.
Qed.

(** Two buffers with the same elements are the same buffer. *)
Lemma buf_ext (d1 d2 : list Z) :
  length d1 = length d2 ->
  (forall i, 0 <= i < Z.of_nat (length d1) -> buf_get d1 i = buf_get d2 i) ->
  d1 = d2.
Proof.
  intros Hlen Hget. apply list_eq. intros n.
  destruct (Nat.lt_ge_cases n (length d1)) as [Hlt | Hge].
  - specialize (Hget (Z.of_nat n)). unfold buf_get in Hget.
    destruct (Z.of_nat n <? 0) eqn:Hneg; [apply Z.ltb_lt in Hneg; lia |].
    rewrite Nat2Z.id in Hget. apply Hget. lia.
  - rewrite !lookup_ge_None_2; [reflexivity | lia | lia].
Qed.

(** ** The matcher leaves alpha alone *)

Lemma write_rgb_get (d : list Z) (i j : Z) (c : Color) :
  j <> i -> j <> i + 1 -> j <> i + 2 -> buf_get (write_rgb d i c) j = buf_get d j.
Proof.
  intros H0 H1 H2. unfold write_rgb.
  rewrite !buf_get_set_ne by congruence. reflexivity.
Qed.

Lemma write_rgb_length (d : list Z) (i : Z) (c : Color) :
  length (write_rgb d i c) = length d.
Proof. unfold write_rgb. rewrite !buf_set_length. reflexivity. Qed.

Lemma store_nearest_get (i : Z) (n : option Color) (d : list Z)
    (cache : gmap Z (option Color)) (modified : bool) (j : Z) :
  j <> i -> j <> i + 1 -> j <> i + 2 ->
  buf_get (m_data (fst (store_nearest i n d cache modified))) j = buf_get d j.
Proof.
  intros H0 H1 H2. unfold store_nearest.
  destruct n as [c|]; [| reflexivity].
  destruct (_ || _); cbn; [apply write_rgb_get; assumption | reflexivity].
Qed.

Lemma store_nearest_length (i : Z) (n : option Color) (d : list Z)
    (cache : gmap Z (option Color)) (modified : bool) :
  length (m_data (fst (store_nearest i n d cache modified))) = length d.
Proof.
  unfold store_nearest. destruct n as [c|]; [| reflexivity].
  destruct (_ || _); cbn; [apply write_rgb_length | reflexivity].
Qed.

(** One iteration writes at [i], [i+1], [i+2] at most, and nothing at all when
    the alpha byte at [i+3] is 0. *)
Lemma match_pixel_get (palette : list Color) (i : Z) (st : match_state) (j : Z) :
  j <> i -> j <> i + 1 -> j <> i + 2 ->
  buf_get (m_data (fst (match_pixel palette i st))) j = buf_get (m_data st) j.
Proof.
  intros H0 H1 H2. unfold match_pixel.
  destruct (is_zero _); [reflexivity |].
  destruct (m_cache st !! _); apply store_nearest_get; assumption.
Qed.

Lemma match_pixel_length (palette : list Color) (i : Z) (st : match_state) :
  length (m_data (fst (match_pixel palette i st))) = length (m_data st).
Proof.
  unfold match_pixel.
  destruct (is_zero _); [reflexivity |].
  destruct (m_cache st !! _); apply store_nearest_length.
Qed.

Lemma match_pixel_transparent (palette : list Color) (i : Z) (st : match_state) :
  buf_get (m_data st) (i + 3) = Some 0 ->
  match_pixel palette i st = (st, Normal).
Proof.
  intros Ha. unfold match_pixel. rewrite Ha. reflexivity.
Qed.

Lemma run_loop_cons {S : Type} (body : Z -> S -> S * completion) (i : Z) (rest : list Z) (s : S) :
  run_loop body (i :: rest) s =
    match snd (body i s) with
    | Normal => run_loop body rest (fst (body i s))
    | Throw e => (fst (body i s), Throw e)
    end.
Proof.
  cbn. destruct (body i s) as [s' [|e]]; reflexivity.
Qed.

Lemma mod4_offset (q c : Z) : 0 <= c < 4 -> (4 * q + c) mod 4 = c.
Proof.
  intros Hc. rewrite Z.add_comm, Z.mul_comm, Z.mod_add by lia.
  apply Z.mod_small. exact Hc.
Qed.

Lemma match_loop_frame (palette : list Color) (idxs : list Z) :
  forall st,
    Forall (fun i => exists q, i = 4 * q) idxs ->
    let d' := m_data (fst (run_loop (match_pixel palette) idxs st)) in
    length d' = length (m_data st) /\
    (forall j, j mod 4 = 3 -> buf_get d' j = buf_get (m_data st) j) /\
    (forall p c, 0 <= c < 4 -> buf_get (m_data st) (4 * p + 3) = Some 0 ->
                 buf_get d' (4 * p + c) = buf_get (m_data st) (4 * p + c)).
Proof.
  induction idxs as [| i rest IH]; intros st Hidx; cbn zeta.
  - cbn. auto.
  - rewrite run_loop_cons.
    apply Forall_cons in Hidx as [[q ->] Hrest].
    assert (Halpha : forall j, j mod 4 = 3 ->
              buf_get (m_data (fst (match_pixel palette (4 * q) st))) j = buf_get (m_data st) j).
    { intros j Hj. apply match_pixel_get; intros ->.
      - replace (4 * q) with (4 * q + 0) in Hj by lia. rewrite (mod4_offset q 0) in Hj; lia.
      - rewrite (mod4_offset q 1) in Hj; lia.
      - rewrite (mod4_offset q 2) in Hj; lia. }
    assert (Hzero : forall p c, 0 <= c < 4 -> buf_get (m_data st) (4 * p + 3) = Some 0 ->
              buf_get (m_data (fst (match_pixel palette (4 * q) st))) (4 * p + c)
              = buf_get (m_data st) (4 * p + c)).
    { intros p c Hc Ha. destruct (Z.eq_dec p q) as [-> | Hpq].
      - rewrite match_pixel_transparent by exact Ha. reflexivity.
      - apply match_pixel_get; lia. }
    destruct (snd (match_pixel palette (4 * q) st)) eqn:Hk.
    + specialize (IH (fst (match_pixel palette (4 * q) st)) Hrest). cbn zeta in IH.
      destruct IH as (Hlen & Ha & Hz). split; [| split].
      * rewrite Hlen. apply match_pixel_length.
      * intros j Hj. rewrite Ha by exact Hj. apply Halpha. exact Hj.
      * intros p c Hc Hp. rewrite Hz; [apply Hzero; assumption | exact Hc |].
        rewrite Halpha; [exact Hp |].
        apply (mod4_offset p 3). lia.
    + cbn. split; [apply match_pixel_length | split; assumption].
Qed.

Lemma pixel_starts_aligned (len : nat) :
  Forall (fun i => exists q, i = 4 * q) (pixel_starts len).
Proof.
  unfold pixel_starts. apply Forall_forall. intros i Hi.
  apply list_elem_of_fmap in Hi as (k & -> & _). eauto.
Qed.

(** ** cli/png-to-piskel.js: [applyPaletteToImageData] *)

(** One iteration: the colour bytes are assigned without a comparison. *)
Definition apply_pixel (palette : list Color) (i : Z)
    (st : list Z * gmap Z (option Color)) : list Z * gmap Z (option Color) * completion :=
  let '(d, cache) := st in
  let a := buf_get d (i + 3) in
  if is_zero a then (st, Normal)
  else
    let r0 := buf_get d i in
    let g0 := buf_get d (i + 1) in
    let b0 := buf_get d (i + 2) in
    let key := color_key r0 g0 b0 in
    let '(n, cache') :=
      match cache !! key with
      | Some n => (n, cache)
      | None =>
          let n := findNearestColor r0 g0 b0 palette in
          (n, <[key := n]> cache)
      end in
    match n with
    | None => ((d, cache'), Throw TypeError)
    | Some c => ((write_rgb d i c, cache'), Normal)
    end.

Definition applyPaletteToImageData (imageData : list Z) (palette : list Color)
  : list Z * completion :=
  let '(st, k) := run_loop (apply_pixel palette) (pixel_starts (length imageData)) (imageData, ∅) in
  (fst st, k).

(** ** PaletteMatchingService (the in-editor service) *)

(** A frame of the editor: a [Uint32Array] of pixels, one 0xAABBGGRR word per
    pixel, and a version counter. *)
Record Frame := mkFrame { pixels : list Z; version : Z }.

(** [buildPaletteData_]: each entry of [colors] is given by the number that
    [parseInt(hex, 16)] yields for it ([None] is NaN). *)
Definition buildPaletteData_ (colors : list JS.jsval) : list Color :=
  map (fun bigint =>
         mkColor (JS.band (JS.sar (int_of bigint) 16) 255)
                 (JS.band (JS.sar (int_of bigint) 8) 255)
                 (JS.band (int_of bigint) 255))
      colors.

(** [(colorInt >>> 24) & 0xff] *)
Definition alpha_of (colorInt : Z) : Z := JS.band (JS.shr_u colorInt 24) 255.

Record frame_state := mkFS {
  f_pixels : list Z;
  f_cache : gmap Z Z;
  f_modified : bool
}.

(** [pixels[i] = v] on a [Uint32Array]. *)
Definition u32_set (px : list Z) (i : Z) (v : Z) : list Z :=
  <[Z.to_nat i := JS.toUint32 v]> px.

(** One iteration of the loop of [matchFrameToPalette_].  The inlined scan
    over [paletteData] is the loop of [findNearestColor]; its first step,
    [paletteData[0].r], throws on an empty array. *)
Definition match_frame_pixel (paletteData : list Color) (i : Z) (st : frame_state)
  : frame_state * completion :=
  match f_pixels st !! Z.to_nat i with
  | None => (st, Normal)
  | Some colorInt =>
      let alpha := alpha_of colorInt in
      if alpha =? 0 then (st, Normal)
      else
        match f_cache st !! colorInt with
        | Some cached =>
            if negb (colorInt =? cached)
            then (mkFS (u32_set (f_pixels st) i cached) (f_cache st) true, Normal)
            else (st, Normal)
        | None =>
            let r0 := JS.band colorInt 255 in
            let g0 := JS.band (JS.sar colorInt 8) 255 in
            let b0 := JS.band (JS.sar colorInt 16) 255 in
            match findNearestColor (Some r0) (Some g0) (Some b0) paletteData with
            | None => (st, Throw TypeError)
            | Some n =>
                let newColorInt :=
                  JS.toUint32 (JS.shl alpha 24) + JS.shl (b n) 16 + JS.shl (g n) 8 + r n in
                let cache := <[colorInt := newColorInt]> (f_cache st) in
                if negb (colorInt =? newColorInt)
                then (mkFS (u32_set (f_pixels st) i newColorInt) cache true, Normal)
                else (mkFS (f_pixels st) cache (f_modified st), Normal)
            end
        end
  end.

(** [matchFrameToPalette_(frame, paletteData, colorCache)]: the frame and the
    cache after the call. *)
Definition matchFrameToPalette_ (frame : Frame) (paletteData : list Color)
    (colorCache : gmap Z Z) : Frame * gmap Z Z * completion :=
  let '(st, k) :=
    run_loop (match_frame_pixel paletteData) (indices (length (pixels frame)))
             (mkFS (pixels frame) colorCache false) in
  (mkFrame (f_pixels st) (if f_modified st then version frame + 1 else version frame),
   f_cache st, k).

(** The frames of one layer, then the layers, with the one cache. *)
Fixpoint match_frames (paletteData : list Color) (frames : list Frame) (cache : gmap Z Z)
  : list Frame * gmap Z Z * completion :=
  match frames with
  | [] => ([], cache, Normal)
  | f :: rest =>
      match matchFrameToPalette_ f paletteData cache with
      | (f', cache', Normal) =>
          let '(rest', cache'', k) := match_frames paletteData rest cache' in
          (f' :: rest', cache'', k)
      | (f', cache', Throw e) => (f' :: rest, cache', Throw e)
      end
  end.

Fixpoint match_layers (paletteData : list Color) (ls : list (list Frame)) (cache : gmap Z Z)
  : list (list Frame) * gmap Z Z * completion :=
  match ls with
  | [] => ([], cache, Normal)
  | l :: rest =>
      match match_frames paletteData l cache with
      | (l', cache', Normal) =>
          let '(rest', cache'', k) := match_layers paletteData rest cache' in
          (l' :: rest', cache'', k)
      | (l', cache', Throw e) => (l' :: rest, cache', Throw e)
      end
  end.

(** [matchToPalette(palette, options)].  [colors] is [palette.getColors()]
    ([None] when it is null); [selected] holds, layer by layer, the frames
    that the controller hands out for the given options.  The frames are
    mutated in place: the result is their state after the call. *)
Definition matchToPalette (colors : option (list JS.jsval)) (selected : list (list Frame))
  : list (list Frame) * completion :=
  match colors with
  | None => (selected, Normal)
  | Some [] => (selected, Normal)
  | Some cs =>
      let paletteData := buildPaletteData_ cs in
      let '(ls, _, k) := match_layers paletteData selected ∅ in
      (ls, k)
  end.

(** ** Bit arithmetic of the packed pixel words *)

Lemma toUint32_toInt32 (x : Z) : JS.toUint32 (JS.toInt32 x) = JS.toUint32 x.
Proof.
  unfold JS.toUint32, JS.toInt32.
  rewrite Zminus_mod, Zmod_mod, <- Zminus_mod.
  f_equal. lia.
Qed.

Lemma band_255 (x : Z) : JS.band x 255 = JS.toInt32 x mod 256.
Proof.
  unfold JS.band. rewrite (toInt32_small 255) by lia.
  change 255 with (Z.ones 8). rewrite Z.land_ones by lia. reflexivity.
Qed.

Lemma band_255_byte (x : Z) : is_byte (JS.band x 255).
Proof.
  rewrite band_255. unfold is_byte. apply Z.mod_pos_bound. lia.
Qed.

Lemma shl_small (x n : Z) :
  0 <= n -> 0 <= x -> x * 2 ^ n < 2 ^ 31 -> JS.shl x n = x * 2 ^ n.
Proof.
  intros Hn Hx Hlt. unfold JS.shl.
  assert (x <= x * 2 ^ n).
  { assert (0 < 2 ^ n) by (apply Z.pow_pos_nonneg; lia). nia. }
  rewrite (toInt32_small x) by lia.
  rewrite Z.shiftl_mul_pow2 by exact Hn.
  apply toInt32_small. lia.
Qed.

Lemma alpha_of_toUint32 (v : Z) : alpha_of (JS.toUint32 v) = alpha_of v.
Proof.
  unfold alpha_of, JS.shr_u, JS.toUint32. rewrite Zmod_mod. reflexivity.
Qed.

(** The word built from an alpha byte and three colour bytes has that alpha. *)
Lemma alpha_of_pack (a R G B : Z) :
  is_byte a -> is_byte R -> is_byte G -> is_byte B ->
  alpha_of (JS.toUint32 (JS.shl a 24) + JS.shl B 16 + JS.shl G 8 + R) = a.
Proof.
  unfold is_byte. intros Ha HR HG HB.
  assert (Ha24 : JS.toUint32 (JS.shl a 24) = a * 2 ^ 24).
  { unfold JS.shl. rewrite (toInt32_small a) by lia.
    rewrite toUint32_toInt32. rewrite Z.shiftl_mul_pow2 by lia.
    unfold JS.toUint32. apply Z.mod_small. lia. }
  rewrite Ha24, !shl_small by lia.
  unfold alpha_of, JS.shr_u, JS.toUint32.
  rewrite (Z.mod_small _ (2 ^ 32)) by lia.
  rewrite Z.shiftr_div_pow2 by lia.
  assert (Hdiv : (a * 2 ^ 24 + B * 2 ^ 16 + G * 2 ^ 8 + R) / 2 ^ 24 = a).
  { symmetry. apply (Z.div_unique _ _ a (B * 2 ^ 16 + G * 2 ^ 8 + R)); lia. }
  rewrite Hdiv, band_255, toInt32_small by lia.
  apply Z.mod_small. lia.
Qed.

Lemma buildPaletteData_bytes (colors : list JS.jsval) :
  Forall byte_color (buildPaletteData_ colors).
Proof.
  unfold buildPaletteData_. apply Forall_fmap, Forall_forall.
  intros v _. repeat split; apply band_255_byte.
Qed.

Lemma findNearestColor_elem (r0 g0 b0 : JS.jsval) (palette : list Color) (c : Color) :
  findNearestColor r0 g0 b0 palette = Some c -> c ∈ palette.
Proof.
  unfold findNearestColor, findNearestColor_scan.
  assert (Hgen : forall l st,
             nearest (scan_palette r0 g0 b0 l st) = Some c ->
             c ∈ l \/ nearest st = Some c).
  { induction l as [| x l IH]; intros st Hn; [right; exact Hn |].
    cbn [scan_palette] in Hn.
    destruct (lt_minDist _ _).
    - destruct (colorDistance _ _ _ _ _ _) as [[| p | p] |];
        try (apply IH in Hn as [Hin | Hst];
             [left; apply elem_of_cons; right; exact Hin
             | cbn in Hst; injection Hst as <-; left; apply elem_of_cons; left; reflexivity]).
      cbn in Hn. injection Hn as <-. left. apply elem_of_cons. left. reflexivity.
    - apply IH in Hn as [Hin | Hst]; [left; apply elem_of_cons; right; exact Hin |].
      right. exact Hst. }
  intros Hn. apply Hgen in Hn as [Hin | Hst]; [exact Hin |].
  cbn in Hst. destruct palette as [| x l]; [discriminate |].
  injection Hst as <-. apply elem_of_cons. left. reflexivity.
Qed.

(** ** The service keeps alpha: [matchFrameToPalette_] *)

(** What the matcher may do to one pixel word: its alpha byte stays, and a
    word with alpha 0 stays as a whole. *)
Definition alpha_kept (c0 c : Z) : Prop :=
  alpha_of c = alpha_of c0 /\ (alpha_of c0 = 0 -> c = c0).

Lemma alpha_kept_refl (c : Z) : alpha_kept c c.
Proof. split; auto. Qed.

Lemma alpha_kept_trans (a b0 c : Z) : alpha_kept a b0 -> alpha_kept b0 c -> alpha_kept a c.
Proof.
  intros [H1 H2] [H3 H4]. split; [congruence |].
  intros Ha. rewrite H4; [apply H2; exact Ha | congruence].
Qed.

Definition cache_alpha_ok (cache : gmap Z Z) : Prop :=
  forall k v, cache !! k = Some v -> alpha_of v = alpha_of k.

Lemma u32_set_kept (px : list Z) (i : Z) (c v : Z) :
  px !! Z.to_nat i = Some c -> alpha_of c <> 0 -> alpha_of v = alpha_of c ->
  Forall2 alpha_kept px (u32_set px i v).
Proof.
  intros Hget Hnz Hv. unfold u32_set.
  rewrite <- (list_insert_id px (Z.to_nat i) c Hget) at 1.
  apply Forall2_insert.
  - apply Forall_Forall2_diag, Forall_forall. intros x _. apply alpha_kept_refl.
  - split; [rewrite alpha_of_toUint32; exact Hv | intros H0; contradiction].
Qed.

Lemma Forall2_alpha_kept_refl (px : list Z) : Forall2 alpha_kept px px.
Proof. apply Forall_Forall2_diag, Forall_forall. intros x _. apply alpha_kept_refl. Qed.

Lemma match_frame_pixel_kept (paletteData : list Color) (i : Z) (st : frame_state) :
  Forall byte_color paletteData -> cache_alpha_ok (f_cache st) ->
  Forall2 alpha_kept (f_pixels st) (f_pixels (fst (match_frame_pixel paletteData i st))) /\
  cache_alpha_ok (f_cache (fst (match_frame_pixel paletteData i st))).
Proof.
  intros Hpal Hcache. unfold match_frame_pixel.
  destruct (f_pixels st !! Z.to_nat i) as [colorInt|] eqn:Hget;
    [| split; [apply Forall2_alpha_kept_refl | exact Hcache]].
  destruct (alpha_of colorInt =? 0) eqn:Ha;
    [split; [apply Forall2_alpha_kept_refl | exact Hcache] |].
  apply Z.eqb_neq in Ha.
  destruct (f_cache st !! colorInt) as [cached|] eqn:Hc.
  - destruct (negb (colorInt =? cached)); cbn;
      [| split; [apply Forall2_alpha_kept_refl | exact Hcache]].
    split; [| exact Hcache].
    apply (u32_set_kept _ _ colorInt); [exact Hget | exact Ha | apply Hcache; exact Hc].
  - destruct (findNearestColor _ _ _ paletteData) as [n|] eqn:Hn;
      [| split; [apply Forall2_alpha_kept_refl | exact Hcache]].
    assert (Hbyte : byte_color n).
    { rewrite Forall_forall in Hpal. apply Hpal.
      eapply findNearestColor_elem. exact Hn. }
    destruct Hbyte as (Hr & Hg & Hb).
    assert (Hnew : alpha_of (JS.toUint32 (JS.shl (alpha_of colorInt) 24)
                             + JS.shl (b n) 16 + JS.shl (g n) 8 + r n) = alpha_of colorInt).
    { apply alpha_of_pack; try assumption. unfold alpha_of. apply band_255_byte. }
    assert (Hcache' : cache_alpha_ok
              (<[colorInt := JS.toUint32 (JS.shl (alpha_of colorInt) 24)
                             + JS.shl (b n) 16 + JS.shl (g n) 8 + r n]> (f_cache st))).
    { intros k v Hkv. destruct (Z.eq_dec colorInt k) as [<- | Hne].
      - rewrite lookup_insert_eq in Hkv. injection Hkv as <-. exact Hnew.
      - rewrite lookup_insert_ne in Hkv by exact Hne. apply Hcache. exact Hkv. }
    destruct (negb _); cbn; (split; [| exact Hcache']).
    + apply (u32_set_kept _ _ colorInt); assumption.
    + apply Forall2_alpha_kept_refl.
Qed.

Lemma match_frame_loop_kept (paletteData : list Color) (idxs : list Z) :
  forall st,
    Forall byte_color paletteData -> cache_alpha_ok (f_cache st) ->
    Forall2 alpha_kept (f_pixels st)
      (f_pixels (fst (run_loop (match_frame_pixel paletteData) idxs st))) /\
    cache_alpha_ok (f_cache (fst (run_loop (match_frame_pixel paletteData) idxs st))).
Proof.
  induction idxs as [| i rest IH]; intros st Hpal Hcache.
  - cbn. split; [apply Forall2_alpha_kept_refl | exact Hcache].
  - rewrite run_loop_cons.
    destruct (match_frame_pixel_kept paletteData i st Hpal Hcache) as [Hstep Hc1].
    destruct (snd (match_frame_pixel paletteData i st)); [| split; assumption].
    destruct (IH (fst (match_frame_pixel paletteData i st)) Hpal Hc1) as [Hrest Hc2].
    split; [| exact Hc2].
    eapply Forall2_trans; [| exact Hstep | exact Hrest].
    intros x y z. apply alpha_kept_trans.
Qed.

Definition frame_kept (f f' : Frame) : Prop := Forall2 alpha_kept (pixels f) (pixels f').

Lemma matchFrameToPalette_kept (frame : Frame) (paletteData : list Color) (cache : gmap Z Z) :
  Forall byte_color paletteData -> cache_alpha_ok cache ->
  frame_kept frame (fst (fst (matchFrameToPalette_ frame paletteData cache))) /\
  cache_alpha_ok (snd (fst (matchFrameToPalette_ frame paletteData cache))).
Proof.
  intros Hpal Hcache. unfold matchFrameToPalette_, frame_kept.
  pose proof (match_frame_loop_kept paletteData (indices (length (pixels frame)))
                (mkFS (pixels frame) cache false) Hpal Hcache) as [H1 H2].
  destruct (run_loop _ _ _) as [st k]. cbn in *. split; assumption.
Qed.

Lemma frame_kept_refl (l : list Frame) : Forall2 frame_kept l l.
Proof.
  apply Forall_Forall2_diag, Forall_forall. intros f _. apply Forall2_alpha_kept_refl.
Qed.

Lemma match_frames_kept (paletteData : list Color) (frames : list Frame) :
  forall cache,
    Forall byte_color paletteData -> cache_alpha_ok cache ->
    Forall2 frame_kept frames (fst (fst (match_frames paletteData frames cache))) /\
    cache_alpha_ok (snd (fst (match_frames paletteData frames cache))).
Proof.
  induction frames as [| f rest IH]; intros cache Hpal Hcache.
  - cbn. split; [constructor | exact Hcache].
  - cbn [match_frames].
    destruct (matchFrameToPalette_kept f paletteData cache Hpal Hcache) as [Hf Hc1].
    destruct (matchFrameToPalette_ f paletteData cache) as [[f' cache'] [|e]]; cbn in *.
    + destruct (IH cache' Hpal Hc1) as [Hrest Hc2].
      destruct (match_frames paletteData rest cache') as [[rest' cache''] k]. cbn in *.
      split; [constructor; assumption | exact Hc2].
    + split; [constructor; [exact Hf | apply frame_kept_refl] | exact Hc1].
Qed.

Lemma match_layers_kept (paletteData : list Color) (ls : list (list Frame)) :
  forall cache,
    Forall byte_color paletteData -> cache_alpha_ok cache ->
    Forall2 (Forall2 frame_kept) ls (fst (fst (match_layers paletteData ls cache))) /\
    cache_alpha_ok (snd (fst (match_layers paletteData ls cache))).
Proof.
  induction ls as [| l rest IH]; intros cache Hpal Hcache.
  - cbn. split; [constructor | exact Hcache].
  - cbn [match_layers].
    destruct (match_frames_kept paletteData l cache Hpal Hcache) as [Hl Hc1].
    destruct (match_frames paletteData l cache) as [[l' cache'] [|e]]; cbn in *.
    + destruct (IH cache' Hpal Hc1) as [Hrest Hc2].
      destruct (match_layers paletteData rest cache') as [[rest' cache''] k]. cbn in *.
      split; [constructor; assumption | exact Hc2].
    + split; [| exact Hc1]. constructor; [exact Hl |].
      apply Forall_Forall2_diag, Forall_forall. intros x _. apply frame_kept_refl.
Qed.

(** ** The cache key identifies the colour *)

Lemma land_shifted_low (x y n : Z) :
  0 <= n -> 0 <= y < 2 ^ n -> Z.land (x * 2 ^ n) y = 0.
Proof.
  intros Hn Hy.
  transitivity (Z.land (Z.land (x * 2 ^ n) (Z.ones n)) y).
  - rewrite <- Z.land_assoc, (Z.land_comm (Z.ones n) y), (Z.land_ones y) by exact Hn.
    rewrite (Z.mod_small y) by exact Hy. reflexivity.
  - rewrite Z.land_ones by exact Hn.
    rewrite Z.mod_mul by (apply Z.pow_nonzero; lia).
    apply Z.land_0_l.
Qed.

Lemma lor_shifted_low (x y n : Z) :
  0 <= n -> 0 <= y < 2 ^ n -> Z.lor (x * 2 ^ n) y = x * 2 ^ n + y.
Proof.
  intros Hn Hy. pose proof (land_shifted_low x y n Hn Hy) as Hland.
  rewrite <- Z.lxor_lor by exact Hland.
  symmetry. apply Z.add_nocarry_lxor. exact Hland.
Qed.

Lemma color_key_bytes (r0 g0 b0 : Z) :
  is_byte r0 -> is_byte g0 -> is_byte b0 ->
  color_key (Some r0) (Some g0) (Some b0) = r0 * 65536 + g0 * 256 + b0.
Proof.
  unfold is_byte. intros Hr Hg Hb. unfold color_key, JS.bor. cbn [int_of].
  rewrite !shl_small by lia.
  rewrite (toInt32_small (r0 * 2 ^ 16)), (toInt32_small (g0 * 2 ^ 8)), (toInt32_small b0) by lia.
  rewrite (lor_shifted_low r0 (g0 * 2 ^ 8) 16) by lia.
  rewrite toInt32_small by lia.
  replace (r0 * 2 ^ 16 + g0 * 2 ^ 8) with ((r0 * 2 ^ 8 + g0) * 2 ^ 8) by lia.
  rewrite lor_shifted_low by lia. lia.
Qed.

Lemma color_key_inj (r1 g1 b1 r2 g2 b2 : Z) :
  is_byte r1 -> is_byte g1 -> is_byte b1 -> is_byte r2 -> is_byte g2 -> is_byte b2 ->
  color_key (Some r1) (Some g1) (Some b1) = color_key (Some r2) (Some g2) (Some b2) ->
  r1 = r2 /\ g1 = g2 /\ b1 = b2.
Proof.
  intros Hr1 Hg1 Hb1 Hr2 Hg2 Hb2. rewrite !color_key_bytes by assumption.
  unfold is_byte in *. lia.
Qed.

(** ** Matching against an empty palette *)

Definition cache_all_undefined (cache : gmap Z (option Color)) : Prop :=
  forall k v, cache !! k = Some v -> v = None.

(** Every pixel the loop visits has alpha exactly 0. *)
Definition all_transparent (d : list Z) (idxs : list Z) : bool :=
  forallb (fun i => is_zero (buf_get d (i + 3))) idxs.

Definition empty_palette_completion (d : list Z) (idxs : list Z) : completion :=
  if all_transparent d idxs then Normal else Throw TypeError.

Lemma cache_all_undefined_insert (cache : gmap Z (option Color)) (k : Z) :
  cache_all_undefined cache -> cache_all_undefined (<[k := None]> cache).
Proof.
  intros Hc k' v Hkv. destruct (Z.eq_dec k k') as [<- | Hne].
  - rewrite lookup_insert_eq in Hkv. congruence.
  - rewrite lookup_insert_ne in Hkv by exact Hne. eapply Hc. exact Hkv.
Qed.

Lemma match_pixel_empty (i : Z) (st : match_state) :
  cache_all_undefined (m_cache st) ->
  exists cache',
    cache_all_undefined cache' /\
    match_pixel [] i st =
      (mkMatch (m_data st) cache' (m_modified st),
       if is_zero (buf_get (m_data st) (i + 3)) then Normal else Throw TypeError).
Proof.
  intros Hc. unfold match_pixel. destruct st as [d cache m]. cbn [m_data m_cache m_modified] in *.
  destruct (is_zero (buf_get d (i + 3))); [exists cache; split; [exact Hc | reflexivity] |].
  destruct (cache !! _) as [n|] eqn:Hk.
  - apply Hc in Hk as ->. exists cache. split; [exact Hc | reflexivity].
  - eexists. split; [apply cache_all_undefined_insert; exact Hc | reflexivity].
Qed.

Lemma match_loop_empty (idxs : list Z) :
  forall st,
    cache_all_undefined (m_cache st) ->
    exists cache',
      cache_all_undefined cache' /\
      run_loop (match_pixel []) idxs st =
        (mkMatch (m_data st) cache' (m_modified st),
         empty_palette_completion (m_data st) idxs).
Proof.
  induction idxs as [| i rest IH]; intros st Hc.
  - exists (m_cache st). split; [exact Hc |]. destruct st; reflexivity.
  - destruct (match_pixel_empty i st Hc) as (c1 & Hc1 & Hstep).
    cbn [run_loop]. rewrite Hstep.
    unfold empty_palette_completion, all_transparent. cbn [forallb].
    destruct (is_zero (buf_get (m_data st) (i + 3))); cbn [andb].
    + destruct (IH (mkMatch (m_data st) c1 (m_modified st)) Hc1) as (c2 & Hc2 & Hrest).
      exists c2. split; [exact Hc2 | exact Hrest].
    + exists c1. split; [exact Hc1 | reflexivity].
Qed.

Lemma apply_pixel_empty (i : Z) (d : list Z) (cache : gmap Z (option Color)) :
  cache_all_undefined cache ->
  exists cache',
    cache_all_undefined cache' /\
    apply_pixel [] i (d, cache) =
      ((d, cache'), if is_zero (buf_get d (i + 3)) then Normal else Throw TypeError).
Proof.
  intros Hc. unfold apply_pixel.
  destruct (is_zero (buf_get d (i + 3))); [exists cache; split; [exact Hc | reflexivity] |].
  destruct (cache !! _) as [n|] eqn:Hk.
  - apply Hc in Hk as ->. exists cache. split; [exact Hc | reflexivity].
  - eexists. split; [apply cache_all_undefined_insert; exact Hc | reflexivity].
Qed.

Lemma apply_loop_empty (idxs : list Z) :
  forall d cache,
    cache_all_undefined cache ->
    exists cache',
      cache_all_undefined cache' /\
      run_loop (apply_pixel []) idxs (d, cache) =
        ((d, cache'), empty_palette_completion d idxs).
Proof.
  induction idxs as [| i rest IH]; intros d cache Hc.
  - exists cache. split; [exact Hc | reflexivity].
  - destruct (apply_pixel_empty i d cache Hc) as (c1 & Hc1 & Hstep).
    cbn [run_loop]. rewrite Hstep.
    unfold empty_palette_completion, all_transparent. cbn [forallb].
    destruct (is_zero (buf_get d (i + 3))); cbn [andb].
    + destruct (IH d c1 Hc1) as (c2 & Hc2 & Hrest).
      exists c2. split; [exact Hc2 | exact Hrest].
    + exists c1. split; [exact Hc1 | reflexivity].
Qed.

Lemma cache_all_undefined_empty : cache_all_undefined ∅.
Proof. intros k v Hkv. rewrite lookup_empty in Hkv. discriminate. Qed.

Lemma matchPngToPalette_empty (png : list Z) :
  m_data (fst (matchPngToPalette png [] ∅)) = png /\
  snd (matchPngToPalette png [] ∅) = empty_palette_completion png (pixel_starts (length png)).
Proof.
  unfold matchPngToPalette.
  destruct (match_loop_empty (pixel_starts (length png)) (mkMatch png ∅ false)
              cache_all_undefined_empty) as (c & _ & ->).
  split; reflexivity.
Qed.

Lemma applyPaletteToImageData_empty (imageData : list Z) :
  applyPaletteToImageData imageData [] =
    (imageData, empty_palette_completion imageData (pixel_starts (length imageData))).
Proof.
  unfold applyPaletteToImageData.
  destruct (apply_loop_empty (pixel_starts (length imageData)) imageData ∅
              cache_all_undefined_empty) as (c & _ & ->).
  reflexivity.
Qed.

(** ** The cache is an optimisation: cached and uncached passes agree *)

(** An RGBA buffer as the PNG decoder returns it. *)
Definition rgba_buffer (d : list Z) : Prop :=
  bytes d /\ Nat.modulo (length d) 4 = 0%nat.

(** Every cached entry is what [findNearestColor] returns for its colour. *)
Definition cache_ok (palette : list Color) (cache : gmap Z (option Color)) : Prop :=
  forall r0 g0 b0 n,
    is_byte r0 -> is_byte g0 -> is_byte b0 ->
    cache !! color_key (Some r0) (Some g0) (Some b0) = Some n ->
    n = findNearestColor (Some r0) (Some g0) (Some b0) palette.

Lemma cache_ok_empty (palette : list Color) : cache_ok palette ∅.
Proof. intros r0 g0 b0 n _ _ _ H. rewrite lookup_empty in H. discriminate. Qed.

Lemma cache_ok_insert (palette : list Color) (cache : gmap Z (option Color)) (r0 g0 b0 : Z) :
  is_byte r0 -> is_byte g0 -> is_byte b0 -> cache_ok palette cache ->
  cache_ok palette
    (<[color_key (Some r0) (Some g0) (Some b0) :=
         findNearestColor (Some r0) (Some g0) (Some b0) palette]> cache).
Proof.
  intros Hr Hg Hb Hc r1 g1 b1 n Hr1 Hg1 Hb1 Hn.
  destruct (Z.eq_dec (color_key (Some r0) (Some g0) (Some b0))
                     (color_key (Some r1) (Some g1) (Some b1))) as [Heq | Hne].
  - rewrite Heq, lookup_insert_eq in Hn. injection Hn as <-.
    apply color_key_inj in Heq as (-> & -> & ->); try assumption. reflexivity.
  - rewrite lookup_insert_ne in Hn by exact Hne. apply Hc; assumption.
Qed.

Lemma store_nearest_cache (i : Z) (n : option Color) (d : list Z)
    (c1 c2 : gmap Z (option Color)) (m : bool) :
  store_nearest i n d c1 m =
    (mkMatch (m_data (fst (store_nearest i n d c2 m))) c1
             (m_modified (fst (store_nearest i n d c2 m))),
     snd (store_nearest i n d c2 m)).
Proof.
  unfold store_nearest. destruct n as [c|]; [| reflexivity].
  destruct (_ || _); reflexivity.
Qed.

Lemma store_nearest_keeps_cache (i : Z) (n : option Color) (d : list Z)
    (c : gmap Z (option Color)) (m : bool) :
  m_cache (fst (store_nearest i n d c m)) = c.
Proof.
  unfold store_nearest. destruct n as [x|]; [| reflexivity].
  destruct (_ || _); reflexivity.
Qed.

Lemma store_nearest_bytes (i : Z) (n : option Color) (d : list Z)
    (c : gmap Z (option Color)) (m : bool) :
  bytes d -> bytes (m_data (fst (store_nearest i n d c m))).
Proof.
  intros Hd. unfold store_nearest. destruct n as [x|]; [| exact Hd].
  destruct (_ || _); cbn; [| exact Hd].
  unfold write_rgb. repeat apply buf_set_bytes. exact Hd.
Qed.

(** A full pixel lies at [i]: its four bytes are read as numbers. *)
Lemma pixel_reads (d : list Z) (i : Z) :
  bytes d -> 0 <= i -> i + 3 < Z.of_nat (length d) ->
  exists r0 g0 b0 a,
    buf_get d i = Some r0 /\ buf_get d (i + 1) = Some g0 /\
    buf_get d (i + 2) = Some b0 /\ buf_get d (i + 3) = Some a /\
    is_byte r0 /\ is_byte g0 /\ is_byte b0 /\ is_byte a.
Proof.
  intros Hd H0 Hlen.
  destruct (buf_get_Some d i) as [r0 Hr]; [lia |].
  destruct (buf_get_Some d (i + 1)) as [g0 Hg]; [lia |].
  destruct (buf_get_Some d (i + 2)) as [b0 Hb]; [lia |].
  destruct (buf_get_Some d (i + 3)) as [a Ha]; [lia |].
  exists r0, g0, b0, a. repeat split; try assumption; eapply buf_get_byte; eassumption.
Qed.

Lemma match_pixel_simulation (palette : list Color) (i : Z) (d : list Z)
    (cache cache2 : gmap Z (option Color)) (m : bool) :
  bytes d -> 0 <= i -> i + 3 < Z.of_nat (length d) -> cache_ok palette cache ->
  exists cache',
    cache_ok palette cache' /\
    match_pixel palette i (mkMatch d cache m) =
      (mkMatch (m_data (fst (match_pixel_nocache palette i (mkMatch d cache2 m)))) cache'
               (m_modified (fst (match_pixel_nocache palette i (mkMatch d cache2 m)))),
       snd (match_pixel_nocache palette i (mkMatch d cache2 m))).
Proof.
  intros Hd H0 Hlen Hc.
  destruct (pixel_reads d i Hd H0 Hlen)
    as (r0 & g0 & b0 & a & Hr & Hg & Hb & Ha & Br & Bg & Bb & _).
  unfold match_pixel, match_pixel_nocache. cbn [m_data m_cache m_modified].
  destruct (is_zero (buf_get d (i + 3))); [exists cache; split; [exact Hc | reflexivity] |].
  rewrite Hr, Hg, Hb.
  destruct (cache !! color_key (Some r0) (Some g0) (Some b0)) as [n|] eqn:Hk.
  - apply Hc in Hk; try assumption. subst n.
    exists cache. split; [exact Hc | apply store_nearest_cache].
  - exists (<[color_key (Some r0) (Some g0) (Some b0) :=
               findNearestColor (Some r0) (Some g0) (Some b0) palette]> cache).
    split; [apply cache_ok_insert; assumption | apply store_nearest_cache].
Qed.

Lemma match_pixel_nocache_invariant (palette : list Color) (i : Z) (st : match_state) :
  bytes (m_data st) ->
  bytes (m_data (fst (match_pixel_nocache palette i st))) /\
  length (m_data (fst (match_pixel_nocache palette i st))) = length (m_data st) /\
  m_cache (fst (match_pixel_nocache palette i st)) = m_cache st.
Proof.
  intros Hd. unfold match_pixel_nocache.
  destruct (is_zero _); [auto |].
  split; [apply store_nearest_bytes; exact Hd |].
  split; [apply store_nearest_length | apply store_nearest_keeps_cache].
Qed.

(** The indices of a pass over a buffer of whole pixels address whole pixels. *)
Definition whole_pixels (len : nat) (idxs : list Z) : Prop :=
  Forall (fun i => (exists q, i = 4 * q) /\ 0 <= i /\ i + 3 < Z.of_nat len) idxs.

Lemma pixel_starts_whole (len : nat) :
  Nat.modulo len 4 = 0%nat -> whole_pixels len (pixel_starts len).
Proof.
  intros Hmod. unfold whole_pixels, pixel_starts.
  apply Forall_forall. intros i Hi.
  apply list_elem_of_fmap in Hi as (k & -> & Hk).
  apply elem_of_seq in Hk.
  pose proof (Nat.div_mod_eq len 4) as Hdm. rewrite Hmod in Hdm.
  assert (Hq : ((len + 3) / 4 = len / 4)%nat).
  { symmetry. apply (Nat.div_unique (len + 3) 4 (len / 4) 3); lia. }
  rewrite Hq in Hk.
  split; [eauto | lia].
Qed.

Lemma match_loop_simulation (palette : list Color) (idxs : list Z) :
  forall d cache cache2 m,
    bytes d -> whole_pixels (length d) idxs -> cache_ok palette cache ->
    exists cache',
      cache_ok palette cache' /\
      run_loop (match_pixel palette) idxs (mkMatch d cache m) =
        (mkMatch
           (m_data (fst (run_loop (match_pixel_nocache palette) idxs (mkMatch d cache2 m))))
           cache'
           (m_modified (fst (run_loop (match_pixel_nocache palette) idxs (mkMatch d cache2 m)))),
         snd (run_loop (match_pixel_nocache palette) idxs (mkMatch d cache2 m))).
Proof.
  induction idxs as [| i rest IH]; intros d cache cache2 m Hd Hidx Hc.
  - exists cache. split; [exact Hc | reflexivity].
  - apply Forall_cons in Hidx as [(_ & H0 & Hlt) Hrest].
    destruct (match_pixel_simulation palette i d cache cache2 m Hd H0 Hlt Hc)
      as (c1 & Hc1 & Hstep).
    destruct (match_pixel_nocache_invariant palette i (mkMatch d cache2 m) Hd)
      as (Hd1 & Hlen1 & Hcache1).
    rewrite !run_loop_cons, Hstep. cbn [fst snd].
    destruct (match_pixel_nocache palette i (mkMatch d cache2 m)) as [[d1 c2 m1] k1].
    cbn [fst snd m_data m_cache m_modified] in *. subst c2.
    destruct k1 as [|e]; [| exists c1; split; [exact Hc1 | reflexivity]].
    apply IH; try assumption.
    unfold whole_pixels in *. rewrite Hlen1. exact Hrest.
Qed.

Lemma matchPngToPalette_simulation (png : list Z) (palette : list Color)
    (cache : gmap Z (option Color)) :
  rgba_buffer png -> cache_ok palette cache ->
  m_data (fst (matchPngToPalette png palette cache))
    = m_data (fst (matchPngToPalette_nocache png palette)) /\
  snd (matchPngToPalette png palette cache) = snd (matchPngToPalette_nocache png palette) /\
  cache_ok palette (m_cache (fst (matchPngToPalette png palette cache))).
Proof.
  intros [Hd Hmod] Hc. unfold matchPngToPalette, matchPngToPalette_nocache.
  destruct (match_loop_simulation palette (pixel_starts (length png)) png cache ∅ false
              Hd (pixel_starts_whole _ Hmod) Hc) as (c' & Hc' & ->).
  cbn. auto.
Qed.

Definition image_ok (p : option PNG) : Prop :=
  match p with
  | Some p => rgba_buffer (data p)
  | None => True
  end.

Definition layer_ok (l : Layer) : Prop :=
  match chunks l with
  | Some cs => Forall (fun c => image_ok (base64PNG c)) cs
  | None => image_ok (layer_base64PNG l)
  end.

(** Every image embedded in the document is a decoded RGBA buffer. *)
Definition images_ok (doc : Piskel) : Prop := Forall layer_ok (layers doc).

Section FileSimulation.

Variable palette : list Color.

Local Abbreviation cached := (fun png cache => matchPngToPalette png palette cache).
Local Abbreviation uncached :=
  (fun png (_ : gmap Z (option Color)) => matchPngToPalette_nocache png palette).

Lemma process_chunks_simulation (cs : list Chunk) :
  forall cache cache2,
    Forall (fun c => image_ok (base64PNG c)) cs -> cache_ok palette cache ->
    fst (fst (process_chunks cached cs cache)) = fst (fst (process_chunks uncached cs cache2)) /\
    snd (process_chunks cached cs cache) = snd (process_chunks uncached cs cache2) /\
    cache_ok palette (snd (fst (process_chunks cached cs cache))).
Proof.
  induction cs as [| c rest IH]; intros cache cache2 Hok Hc.
  - cbn. auto.
  - apply Forall_cons in Hok as [Hc0 Hrest]. cbn [process_chunks].
    destruct (base64PNG c) as [p|] eqn:Hp.
    + cbn in Hc0.
      destruct (matchPngToPalette_simulation (data p) palette cache Hc0 Hc)
        as (Hdata & Hk & Hc1).
      destruct (matchPngToPalette (data p) palette cache) as [st1 k1].
      destruct (matchPngToPalette_nocache (data p) palette) as [st2 k2].
      cbn [fst snd] in *. subst k2. rewrite Hdata.
      destruct k1 as [|e]; [| cbn; auto].
      specialize (IH (m_cache st1) (m_cache st2) Hrest Hc1).
      destruct (process_chunks cached rest (m_cache st1)) as [[r1 c1] k1].
      destruct (process_chunks uncached rest (m_cache st2)) as [[r2 c2] k2].
      cbn [fst snd] in *. destruct IH as (-> & -> & Hc2). auto.
    + specialize (IH cache cache2 Hrest Hc).
      destruct (process_chunks cached rest cache) as [[r1 c1] k1].
      destruct (process_chunks uncached rest cache2) as [[r2 c2] k2].
      cbn [fst snd] in *. destruct IH as (-> & -> & Hc2). auto.
Qed.

Lemma process_layer_simulation (l : Layer) (cache cache2 : gmap Z (option Color)) :
  layer_ok l -> cache_ok palette cache ->
  fst (fst (process_layer cached l cache)) = fst (fst (process_layer uncached l cache2)) /\
  snd (process_layer cached l cache) = snd (process_layer uncached l cache2) /\
  cache_ok palette (snd (fst (process_layer cached l cache))).
Proof.
  intros Hok Hc. unfold process_layer, layer_ok in *.
  destruct (chunks l) as [cs|].
  - pose proof (process_chunks_simulation cs cache cache2 Hok Hc) as IH.
    destruct (process_chunks cached cs cache) as [[r1 c1] k1].
    destruct (process_chunks uncached cs cache2) as [[r2 c2] k2].
    cbn [fst snd] in *. destruct IH as (-> & -> & Hc2). auto.
  - destruct (layer_base64PNG l) as [p|]; [| cbn; auto].
    cbn in Hok.
    destruct (matchPngToPalette_simulation (data p) palette cache Hok Hc)
      as (Hdata & Hk & Hc1).
    destruct (matchPngToPalette (data p) palette cache) as [st1 k1].
    destruct (matchPngToPalette_nocache (data p) palette) as [st2 k2].
    cbn [fst snd] in *. subst k2. rewrite Hdata.
    destruct k1; cbn; auto.
Qed.

Lemma process_layers_simulation (ls : list Layer) :
  forall cache cache2,
    Forall layer_ok ls -> cache_ok palette cache ->
    fst (fst (process_layers cached ls cache)) = fst (fst (process_layers uncached ls cache2)) /\
    snd (process_layers cached ls cache) = snd (process_layers uncached ls cache2).
Proof.
  induction ls as [| l rest IH]; intros cache cache2 Hok Hc.
  - cbn. auto.
  - apply Forall_cons in Hok as [Hl Hrest]. cbn [process_layers].
    pose proof (process_layer_simulation l cache cache2 Hl Hc) as Hstep.
    destruct (process_layer cached l cache) as [[l1 c1] k1].
    destruct (process_layer uncached l cache2) as [[l2 c2] k2].
    cbn [fst snd] in *. destruct Hstep as (-> & -> & Hc1).
    destruct k2 as [|e]; [| cbn; auto].
    specialize (IH c1 c2 Hrest Hc1).
    destruct (process_layers cached rest c1) as [[r1 d1] q1].
    destruct (process_layers uncached rest c2) as [[r2 d2] q2].
    cbn [fst snd] in *. destruct IH as (-> & ->). auto.
Qed.

End FileSimulation.

Lemma processPiskelFile_simulation (doc : Piskel) (palette : list Color) :
  images_ok doc -> processPiskelFile doc palette = processPiskelFile_nocache doc palette.
Proof.
  intros Hok. unfold processPiskelFile, processPiskelFile_nocache.
  pose proof (process_layers_simulation palette (layers doc) ∅ ∅ Hok (cache_ok_empty palette))
    as [Hl Hk].
  destruct (process_layers _ (layers doc) ∅) as [[l1 c1] k1].
  destruct (process_layers _ (layers doc) ∅) as [[l2 c2] k2].
  cbn [fst snd] in *. subst. reflexivity.
Qed.

(** ** What one pass writes, pixel by pixel *)

Lemma scan_palette_nearest_Some (r0 g0 b0 : JS.jsval) (l : list Color) :
  forall st, is_Some (nearest st) -> is_Some (nearest (scan_palette r0 g0 b0 l st)).
Proof.
  induction l as [| c l IH]; intros st Hst; [exact Hst |].
  cbn [scan_palette]. destruct (lt_minDist _ _).
  - destruct (colorDistance _ _ _ _ _ _) as [[| p | p] |];
      try (apply IH; cbn; eauto). cbn. eauto.
  - apply IH. exact Hst.
Qed.

Lemma findNearestColor_nonempty (r0 g0 b0 : JS.jsval) (palette : list Color) :
  palette <> [] -> is_Some (findNearestColor r0 g0 b0 palette).
Proof.
  intros Hne. unfold findNearestColor, findNearestColor_scan.
  apply scan_palette_nearest_Some. destruct palette; [congruence | cbn; eauto].
Qed.

(** Matching the colour of a palette entry gives that colour back. *)
Lemma findNearestColor_fixed (palette : list Color) (n : Color) :
  Forall byte_color palette -> n ∈ palette ->
  exists n',
    findNearestColor (Some (r n)) (Some (g n)) (Some (b n)) palette = Some n' /\
    r n' = r n /\ g n' = g n /\ b n' = b n.
Proof.
  intros Hpal Hin.
  assert (Hbyte : forall c, c ∈ palette -> byte_color c).
  { rewrite Forall_forall in Hpal. exact Hpal. }
  destruct (Hbyte n Hin) as (Hr & Hg & Hb).
  destruct (findNearestColor_spec (r n) (g n) (b n) palette Hr Hg Hb Hpal)
    as (pre & c & post & Heq & Hfind & Hpre & Hpost).
  { intros ->. inversion Hin. }
  exists c. split; [exact Hfind |].
  assert (Hc : byte_color c).
  { apply Hbyte. rewrite Heq. apply elem_of_app. right. apply elem_of_cons. left. reflexivity. }
  assert (Hn0 : dist_to (r n) (g n) (b n) n = 0).
  { apply dist_to_zero; try assumption; [split; [| split]; assumption | auto]. }
  assert (Hc0 : 0 <= dist_to (r n) (g n) (b n) c) by (apply dist_to_nonneg; assumption).
  apply (dist_to_zero (r n) (g n) (b n) c Hr Hg Hb Hc).
  rewrite Heq in Hin. apply elem_of_app in Hin as [Hin | Hin].
  - specialize (Hpre n Hin). lia.
  - apply elem_of_cons in Hin as [-> | Hin]; [exact Hn0 |].
    specialize (Hpost n Hin). lia.
Qed.

(** Pixel [p] of [dout] is pixel [p] of [din] after matching: alpha is kept;
    with alpha 0 the colour bytes are kept; otherwise they are the bytes of
    the colour [findNearestColor] chooses. *)
Definition matched_pixel (palette : list Color) (din dout : list Z) (p : Z) : Prop :=
  exists r0 g0 b0 a,
    buf_get din (4 * p) = Some r0 /\ buf_get din (4 * p + 1) = Some g0 /\
    buf_get din (4 * p + 2) = Some b0 /\ buf_get din (4 * p + 3) = Some a /\
    buf_get dout (4 * p + 3) = Some a /\
    if a =? 0 then
      buf_get dout (4 * p) = Some r0 /\ buf_get dout (4 * p + 1) = Some g0 /\
      buf_get dout (4 * p + 2) = Some b0
    else
      exists n,
        findNearestColor (Some r0) (Some g0) (Some b0) palette = Some n /\
        buf_get dout (4 * p) = Some (r n mod 256) /\
        buf_get dout (4 * p + 1) = Some (g n mod 256) /\
        buf_get dout (4 * p + 2) = Some (b n mod 256).

Lemma is_zero_eqb (a : Z) : is_zero (Some a) = (a =? 0).
Proof. destruct a; reflexivity. Qed.

Lemma differs_false (v : JS.jsval) (x : Z) : differs v x = false -> v = Some x.
Proof.
  unfold differs. destruct v as [y|]; [| discriminate].
  intros H. apply negb_false_iff, Z.eqb_eq in H. congruence.
Qed.

Lemma write_rgb_reads (d : list Z) (i : Z) (c : Color) :
  0 <= i -> i + 3 < Z.of_nat (length d) ->
  buf_get (write_rgb d i c) i = Some (r c mod 256) /\
  buf_get (write_rgb d i c) (i + 1) = Some (g c mod 256) /\
  buf_get (write_rgb d i c) (i + 2) = Some (b c mod 256).
Proof.
  intros H0 Hlen. unfold write_rgb. repeat split.
  - rewrite !buf_get_set_ne by lia. apply buf_get_set_eq. lia.
  - rewrite buf_get_set_ne by lia. apply buf_get_set_eq. rewrite buf_set_length. lia.
  - apply buf_get_set_eq. rewrite !buf_set_length. lia.
Qed.

(** The effect of one uncached iteration on its own pixel. *)
Lemma match_pixel_nocache_own (palette : list Color) (q : Z) (st : match_state) :
  palette <> [] -> bytes (m_data st) ->
  0 <= 4 * q -> 4 * q + 3 < Z.of_nat (length (m_data st)) ->
  snd (match_pixel_nocache palette (4 * q) st) = Normal /\
  matched_pixel palette (m_data st) (m_data (fst (match_pixel_nocache palette (4 * q) st))) q.
Proof.
  intros Hne Hd H0 Hlen.
  destruct (pixel_reads (m_data st) (4 * q) Hd H0 Hlen)
    as (r0 & g0 & b0 & a & Hr & Hg & Hb & Ha & Br & Bg & Bb & _).
  unfold match_pixel_nocache, matched_pixel. rewrite Ha, Hr, Hg, Hb, is_zero_eqb.
  destruct (a =? 0) eqn:Hz.
  - split; [reflexivity |]. exists r0, g0, b0, a. rewrite Hz. cbn. auto 10.
  - destruct (findNearestColor_nonempty (Some r0) (Some g0) (Some b0) palette Hne) as [n Hn].
    rewrite Hn. unfold store_nearest. rewrite Hr, Hg, Hb.
    destruct (differs (Some r0) (r n) || differs (Some g0) (g n) || differs (Some b0) (b n))
      eqn:Hdiff; cbn [fst snd m_data].
    + split; [reflexivity |]. exists r0, g0, b0, a. rewrite Hz.
      destruct (write_rgb_reads (m_data st) (4 * q) n H0 Hlen) as (Wr & Wg & Wb).
      repeat split; try assumption; try reflexivity.
      * rewrite write_rgb_get by lia. exact Ha.
      * exists n. auto.
    + split; [reflexivity |]. exists r0, g0, b0, a. rewrite Hz.
      apply orb_false_iff in Hdiff as [Hdiff Hdb].
      apply orb_false_iff in Hdiff as [Hdr Hdg].
      apply differs_false in Hdr, Hdg, Hdb.
      injection Hdr as Er. injection Hdg as Eg. injection Hdb as Eb.
      unfold is_byte in *.
      repeat split; try assumption; try reflexivity.
      exists n. rewrite <- Er, <- Eg, <- Eb, !Z.mod_small by lia. auto.
Qed.

(** An uncached iteration at another pixel leaves pixel [p] alone. *)
Lemma match_pixel_nocache_other (palette : list Color) (q p c : Z) (st : match_state) :
  p <> q -> 0 <= c < 4 ->
  buf_get (m_data (fst (match_pixel_nocache palette (4 * q) st))) (4 * p + c)
    = buf_get (m_data st) (4 * p + c).
Proof.
  intros Hpq Hc. unfold match_pixel_nocache.
  destruct (is_zero _); [reflexivity |].
  apply store_nearest_get; lia.
Qed.

Lemma matched_pixel_transport (palette : list Color) (d1 d2 dout : list Z) (p : Z) :
  (forall c, 0 <= c < 4 -> buf_get d2 (4 * p + c) = buf_get d1 (4 * p + c)) ->
  matched_pixel palette d2 dout p -> matched_pixel palette d1 dout p.
Proof.
  intros Hsame (r0 & g0 & b0 & a & Hr & Hg & Hb & Ha & Hrest).
  exists r0, g0, b0, a.
  rewrite <- (Hsame 1), <- (Hsame 2), <- (Hsame 3) by lia.
  replace (4 * p) with (4 * p + 0) by lia.
  rewrite <- (Hsame 0) by lia. replace (4 * p + 0) with (4 * p) by lia.
  auto.
Qed.

Lemma matched_pixel_later (palette : list Color) (din d1 d2 : list Z) (p : Z) :
  (forall c, 0 <= c < 4 -> buf_get d2 (4 * p + c) = buf_get d1 (4 * p + c)) ->
  matched_pixel palette din d1 p -> matched_pixel palette din d2 p.
Proof.
  intros Hsame (r0 & g0 & b0 & a & Hr & Hg & Hb & Ha & Hout).
  exists r0, g0, b0, a.
  rewrite (Hsame 1), (Hsame 2), (Hsame 3) by lia.
  replace (4 * p) with (4 * p + 0) by lia.
  rewrite (Hsame 0) by lia. replace (4 * p + 0) with (4 * p) by lia.
  auto.
Qed.

Lemma nocache_loop_matched (palette : list Color) (qs : list Z) :
  forall st,
    palette <> [] -> bytes (m_data st) -> NoDup qs ->
    Forall (fun q => 0 <= 4 * q /\ 4 * q + 3 < Z.of_nat (length (m_data st))) qs ->
    let res := run_loop (match_pixel_nocache palette) (map (Z.mul 4) qs) st in
    snd res = Normal /\
    length (m_data (fst res)) = length (m_data st) /\
    (forall p, p ∈ qs -> matched_pixel palette (m_data st) (m_data (fst res)) p) /\
    (forall p c, p ∉ qs -> 0 <= c < 4 ->
                 buf_get (m_data (fst res)) (4 * p + c) = buf_get (m_data st) (4 * p + c)).
Proof.
  induction qs as [| q rest IH]; intros st Hne Hd Hnd Hrange; cbn zeta.
  - cbn. repeat split; auto. intros p Hp. inversion Hp.
  - cbn [map]. rewrite run_loop_cons.
    apply NoDup_cons in Hnd as [Hq Hnd].
    apply Forall_cons in Hrange as [[H0 Hlt] Hrange].
    destruct (match_pixel_nocache_own palette q st Hne Hd H0 Hlt) as [Hk Hown].
    destruct (match_pixel_nocache_invariant palette (4 * q) st Hd) as (Hd1 & Hlen1 & _).
    rewrite Hk.
    specialize (IH (fst (match_pixel_nocache palette (4 * q) st)) Hne Hd1 Hnd).
    cbn zeta in IH. rewrite Hlen1 in IH.
    destruct (IH Hrange) as (Hk' & Hlen' & Hin & Hout).
    split; [exact Hk' | split; [exact Hlen' | split]].
    + intros p Hp. apply elem_of_cons in Hp as [-> | Hp].
      * eapply matched_pixel_later; [| exact Hown].
        intros c Hc. apply Hout; assumption.
      * eapply matched_pixel_transport; [| apply Hin; exact Hp].
        intros c Hc. apply match_pixel_nocache_other; [| exact Hc].
        intros ->. contradiction.
    + intros p c Hp Hc. rewrite not_elem_of_cons in Hp. destruct Hp as [Hpq Hp].
      rewrite Hout by assumption.
      apply match_pixel_nocache_other; assumption.
Qed.

Lemma nocache_loop_bytes (palette : list Color) (idxs : list Z) :
  forall st,
    bytes (m_data st) ->
    bytes (m_data (fst (run_loop (match_pixel_nocache palette) idxs st))).
Proof.
  induction idxs as [| i rest IH]; intros st Hd; [exact Hd |].
  rewrite run_loop_cons.
  destruct (match_pixel_nocache_invariant palette i st Hd) as (Hd1 & _ & _).
  destruct (snd (match_pixel_nocache palette i st)); [apply IH; exact Hd1 | exact Hd1].
Qed.

Lemma pixel_starts_map (len : nat) :
  pixel_starts len = map (Z.mul 4) (map Z.of_nat (seq 0 ((len + 3) / 4))).
Proof. unfold pixel_starts. rewrite map_map. reflexivity. Qed.

(** Pixel [p] lies inside a buffer of [len] bytes. *)
Definition pixel_in (len : nat) (p : Z) : Prop := 0 <= p /\ 4 * p + 3 < Z.of_nat len.

Lemma pixel_in_starts (len : nat) (p : Z) :
  pixel_in len p -> p ∈ map Z.of_nat (seq 0 ((len + 3) / 4)).
Proof.
  intros [H0 Hlt]. apply list_elem_of_fmap. exists (Z.to_nat p).
  split; [lia |]. apply elem_of_seq. split; [lia |].
  rewrite Nat.add_0_l.
  assert (Hle : (S (Z.to_nat p) <= (len + 3) / 4)%nat); [| lia].
  apply Nat.div_le_lower_bound; lia.
Qed.

(** The uncached pass over a decoded buffer, pixel by pixel. *)
Lemma nocache_pass_matched (png : list Z) (palette : list Color) :
  rgba_buffer png -> palette <> [] ->
  snd (matchPngToPalette_nocache png palette) = Normal /\
  rgba_buffer (m_data (fst (matchPngToPalette_nocache png palette))) /\
  length (m_data (fst (matchPngToPalette_nocache png palette))) = length png /\
  (forall p, pixel_in (length png) p ->
     matched_pixel palette png (m_data (fst (matchPngToPalette_nocache png palette))) p).
Proof.
  intros [Hd Hmod] Hne. unfold matchPngToPalette_nocache.
  pose proof (nocache_loop_bytes palette (pixel_starts (length png)) (mkMatch png ∅ false) Hd)
    as Hbytes.
  rewrite pixel_starts_map in *.
  destruct (nocache_loop_matched palette (map Z.of_nat (seq 0 ((length png + 3) / 4)))
              (mkMatch png ∅ false) Hne Hd) as (Hk & Hlen & Hin & _).
  - apply NoDup_fmap; [intros x y; apply Nat2Z.inj | apply NoDup_seq].
  - pose proof (pixel_starts_whole (length png) Hmod) as Hw.
    rewrite pixel_starts_map in Hw. unfold whole_pixels in Hw.
    rewrite Forall_fmap in Hw. cbn [m_data].
    eapply Forall_impl; [exact Hw |]. cbn. intros q (_ & H0 & Hlt). lia.
  - cbn [m_data] in *. split; [exact Hk |]. split; [| split; [exact Hlen |]].
    + split; [exact Hbytes | rewrite Hlen; exact Hmod].
    + intros p Hp. apply Hin. apply pixel_in_starts. exact Hp.
Qed.

(** The pass of the tool (with its cache) over a decoded buffer. *)
Lemma cached_pass_matched (png : list Z) (palette : list Color)
    (cache : gmap Z (option Color)) :
  rgba_buffer png -> palette <> [] -> cache_ok palette cache ->
  snd (matchPngToPalette png palette cache) = Normal /\
  rgba_buffer (m_data (fst (matchPngToPalette png palette cache))) /\
  length (m_data (fst (matchPngToPalette png palette cache))) = length png /\
  (forall p, pixel_in (length png) p ->
     matched_pixel palette png (m_data (fst (matchPngToPalette png palette cache))) p).
Proof.
  intros Hbuf Hne Hc.
  destruct (matchPngToPalette_simulation png palette cache Hbuf Hc) as (-> & -> & _).
  apply nocache_pass_matched; assumption.
Qed.

(** Matching twice: the second pass finds every pixel already matched. *)
Lemma matched_twice (palette : list Color) (d0 d1 d2 : list Z) (p : Z) :
  Forall byte_color palette ->
  matched_pixel palette d0 d1 p -> matched_pixel palette d1 d2 p ->
  forall c, 0 <= c < 4 -> buf_get d2 (4 * p + c) = buf_get d1 (4 * p + c).
Proof.
  intros Hpal (r0 & g0 & b0 & a & Hr & Hg & Hb & Ha & Ha1 & H1)
         (r1 & g1 & b1 & a1 & Hr1 & Hg1 & Hb1 & Ha1' & Ha2 & H2) c Hc.
  assert (a1 = a) by congruence. subst a1.
  assert (Hcases : c = 0 \/ c = 1 \/ c = 2 \/ c = 3) by lia.
  destruct (a =? 0) eqn:Hz.
  - destruct H2 as (E0 & E1 & E2).
    destruct Hcases as [-> | [-> | [-> | ->]]];
      rewrite ?Z.add_0_r; congruence.
  - destruct H1 as (n & Hn & W0 & W1 & W2).
    destruct H2 as (n' & Hn' & V0 & V1 & V2).
    assert (Hin : n ∈ palette) by (eapply findNearestColor_elem; exact Hn).
    assert (Hbyte : byte_color n) by (rewrite Forall_forall in Hpal; apply Hpal; exact Hin).
    destruct Hbyte as (Br & Bg & Bb). unfold is_byte in *.
    rewrite Z.mod_small in W0, W1, W2 by lia.
    assert (r1 = r n) by congruence. assert (g1 = g n) by congruence.
    assert (b1 = b n) by congruence. subst r1 g1 b1.
    destruct (findNearestColor_fixed palette n Hpal Hin) as (m & Hm & Er & Eg & Eb).
    assert (n' = m) by congruence. subst n'.
    rewrite Er, Eg, Eb in *. rewrite Z.mod_small in V0, V1, V2 by lia.
    destruct Hcases as [-> | [-> | [-> | ->]]];
      rewrite ?Z.add_0_r; congruence.
Qed.

Lemma idempotent_pass (png : list Z) (palette : list Color)
    (c1 c2 : gmap Z (option Color)) :
  rgba_buffer png -> palette <> [] -> Forall byte_color palette ->
  cache_ok palette c1 -> cache_ok palette c2 ->
  snd (matchPngToPalette png palette c1) = Normal /\
  snd (matchPngToPalette (m_data (fst (matchPngToPalette png palette c1))) palette c2) = Normal /\
  m_data (fst (matchPngToPalette (m_data (fst (matchPngToPalette png palette c1))) palette c2))
    = m_data (fst (matchPngToPalette png palette c1)).
Proof.
  intros Hbuf Hne Hpal Hc1 Hc2.
  destruct (cached_pass_matched png palette c1 Hbuf Hne Hc1) as (Hk1 & Hbuf1 & Hlen1 & Hm1).
  set (d1 := m_data (fst (matchPngToPalette png palette c1))) in *.
  destruct (cached_pass_matched d1 palette c2 Hbuf1 Hne Hc2) as (Hk2 & Hbuf2 & Hlen2 & Hm2).
  split; [exact Hk1 | split; [exact Hk2 |]].
  apply buf_ext; [exact Hlen2 |].
  intros i Hi. rewrite Hlen2 in Hi.
  destruct Hbuf1 as [_ Hmod1].
  pose proof (Nat.div_mod_eq (length d1) 4) as Hdm. rewrite Hmod1 in Hdm.
  pose proof (Z.div_mod i 4 ltac:(lia)) as Hi4.
  pose proof (Z.mod_pos_bound i 4 ltac:(lia)) as Hc.
  assert (Hp : pixel_in (length d1) (i / 4)).
  { split; [apply Z.div_pos; lia |].
    assert (i / 4 < Z.of_nat (length d1 / 4)); [| lia].
    apply Z.div_lt_upper_bound; lia. }
  rewrite Hi4 at 1 2.
  apply (matched_twice palette png); try assumption.
  - apply Hm1. rewrite <- Hlen1. exact Hp.
  - apply Hm2. exact Hp.
Qed.

(** * The claims about the colour matcher *)

(** C2 (amended).  For a pixel with colour bytes [(r0,g0,b0)] and a
    non-empty palette whose components are bytes, [findNearestColor] returns
    the first palette entry, in load order, whose redmean distance to the
    pixel is least: the entries before it are strictly farther, the entries
    after it are not nearer.  When that entry lies at distance 0 the scan has
    looked at exactly the entries up to and including it, and what follows it
    in the palette has no influence on the scan at all.  (The text loaders
    also accept components above 255; for those the claim fails, as computed
    after the palette loaders below.) *)
Theorem findNearestColor_first_minimum (r0 g0 b0 : Z) (palette : list Color) :
  is_byte r0 -> is_byte g0 -> is_byte b0 ->
  Forall byte_color palette -> palette <> [] ->
  exists pre c post,
    palette = pre ++ c :: post /\
    findNearestColor (Some r0) (Some g0) (Some b0) palette = Some c /\
    (forall c', c' ∈ pre -> dist_to r0 g0 b0 c < dist_to r0 g0 b0 c') /\
    (forall c', c' ∈ post -> dist_to r0 g0 b0 c <= dist_to r0 g0 b0 c') /\
    (dist_to r0 g0 b0 c = 0 ->
       visited (findNearestColor_scan (Some r0) (Some g0) (Some b0) palette)
         = S (length pre) /\
       forall post',
         findNearestColor_scan (Some r0) (Some g0) (Some b0) (pre ++ c :: post')
         = findNearestColor_scan (Some r0) (Some g0) (Some b0) (pre ++ [c])).
Proof.
  intros Hr Hg Hb Hpal Hne.
  destruct (findNearestColor_spec r0 g0 b0 palette Hr Hg Hb Hpal Hne)
    as (pre & c & post & Heq & Hfind & Hpre & Hpost).
  exists pre, c, post. repeat split; try assumption.
  - subst palette. unfold findNearestColor_scan.
    destruct (scan_palette_break r0 g0 b0 pre c post
                (mkScan None (head (pre ++ c :: post)) 0%nat)) as (_ & Hv & _).
    + intros c' Hc'. specialize (Hpre c' Hc'). lia.
    + cbn. discriminate.
    + assumption.
    + rewrite Hv. reflexivity.
  - intros post'. unfold findNearestColor_scan.
    assert (Hhead : head (pre ++ c :: post') = head (pre ++ [c])).
    { destruct pre; reflexivity. }
    rewrite Hhead.
    apply (scan_palette_break r0 g0 b0 pre c post' (mkScan None (head (pre ++ [c])) 0%nat)).
    + intros c' Hc'. specialize (Hpre c' Hc'). lia.
    + cbn. discriminate.
    + assumption.
Qed.

(** A tie between two distinct colours behind a farther entry, and a
    palette that holds the pixel's own colour. *)
Definition tie_palette : list Color := [mkColor 0 0 0; mkColor 10 11 10; mkColor 10 9 10].

Definition rgb_palette : list Color := [mkColor 255 0 0; mkColor 0 255 0; mkColor 0 0 255].

Lemma findNearestColor_first_minimum_witness :
  (exists pre c post,
     tie_palette = pre ++ c :: post /\
     findNearestColor (Some 10) (Some 10) (Some 10) tie_palette = Some c /\
     (forall c', c' ∈ pre -> dist_to 10 10 10 c < dist_to 10 10 10 c') /\
     (forall c', c' ∈ post -> dist_to 10 10 10 c <= dist_to 10 10 10 c') /\
     (dist_to 10 10 10 c = 0 ->
        visited (findNearestColor_scan (Some 10) (Some 10) (Some 10) tie_palette)
          = S (length pre) /\
        forall post',
          findNearestColor_scan (Some 10) (Some 10) (Some 10) (pre ++ c :: post')
          = findNearestColor_scan (Some 10) (Some 10) (Some 10) (pre ++ [c])))
  /\
  (exists pre c post,
     rgb_palette = pre ++ c :: post /\
     findNearestColor (Some 0) (Some 255) (Some 0) rgb_palette = Some c /\
     (forall c', c' ∈ pre -> dist_to 0 255 0 c < dist_to 0 255 0 c') /\
     (forall c', c' ∈ post -> dist_to 0 255 0 c <= dist_to 0 255 0 c') /\
     (dist_to 0 255 0 c = 0 ->
        visited (findNearestColor_scan (Some 0) (Some 255) (Some 0) rgb_palette)
          = S (length pre) /\
        forall post',
          findNearestColor_scan (Some 0) (Some 255) (Some 0) (pre ++ c :: post')
          = findNearestColor_scan (Some 0) (Some 255) (Some 0) (pre ++ [c]))).
Proof.
  split.
  - apply (findNearestColor_first_minimum 10 10 10 tie_palette).
    + unfold is_byte. lia.
    + unfold is_byte. lia.
    + unfold is_byte. lia.
    + repeat constructor; cbn; lia.
    + discriminate.
  - apply (findNearestColor_first_minimum 0 255 0 rgb_palette).
    + unfold is_byte. lia.
    + unfold is_byte. lia.
    + unfold is_byte. lia.
    + repeat constructor; cbn; lia.
    + discriminate.
Defined.

(** The two inputs of the witness, computed: of two entries at the same
    distance the earlier one is returned, after a farther entry was passed
    over; and an entry at distance 0 ends the scan after two of three
    entries. *)
Example first_of_a_tie :
  findNearestColor_scan (Some 10) (Some 10) (Some 10) tie_palette
    = mkScan (Some 4) (Some (mkColor 10 11 10)) 3 /\
  map (dist_to 10 10 10) tie_palette = [898; 4; 4].
Proof. split; reflexivity. Qed.

Example zero_stops_the_scan :
  findNearestColor_scan (Some 0) (Some 255) (Some 0) rgb_palette
    = mkScan (Some 0) (Some (mkColor 0 255 0)) 2 /\
  findNearestColor_scan (Some 0) (Some 255) (Some 0) [mkColor 255 0 0; mkColor 0 255 0]
    = mkScan (Some 0) (Some (mkColor 0 255 0)) 2.
Proof. split; reflexivity. Qed.

(** C3.  Removing the cache changes nothing: on a file whose embedded images
    are decoded RGBA buffers, the pass with one cache shared by all layers and
    chunks writes the same layers (or throws the same exception) as the pass
    that calls [findNearestColor] afresh for every pixel with non-zero alpha;
    the same holds for the pass over a single image. *)
Theorem cache_is_pure_optimisation (doc : Piskel) (png : list Z) (palette : list Color) :
  images_ok doc -> rgba_buffer png ->
  processPiskelFile doc palette = processPiskelFile_nocache doc palette /\
  m_data (fst (matchPngToPalette png palette ∅))
    = m_data (fst (matchPngToPalette_nocache png palette)) /\
  snd (matchPngToPalette png palette ∅) = snd (matchPngToPalette_nocache png palette).
Proof.
  intros Hdoc Hpng. split; [apply processPiskelFile_simulation; exact Hdoc |].
  destruct (matchPngToPalette_simulation png palette ∅ Hpng (cache_ok_empty palette))
    as (Hd & Hk & _).
  split; assumption.
Qed.

(** C9 (amended).  Matching is idempotent on a decoded RGBA buffer and a
    non-empty palette whose components are bytes: both passes complete, and
    the second pass leaves the buffer exactly as the first one produced it,
    whatever valid caches the two passes start from.  (With a component
    above 255, which the text loaders accept, a second pass can change a
    pixel, as computed after the palette loaders below.) *)
Theorem palette_matching_idempotent (png : list Z) (palette : list Color)
    (c1 c2 : gmap Z (option Color)) :
  rgba_buffer png -> palette <> [] -> Forall byte_color palette ->
  cache_ok palette c1 -> cache_ok palette c2 ->
  snd (matchPngToPalette png palette c1) = Normal /\
  snd (matchPngToPalette (m_data (fst (matchPngToPalette png palette c1))) palette c2) = Normal /\
  m_data (fst (matchPngToPalette (m_data (fst (matchPngToPalette png palette c1))) palette c2))
    = m_data (fst (matchPngToPalette png palette c1)).
Proof. apply idempotent_pass. Qed.

(** C6.  The matcher never writes an alpha byte and leaves a pixel with alpha
    0 as it is.  For [matchPngToPalette], on any buffer, palette and cache:
    the length is kept, every byte at an index congruent to 3 modulo 4 is
    kept, and all four bytes of a pixel whose alpha byte is 0 are kept.  For
    the service ([matchToPalette]), on any colour list and frames: every
    pixel word keeps its alpha byte, and a word with alpha 0 is unchanged. *)
Theorem color_matcher_keeps_alpha :
  (forall (png : list Z) (palette : list Color) (cache : gmap Z (option Color)),
     length (m_data (fst (matchPngToPalette png palette cache))) = length png /\
     (forall j, j mod 4 = 3 ->
        buf_get (m_data (fst (matchPngToPalette png palette cache))) j = buf_get png j) /\
     (forall p c, 0 <= c < 4 -> buf_get png (4 * p + 3) = Some 0 ->
        buf_get (m_data (fst (matchPngToPalette png palette cache))) (4 * p + c)
        = buf_get png (4 * p + c)))
  /\
  (forall (colors : option (list JS.jsval)) (selected : list (list Frame)),
     Forall2 (Forall2 frame_kept) selected (fst (matchToPalette colors selected))).
Proof.
  split.
  - intros png palette cache. unfold matchPngToPalette.
    apply (match_loop_frame palette (pixel_starts (length png)) (mkMatch png cache false)).
    apply pixel_starts_aligned.
  - intros colors selected. unfold matchToPalette.
    assert (Hrefl : Forall2 (Forall2 frame_kept) selected selected).
    { apply Forall_Forall2_diag, Forall_forall. intros x _. apply frame_kept_refl. }
    destruct colors as [[| c cs] |]; try exact Hrefl.
    pose proof (match_layers_kept (buildPaletteData_ (c :: cs)) selected ∅
                  (buildPaletteData_bytes (c :: cs))) as [Hkept _].
    { intros k v Hkv. rewrite lookup_empty in Hkv. discriminate. }
    destruct (match_layers _ selected ∅) as [[ls cache] k]. exact Hkept.
Qed.

(** C4 (amended).  Matching against an empty palette never changes the pixel
    buffer.  The command-line matchers throw a [TypeError] at the first pixel
    whose alpha is not 0 and complete normally when there is none; the service
    returns at once, without an error. *)
Theorem empty_palette_no_mutation (png imageData : list Z) (selected : list (list Frame)) :
  m_data (fst (matchPngToPalette png [] ∅)) = png /\
  snd (matchPngToPalette png [] ∅)
    = empty_palette_completion png (pixel_starts (length png)) /\
  applyPaletteToImageData imageData []
    = (imageData, empty_palette_completion imageData (pixel_starts (length imageData))) /\
  matchToPalette (Some []) selected = (selected, Normal) /\
  matchToPalette None selected = (selected, Normal).
Proof.
  destruct (matchPngToPalette_empty png) as [Hd Hk].
  repeat split; try assumption. apply applyPaletteToImageData_empty.
Qed.

(** C4, as stated, fails: with an empty palette a fully transparent image is
    matched without any error, an opaque pixel raises a [TypeError], and the
    service returns normally. *)
Lemma empty_palette_without_error :
  snd (matchPngToPalette [10; 20; 30; 0] [] ∅) = Normal /\
  snd (matchPngToPalette [10; 20; 30; 255] [] ∅) = Throw TypeError /\
  matchToPalette (Some []) [[mkFrame [4278190335] 0]]
    = ([[mkFrame [4278190335] 0]], Normal).
Proof.
  split; [| split].
  - rewrite (proj2 (matchPngToPalette_empty [10; 20; 30; 0])). reflexivity.
  - rewrite (proj2 (matchPngToPalette_empty [10; 20; 30; 255])). reflexivity.
  - reflexivity.
Qed.

(** ** Concrete inputs *)

Definition demo_palette : list Color := [mkColor 255 0 0; mkColor 0 255 0].

(** Two pixels: an opaque reddish one and a fully transparent one. *)
Definition demo_pixels : list Z := [200; 10; 10; 255; 1; 2; 3; 0].

Definition demo_png : PNG := mkPNG 2 1 demo_pixels.

Definition demo_doc : Piskel :=
  mkPiskel "demo"%string 12 2 1
    [mkLayer "Layer 1"%string 1 1 (Some [mkChunk [[0]] (Some demo_png)]) None;
     mkLayer "Layer 2"%string 1 1 None (Some demo_png)]
    [].

Lemma demo_pixels_rgba : rgba_buffer demo_pixels.
Proof.
  split; [| reflexivity].
  unfold demo_pixels, bytes. repeat constructor; cbn; lia.
Defined.

Lemma demo_doc_images_ok : images_ok demo_doc.
Proof.
  unfold images_ok, demo_doc. cbn.
  constructor; [| constructor; [| constructor]].
  - unfold layer_ok. cbn. constructor; [exact demo_pixels_rgba | constructor].
  - exact demo_pixels_rgba.
Defined.

Lemma demo_palette_bytes : Forall byte_color demo_palette.
Proof. unfold demo_palette. repeat constructor; cbn; lia. Defined.

Lemma cache_is_pure_optimisation_witness :
  processPiskelFile demo_doc demo_palette = processPiskelFile_nocache demo_doc demo_palette /\
  m_data (fst (matchPngToPalette demo_pixels demo_palette ∅))
    = m_data (fst (matchPngToPalette_nocache demo_pixels demo_palette)) /\
  snd (matchPngToPalette demo_pixels demo_palette ∅)
    = snd (matchPngToPalette_nocache demo_pixels demo_palette).
Proof.
  apply (cache_is_pure_optimisation demo_doc demo_pixels demo_palette).
  - exact demo_doc_images_ok.
  - exact demo_pixels_rgba.
Defined.

Lemma palette_matching_idempotent_witness :
  snd (matchPngToPalette demo_pixels demo_palette ∅) = Normal /\
  snd (matchPngToPalette (m_data (fst (matchPngToPalette demo_pixels demo_palette ∅)))
         demo_palette ∅) = Normal /\
  m_data (fst (matchPngToPalette (m_data (fst (matchPngToPalette demo_pixels demo_palette ∅)))
                 demo_palette ∅))
    = m_data (fst (matchPngToPalette demo_pixels demo_palette ∅)).
Proof.
  apply (palette_matching_idempotent demo_pixels demo_palette ∅ ∅).
  - exact demo_pixels_rgba.
  - discriminate.
  - exact demo_palette_bytes.
  - apply cache_ok_empty.
  - apply cache_ok_empty.
Defined.

Lemma color_matcher_keeps_alpha_witness :
  buf_get (m_data (fst (matchPngToPalette demo_pixels demo_palette ∅))) 3 = buf_get demo_pixels 3 /\
  buf_get (m_data (fst (matchPngToPalette demo_pixels demo_palette ∅))) (4 * 1 + 0)
    = buf_get demo_pixels (4 * 1 + 0).
Proof.
  destruct color_matcher_keeps_alpha as [Hpng _].
  destruct (Hpng demo_pixels demo_palette ∅) as (_ & Halpha & Hzero).
  split.
  - apply Halpha. reflexivity.
  - apply Hzero; [lia | reflexivity].
Defined.

(** The demo image after matching: the opaque pixel takes the first palette
    colour, the transparent one is untouched. *)
Example demo_match :
  m_data (fst (matchPngToPalette demo_pixels demo_palette ∅))
    = [255; 0; 0; 255; 1; 2; 3; 0].
Proof. vm_compute. reflexivity. Qed.

(** * Pixel-buffer operations (cli/piskel-transform.js) *)

(** [for (y = 0; y < h; y++) for (x = 0; x < w; x++) body] *)
Definition for_yx {S : Type} (h w : Z) (body : Z -> Z -> S -> S) (s : S) : S :=
  JS.for_range h (fun y => JS.for_range w (fun x => body y x)) s.

(** Every copy loop reads [src.data[..]] and writes [dst.data[..]] in its
    first iteration; [data] is [null] for an image built with a non-positive
    dimension, and the access then throws. *)
Definition copy_loops (h w : Z) (src dst : PNG) (body : Z -> Z -> list Z -> list Z)
  : outcome (list Z) :=
  if (0 <? h) && (0 <? w) && negb (has_data src && has_data dst)
  then Throws TypeError
  else Returns (for_yx h w body (data dst)).

Definition cropPng_body (png : PNG) (bx byy bw : Z) (y x : Z) (d : list Z) : list Z :=
  let srcIdx := JS.shl (width png * (y + byy) + (x + bx)) 2 in
  let dstIdx := JS.shl (bw * y + x) 2 in
  copy_pixel (data png) srcIdx d dstIdx.

Record Rect := mkRect { rect_x : Z; rect_y : Z; rect_width : Z; rect_height : Z }.

(** [cropPng(png, bounds)] *)
Definition cropPng (png : PNG) (bounds : Rect) : outcome PNG :=
  let cropped := new_PNG (rect_width bounds) (rect_height bounds) in
  match copy_loops (rect_height bounds) (rect_width bounds) png cropped
          (cropPng_body png (rect_x bounds) (rect_y bounds) (rect_width bounds)) with
  | Returns d => Returns (mkPNG (width cropped) (height cropped) d)
  | Throws e => Throws e
  end.

(** The body of the loops of [resizePng].  The code computes
    [Math.floor(x * png.width / newWidth)] on doubles; the quotient below is
    the exact one, and the two agree as long as the product [x * png.width]
    is below 2^53 (the product is then an exact double, and rounding the
    quotient of an integer below 2^53 never reaches the next integer).  The
    statements about the place a pixel is copied from carry that bound. *)
Definition resizePng_body (png : PNG) (newWidth newHeight : Z) (y x : Z) (d : list Z)
  : list Z :=
  let srcX := x * width png / newWidth in
  let srcY := y * height png / newHeight in
  let srcIdx := JS.shl (width png * srcY + srcX) 2 in
  let dstIdx := JS.shl (newWidth * y + x) 2 in
  copy_pixel (data png) srcIdx d dstIdx.

(** [resizePng(png, newWidth, newHeight)], on integer dimensions.  Inside the
    loops both target dimensions are positive. *)
Definition resizePng (png : PNG) (newWidth newHeight : Z) : outcome PNG :=
  let resized := new_PNG newWidth newHeight in
  match copy_loops newHeight newWidth png resized (resizePng_body png newWidth newHeight) with
  | Returns d => Returns (mkPNG (width resized) (height resized) d)
  | Throws e => Throws e
  end.

(** ** Copy loops, cell by cell *)

Lemma copy_pixel_length (src : list Z) (si : Z) (dst : list Z) (di : Z) :
  length (copy_pixel src si dst di) = length dst.
Proof. unfold copy_pixel. rewrite !buf_set_length. reflexivity. Qed.

Lemma copy_pixel_other (src : list Z) (si : Z) (dst : list Z) (di j : Z) :
  (j < di \/ di + 3 < j) -> buf_get (copy_pixel src si dst di) j = buf_get dst j.
Proof.
  intros Hj. unfold copy_pixel. rewrite !buf_get_set_ne by lia. reflexivity.
Qed.

Lemma copy_pixel_own (src : list Z) (si : Z) (dst : list Z) (di c : Z) :
  0 <= di -> di + 3 < Z.of_nat (length dst) -> 0 <= c < 4 ->
  buf_get (copy_pixel src si dst di) (di + c) = Some (JS.toUint8 (buf_get src (si + c))).
Proof.
  intros H0 Hlen Hc. unfold copy_pixel.
  assert (Hcases : c = 0 \/ c = 1 \/ c = 2 \/ c = 3) by lia.
  destruct Hcases as [-> | [-> | [-> | ->]]]; rewrite ?Z.add_0_r.
  - rewrite !buf_get_set_ne by lia. apply buf_get_set_eq. lia.
  - rewrite !buf_get_set_ne by lia. apply buf_get_set_eq. rewrite !buf_set_length. lia.
  - rewrite !buf_get_set_ne by lia. apply buf_get_set_eq. rewrite !buf_set_length. lia.
  - apply buf_get_set_eq. rewrite !buf_set_length. lia.
Qed.

Lemma copy_pixel_bytes (src : list Z) (si : Z) (dst : list Z) (di : Z) :
  bytes dst -> bytes (copy_pixel src si dst di).
Proof. intros Hd. unfold copy_pixel. repeat apply buf_set_bytes. exact Hd. Qed.

(** The cells [(y, x)] in the order the loops visit them. *)
Definition range (n : Z) : list Z := map Z.of_nat (seq 0 (Z.to_nat n)).

Definition cells (h w : Z) : list (Z * Z) :=
  flat_map (fun y => map (fun x => (y, x)) (range w)) (range h).

Lemma for_yx_cells {S : Type} (h w : Z) (body : Z -> Z -> S -> S) (s : S) :
  for_yx h w body s = fold_left (fun acc yx => body (fst yx) (snd yx) acc) (cells h w) s.
Proof.
  unfold for_yx, JS.for_range, cells. fold (range h). fold (range w).
  generalize (range h) as ys. intros ys. revert s.
  induction ys as [| y ys IH]; intros s; [reflexivity |].
  cbn [fold_left flat_map]. rewrite fold_left_app, <- IH. f_equal.
  generalize (range w) as xs. intros xs. revert s.
  induction xs as [| x xs IHx]; intros s; [reflexivity |].
  cbn [fold_left map]. apply IHx.
Qed.

Lemma elem_of_range (n i : Z) : i ∈ range n <-> 0 <= i < n.
Proof.
  unfold range. rewrite list_elem_of_fmap. split.
  - intros (k & -> & Hk). apply elem_of_seq in Hk. lia.
  - intros Hi. exists (Z.to_nat i). split; [lia |]. apply elem_of_seq. lia.
Qed.

Lemma elem_of_cells (h w y x : Z) : (y, x) ∈ cells h w <-> 0 <= y < h /\ 0 <= x < w.
Proof.
  unfold cells. rewrite list_elem_of_In, in_flat_map. split.
  - intros (y' & Hy & Hx). apply list_elem_of_In, elem_of_range in Hy.
    apply list_elem_of_In, list_elem_of_fmap in Hx as (x' & [= -> ->] & Hx').
    apply elem_of_range in Hx'. auto.
  - intros [Hy Hx]. exists y. split.
    + apply list_elem_of_In, elem_of_range. exact Hy.
    + apply list_elem_of_In, list_elem_of_fmap. exists x. split; [reflexivity |].
      apply elem_of_range. exact Hx.
Qed.

Section Blit.

(** A loop nest that copies, for every cell, the pixel at [sidx y x] of [src]
    to the pixel at [didx y x] of the destination. *)
Variable src : list Z.
Variables sidx didx : Z -> Z -> Z.

Definition blit_step (acc : list Z) (yx : Z * Z) : list Z :=
  copy_pixel src (sidx (fst yx) (snd yx)) acc (didx (fst yx) (snd yx)).

Lemma blit_length (cs : list (Z * Z)) :
  forall dst, length (fold_left blit_step cs dst) = length dst.
Proof.
  induction cs as [| cell cs IH]; intros dst; [reflexivity |].
  cbn [fold_left]. rewrite IH. apply copy_pixel_length.
Qed.

Lemma blit_bytes (cs : list (Z * Z)) :
  forall dst, bytes dst -> bytes (fold_left blit_step cs dst).
Proof.
  induction cs as [| cell cs IH]; intros dst Hd; [exact Hd |].
  cbn [fold_left]. apply IH. apply copy_pixel_bytes. exact Hd.
Qed.

(** Bytes outside every destination pixel of the nest are left alone. *)
Lemma blit_other (cs : list (Z * Z)) (j : Z) :
  forall dst,
    (forall y x, (y, x) ∈ cs -> j < didx y x \/ didx y x + 3 < j) ->
    buf_get (fold_left blit_step cs dst) j = buf_get dst j.
Proof.
  induction cs as [| [y x] cs IH]; intros dst Hout; [reflexivity |].
  cbn [fold_left]. rewrite IH.
  - apply copy_pixel_other. apply Hout. apply elem_of_cons. left. reflexivity.
  - intros y' x' Hin. apply Hout. apply elem_of_cons. right. exact Hin.
Qed.

(** Distinct cells write pixels that do not overlap. *)
Definition disjoint_cells (cs : list (Z * Z)) : Prop :=
  forall y x y' x', (y, x) ∈ cs -> (y', x') ∈ cs -> (y, x) <> (y', x') ->
    didx y x + 3 < didx y' x' \/ didx y' x' + 3 < didx y x.

Lemma blit_own (cs : list (Z * Z)) :
  forall dst y x c,
    NoDup cs -> disjoint_cells cs ->
    (forall y' x', (y', x') ∈ cs ->
       0 <= didx y' x' /\ didx y' x' + 3 < Z.of_nat (length dst)) ->
    (y, x) ∈ cs -> 0 <= c < 4 ->
    buf_get (fold_left blit_step cs dst) (didx y x + c)
      = Some (JS.toUint8 (buf_get src (sidx y x + c))).
Proof.
  induction cs as [| [y0 x0] cs IH]; intros dst y x c Hnd Hdis Hrange Hin Hc.
  - inversion Hin.
  - cbn [fold_left]. apply NoDup_cons in Hnd as [Hnotin Hnd].
    apply elem_of_cons in Hin as [[= -> ->] | Hin].
    + rewrite blit_other.
      * apply copy_pixel_own; [| | exact Hc]; apply (Hrange y0 x0);
          apply elem_of_cons; left; reflexivity.
      * intros y' x' Hin'.
        destruct (Hdis y0 x0 y' x') as [H | H].
        -- apply elem_of_cons. left. reflexivity.
        -- apply elem_of_cons. right. exact Hin'.
        -- intros [= -> ->]. contradiction.
        -- left. lia.
        -- right. lia.
    + apply IH; try assumption.
      * intros y1 x1 y2 x2 H1 H2 Hne. apply Hdis; try assumption;
          apply elem_of_cons; right; assumption.
      * intros y' x' Hin'. unfold blit_step. rewrite copy_pixel_length.
        apply Hrange. apply elem_of_cons. right. exact Hin'.
Qed.

End Blit.

Lemma NoDup_range (n : Z) : NoDup (range n).
Proof.
  unfold range. apply NoDup_fmap; [intros x y; apply Nat2Z.inj | apply NoDup_seq].
Qed.

Lemma NoDup_cells (h w : Z) : NoDup (cells h w).
Proof.
  unfold cells. generalize (NoDup_range h). generalize (range h) as ys.
  induction ys as [| y ys IH]; intros Hnd; [constructor |].
  apply NoDup_cons in Hnd as [Hy Hnd]. cbn [flat_map].
  apply NoDup_app. split; [| split].
  - apply NoDup_fmap; [intros a b0 [= ->]; reflexivity | apply NoDup_range].
  - intros [y' x'] Hin1 Hin2.
    apply list_elem_of_fmap in Hin1 as (x1 & [= -> ->] & _).
    apply list_elem_of_In, in_flat_map in Hin2 as (y2 & Hy2 & Hx2).
    apply list_elem_of_In, list_elem_of_fmap in Hx2 as (x2 & [= -> ->] & _).
    apply Hy. apply list_elem_of_In. exact Hy2.
  - apply IH. exact Hnd.
Qed.

(** ** Row-major destinations *)

Lemma rowmajor_bound (W h y x : Z) :
  0 <= y < h -> 0 <= x < W -> 0 <= W * y + x < W * h.
Proof. intros Hy Hx. nia. Qed.

Lemma shl2_rowmajor (W h y x : Z) :
  0 <= y < h -> 0 <= x < W -> 4 * (W * h) <= 2 ^ 31 ->
  JS.shl (W * y + x) 2 = 4 * (W * y + x).
Proof.
  intros Hy Hx Hfit. pose proof (rowmajor_bound W h y x Hy Hx).
  apply shl2_small. lia.
Qed.

Lemma rowmajor_inj (W y x y' x' : Z) :
  0 <= x < W -> 0 <= x' < W -> W * y + x = W * y' + x' -> y = y' /\ x = x'.
Proof.
  intros Hx Hx' Heq.
  assert (y = y'); [| subst; lia].
  destruct (Z.lt_trichotomy y y') as [Hlt | [-> | Hgt]]; [exfalso | reflexivity | exfalso]; nia.
Qed.

(** A loop nest over [h] rows and [W] columns that writes pixel [(x, y)] of a
    row-major destination of width [W]. *)
Lemma rowmajor_blit (src : list Z) (sidx : Z -> Z -> Z) (W h : Z) (dst : list Z) :
  Z.of_nat (length dst) = 4 * (W * h) -> 4 * (W * h) <= 2 ^ 31 ->
  let out := for_yx h W (fun y x d => copy_pixel src (sidx y x) d (JS.shl (W * y + x) 2)) dst in
  length out = length dst /\
  (bytes dst -> bytes out) /\
  forall y x c, 0 <= y < h -> 0 <= x < W -> 0 <= c < 4 ->
    buf_get out (4 * (W * y + x) + c) = Some (JS.toUint8 (buf_get src (sidx y x + c))).
Proof.
  intros Hlen Hfit out. subst out. rewrite for_yx_cells.
  change (fun (acc : list Z) (yx : Z * Z) =>
            copy_pixel src (sidx (fst yx) (snd yx)) acc
              (JS.shl (W * fst yx + snd yx) 2))
    with (blit_step src sidx (fun y x => JS.shl (W * y + x) 2)).
  split; [apply blit_length | split; [apply blit_bytes |]].
  intros y x c Hy Hx Hc.
  rewrite <- (shl2_rowmajor W h y x Hy Hx Hfit).
  apply (blit_own src sidx (fun y x => JS.shl (W * y + x) 2)); try assumption.
  - apply NoDup_cells.
  - intros y1 x1 y2 x2 H1 H2 Hne.
    apply elem_of_cells in H1 as [Hy1 Hx1]. apply elem_of_cells in H2 as [Hy2 Hx2].
    rewrite (shl2_rowmajor W h y1 x1), (shl2_rowmajor W h y2 x2) by assumption.
    assert (W * y1 + x1 <> W * y2 + x2); [| lia].
    intros Heq. apply rowmajor_inj in Heq as [-> ->]; [congruence | lia | lia].
  - intros y' x' Hin. apply elem_of_cells in Hin as [Hy' Hx'].
    rewrite (shl2_rowmajor W h y' x') by assumption.
    pose proof (rowmajor_bound W h y' x' Hy' Hx'). lia.
  - apply elem_of_cells. auto.
Qed.

Lemma new_PNG_positive (w h : Z) :
  0 < w -> 0 < h -> 4 * (w * h) <= 2 ^ 31 ->
  width (new_PNG w h) = w /\ height (new_PNG w h) = h /\
  Z.of_nat (length (data (new_PNG w h))) = 4 * (w * h) /\
  bytes (data (new_PNG w h)) /\
  has_data (new_PNG w h) = true.
Proof.
  intros Hw Hh Hfit. unfold new_PNG, has_data. cbn [width height data].
  assert (w < 2 ^ 31 /\ h < 2 ^ 31) as [Hw' Hh'] by nia.
  rewrite !toInt32_small by lia.
  assert (Hpos : (0 <? w) && (0 <? h) = true).
  { apply andb_true_iff. split; apply Z.ltb_lt; assumption. }
  rewrite Hpos. repeat split.
  - rewrite length_replicate. lia.
  - unfold bytes. apply Forall_replicate. unfold is_byte. lia.
Qed.

Lemma wf_png_has_data (p : PNG) : wf_png p -> has_data p = true.
Proof.
  intros (Hw & Hh & _). unfold has_data.
  apply andb_true_iff. split; apply Z.ltb_lt; assumption.
Qed.

(** Pixel [(x, y)], channel [c], of an image. *)
Definition pixel_at (p : PNG) (x y c : Z) : JS.jsval :=
  buf_get (data p) (4 * (width p * y + x) + c).

Lemma wf_png_pixel (p : PNG) (x y c : Z) :
  wf_png p -> 0 <= x < width p -> 0 <= y < height p -> 0 <= c < 4 ->
  exists v, pixel_at p x y c = Some v /\ is_byte v.
Proof.
  intros (Hw & Hh & Hlen & Hb) Hx Hy Hc. unfold pixel_at.
  pose proof (rowmajor_bound (width p) (height p) y x Hy Hx).
  destruct (buf_get_Some (data p) (4 * (width p * y + x) + c)) as [v Hv]; [lia |].
  exists v. split; [exact Hv | eapply buf_get_byte; eassumption].
Qed.

(** ** [resizePng] *)

Lemma resize_source_in_range (n srcN newN : Z) :
  0 < srcN -> 0 < newN -> 0 <= n < newN -> 0 <= n * srcN / newN < srcN.
Proof.
  intros Hs Hn Hr. split.
  - apply Z.div_pos; nia.
  - apply Z.div_lt_upper_bound; nia.
Qed.

Lemma resizePng_spec (png : PNG) (newWidth newHeight : Z) :
  wf_png png -> 4 * (width png * height png) <= 2 ^ 31 ->
  1 <= newWidth -> 1 <= newHeight -> 4 * (newWidth * newHeight) <= 2 ^ 31 ->
  exists q,
    resizePng png newWidth newHeight = Returns q /\
    width q = newWidth /\ height q = newHeight /\ wf_png q /\
    forall x y c, 0 <= x < newWidth -> 0 <= y < newHeight -> 0 <= c < 4 ->
      pixel_at q x y c
        = pixel_at png (x * width png / newWidth) (y * height png / newHeight) c.
Proof.
  intros Hwf Hsrc Hw Hh Hfit.
  destruct (new_PNG_positive newWidth newHeight) as (Ew & Eh & Elen & Eb & Ed); try lia.
  unfold resizePng, copy_loops.
  rewrite (wf_png_has_data png Hwf), Ed. cbn [negb andb].
  rewrite andb_false_r.
  destruct (rowmajor_blit (data png)
              (fun y x => JS.shl (width png * (y * height png / newHeight)
                                  + x * width png / newWidth) 2)
              newWidth newHeight (data (new_PNG newWidth newHeight)) Elen Hfit)
    as (Hlen & Hbytes & Hget).
  eexists. split; [reflexivity |]. cbn [width height data]. rewrite Ew, Eh.
  split; [reflexivity | split; [reflexivity | split]].
  - unfold wf_png. cbn [width height data].
    unfold resizePng_body. rewrite Hlen.
    repeat split; try lia. apply Hbytes. exact Eb.
  - intros x y c Hx Hy Hc. unfold pixel_at at 1. cbn [width data].
    unfold resizePng_body. rewrite Hget by assumption.
    destruct Hwf as (Pw & Ph & Plen & Pb).
    pose proof (resize_source_in_range x (width png) newWidth Pw ltac:(lia) Hx) as Hsx.
    pose proof (resize_source_in_range y (height png) newHeight Ph ltac:(lia) Hy) as Hsy.
    rewrite (shl2_rowmajor (width png) (height png)) by assumption.
    destruct (wf_png_pixel png (x * width png / newWidth) (y * height png / newHeight) c)
      as (v & Hv & Bv); try assumption.
    { repeat split; assumption. }
    unfold pixel_at in *. rewrite Hv. cbn. f_equal. apply Z.mod_small. exact Bv.
Qed.

(** With a non-positive target dimension no iteration runs: an image with no
    data comes back and no error is raised. *)
Lemma resizePng_nonpositive (png : PNG) (newWidth newHeight : Z) :
  newWidth <= 0 \/ newHeight <= 0 ->
  resizePng png newWidth newHeight = Returns (new_PNG newWidth newHeight).
Proof.
  intros Hnp. unfold resizePng, copy_loops.
  assert (Hcond : (0 <? newHeight) && (0 <? newWidth) = false).
  { apply andb_false_iff. destruct Hnp; [right | left]; apply Z.ltb_ge; assumption. }
  rewrite Hcond. cbn [andb].
  unfold for_yx, JS.for_range.
  destruct Hnp as [Hw | Hh].
  - replace (Z.to_nat newWidth) with 0%nat by lia. cbn [seq map fold_left].
    assert (Hid : forall (l : list Z) (s : list Z),
              fold_left (fun acc (_ : Z) => acc) l s = s).
    { induction l; intros s; [reflexivity | apply IHl]. }
    rewrite Hid. destruct (new_PNG newWidth newHeight); reflexivity.
  - replace (Z.to_nat newHeight) with 0%nat by lia. cbn [seq map fold_left].
    destruct (new_PNG newWidth newHeight); reflexivity.
Qed.

(** C8 (amended).  [resizePng] checks nothing: with a non-positive target
    dimension it raises no error and returns an image without pixel data.
    With target dimensions of at least 1 (source a decoded image, both buffers
    within the reach of the 32-bit index arithmetic) it returns an image of
    exactly [newWidth] by [newHeight]; and when the products
    [srcW * newWidth] and [srcH * newHeight] do not exceed 2^53, so that
    every product [x * srcW], [y * srcH] the code divides is a whole number
    a double holds exactly, pixel [(x, y)] of the result is the source pixel
    [(floor(x*srcW/newWidth), floor(y*srcH/newHeight))]. *)
Theorem resizePng_nearest_neighbour (png : PNG) (newWidth newHeight : Z) :
  (newWidth <= 0 \/ newHeight <= 0 ->
     resizePng png newWidth newHeight = Returns (new_PNG newWidth newHeight)) /\
  (wf_png png -> 4 * (width png * height png) <= 2 ^ 31 ->
   1 <= newWidth -> 1 <= newHeight -> 4 * (newWidth * newHeight) <= 2 ^ 31 ->
   exists q,
     resizePng png newWidth newHeight = Returns q /\
     width q = newWidth /\ height q = newHeight /\
     Z.of_nat (length (data q)) = 4 * newWidth * newHeight /\
     (width png * newWidth <= 2 ^ 53 -> height png * newHeight <= 2 ^ 53 ->
      forall x y c, 0 <= x < newWidth -> 0 <= y < newHeight -> 0 <= c < 4 ->
        x * width png < 2 ^ 53 /\ y * height png < 2 ^ 53 /\
        pixel_at q x y c
          = pixel_at png (x * width png / newWidth) (y * height png / newHeight) c)).
Proof.
  split; [apply resizePng_nonpositive |].
  intros Hwf Hsrc Hw Hh Hfit. pose proof Hwf as (Pw & Ph & _).
  destruct (resizePng_spec png newWidth newHeight Hwf Hsrc Hw Hh Hfit)
    as (q & Hq & Ew & Eh & (_ & _ & Hlen & _) & Hpix).
  exists q. rewrite Ew, Eh in Hlen.
  split; [exact Hq |]. split; [exact Ew |]. split; [exact Eh |]. split; [exact Hlen |].
  intros Hpw Hph x y c Hx Hy Hc.
  split; [nia |]. split; [nia |]. apply Hpix; assumption.
Qed.

Lemma demo_png_wf : wf_png demo_png.
Proof.
  unfold wf_png, demo_png. cbn. repeat split; try lia. apply demo_pixels_rgba.
Defined.

Lemma resizePng_nearest_neighbour_witness :
  exists q,
    resizePng demo_png 4 2 = Returns q /\
    width q = 4 /\ height q = 2 /\
    Z.of_nat (length (data q)) = 4 * 4 * 2 /\
    forall x y c, 0 <= x < 4 -> 0 <= y < 2 -> 0 <= c < 4 ->
      x * width demo_png < 2 ^ 53 /\ y * height demo_png < 2 ^ 53 /\
      pixel_at q x y c = pixel_at demo_png (x * width demo_png / 4) (y * height demo_png / 2) c.
Proof.
  destruct (proj2 (resizePng_nearest_neighbour demo_png 4 2) demo_png_wf
              ltac:(cbn; lia) ltac:(lia) ltac:(lia) ltac:(lia))
    as (q & Hq & Ew & Eh & Hlen & Hpix).
  exists q. split; [exact Hq |]. split; [exact Ew |]. split; [exact Eh |].
  split; [exact Hlen |]. apply Hpix; cbn; lia.
Defined.

(** C8, as stated, fails: target dimensions 0 by 0, or negative ones, are
    accepted and an empty image is returned. *)
Lemma resizePng_accepts_zero :
  resizePng demo_png 0 0 = Returns (mkPNG 0 0 []) /\
  resizePng demo_png (-1) 3 = Returns (mkPNG (-1) 3 []).
Proof. split; reflexivity. Qed.

Example resizePng_twice_as_wide :
  resizePng demo_png 4 1
    = Returns (mkPNG 4 1 [200; 10; 10; 255; 200; 10; 10; 255; 1; 2; 3; 0; 1; 2; 3; 0]).
Proof. reflexivity. Qed.

(** * The container codec (cli/piskel-transform.js, cli/piskel-to-png.js) *)

(** ** Numbers that need not be finite *)

(** The tile arithmetic divides by [framesPerRow], which can be 0: its
    results are JavaScript numbers, possibly infinite or NaN. *)
Inductive jsnum :=
| Fin (z : Z)
| PosInf
| NegInf
| NaN.

(** [Math.floor(a / b)] for integers [a], [b]. *)
Definition js_floor_div (a b : Z) : jsnum :=
  if b =? 0 then
    (if a =? 0 then NaN else if 0 <? a then PosInf else NegInf)
  else Fin (a / b).

(** [n || 1]: 0 and NaN are falsy. *)
Definition js_or1 (n : jsnum) : jsnum :=
  match n with
  | Fin 0 => Fin 1
  | NaN => Fin 1
  | _ => n
  end.

(** [i % n] for an integer [i]. *)
Definition js_rem (i : Z) (n : jsnum) : jsnum :=
  match n with
  | Fin 0 => NaN
  | Fin m => Fin (Z.rem i m)
  | PosInf => Fin i
  | NegInf => Fin i
  | NaN => NaN
  end.

(** [Math.floor(i / n)] for an integer [i]. *)
Definition js_floor_quot (i : Z) (n : jsnum) : jsnum :=
  match n with
  | Fin m => js_floor_div i m
  | PosInf => Fin 0
  | NegInf => Fin 0
  | NaN => NaN
  end.

(** [n * z] for an integer [z]. *)
Definition js_mul (n : jsnum) (z : Z) : jsnum :=
  match n with
  | Fin a => Fin (a * z)
  | PosInf => if z =? 0 then NaN else if 0 <? z then PosInf else NegInf
  | NegInf => if z =? 0 then NaN else if 0 <? z then NegInf else PosInf
  | NaN => NaN
  end.

(** [n + m] *)
Definition js_add (n m : jsnum) : jsnum :=
  match n, m with
  | Fin a, Fin c => Fin (a + c)
  | NaN, _ => NaN
  | _, NaN => NaN
  | PosInf, NegInf => NaN
  | NegInf, PosInf => NaN
  | PosInf, _ => PosInf
  | _, PosInf => PosInf
  | NegInf, _ => NegInf
  | _, NegInf => NegInf
  end.

(** [n << 2]: [ToInt32] sends NaN and the infinities to 0. *)
Definition js_shl2 (n : jsnum) : Z :=
  match n with
  | Fin z => JS.shl z 2
  | _ => 0
  end.

(** [(png.width * (frameY + y) + (frameX + x)) << 2] *)
Definition tile_index (png : PNG) (frameX frameY : jsnum) (y x : Z) : Z :=
  js_shl2 (js_add (js_mul (js_add frameY (Fin y)) (width png)) (js_add frameX (Fin x))).

(** [(i % framesPerRow) * frameWidth] and
    [Math.floor(i / framesPerRow) * frameHeight] *)
Definition tile_x (i : Z) (framesPerRow : jsnum) (frameWidth : Z) : jsnum :=
  js_mul (js_rem i framesPerRow) frameWidth.

Definition tile_y (i : Z) (framesPerRow : jsnum) (frameHeight : Z) : jsnum :=
  js_mul (js_floor_quot i framesPerRow) frameHeight.

(** [v > 0] for a buffer element. *)
Definition positive (v : JS.jsval) : bool :=
  match v with
  | Some z => 0 <? z
  | None => false
  end.

(** ** [findContentBounds] *)

Record bounds_acc := mkAcc {
  accMinX : Z; accMinY : Z; accMaxX : Z; accMaxY : Z; hasContent : bool
}.

Definition findContentBounds_scan (png : PNG) : bounds_acc :=
  for_yx (height png) (width png)
    (fun y x acc =>
       let idx := JS.shl (width png * y + x) 2 in
       if positive (buf_get (data png) (idx + 3))
       then mkAcc (Z.min (accMinX acc) x) (Z.min (accMinY acc) y)
                  (Z.max (accMaxX acc) x) (Z.max (accMaxY acc) y) true
       else acc)
    (mkAcc (width png) (height png) 0 0 false).

Definition findContentBounds (png : PNG) : Rect :=
  let acc := findContentBounds_scan png in
  if negb (hasContent acc)
  then mkRect 0 0 (width png) (height png)
  else mkRect (accMinX acc) (accMinY acc)
              (accMaxX acc - accMinX acc + 1) (accMaxY acc - accMinY acc + 1).

(** ** [transformPiskel] *)

(** The options are those with whole numbers: [--resize WxH] with two
    numerals, [--scale N] with a numeral without a fraction, for which
    [parseFloat] gives the integer and [Math.round] of the product is the
    product. *)
Record Options := mkOptions {
  opt_crop : bool;
  opt_resize : option (Z * Z);   (* "WxH", split and converted *)
  opt_scale : option Z           (* an integer factor *)
}.

(** The first pass: [globalMinX], [globalMinY] ([None] is [Infinity]),
    [globalMaxX], [globalMaxY]. *)
Record global_acc := mkGlobal {
  globalMinX : option Z; globalMinY : option Z; globalMaxX : Z; globalMaxY : Z
}.

(** [Math.min(m, x)] with [m] possibly [Infinity]. *)
Definition min_inf (m : option Z) (x : Z) : option Z :=
  match m with
  | None => Some x
  | Some v => Some (Z.min v x)
  end.

Definition global_point (acc : global_acc) (x y : Z) : global_acc :=
  mkGlobal (min_inf (globalMinX acc) x) (min_inf (globalMinY acc) y)
           (Z.max (globalMaxX acc) x) (Z.max (globalMaxY acc) y).

(** The scan of one layout slot [i] in the first pass. *)
Definition bounds_slot (png : PNG) (frameWidth frameHeight : Z) (framesPerRow : jsnum)
    (i : Z) (acc : global_acc) : global_acc :=
  let frameX := tile_x i framesPerRow frameWidth in
  let frameY := tile_y i framesPerRow frameHeight in
  for_yx frameHeight frameWidth
    (fun y x acc =>
       let idx := tile_index png frameX frameY y x in
       if positive (buf_get (data png) (idx + 3)) then global_point acc x y else acc)
    acc.

(** One chunk in the first pass; note [framesPerRow] has no [|| 1] here. *)
Definition bounds_chunk (frameWidth frameHeight : Z) (acc : global_acc) (c : Chunk)
  : global_acc :=
  match base64PNG c with
  | None => acc
  | Some png =>
      let framesPerRow := js_floor_div (width png) frameWidth in
      fold_left (fun acc i => bounds_slot png frameWidth frameHeight framesPerRow i acc)
                (range (Z.of_nat (length (layout c)))) acc
  end.

(** [layerData.chunks || []] *)
Definition chunks_or_empty (l : Layer) : list Chunk :=
  match chunks l with
  | Some cs => cs
  | None => []
  end.

Definition bounds_layer (frameWidth frameHeight : Z) (acc : global_acc) (l : Layer)
  : global_acc :=
  fold_left (bounds_chunk frameWidth frameHeight) (chunks_or_empty l) acc.

Definition global_bounds (doc : Piskel) : global_acc :=
  fold_left (bounds_layer (piskel_width doc) (piskel_height doc)) (layers doc)
            (mkGlobal None None 0 0).

(** The crop rectangle that the first pass settles on, if any: the test
    [globalMinX <= globalMaxX && globalMinY <= globalMaxY] is false while a
    minimum is still [Infinity]. *)
Definition cropBounds_of (acc : global_acc) : option Rect :=
  match globalMinX acc, globalMinY acc with
  | Some minX, Some minY =>
      if (minX <=? globalMaxX acc) && (minY <=? globalMaxY acc)
      then Some (mkRect minX minY (globalMaxX acc - minX + 1) (globalMaxY acc - minY + 1))
      else None
  | _, _ => None
  end.

Definition crop_pass (doc : Piskel) (options : Options) : option Rect :=
  if opt_crop options then cropBounds_of (global_bounds doc) else None.

(** [options.scale] is truthy. *)
Definition truthy_scale (s : option Z) : option Z :=
  match s with
  | Some 0 => None
  | other => other
  end.

(** The target dimensions, after the crop pass and the resize or scale
    options. *)
Definition target_dims (doc : Piskel) (options : Options) (cropBounds : option Rect)
  : Z * Z :=
  let base :=
    match cropBounds with
    | Some b => (rect_width b, rect_height b)
    | None => (piskel_width doc, piskel_height doc)
    end in
  match opt_resize options with
  | Some wh => wh
  | None =>
      match truthy_scale (opt_scale options) with
      | Some s => (fst base * s, snd base * s)
      | None => base
      end
  end.

(** Sequencing of calls that may throw. *)
Definition obind {A B : Type} (o : outcome A) (f : A -> outcome B) : outcome B :=
  match o with
  | Returns a => f a
  | Throws e => Throws e
  end.

(** "Extract frame": the tile at [(originX, originY)] of the sheet, copied
    into a new image of the frame size. *)
Definition extract_tile (png : PNG) (frameWidth frameHeight : Z) (originX originY : jsnum)
  : outcome PNG :=
  let framePng := new_PNG frameWidth frameHeight in
  obind (copy_loops frameHeight frameWidth png framePng
           (fun y x d =>
              copy_pixel (data png) (tile_index png originX originY y x) d
                         (JS.shl (frameWidth * y + x) 2)))
        (fun d => Returns (mkPNG (width framePng) (height framePng) d)).

(** "Crop if needed", then "Resize if needed". *)
Definition transform_frame (cropBounds : option Rect) (newWidth newHeight : Z)
    (framePng : PNG) : outcome PNG :=
  obind (match cropBounds with
         | Some b => cropPng framePng b
         | None => Returns framePng
         end)
        (fun framePng =>
           if negb (width framePng =? newWidth) || negb (height framePng =? newHeight)
           then resizePng framePng newWidth newHeight
           else Returns framePng).

(** "Copy to new spritesheet" *)
Definition paste_frame (framePng newSheet : PNG) (f newWidth newHeight : Z)
  : outcome PNG :=
  let dstFrameX := f * newWidth in
  obind (copy_loops newHeight newWidth framePng newSheet
           (fun y x d =>
              copy_pixel (data framePng) (JS.shl (newWidth * y + x) 2) d
                         (JS.shl (width newSheet * y + (dstFrameX + x)) 2)))
        (fun d => Returns (mkPNG (width newSheet) (height newSheet) d)).

(** The body of [for (let f = 0; f < numFrames; f++)]. *)
Definition transform_slot (png : PNG) (frameWidth frameHeight : Z) (framesPerRow : jsnum)
    (cropBounds : option Rect) (newWidth newHeight : Z) (f : Z) (newSheet : PNG)
  : outcome PNG :=
  let srcFrameX := tile_x f framesPerRow frameWidth in
  let srcFrameY := tile_y f framesPerRow frameHeight in
  obind (extract_tile png frameWidth frameHeight srcFrameX srcFrameY) (fun framePng =>
  obind (transform_frame cropBounds newWidth newHeight framePng) (fun framePng =>
  paste_frame framePng newSheet f newWidth newHeight)).

Fixpoint transform_slots (step : Z -> PNG -> outcome PNG) (fs : list Z) (newSheet : PNG)
  : outcome PNG :=
  match fs with
  | [] => Returns newSheet
  | f :: rest => obind (step f newSheet) (transform_slots step rest)
  end.

(** [chunk.layout.map((_, idx) => [idx])] *)
Definition linear_layout (n : nat) : list (list Z) :=
  map (fun idx => [Z.of_nat idx]) (seq 0 n).

(** One chunk in the second pass; [framesPerRow] has its [|| 1] here. *)
Definition transform_chunk (frameWidth frameHeight : Z) (cropBounds : option Rect)
    (newWidth newHeight : Z) (c : Chunk) : outcome Chunk :=
  match base64PNG c with
  | None => Returns c
  | Some png =>
      let framesPerRow := js_or1 (js_floor_div (width png) frameWidth) in
      let numFrames := Z.of_nat (length (layout c)) in
      let newSheet := new_PNG (newWidth * numFrames) newHeight in
      obind (transform_slots
               (transform_slot png frameWidth frameHeight framesPerRow
                               cropBounds newWidth newHeight)
               (range numFrames) newSheet)
            (fun sheet => Returns (mkChunk (linear_layout (length (layout c))) (Some sheet)))
  end.

Fixpoint transform_chunks (step : Chunk -> outcome Chunk) (cs : list Chunk)
  : outcome (list Chunk) :=
  match cs with
  | [] => Returns []
  | c :: rest =>
      obind (step c) (fun c' =>
      obind (transform_chunks step rest) (fun rest' => Returns (c' :: rest')))
  end.

Definition transform_layer (step : Chunk -> outcome Chunk) (l : Layer) : outcome Layer :=
  match chunks l with
  | None => Returns l
  | Some cs =>
      obind (transform_chunks step cs) (fun cs' =>
        Returns (mkLayer (layer_name l) (opacity l) (frameCount l) (Some cs')
                         (layer_base64PNG l)))
  end.

Fixpoint transform_layers (step : Chunk -> outcome Chunk) (ls : list Layer)
  : outcome (list Layer) :=
  match ls with
  | [] => Returns []
  | l :: rest =>
      obind (transform_layer step l) (fun l' =>
      obind (transform_layers step rest) (fun rest' => Returns (l' :: rest')))
  end.

(** [transformPiskel]: the document that is written out. *)
Definition transformPiskel (doc : Piskel) (options : Options) : outcome Piskel :=
  let cropBounds := crop_pass doc options in
  let '(newWidth, newHeight) := target_dims doc options cropBounds in
  obind (transform_layers
           (transform_chunk (piskel_width doc) (piskel_height doc) cropBounds
                            newWidth newHeight)
           (layers doc))
        (fun ls =>
           Returns (mkPiskel (piskel_name doc) (fps doc) newWidth newHeight ls
                             (hiddenFrames doc))).

(** ** Bounding boxes *)

(** The bounding box of a set of pixels: [minX, minY, maxX, maxY], or nothing
    for the empty set. *)
Definition hull := option (Z * Z * Z * Z).

(** Adding the cell [(y, x)]. *)
Definition hull_point (h : hull) (yx : Z * Z) : hull :=
  let y := fst yx in
  let x := snd yx in
  match h with
  | None => Some (x, y, x, y)
  | Some (a, b0, c, d) => Some (Z.min a x, Z.min b0 y, Z.max c x, Z.max d y)
  end.

Definition hull_of (ps : list (Z * Z)) : hull := fold_left hull_point ps None.

Definition hull_join (h1 h2 : hull) : hull :=
  match h1, h2 with
  | None, h => h
  | h, None => h
  | Some (a1, b1, c1, d1), Some (a2, b2, c2, d2) =>
      Some (Z.min a1 a2, Z.min b1 b2, Z.max c1 c2, Z.max d1 d2)
  end.

Definition rect_of_hull (h : hull) : option Rect :=
  match h with
  | None => None
  | Some (a, b0, c, d) => Some (mkRect a b0 (c - a + 1) (d - b0 + 1))
  end.




(** The content rectangle of one frame: what [findContentBounds] computes
    when the frame has a pixel with alpha above 0, and nothing otherwise. *)
Definition content_rect (frame : PNG) : option Rect :=
  if hasContent (findContentBounds_scan frame)
  then Some (findContentBounds frame)
  else None.

Lemma hull_fold_join (ps : list (Z * Z)) :
  forall h, fold_left hull_point ps h = hull_join h (hull_of ps).
Proof.
  unfold hull_of. induction ps as [| p ps IH]; intros h.
  - destruct h as [[[[a b0] c] d] |]; reflexivity.
  - cbn [fold_left]. rewrite IH. rewrite (IH (hull_point None p)).
    destruct h as [[[[a b0] c] d] |]; cbn [hull_point hull_join];
      [| reflexivity].
    destruct (fold_left hull_point ps None) as [[[[a2 b2] c2] d2] |];
      cbn [hull_join]; [| reflexivity].
    f_equal. f_equal; [f_equal; [f_equal |] |]; lia.
Qed.

Lemma hull_of_app (ps qs : list (Z * Z)) :
  hull_of (ps ++ qs) = hull_join (hull_of ps) (hull_of qs).
Proof. unfold hull_of at 1. rewrite fold_left_app. apply hull_fold_join. Qed.

Definition hull_valid (h : hull) : Prop :=
  match h with
  | None => True
  | Some (a, b0, c, d) => a <= c /\ b0 <= d
  end.

Lemma hull_point_valid (h : hull) (p : Z * Z) : hull_valid h -> hull_valid (hull_point h p).
Proof.
  destruct h as [[[[a b0] c] d] |]; cbn; lia.
Qed.

Lemma hull_of_valid (ps : list (Z * Z)) : hull_valid (hull_of ps).
Proof.
  unfold hull_of. generalize (I : hull_valid None). generalize (@None (Z * Z * Z * Z)).
  induction ps as [| p ps IH]; intros h Hh; [exact Hh |].
  cbn [fold_left]. apply IH. apply hull_point_valid. exact Hh.
Qed.

Lemma hull_join_valid (h1 h2 : hull) :
  hull_valid h1 -> hull_valid h2 -> hull_valid (hull_join h1 h2).
Proof.
  destruct h1 as [[[[a1 b1] c1] d1] |], h2 as [[[[a2 b2] c2] d2] |]; cbn; lia.
Qed.


(** A scan that adds the cells passing a test is a fold over those cells. *)
Lemma for_yx_filter {S : Type} (h w : Z) (test : Z -> Z -> bool) (add : S -> Z -> Z -> S)
    (s : S) :
  for_yx h w (fun y x acc => if test y x then add acc x y else acc) s
  = fold_left (fun acc yx => add acc (snd yx) (fst yx))
      (List.filter (fun yx => test (fst yx) (snd yx)) (cells h w)) s.
Proof.
  rewrite for_yx_cells. generalize (cells h w) as cs. intros cs. revert s.
  induction cs as [| [y x] cs IH]; intros s; [reflexivity |].
  cbn [fold_left List.filter fst snd].
  destruct (test y x); cbn [fold_left fst snd]; apply IH.
Qed.

Lemma filter_ext_cells (cs : list (Z * Z)) (t1 t2 : Z * Z -> bool) :
  (forall yx, yx ∈ cs -> t1 yx = t2 yx) -> List.filter t1 cs = List.filter t2 cs.
Proof.
  induction cs as [| p cs IH]; intros Hext; [reflexivity |].
  cbn [List.filter]. rewrite (Hext p) by (apply elem_of_cons; left; reflexivity).
  rewrite IH; [reflexivity |].
  intros yx Hin. apply Hext. apply elem_of_cons. right. exact Hin.
Qed.

Lemma filter_cells_range (h w : Z) (t : Z * Z -> bool) :
  Forall (fun yx => 0 <= fst yx < h /\ 0 <= snd yx < w) (List.filter t (cells h w)).
Proof.
  apply Forall_forall. intros [y x] Hin.
  apply list_elem_of_In, filter_In in Hin as [Hin _].
  apply list_elem_of_In, elem_of_cells in Hin. exact Hin.
Qed.

(** The first pass keeps its four variables in step with the bounding box. *)
Definition repr_global (h : hull) : global_acc :=
  match h with
  | None => mkGlobal None None 0 0
  | Some (a, b0, c, d) => mkGlobal (Some a) (Some b0) c d
  end.

Lemma global_fold_repr (ps : list (Z * Z)) :
  forall h,
    Forall (fun yx => 0 <= fst yx /\ 0 <= snd yx) ps ->
    fold_left (fun acc yx => global_point acc (snd yx) (fst yx)) ps (repr_global h)
    = repr_global (fold_left hull_point ps h).
Proof.
  induction ps as [| [y x] ps IH]; intros h Hps; [reflexivity |].
  apply Forall_cons in Hps as [[Hy Hx] Hps]. cbn [fst snd] in *.
  cbn [fold_left]. rewrite <- IH by exact Hps. f_equal.
  destruct h as [[[[a b0] c] d] |]; cbn; [reflexivity |].
  unfold global_point. cbn. f_equal; lia.
Qed.

Lemma cropBounds_of_repr (h : hull) :
  hull_valid h -> cropBounds_of (repr_global h) = rect_of_hull h.
Proof.
  destruct h as [[[[a b0] c] d] |]; cbn; [| reflexivity].
  intros [Hac Hbd]. unfold cropBounds_of. cbn.
  destruct (Z.leb_spec a c); [| lia]. destruct (Z.leb_spec b0 d); [| lia]. reflexivity.
Qed.

(** [findContentBounds] keeps its five variables in step with it too. *)
Definition repr_frame (w h : Z) (hl : hull) : bounds_acc :=
  match hl with
  | None => mkAcc w h 0 0 false
  | Some (a, b0, c, d) => mkAcc a b0 c d true
  end.

Definition frame_point (acc : bounds_acc) (x y : Z) : bounds_acc :=
  mkAcc (Z.min (accMinX acc) x) (Z.min (accMinY acc) y)
        (Z.max (accMaxX acc) x) (Z.max (accMaxY acc) y) true.

Lemma frame_fold_repr (w h : Z) (ps : list (Z * Z)) :
  forall hl,
    Forall (fun yx => 0 <= fst yx < h /\ 0 <= snd yx < w) ps ->
    fold_left (fun acc yx => frame_point acc (snd yx) (fst yx)) ps (repr_frame w h hl)
    = repr_frame w h (fold_left hull_point ps hl).
Proof.
  induction ps as [| [y x] ps IH]; intros hl Hps; [reflexivity |].
  apply Forall_cons in Hps as [[Hy Hx] Hps]. cbn [fst snd] in *.
  cbn [fold_left]. rewrite <- IH by exact Hps. f_equal.
  destruct hl as [[[[a b0] c] d] |]; cbn; [reflexivity |].
  unfold frame_point. cbn. f_equal; lia.
Qed.

(** The cells of a frame whose alpha is above 0. *)
Definition content_cells (frame : PNG) : list (Z * Z) :=
  List.filter
    (fun yx => positive (buf_get (data frame)
                           (JS.shl (width frame * fst yx + snd yx) 2 + 3)))
    (cells (height frame) (width frame)).

Lemma findContentBounds_scan_hull (frame : PNG) :
  findContentBounds_scan frame
  = repr_frame (width frame) (height frame) (hull_of (content_cells frame)).
Proof.
  unfold findContentBounds_scan.
  rewrite (for_yx_filter (height frame) (width frame)
             (fun y x => positive (buf_get (data frame)
                                     (JS.shl (width frame * y + x) 2 + 3)))
             frame_point).
  apply (frame_fold_repr (width frame) (height frame) _ None).
  apply filter_cells_range.
Qed.


(** ** Decoding the frames of a chunk *)

(** Layout slot [i] as the second pass decodes it, with
    [framesPerRow = Math.floor(png.width / frameWidth) || 1]. *)
Definition decode_frame (png : PNG) (frameWidth frameHeight : Z) (i : Z) : outcome PNG :=
  let framesPerRow := js_or1 (js_floor_div (width png) frameWidth) in
  extract_tile png frameWidth frameHeight
    (tile_x i framesPerRow frameWidth) (tile_y i framesPerRow frameHeight).

Definition chunk_frames (frameWidth frameHeight : Z) (c : Chunk) : list (outcome PNG) :=
  match base64PNG c with
  | None => []
  | Some png =>
      map (decode_frame png frameWidth frameHeight) (range (Z.of_nat (length (layout c))))
  end.

Definition layer_frames (frameWidth frameHeight : Z) (l : Layer) : list (outcome PNG) :=
  flat_map (chunk_frames frameWidth frameHeight) (chunks_or_empty l).

(** Every frame of every chunk of every layer, in document order. *)
Definition doc_frames (doc : Piskel) : list (outcome PNG) :=
  flat_map (layer_frames (piskel_width doc) (piskel_height doc)) (layers doc).

(** A chunk whose sheet is a decoded image at least one frame wide. *)
Definition chunk_wf (frameWidth : Z) (c : Chunk) : Prop :=
  match base64PNG c with
  | None => True
  | Some png => wf_png png /\ frameWidth <= width png
  end.

(** A container with positive frame dimensions (within reach of the 32-bit
    index arithmetic) whose sheets are decoded images at least one frame
    wide. *)
Definition doc_wf (doc : Piskel) : Prop :=
  1 <= piskel_width doc /\ 1 <= piskel_height doc /\
  4 * (piskel_width doc * piskel_height doc) <= 2 ^ 31 /\
  Forall (fun l => Forall (chunk_wf (piskel_width doc)) (chunks_or_empty l)) (layers doc).

Lemma extract_tile_spec (png : PNG) (fw fh : Z) (ox oy : jsnum) :
  has_data png = true -> 1 <= fw -> 1 <= fh -> 4 * (fw * fh) <= 2 ^ 31 ->
  exists F,
    extract_tile png fw fh ox oy = Returns F /\
    width F = fw /\ height F = fh /\ wf_png F /\
    forall y x c, 0 <= y < fh -> 0 <= x < fw -> 0 <= c < 4 ->
      buf_get (data F) (4 * (fw * y + x) + c)
        = Some (JS.toUint8 (buf_get (data png) (tile_index png ox oy y x + c))).
Proof.
  intros Hdata Hw Hh Hfit.
  destruct (new_PNG_positive fw fh) as (Ew & Eh & Elen & Eb & Ed); try lia.
  unfold extract_tile, copy_loops. rewrite Hdata, Ed. cbn [negb andb].
  rewrite andb_false_r. cbn [obind].
  destruct (rowmajor_blit (data png) (fun y x => tile_index png ox oy y x)
              fw fh (data (new_PNG fw fh)) Elen Hfit) as (Hlen & Hbytes & Hget).
  eexists. split; [reflexivity |]. cbn [width height data]. rewrite Ew, Eh.
  split; [reflexivity | split; [reflexivity | split]].
  - unfold wf_png. cbn [width height data]. rewrite Hlen.
    repeat split; try lia. apply Hbytes. exact Eb.
  - exact Hget.
Qed.

Lemma positive_toUint8 (d : list Z) (j : Z) :
  bytes d -> positive (Some (JS.toUint8 (buf_get d j))) = positive (buf_get d j).
Proof.
  intros Hd. destruct (buf_get d j) as [v|] eqn:Hv; [| reflexivity].
  apply (buf_get_byte d j v Hd) in Hv. cbn. unfold is_byte in Hv.
  rewrite Z.mod_small by lia. reflexivity.
Qed.

(** With a sheet at least one frame wide, [|| 1] changes nothing. *)
Lemma framesPerRow_wide (w fw : Z) :
  1 <= fw -> fw <= w -> js_or1 (js_floor_div w fw) = js_floor_div w fw.
Proof.
  intros Hfw Hw. unfold js_floor_div.
  destruct (Z.eqb_spec fw 0); [lia |].
  assert (1 <= w / fw) by (apply Z.div_le_lower_bound; lia).
  destruct (w / fw) eqn:E; try lia; reflexivity.
Qed.

(** The first pass over one slot adds the content cells of the decoded
    frame. *)
Lemma bounds_slot_hull (png : PNG) (fw fh i : Z) (h : hull) :
  wf_png png -> 1 <= fw -> 1 <= fh -> 4 * (fw * fh) <= 2 ^ 31 -> fw <= width png ->
  exists F,
    decode_frame png fw fh i = Returns F /\
    width F = fw /\ height F = fh /\ wf_png F /\
    bounds_slot png fw fh (js_floor_div (width png) fw) i (repr_global h)
    = repr_global (hull_join h (hull_of (content_cells F))).
Proof.
  intros Hwf Hfw Hfh Hfit Hwide. unfold decode_frame.
  rewrite (framesPerRow_wide (width png) fw Hfw Hwide).
  set (fpr := js_floor_div (width png) fw).
  destruct (extract_tile_spec png fw fh (tile_x i fpr fw) (tile_y i fpr fh)
              (wf_png_has_data png Hwf) Hfw Hfh Hfit) as (F & HF & Ew & Eh & HwfF & Hget).
  exists F. split; [exact HF |]. split; [exact Ew |]. split; [exact Eh |].
  split; [exact HwfF |].
  unfold bounds_slot.
  rewrite (for_yx_filter fh fw
             (fun y x => positive (buf_get (data png)
                                     (tile_index png (tile_x i fpr fw) (tile_y i fpr fh) y x + 3)))
             global_point).
  rewrite global_fold_repr.
  - rewrite hull_fold_join. do 3 f_equal.
    unfold content_cells. rewrite Ew, Eh.
    apply filter_ext_cells. intros [y x] Hin. cbn [fst snd].
    apply elem_of_cells in Hin as [Hy Hx].
    rewrite (shl2_rowmajor fw fh y x Hy Hx Hfit), Hget by (try assumption; lia).
    symmetry. apply positive_toUint8. apply Hwf.
  - eapply Forall_impl; [apply filter_cells_range |]. cbn. intros yx. lia.
Qed.

(** Folding the content of a list of frames into a bounding box. *)
Definition add_frame (h : hull) (F : PNG) : hull := hull_join h (hull_of (content_cells F)).

Lemma add_frames_valid (Fs : list PNG) :
  forall h, hull_valid h -> hull_valid (fold_left add_frame Fs h).
Proof.
  induction Fs as [| F Fs IH]; intros h Hh; [exact Hh |].
  cbn [fold_left]. apply IH. apply hull_join_valid; [exact Hh | apply hull_of_valid].
Qed.


Lemma bounds_slots_hull (png : PNG) (fw fh : Z) (slots : list Z) :
  wf_png png -> 1 <= fw -> 1 <= fh -> 4 * (fw * fh) <= 2 ^ 31 -> fw <= width png ->
  exists Fs,
    map (decode_frame png fw fh) slots = map Returns Fs /\
    Forall (fun F => width F = fw /\ height F = fh /\ wf_png F) Fs /\
    forall h,
      fold_left (fun acc i => bounds_slot png fw fh (js_floor_div (width png) fw) i acc)
                slots (repr_global h)
      = repr_global (fold_left add_frame Fs h).
Proof.
  intros Hwf Hfw Hfh Hfit Hwide.
  induction slots as [| i slots IH].
  - exists []. split; [reflexivity | split; [constructor | reflexivity]].
  - destruct IH as (Fs & Hmap & Hall & Hfold).
    destruct (bounds_slot_hull png fw fh i None Hwf Hfw Hfh Hfit Hwide)
      as (F & HF & Ew & Eh & HwfF & _).
    exists (F :: Fs). split; [cbn [map]; rewrite HF, Hmap; reflexivity |].
    split; [constructor; auto |].
    intros h. cbn [fold_left].
    destruct (bounds_slot_hull png fw fh i h Hwf Hfw Hfh Hfit Hwide)
      as (F' & HF' & _ & _ & _ & Hstep).
    assert (F' = F) by congruence. subst F'.
    rewrite Hstep. apply Hfold.
Qed.

Lemma bounds_chunk_hull (fw fh : Z) (c : Chunk) :
  1 <= fw -> 1 <= fh -> 4 * (fw * fh) <= 2 ^ 31 -> chunk_wf fw c ->
  exists Fs,
    chunk_frames fw fh c = map Returns Fs /\
    Forall (fun F => width F = fw /\ height F = fh /\ wf_png F) Fs /\
    forall h, bounds_chunk fw fh (repr_global h) c = repr_global (fold_left add_frame Fs h).
Proof.
  intros Hfw Hfh Hfit Hc. unfold chunk_frames, bounds_chunk, chunk_wf in *.
  destruct (base64PNG c) as [png|].
  - destruct Hc as [Hwf Hwide].
    apply bounds_slots_hull; assumption.
  - exists []. split; [reflexivity | split; [constructor | reflexivity]].
Qed.

Lemma bounds_chunks_hull (fw fh : Z) (cs : list Chunk) :
  1 <= fw -> 1 <= fh -> 4 * (fw * fh) <= 2 ^ 31 -> Forall (chunk_wf fw) cs ->
  exists Fs,
    flat_map (chunk_frames fw fh) cs = map Returns Fs /\
    Forall (fun F => width F = fw /\ height F = fh /\ wf_png F) Fs /\
    forall h,
      fold_left (bounds_chunk fw fh) cs (repr_global h)
      = repr_global (fold_left add_frame Fs h).
Proof.
  intros Hfw Hfh Hfit Hcs.
  induction cs as [| c cs IH].
  - exists []. split; [reflexivity | split; [constructor | reflexivity]].
  - apply Forall_cons in Hcs as [Hc Hcs].
    destruct (IH Hcs) as (Fs2 & Hmap2 & Hall2 & Hfold2).
    destruct (bounds_chunk_hull fw fh c Hfw Hfh Hfit Hc) as (Fs1 & Hmap1 & Hall1 & Hfold1).
    exists (Fs1 ++ Fs2). split; [| split].
    + cbn [flat_map]. rewrite Hmap1, Hmap2, map_app. reflexivity.
    + apply Forall_app. split; assumption.
    + intros h. cbn [fold_left]. rewrite Hfold1, Hfold2, fold_left_app. reflexivity.
Qed.

Lemma global_bounds_hull (doc : Piskel) :
  doc_wf doc ->
  exists Fs,
    doc_frames doc = map Returns Fs /\
    Forall (fun F => width F = piskel_width doc /\ height F = piskel_height doc /\ wf_png F) Fs /\
    global_bounds doc = repr_global (fold_left add_frame Fs None).
Proof.
  intros (Hfw & Hfh & Hfit & Hls). unfold global_bounds, doc_frames.
  set (fw := piskel_width doc) in *. set (fh := piskel_height doc) in *.
  change (mkGlobal None None 0 0) with (repr_global None).
  generalize (@None (Z * Z * Z * Z)) as h.
  induction (layers doc) as [| l ls IH]; intros h.
  - exists []. split; [reflexivity | split; [constructor | reflexivity]].
  - apply Forall_cons in Hls as [Hl Hls].
    destruct (bounds_chunks_hull fw fh (chunks_or_empty l) Hfw Hfh Hfit Hl)
      as (Fs1 & Hmap1 & Hall1 & Hfold1).
    cbn [fold_left flat_map]. unfold bounds_layer at 2, layer_frames at 1.
    rewrite Hfold1, Hmap1.
    destruct (IH Hls (fold_left add_frame Fs1 h)) as (Fs2 & Hmap2 & Hall2 & Hfold2).
    exists (Fs1 ++ Fs2). split; [| split].
    + rewrite Hmap2, map_app. reflexivity.
    + apply Forall_app. split; assumption.
    + rewrite Hfold2, fold_left_app. reflexivity.
Qed.

(** ** Bounding boxes stay inside the frame *)

Definition hull_within (fw fh : Z) (h : hull) : Prop :=
  match h with
  | None => True
  | Some (a, b0, c, d) => 0 <= a /\ a <= c /\ c < fw /\ 0 <= b0 /\ b0 <= d /\ d < fh
  end.

Lemma hull_fold_within (fw fh : Z) (ps : list (Z * Z)) :
  forall h,
    hull_within fw fh h ->
    Forall (fun yx => 0 <= fst yx < fh /\ 0 <= snd yx < fw) ps ->
    hull_within fw fh (fold_left hull_point ps h).
Proof.
  induction ps as [| [y x] ps IH]; intros h Hh Hps; [exact Hh |].
  apply Forall_cons in Hps as [[Hy Hx] Hps]. cbn [fst snd] in *.
  cbn [fold_left]. apply IH; [| exact Hps].
  destruct h as [[[[a b0] c] d] |]; cbn in *; lia.
Qed.

Lemma hull_join_within (fw fh : Z) (h1 h2 : hull) :
  hull_within fw fh h1 -> hull_within fw fh h2 -> hull_within fw fh (hull_join h1 h2).
Proof.
  destruct h1 as [[[[a1 b1] c1] d1] |], h2 as [[[[a2 b2] c2] d2] |]; cbn; lia.
Qed.

Lemma add_frames_within (fw fh : Z) (Fs : list PNG) :
  forall h,
    hull_within fw fh h ->
    Forall (fun F => width F = fw /\ height F = fh /\ wf_png F) Fs ->
    hull_within fw fh (fold_left add_frame Fs h).
Proof.
  induction Fs as [| F Fs IH]; intros h Hh HFs; [exact Hh |].
  apply Forall_cons in HFs as [(Ew & Eh & _) HFs].
  cbn [fold_left]. apply IH; [| exact HFs].
  apply hull_join_within; [exact Hh |].
  unfold hull_of, content_cells. apply hull_fold_within; [exact I |].
  rewrite Ew, Eh. apply filter_cells_range.
Qed.

(** A rectangle that lies inside a frame of the given size. *)
Definition rect_within (fw fh : Z) (R : Rect) : Prop :=
  0 <= rect_x R /\ 1 <= rect_width R /\ rect_x R + rect_width R <= fw /\
  0 <= rect_y R /\ 1 <= rect_height R /\ rect_y R + rect_height R <= fh.

Lemma rect_of_hull_within (fw fh : Z) (h : hull) (R : Rect) :
  hull_within fw fh h -> rect_of_hull h = Some R -> rect_within fw fh R.
Proof.
  destruct h as [[[[a b0] c] d] |]; cbn; [| discriminate].
  intros Hh [= <-]. unfold rect_within. cbn. lia.
Qed.

(** ** [cropPng] and the re-encoding of a chunk *)

Lemma cropPng_spec (F : PNG) (R : Rect) :
  wf_png F -> 4 * (width F * height F) <= 2 ^ 31 ->
  rect_within (width F) (height F) R ->
  exists C,
    cropPng F R = Returns C /\
    width C = rect_width R /\ height C = rect_height R /\ wf_png C /\
    forall x y c, 0 <= x < rect_width R -> 0 <= y < rect_height R -> 0 <= c < 4 ->
      pixel_at C x y c = pixel_at F (x + rect_x R) (y + rect_y R) c.
Proof.
  intros Hwf Hfit (Hx0 & Hw1 & Hxw & Hy0 & Hh1 & Hyh).
  assert (Hfit' : 4 * (rect_width R * rect_height R) <= 2 ^ 31).
  { destruct Hwf as (Pw & Ph & _).
    assert (rect_width R * rect_height R <= width F * height F)
      by (apply Z.mul_le_mono_nonneg; lia).
    lia. }
  destruct (new_PNG_positive (rect_width R) (rect_height R)) as (Ew & Eh & Elen & Eb & Ed);
    try lia.
  unfold cropPng, copy_loops.
  rewrite (wf_png_has_data F Hwf), Ed. cbn [negb andb]. rewrite andb_false_r.
  destruct (rowmajor_blit (data F)
              (fun y x => JS.shl (width F * (y + rect_y R) + (x + rect_x R)) 2)
              (rect_width R) (rect_height R)
              (data (new_PNG (rect_width R) (rect_height R))) Elen Hfit')
    as (Hlen & Hbytes & Hget).
  eexists. split; [reflexivity |]. cbn [width height data]. rewrite Ew, Eh.
  split; [reflexivity | split; [reflexivity | split]].
  - unfold wf_png. cbn [width height data]. unfold cropPng_body. rewrite Hlen.
    repeat split; try lia. apply Hbytes. exact Eb.
  - intros x y c Hx Hy Hc. unfold pixel_at at 1. cbn [width data].
    unfold cropPng_body. rewrite Hget by assumption.
    rewrite (shl2_rowmajor (width F) (height F)) by (try assumption; lia).
    destruct (wf_png_pixel F (x + rect_x R) (y + rect_y R) c) as (v & Hv & Bv);
      try assumption; try lia.
    unfold pixel_at in *. rewrite Hv. cbn. f_equal. apply Z.mod_small. exact Bv.
Qed.

(** An image of [n] tiles of [newW] by [newH] side by side. *)
Definition sheet_of (n newW newH : Z) (S : PNG) : Prop :=
  width S = newW * n /\ height S = newH /\
  Z.of_nat (length (data S)) = 4 * (newW * n * newH) /\ bytes (data S).

Lemma tile_column (n newW f x : Z) :
  0 <= f < n -> 0 <= x < newW -> 0 <= f * newW + x < newW * n.
Proof. intros Hf Hx. nia. Qed.

Lemma paste_frame_spec (T S : PNG) (n newW newH f : Z) :
  wf_png T -> width T = newW -> height T = newH ->
  sheet_of n newW newH S -> 4 * (newW * n * newH) <= 2 ^ 31 -> 0 <= f < n ->
  exists S',
    paste_frame T S f newW newH = Returns S' /\
    sheet_of n newW newH S' /\
    (forall x y c, 0 <= x < newW -> 0 <= y < newH -> 0 <= c < 4 ->
       pixel_at S' (f * newW + x) y c = pixel_at T x y c) /\
    (forall f' x y c, 0 <= f' < n -> f' <> f ->
       0 <= x < newW -> 0 <= y < newH -> 0 <= c < 4 ->
       pixel_at S' (f' * newW + x) y c = pixel_at S (f' * newW + x) y c).
Proof.
  intros HwfT Ew Eh (Sw & Sh & Slen & Sb) Hfit Hf.
  pose proof HwfT as (Pw & Ph & Plen & Pb). rewrite Ew, Eh in *.
  assert (HSdata : has_data S = true).
  { unfold has_data. rewrite Sw, Sh. apply andb_true_iff.
    split; apply Z.ltb_lt; nia. }
  unfold paste_frame, copy_loops.
  rewrite (wf_png_has_data T HwfT), HSdata. cbn [negb andb]. rewrite andb_false_r.
  cbn [obind]. rewrite for_yx_cells.
  set (sidx := fun y x : Z => JS.shl (newW * y + x) 2).
  set (didx := fun y x : Z => JS.shl (width S * y + (f * newW + x)) 2).
  change (fun (acc : list Z) (yx : Z * Z) =>
            copy_pixel (data T) (JS.shl (newW * fst yx + snd yx) 2) acc
              (JS.shl (width S * fst yx + (f * newW + snd yx)) 2))
    with (blit_step (data T) sidx didx).
  assert (Hsfit : 4 * (newW * newH) <= 2 ^ 31) by nia.
  assert (Hdidx : forall y x, 0 <= y < newH -> 0 <= x < newW ->
            didx y x = 4 * (newW * n * y + (f * newW + x))).
  { intros y x Hy Hx. unfold didx. rewrite Sw.
    apply (shl2_rowmajor (newW * n) newH); [exact Hy | apply tile_column; assumption | lia]. }
  assert (Hbound : forall g y x, 0 <= g < n -> 0 <= y < newH -> 0 <= x < newW ->
            0 <= newW * n * y + (g * newW + x) < newW * n * newH).
  { intros g y x Hg Hy Hx. apply rowmajor_bound; [exact Hy | apply tile_column; assumption]. }
  eexists. split; [reflexivity |]. split; [| split].
  - unfold sheet_of. cbn [width height data]. rewrite blit_length.
    repeat split; try assumption. apply blit_bytes. exact Sb.
  - intros x y c Hx Hy Hc. unfold pixel_at. cbn [width data]. rewrite Sw, Ew.
    rewrite <- (Hdidx y x Hy Hx).
    rewrite (blit_own (data T) sidx didx); try assumption.
    + unfold sidx. rewrite (shl2_rowmajor newW newH) by assumption.
      destruct (wf_png_pixel T x y c HwfT) as (v & Hv & Bv); try lia.
      unfold pixel_at in Hv. rewrite Ew in Hv. rewrite Hv. cbn. f_equal.
      apply Z.mod_small. exact Bv.
    + apply NoDup_cells.
    + intros y1 x1 y2 x2 H1 H2 Hne.
      apply elem_of_cells in H1 as [Hy1 Hx1]. apply elem_of_cells in H2 as [Hy2 Hx2].
      rewrite (Hdidx y1 x1), (Hdidx y2 x2) by assumption.
      assert (newW * n * y1 + (f * newW + x1) <> newW * n * y2 + (f * newW + x2)); [| lia].
      intros Heq. apply rowmajor_inj in Heq as [-> Hcol];
        [| apply tile_column; assumption | apply tile_column; assumption].
      assert (x1 = x2) by lia. congruence.
    + intros y' x' Hin. apply elem_of_cells in Hin as [Hy' Hx'].
      rewrite (Hdidx y' x') by assumption.
      pose proof (Hbound f y' x' Hf Hy' Hx'). lia.
    + apply elem_of_cells. auto.
  - intros f' x y c Hf' Hne Hx Hy Hc. unfold pixel_at. cbn [width data]. rewrite Sw.
    apply blit_other. intros y' x' Hin. apply elem_of_cells in Hin as [Hy' Hx'].
    rewrite (Hdidx y' x') by assumption.
    assert (newW * n * y + (f' * newW + x) <> newW * n * y' + (f * newW + x')); [| lia].
    intros Heq. apply rowmajor_inj in Heq as [-> Hcol];
      [| apply tile_column; assumption | apply tile_column; assumption].
    rewrite !(Z.mul_comm _ newW) in Hcol.
    apply rowmajor_inj in Hcol as [-> _]; [congruence | lia | lia].
Qed.

(** ** The second pass: crop, then resize, the same for every frame *)

Definition crop_only : Options := mkOptions true None None.

(** The rectangle every frame is cut to: the crop rectangle, or the whole
    frame when there is none. *)
Definition applied_rect (fw fh : Z) (crop : option Rect) : Rect :=
  match crop with
  | Some R => R
  | None => mkRect 0 0 fw fh
  end.

Lemma target_dims_crop_only (doc : Piskel) (crop : option Rect) :
  target_dims doc crop_only crop
  = (rect_width (applied_rect (piskel_width doc) (piskel_height doc) crop),
     rect_height (applied_rect (piskel_width doc) (piskel_height doc) crop)).
Proof. destruct crop; reflexivity. Qed.

Lemma new_sheet_of (n newW newH : Z) :
  0 <= n -> 1 <= newW -> 1 <= newH ->
  4 * (newW * newH) <= 2 ^ 31 -> 4 * (newW * n * newH) <= 2 ^ 31 ->
  sheet_of n newW newH (new_PNG (newW * n) newH).
Proof.
  intros Hn Hw Hh Hfit1 Hfit. unfold sheet_of.
  destruct (Z.eq_dec n 0) as [-> | Hn0].
  - unfold new_PNG. rewrite Z.mul_0_r. cbn [width height data].
    rewrite (toInt32_small 0), (toInt32_small newH) by nia.
    cbn. repeat split; try lia. constructor.
  - destruct (new_PNG_positive (newW * n) newH) as (Ew & Eh & Elen & Eb & _); try nia.
    auto.
Qed.

Section Slots.

Variables (png : PNG) (fw fh : Z) (crop : option Rect) (newW newH n : Z).

(** Slot [f] decodes to a frame that transforms to [T]. *)
Definition slot_result (f : Z) (T : PNG) : Prop :=
  exists F, decode_frame png fw fh f = Returns F /\
            transform_frame crop newW newH F = Returns T.

Hypothesis slots_ok :
  forall f, 0 <= f < n ->
    exists T, slot_result f T /\ wf_png T /\ width T = newW /\ height T = newH.
Hypothesis sheet_fits : 4 * (newW * n * newH) <= 2 ^ 31.

Local Abbreviation step :=
  (transform_slot png fw fh (js_or1 (js_floor_div (width png) fw)) crop newW newH).

(** Tile [f] of the sheet [S] shows the image [T]. *)
Definition tile_shows (S : PNG) (f : Z) (T : PNG) : Prop :=
  forall x y c, 0 <= x < newW -> 0 <= y < newH -> 0 <= c < 4 ->
    pixel_at S (f * newW + x) y c = pixel_at T x y c.

Lemma transform_slots_spec (fs : list Z) :
  forall S,
    NoDup fs -> (forall f, f ∈ fs -> 0 <= f < n) -> sheet_of n newW newH S ->
    exists S',
      transform_slots step fs S = Returns S' /\
      sheet_of n newW newH S' /\
      (forall f, f ∈ fs -> exists T, slot_result f T /\ tile_shows S' f T) /\
      (forall f x y c, f ∉ fs -> 0 <= f < n ->
         0 <= x < newW -> 0 <= y < newH -> 0 <= c < 4 ->
         pixel_at S' (f * newW + x) y c = pixel_at S (f * newW + x) y c).
Proof.
  induction fs as [| f0 fs IH]; intros S Hnd Hrange HS.
  - exists S. split; [reflexivity |]. split; [exact HS |]. split; [| reflexivity].
    intros f Hf. inversion Hf.
  - apply NoDup_cons in Hnd as [Hnotin Hnd].
    assert (Hf0 : 0 <= f0 < n) by (apply Hrange; apply elem_of_cons; left; reflexivity).
    destruct (slots_ok f0 Hf0) as (T & (F & HF & HT) & HwfT & Tw & Th).
    destruct (paste_frame_spec T S n newW newH f0 HwfT Tw Th HS sheet_fits Hf0)
      as (S1 & HS1 & Hsheet1 & Hown & Hother).
    destruct (IH S1 Hnd) as (S' & HS' & Hsheet' & Hin & Hout); [| exact Hsheet1 |].
    { intros f Hf. apply Hrange. apply elem_of_cons. right. exact Hf. }
    exists S'. split; [| split; [exact Hsheet' | split]].
    + cbn [transform_slots]. unfold transform_slot at 1.
      fold (decode_frame png fw fh f0). rewrite HF. cbn [obind].
      rewrite HT. cbn [obind]. rewrite HS1. cbn [obind]. exact HS'.
    + intros f Hf. apply elem_of_cons in Hf as [-> | Hf]; [| apply Hin; exact Hf].
      exists T. split; [exists F; auto |].
      intros x y c Hx Hy Hc. rewrite Hout by assumption. apply Hown; assumption.
    + intros f x y c Hf Hfr Hx Hy Hc. rewrite not_elem_of_cons in Hf.
      destruct Hf as [Hne Hf]. rewrite Hout by assumption.
      apply Hother; assumption.
Qed.

End Slots.

(** The re-encoded sheet of a chunk stays within reach of the 32-bit index
    arithmetic. *)
Definition chunk_fits (newW newH : Z) (c : Chunk) : Prop :=
  4 * (newW * Z.of_nat (length (layout c)) * newH) <= 2 ^ 31.

(** The target dimensions are positive and every re-encoded sheet fits. *)
Definition targets_fit (doc : Piskel) (options : Options) : Prop :=
  let newW := fst (target_dims doc options (crop_pass doc options)) in
  let newH := snd (target_dims doc options (crop_pass doc options)) in
  1 <= newW /\ 1 <= newH /\ 4 * (newW * newH) <= 2 ^ 31 /\
  Forall (fun l => Forall (chunk_fits newW newH) (chunks_or_empty l)) (layers doc).

Section Transform.

Variables (fw fh : Z) (crop : option Rect) (newW newH : Z).
Hypothesis Hfw : 1 <= fw.
Hypothesis Hfh : 1 <= fh.
Hypothesis Hfit : 4 * (fw * fh) <= 2 ^ 31.
Hypothesis Hcrop : forall R, crop = Some R -> rect_within fw fh R.
Hypothesis HnewW : 1 <= newW.
Hypothesis HnewH : 1 <= newH.
Hypothesis Hnewfit : 4 * (newW * newH) <= 2 ^ 31.

Local Abbreviation Re := (applied_rect fw fh crop).

Lemma applied_rect_within : rect_within fw fh Re.
Proof.
  destruct crop as [R|]; cbn; [apply Hcrop; reflexivity |].
  unfold rect_within. cbn. lia.
Qed.

(** "Crop if needed" *)
Lemma crop_stage_spec (F : PNG) :
  wf_png F -> width F = fw -> height F = fh ->
  exists C,
    match crop with
    | Some b0 => cropPng F b0
    | None => Returns F
    end = Returns C /\
    wf_png C /\ width C = rect_width Re /\ height C = rect_height Re /\
    forall x y c, 0 <= x < rect_width Re -> 0 <= y < rect_height Re -> 0 <= c < 4 ->
      pixel_at C x y c = pixel_at F (x + rect_x Re) (y + rect_y Re) c.
Proof.
  intros Hwf Ew Eh.
  destruct crop as [R|] eqn:Ecrop; cbn [applied_rect rect_width rect_height rect_x rect_y].
  - destruct (cropPng_spec F R Hwf) as (C & HC & Cw & Ch & CwF & Cpix).
    + rewrite Ew, Eh. exact Hfit.
    + rewrite Ew, Eh. apply Hcrop. reflexivity.
    + exists C. auto.
  - exists F. repeat split; try assumption; try apply Hwf.
    intros x y c _ _ _. rewrite !Z.add_0_r. reflexivity.
Qed.

(** "Crop if needed", then "Resize if needed". *)
Lemma transform_frame_spec (F : PNG) :
  wf_png F -> width F = fw -> height F = fh ->
  exists T,
    transform_frame crop newW newH F = Returns T /\
    wf_png T /\ width T = newW /\ height T = newH /\
    forall x y c, 0 <= x < newW -> 0 <= y < newH -> 0 <= c < 4 ->
      pixel_at T x y c
      = pixel_at F (x * rect_width Re / newW + rect_x Re)
                   (y * rect_height Re / newH + rect_y Re) c.
Proof.
  intros Hwf Ew Eh.
  pose proof applied_rect_within as (Rx & Rw & Rxw & Ry & Rh & Ryh).
  destruct (crop_stage_spec F Hwf Ew Eh) as (C & HC & HwfC & Cw & Ch & Cpix).
  unfold transform_frame. rewrite HC. cbn [obind].
  destruct (negb (width C =? newW) || negb (height C =? newH)) eqn:Hd.
  - destruct (resizePng_spec C newW newH HwfC) as (q & Hq & Qw & Qh & HwfQ & Qpix);
      try assumption.
    { rewrite Cw, Ch.
      assert (rect_width Re * rect_height Re <= fw * fh)
        by (apply Z.mul_le_mono_nonneg; lia).
      lia. }
    exists q. split; [exact Hq |]. split; [exact HwfQ |].
    split; [exact Qw | split; [exact Qh |]].
    intros x y c Hx Hy Hc. rewrite Qpix by assumption. rewrite Cw, Ch.
    apply Cpix; try assumption; apply resize_source_in_range; lia.
  - apply orb_false_iff in Hd as [Hdw Hdh].
    apply negb_false_iff, Z.eqb_eq in Hdw, Hdh.
    exists C. split; [reflexivity |]. split; [exact HwfC |].
    split; [exact Hdw | split; [exact Hdh |]].
    intros x y c Hx Hy Hc.
    rewrite <- Cw, <- Ch, Hdw, Hdh, !Z.div_mul by lia.
    apply Cpix; [rewrite <- Cw, Hdw | rewrite <- Ch, Hdh |]; assumption.
Qed.

End Transform.


(** ** Concrete containers *)

Definition bytesb (d : list Z) : bool := forallb (fun v => (0 <=? v) && (v <? 256)) d.

Lemma bytesb_sound (d : list Z) : bytesb d = true -> bytes d.
Proof.
  unfold bytesb, bytes. intros H. apply Forall_forall. intros v Hv.
  rewrite forallb_forall in H. specialize (H v (proj1 (list_elem_of_In _ _) Hv)).
  apply andb_true_iff in H as [H0 H1].
  apply Z.leb_le in H0. apply Z.ltb_lt in H1. split; assumption.
Defined.

(** A sheet of [w] by [h] pixels, black, opaque exactly where [opaque x y]. *)
Definition mask_sheet (w h : Z) (opaque : Z -> Z -> bool) : PNG :=
  mkPNG w h
    (flat_map (fun yx => [0; 0; 0; if opaque (snd yx) (fst yx) then 255 else 0]) (cells h w)).

(** The scenario of the specification: two frames of 4 by 4; the content of
    frame 0 occupies (0,0,2,2), that of frame 1 occupies (1,1,3,3). *)
Definition scenario_sheet : PNG :=
  mask_sheet 8 4
    (fun x y => ((x <? 2) && (y <? 2)) || ((5 <=? x) && (1 <=? y))).

Definition scenario_doc : Piskel :=
  mkPiskel "scenario"%string 12 4 4
    [mkLayer "Layer 1"%string 1 2 (Some [mkChunk [[0]; [1]] (Some scenario_sheet)]) None]
    [].

Example scenario_crop_rectangle :
  crop_pass scenario_doc crop_only = Some (mkRect 0 0 4 4) /\
  map (fun o => match o with Returns F => content_rect F | Throws _ => None end)
      (doc_frames scenario_doc)
    = [Some (mkRect 0 0 2 2); Some (mkRect 1 1 3 3)].
Proof. split; vm_compute; reflexivity. Qed.

Lemma scenario_doc_wf : doc_wf scenario_doc.
Proof.
  unfold doc_wf. cbn [scenario_doc piskel_width piskel_height layers].
  split; [lia | split; [lia | split; [lia |]]].
  constructor; [| constructor]. cbn. constructor; [| constructor].
  unfold chunk_wf. cbn. split; [| lia].
  unfold wf_png. cbn [scenario_sheet mask_sheet width height data].
  split; [lia | split; [lia | split; [reflexivity |]]].
  apply bytesb_sound. reflexivity.
Defined.

(** Crop and resize to 8 by 8 at once. *)
Definition crop_and_resize : Options := mkOptions true (Some (8, 8)) None.

Lemma scenario_targets_fit : targets_fit scenario_doc crop_and_resize.
Proof.
  unfold targets_fit. cbn [crop_and_resize target_dims opt_resize fst snd].
  split; [lia | split; [lia | split; [lia |]]].
  cbn [scenario_doc layers]. constructor; [| constructor]. cbn.
  constructor; [| constructor]. unfold chunk_fits. cbn. lia.
Defined.

(** A container whose only sheet (1 by 2) is narrower than its frames (2 by
    1): the second pixel of the sheet is opaque. *)
Definition narrow_sheet : PNG := mkPNG 1 2 [0; 0; 0; 0; 9; 9; 9; 255].

Definition narrow_doc : Piskel :=
  mkPiskel "narrow"%string 12 2 1
    [mkLayer "Layer 1"%string 1 1 (Some [mkChunk [[0]] (Some narrow_sheet)]) None]
    [].

(** ** Where the decoders look for a tile *)

(** With [|| 1], as in the second pass and in the export tool, the tile of
    slot [i] is at column [i mod tilesPerRow] and row [i div tilesPerRow] for
    [tilesPerRow = max(1, floor(sheetWidth / frameWidth))]. *)
Lemma tile_position_with_or1 (sheetWidth frameWidth frameHeight i : Z) :
  1 <= frameWidth -> 0 <= sheetWidth -> 0 <= i ->
  let tilesPerRow := Z.max 1 (sheetWidth / frameWidth) in
  js_or1 (js_floor_div sheetWidth frameWidth) = Fin tilesPerRow /\
  tile_x i (Fin tilesPerRow) frameWidth = Fin ((i mod tilesPerRow) * frameWidth) /\
  tile_y i (Fin tilesPerRow) frameHeight = Fin ((i / tilesPerRow) * frameHeight).
Proof.
  intros Hfw Hw Hi tilesPerRow.
  assert (Hq : 0 <= sheetWidth / frameWidth) by (apply Z.div_pos; lia).
  assert (Ht : 1 <= tilesPerRow) by (unfold tilesPerRow; lia).
  split; [| split].
  - unfold js_floor_div. destruct (Z.eqb_spec frameWidth 0); [lia |].
    unfold tilesPerRow. destruct (sheetWidth / frameWidth) eqn:E; cbn; try lia.
    + reflexivity.
    + f_equal. lia.
  - unfold tile_x, js_rem. destruct tilesPerRow eqn:E; try lia.
    cbn [js_mul]. rewrite Z.rem_mod_nonneg by lia. reflexivity.
  - unfold tile_y, js_floor_quot, js_floor_div.
    destruct (Z.eqb_spec tilesPerRow 0); [lia |]. reflexivity.
Qed.

(** C5: the first pass of [transformPiskel] has no [|| 1].  On the narrow
    container its [framesPerRow] is 0 instead of max(1, 0) = 1, the tile
    column [0 % 0] is NaN, every pixel index collapses to 0, and the opaque
    pixel that the decoded frame holds at (1, 0) is never seen: the crop is
    skipped although the frame has the content rectangle (1,0,1,1). *)
Lemma first_pass_misses_narrow_sheet :
  js_floor_div (width narrow_sheet) (piskel_width narrow_doc) = Fin 0 /\
  js_or1 (js_floor_div (width narrow_sheet) (piskel_width narrow_doc)) = Fin 1 /\
  tile_x 0 (Fin 0) (piskel_width narrow_doc) = NaN /\
  tile_index narrow_sheet NaN NaN 0 1 = 0 /\
  doc_frames narrow_doc = [Returns (mkPNG 2 1 [0; 0; 0; 0; 9; 9; 9; 255])] /\
  content_rect (mkPNG 2 1 [0; 0; 0; 0; 9; 9; 9; 255]) = Some (mkRect 1 0 1 1) /\
  crop_pass narrow_doc crop_only = None.
Proof. repeat split; vm_compute; reflexivity. Qed.

(** The effect on the whole transform: the narrow container keeps its size of
    2 by 1, where cutting the frame to its content would give 1 by 1. *)
Example narrow_sheet_not_cropped :
  match transformPiskel narrow_doc crop_only with
  | Returns doc' => Some (piskel_width doc', piskel_height doc')
  | Throws _ => None
  end = Some (2, 1).
Proof. vm_compute. reflexivity. Qed.

(** * Export to PNG (cli/piskel-to-png.js) *)

(** [scalePng(png, scale)] for an integer [scale]. *)
Definition scalePng (png : PNG) (scale : Z) : outcome PNG :=
  if scale =? 1 then Returns png
  else
    let newWidth := width png * scale in
    let newHeight := height png * scale in
    let scaled := new_PNG newWidth newHeight in
    obind (copy_loops newHeight newWidth png scaled
             (fun y x d =>
                let srcX := x / scale in
                let srcY := y / scale in
                let srcIdx := JS.shl (width png * srcY + srcX) 2 in
                let dstIdx := JS.shl (newWidth * y + x) 2 in
                copy_pixel (data png) srcIdx d dstIdx))
          (fun d => Returns (mkPNG (width scaled) (height scaled) d)).

(** [frames[frameIdx] = framePng] on a JavaScript array: an index past the
    end extends the array with holes; [undefined] or a negative number names
    a property that is no element. *)
Definition array_set (frames : list (option PNG)) (frameIdx : JS.jsval) (v : PNG)
  : list (option PNG) :=
  match frameIdx with
  | None => frames
  | Some k =>
      if k <? 0 then frames
      else if (Z.to_nat k <? length frames)%nat then <[Z.to_nat k := Some v]> frames
      else frames ++ replicate (Z.to_nat k - length frames)%nat None ++ [Some v]
  end.

(** The slots of one chunk in [extractFrames]; each entry of [slots] is a
    slot number with its layout entry. *)
Fixpoint extract_slots (sheetPng : PNG) (frameWidth frameHeight : Z) (framesPerRow : jsnum)
    (slots : list (Z * list Z)) (frames : list (option PNG))
  : outcome (list (option PNG)) :=
  match slots with
  | [] => Returns frames
  | (i, entry) :: rest =>
      let frameIdx := head entry in
      let srcX := tile_x i framesPerRow frameWidth in
      let srcY := tile_y i framesPerRow frameHeight in
      obind (extract_tile sheetPng frameWidth frameHeight srcX srcY) (fun framePng =>
        extract_slots sheetPng frameWidth frameHeight framesPerRow rest
                      (array_set frames frameIdx framePng))
  end.

(** The layout entries with their slot numbers. *)
Definition numbered {A : Type} (l : list A) : list (Z * A) :=
  combine (range (Z.of_nat (length l))) l.

Fixpoint extract_chunks (frameWidth frameHeight : Z) (cs : list Chunk)
    (frames : list (option PNG)) : outcome (list (option PNG)) :=
  match cs with
  | [] => Returns frames
  | chunk :: rest =>
      match base64PNG chunk with
      | None => extract_chunks frameWidth frameHeight rest frames
      | Some sheetPng =>
          let framesPerRow := js_or1 (js_floor_div (width sheetPng) frameWidth) in
          obind (extract_slots sheetPng frameWidth frameHeight framesPerRow
                               (numbered (layout chunk)) frames)
                (extract_chunks frameWidth frameHeight rest)
      end
  end.

(** [extractFrames(piskelData)]: only [layers[0]] is parsed; without it
    [JSON.parse(undefined)] throws. *)
Definition extractFrames (piskelData : Piskel) : outcome (list (option PNG)) :=
  let frameWidth := piskel_width piskelData in
  let frameHeight := piskel_height piskelData in
  match head (layers piskelData) with
  | None => Throws SyntaxError
  | Some layerData =>
      extract_chunks frameWidth frameHeight (chunks_or_empty layerData) []
  end.

(** One frame of [createSpritesheet]; a hole in [frames] is dereferenced in
    the first iteration of the copy loops. *)
Definition sheet_slot (frameWidth frameHeight cols : Z) (i : Z) (frame : option PNG)
    (sheet : PNG) : outcome PNG :=
  let col := Z.rem i cols in
  let row := i / cols in
  let dstX := col * frameWidth in
  let dstY := row * frameHeight in
  match frame with
  | None =>
      if (0 <? frameHeight) && (0 <? frameWidth) then Throws TypeError else Returns sheet
  | Some frame =>
      obind (copy_loops frameHeight frameWidth frame sheet
               (fun y x d =>
                  let srcIdx := JS.shl (frameWidth * y + x) 2 in
                  let dstIdx := JS.shl (width sheet * (dstY + y) + (dstX + x)) 2 in
                  copy_pixel (data frame) srcIdx d dstIdx))
            (fun d => Returns (mkPNG (width sheet) (height sheet) d))
  end.

Fixpoint sheet_slots (frameWidth frameHeight cols : Z) (fs : list (Z * option PNG))
    (sheet : PNG) : outcome PNG :=
  match fs with
  | [] => Returns sheet
  | (i, frame) :: rest =>
      obind (sheet_slot frameWidth frameHeight cols i frame sheet)
            (sheet_slots frameWidth frameHeight cols rest)
  end.

(** [columns || frames.length]: [None] is a missing or NaN option. *)
Definition columns_or (columns : option Z) (n : Z) : Z :=
  match columns with
  | None => n
  | Some 0 => n
  | Some c => c
  end.

(** [createSpritesheet(frames, columns)]; [None] is [null]. *)
Definition createSpritesheet (frames : list (option PNG)) (columns : option Z)
  : outcome (option PNG) :=
  match frames with
  | [] => Returns None
  | None :: _ => Throws TypeError
  | Some first :: _ =>
      let frameWidth := width first in
      let frameHeight := height first in
      let n := Z.of_nat (length frames) in
      let cols := columns_or columns n in
      let rows := - ((- n) / cols) in
      let sheet := new_PNG (frameWidth * cols) (frameHeight * rows) in
      obind (sheet_slots frameWidth frameHeight cols (numbered frames) sheet)
            (fun s => Returns (Some s))
  end.

(** The options of the export tool: [frame] is [None] when not given and
    [Some None] when given but not a number. *)
Record ExportOptions := mkExport {
  x_scale : Z;
  x_frame : option (option Z);
  x_columns : option Z
}.

(** What [exportPiskel] writes and reports. *)
Record Exported := mkExported { out_png : PNG; out_frames : Z }.

Definition exportPiskel (data : Piskel) (options : ExportOptions) : outcome Exported :=
  obind (extractFrames data) (fun frames =>
  obind (match x_frame options with
         | Some (Some k) =>
             if (k <? 0) || (Z.of_nat (length frames) <=? k)
             then Throws FrameOutOfRange
             else Returns (mjoin (frames !! Z.to_nat k))
         | Some None => Returns None
         | None => createSpritesheet frames (x_columns options)
         end) (fun outputPng =>
  match outputPng with
  | None => Throws NoFramesFound
  | Some png =>
      obind (if negb (x_scale options =? 0) && negb (x_scale options =? 1)
             then scalePng png (x_scale options)
             else Returns png)
            (fun png => Returns (mkExported png (Z.of_nat (length frames))))
  end)).

(** C10.  The export reads nothing but the frame size and the first layer:
    two documents that agree on width, height and [layers[0]] yield the same
    frames and the same exported image (or the same exception), for every
    frame index, column count and scale. *)
Theorem export_depends_on_first_layer (d1 d2 : Piskel) (options : ExportOptions) :
  piskel_width d1 = piskel_width d2 ->
  piskel_height d1 = piskel_height d2 ->
  head (layers d1) = head (layers d2) ->
  extractFrames d1 = extractFrames d2 /\
  exportPiskel d1 options = exportPiskel d2 options.
Proof.
  intros Hw Hh Hl.
  assert (Hframes : extractFrames d1 = extractFrames d2).
  { unfold extractFrames. rewrite Hw, Hh, Hl. reflexivity. }
  split; [exact Hframes |].
  unfold exportPiskel. rewrite Hframes. reflexivity.
Qed.

(** The demo document with two more layers of other content. *)
Definition demo_doc_more_layers : Piskel :=
  mkPiskel "other"%string 24 2 1
    [mkLayer "Layer 1"%string 1 1 (Some [mkChunk [[0]] (Some demo_png)]) None;
     mkLayer "Layer 2"%string 1 1 (Some [mkChunk [[0]] (Some narrow_sheet)]) None;
     mkLayer "Layer 3"%string 0 1 None None]
    [1].

Lemma export_depends_on_first_layer_witness :
  extractFrames demo_doc = extractFrames demo_doc_more_layers /\
  exportPiskel demo_doc (mkExport 2 None None)
    = exportPiskel demo_doc_more_layers (mkExport 2 None None).
Proof.
  apply (export_depends_on_first_layer demo_doc demo_doc_more_layers (mkExport 2 None None));
    reflexivity.
Defined.

Example export_demo :
  exportPiskel demo_doc (mkExport 1 (Some (Some 0)) None)
    = Returns (mkExported demo_png 1) /\
  exportPiskel demo_doc (mkExport 1 (Some (Some 1)) None) = Throws FrameOutOfRange.
Proof. split; reflexivity. Qed.

(** * Palette sources (cli/palette-match.js) *)

(** A file's text is the list of its code units; the model covers the code
    units below 256.  Numerals are read exactly ([parseInt] is exact below
    2^53). *)
Definition text := list ascii.

Definition LF : ascii := Ascii.ascii_of_nat 10.

(** White space for [trim] and for [\s]: tab, line feed, vertical tab, form
    feed, carriage return, space, no-break space. *)
Definition is_space (c : ascii) : bool :=
  let n := Ascii.nat_of_ascii c in
  ((9 <=? n) && (n <=? 13))%nat || (n =? 32)%nat || (n =? 160)%nat.

(** [\d] *)
Definition is_digit (c : ascii) : bool :=
  let n := Ascii.nat_of_ascii c in
  ((48 <=? n) && (n <=? 57))%nat.

Definition digit_value (c : ascii) : Z := Z.of_nat (Ascii.nat_of_ascii c) - 48.

(** [content.split('\n')] *)
Fixpoint split_lines (s : text) : list text :=
  match s with
  | [] => [[]]
  | c :: rest =>
      if Ascii.eqb c LF then [] :: split_lines rest
      else
        match split_lines rest with
        | l :: ls => (c :: l) :: ls
        | [] => [[c]]
        end
  end.

Fixpoint drop_while (p : ascii -> bool) (s : text) : text :=
  match s with
  | [] => []
  | c :: rest => if p c then drop_while p rest else s
  end.

Fixpoint take_while (p : ascii -> bool) (s : text) : text :=
  match s with
  | [] => []
  | c :: rest => if p c then c :: take_while p rest else []
  end.

(** [line.trim()] *)
Definition trim (s : text) : text :=
  rev (drop_while is_space (rev (drop_while is_space s))).

(** [s.startsWith(prefix)] *)
Fixpoint starts_with (prefix s : text) : bool :=
  match prefix, s with
  | [], _ => true
  | _ :: _, [] => false
  | p :: ps, c :: cs => Ascii.eqb p c && starts_with ps cs
  end.

(** [parseInt] of a run of decimal digits: the number the digits spell.
    [parseInt] gives that number for runs of up to fifteen digits (it rounds
    above 2^53). *)
Definition parse_decimal (digits : text) : Z :=
  fold_left (fun acc c => 10 * acc + digit_value c) digits 0.

(** One capture group [(\d+)]: the greedy run of digits, which must not be
    empty, and the rest of the input. *)
Definition match_digits (s : text) : option (Z * text) :=
  match take_while is_digit s with
  | [] => None
  | ds => Some (parse_decimal ds, drop_while is_digit s)
  end.

(** A separator [sep+]: a non-empty greedy run. *)
Definition match_separator (sep : ascii -> bool) (s : text) : option text :=
  match take_while sep s with
  | [] => None
  | _ => Some (drop_while sep s)
  end.

(** [(\d+) sep+ (\d+) sep+ (\d+)] at the start of [s].  The runs are greedy
    and a shorter run never lets the match succeed (what follows a shortened
    run is a character of the run itself), so no backtracking is involved. *)
Definition match_three (sep : ascii -> bool) (s : text) : option Color :=
  match match_digits s with
  | None => None
  | Some (r0, s1) =>
      match match_separator sep s1 with
      | None => None
      | Some s2 =>
          match match_digits s2 with
          | None => None
          | Some (g0, s3) =>
              match match_separator sep s3 with
              | None => None
              | Some s4 =>
                  match match_digits s4 with
                  | None => None
                  | Some (b0, _) => Some (mkColor r0 g0 b0)
                  end
              end
          end
      end
  end.

Definition text_of (s : string) : text := list_ascii_of_string s.

(** One line of a GIMP palette:
    [trimmed.match(/^\s*(\d+)\s+(\d+)\s+(\d+)/)] unless the line is skipped. *)
Definition gpl_line (line : text) : option Color :=
  let trimmed := trim line in
  match trimmed with
  | [] => None
  | _ =>
      if starts_with (text_of "#") trimmed || starts_with (text_of "GIMP") trimmed
         || starts_with (text_of "Name:") trimmed
         || starts_with (text_of "Columns:") trimmed
      then None
      else match_three is_space (drop_while is_space trimmed)
  end.

(** [parseGplPalette(content)]: every matching line pushes its colour. *)
Definition parseGplPalette (content : text) : list Color :=
  omap gpl_line (split_lines content).

(** [[0-9a-fA-F]] and its value. *)
Definition hex_value (c : ascii) : option Z :=
  let n := Ascii.nat_of_ascii c in
  if ((48 <=? n) && (n <=? 57))%nat then Some (Z.of_nat n - 48)
  else if ((65 <=? n) && (n <=? 70))%nat then Some (Z.of_nat n - 55)
  else if ((97 <=? n) && (n <=? 102))%nat then Some (Z.of_nat n - 87)
  else None.

(** [trimmed.match(/^#?([0-9a-fA-F]{6})$/)] and [parseInt(hexMatch[1], 16)] *)
Definition match_hex6 (s : text) : option Z :=
  let body :=
    match s with
    | c :: rest => if Ascii.eqb c "#"%char then rest else s
    | [] => s
    end in
  match body with
  | [c1; c2; c3; c4; c5; c6] =>
      match hex_value c1, hex_value c2, hex_value c3,
            hex_value c4, hex_value c5, hex_value c6 with
      | Some v1, Some v2, Some v3, Some v4, Some v5, Some v6 =>
          Some (((((v1 * 16 + v2) * 16 + v3) * 16 + v4) * 16 + v5) * 16 + v6)
      | _, _, _, _, _, _ => None
      end
  | _ => None
  end.

(** [[,\s]] *)
Definition is_comma_or_space (c : ascii) : bool := Ascii.eqb c ","%char || is_space c.

(** One line of a text palette. *)
Definition txt_line (line : text) : option Color :=
  let trimmed := trim line in
  match trimmed with
  | [] => None
  | _ =>
      if starts_with (text_of ";") trimmed
         || (starts_with (text_of "#") trimmed && (length trimmed <? 4)%nat)
      then None
      else
        match match_hex6 trimmed with
        | Some hex =>
            Some (mkColor (JS.band (JS.sar hex 16) 255) (JS.band (JS.sar hex 8) 255)
                          (JS.band hex 255))
        | None => match_three is_comma_or_space trimmed
        end
  end.

(** [parseTxtPalette(content)] *)
Definition parseTxtPalette (content : text) : list Color :=
  omap txt_line (split_lines content).

(** ** The image swatch *)

Definition rgb_of (c : Color) : Z * Z * Z := (r c, g c, b c).

(** [colors.has(key)] on the Map, kept as the list of its entries in
    insertion order.  The key [`${r},${g},${b}`] is given by the triple it
    spells. *)
Definition map_has (key : Z * Z * Z) (colors : list (Z * Z * Z * Color)) : bool :=
  existsb (fun e => bool_decide (fst e = key)) colors.

(** The body of the scan of [parseImagePalette] at a pixel with alpha above
    0; the three colour bytes below an alpha byte that was read are there. *)
Definition swatch_add (d : list Z) (w : Z) (colors : list (Z * Z * Z * Color)) (x y : Z)
  : list (Z * Z * Z * Color) :=
  let idx := JS.shl (w * y + x) 2 in
  match buf_get d idx, buf_get d (idx + 1), buf_get d (idx + 2) with
  | Some r0, Some g0, Some b0 =>
      let key := (r0, g0, b0) in
      if map_has key colors then colors else colors ++ [(key, mkColor r0 g0 b0)]
  | _, _, _ => colors
  end.

(** [parseImagePalette]: the values of the Map, in insertion order. *)
Definition parseImagePalette (png : PNG) : list Color :=
  map snd
    (for_yx (height png) (width png)
       (fun y x colors =>
          let idx := JS.shl (width png * y + x) 2 in
          if positive (buf_get (data png) (idx + 3))
          then swatch_add (data png) (width png) colors x y
          else colors)
       []).

Example gpl_scenario :
  parseGplPalette (text_of "GIMP Palette
# three colours
255 0 0 red
0  255 0
  0 0 255	blue") = [mkColor 255 0 0; mkColor 0 255 0; mkColor 0 0 255].
Proof. vm_compute. reflexivity. Qed.

Example txt_scenario :
  parseTxtPalette (text_of "; comment
#FF0000
00ff00
0,0,255
12 34 56") = [mkColor 255 0 0; mkColor 0 255 0; mkColor 0 0 255; mkColor 12 34 56].
Proof. vm_compute. reflexivity. Qed.

(** ** Text palettes keep every line *)

Lemma split_lines_nonempty (s : text) : split_lines s <> [].
Proof.
  destruct s as [| c rest]; cbn; [discriminate |].
  destruct (Ascii.eqb c LF); [discriminate |].
  destruct (split_lines rest); discriminate.
Qed.

(** Joining two texts with a line feed joins their lists of lines. *)
Lemma split_lines_app (s1 s2 : text) :
  split_lines (s1 ++ LF :: s2) = split_lines s1 ++ split_lines s2.
Proof.
  induction s1 as [| c s1 IH].
  - cbn. rewrite Ascii.eqb_refl. reflexivity.
  - cbn [app split_lines]. rewrite IH.
    destruct (Ascii.eqb c LF); [reflexivity |].
    pose proof (split_lines_nonempty s1) as Hne.
    destruct (split_lines s1) as [| l ls]; [congruence | reflexivity].
Qed.

Lemma parseGplPalette_app (s1 s2 : text) :
  parseGplPalette (s1 ++ LF :: s2) = parseGplPalette s1 ++ parseGplPalette s2.
Proof. unfold parseGplPalette. rewrite split_lines_app. apply omap_app. Qed.

Lemma parseTxtPalette_app (s1 s2 : text) :
  parseTxtPalette (s1 ++ LF :: s2) = parseTxtPalette s1 ++ parseTxtPalette s2.
Proof. unfold parseTxtPalette. rewrite split_lines_app. apply omap_app. Qed.

(** ** The image swatch is deduplicated in first-seen order *)

#[global] Instance Color_eq_dec : EqDecision Color.
Proof. solve_decision. Defined.

(** The colour of the pixel [(x, y)]. *)
Definition pixel_color (d : list Z) (w : Z) (yx : Z * Z) : option Color :=
  let idx := JS.shl (w * fst yx + snd yx) 2 in
  match buf_get d idx, buf_get d (idx + 1), buf_get d (idx + 2) with
  | Some r0, Some g0, Some b0 => Some (mkColor r0 g0 b0)
  | _, _, _ => None
  end.

(** The colours of the pixels with alpha above 0, in row-major order. *)
Definition visible_colors (png : PNG) : list Color :=
  omap (pixel_color (data png) (width png)) (content_cells png).

(** Keeping the first occurrence of every colour. *)
Definition see (seen : list Color) (c : Color) : list Color :=
  if bool_decide (c ∈ seen) then seen else seen ++ [c].

Definition first_seen (cs : list Color) : list Color := fold_left see cs [].

Lemma first_seen_NoDup (cs : list Color) :
  forall seen, NoDup seen -> NoDup (fold_left see cs seen).
Proof.
  induction cs as [| c cs IH]; intros seen Hnd; [exact Hnd |].
  cbn [fold_left]. apply IH. unfold see.
  destruct (bool_decide_reflect (c ∈ seen)) as [Hin | Hnotin]; [exact Hnd |].
  apply NoDup_app. split; [exact Hnd | split].
  - intros x Hx Hx'. apply list_elem_of_singleton in Hx'. subst x. contradiction.
  - apply NoDup_singleton.
Qed.

(** The keys of the Map spell the colours stored under them. *)
Definition keys_spell (colors : list (Z * Z * Z * Color)) : Prop :=
  Forall (fun e => fst e = rgb_of (snd e)) colors.

Lemma map_has_spec (colors : list (Z * Z * Z * Color)) (c : Color) :
  keys_spell colors ->
  map_has (rgb_of c) colors = bool_decide (c ∈ map snd colors).
Proof.
  intros Hk. unfold map_has.
  destruct (bool_decide_reflect (c ∈ map snd colors)) as [Hin | Hnotin].
  - apply existsb_exists. apply list_elem_of_fmap in Hin as (e & -> & He).
    exists e. split; [apply list_elem_of_In; exact He |].
    apply bool_decide_eq_true. unfold keys_spell in Hk. rewrite Forall_forall in Hk.
    apply Hk. exact He.
  - apply not_true_is_false. intros Hex. apply Hnotin.
    apply existsb_exists in Hex as (e & He & Hkey).
    apply bool_decide_eq_true in Hkey. apply list_elem_of_In in He.
    apply list_elem_of_fmap. exists e. split; [| exact He].
    unfold keys_spell in Hk. rewrite Forall_forall in Hk. specialize (Hk e He).
    rewrite Hk in Hkey. destruct c as [cr cg cb], (snd e) as [er eg eb].
    unfold rgb_of in Hkey. cbn in Hkey. congruence.
Qed.

Lemma swatch_add_see (d : list Z) (w : Z) (colors : list (Z * Z * Z * Color)) (y x : Z) :
  keys_spell colors ->
  keys_spell (swatch_add d w colors x y) /\
  map snd (swatch_add d w colors x y)
  = match pixel_color d w (y, x) with
    | Some c => see (map snd colors) c
    | None => map snd colors
    end.
Proof.
  intros Hk. unfold swatch_add, pixel_color. cbn [fst snd].
  destruct (buf_get d (JS.shl (w * y + x) 2)) as [r0|]; [| auto].
  destruct (buf_get d (JS.shl (w * y + x) 2 + 1)) as [g0|]; [| auto].
  destruct (buf_get d (JS.shl (w * y + x) 2 + 2)) as [b0|]; [| auto].
  change (r0, g0, b0) with (rgb_of (mkColor r0 g0 b0)).
  rewrite (map_has_spec colors (mkColor r0 g0 b0) Hk). unfold see.
  destruct (bool_decide (mkColor r0 g0 b0 ∈ map snd colors)); [auto |].
  split; [| rewrite map_app; reflexivity].
  unfold keys_spell. apply Forall_app. split; [exact Hk |].
  constructor; [reflexivity | constructor].
Qed.

Lemma swatch_fold (d : list Z) (w : Z) (ps : list (Z * Z)) :
  forall colors,
    keys_spell colors ->
    map snd (fold_left (fun acc yx => swatch_add d w acc (snd yx) (fst yx)) ps colors)
    = fold_left see (omap (pixel_color d w) ps) (map snd colors).
Proof.
  induction ps as [| [y x] ps IH]; intros colors Hk; [reflexivity |].
  cbn [fold_left omap list_omap fst snd].
  destruct (swatch_add_see d w colors y x Hk) as [Hk' Hstep].
  rewrite IH by exact Hk'. rewrite Hstep.
  destruct (pixel_color d w (y, x)); reflexivity.
Qed.

Lemma parseImagePalette_first_seen (png : PNG) :
  parseImagePalette png = first_seen (visible_colors png).
Proof.
  unfold parseImagePalette.
  rewrite (for_yx_filter (height png) (width png)
             (fun y x => positive (buf_get (data png)
                                     (JS.shl (width png * y + x) 2 + 3)))
             (swatch_add (data png) (width png))).
  rewrite swatch_fold by constructor. reflexivity.
Qed.

(** C7, as stated, fails for the text sources: a colour listed twice is
    loaded twice. *)
Lemma text_palettes_keep_duplicates :
  parseGplPalette (text_of "1 2 3
1 2 3") = [mkColor 1 2 3; mkColor 1 2 3] /\
  parseTxtPalette (text_of "#FF0000
ff0000") = [mkColor 255 0 0; mkColor 255 0 0].
Proof. split; vm_compute; reflexivity. Qed.

Example swatch_demo :
  parseImagePalette (mkPNG 3 1 [9; 9; 9; 255; 1; 2; 3; 0; 9; 9; 9; 128]) = [mkColor 9 9 9].
Proof. vm_compute. reflexivity. Qed.

(** C2, as stated for every non-empty palette, fails for a palette with a
    component above 255, which the text loaders accept unchecked: the
    weighted square of the red difference leaves the 32-bit range, [>> 8]
    wraps it around to a negative number, and the far entry is returned in
    place of the near one.  The unwrapped distance of the far entry is
    11091796, against 201 for the near one.  And a first entry at distance 0
    ends the scan although the wrapped distance of the second is less. *)
Lemma findNearestColor_wraps_around :
  parseGplPalette (text_of "10 0 0
1500 0 0") = [mkColor 10 0 0; mkColor 1500 0 0] /\
  findNearestColor (Some 0) (Some 0) (Some 0) [mkColor 10 0 0; mkColor 1500 0 0]
    = Some (mkColor 1500 0 0) /\
  colorDistance (Some 0) (Some 0) (Some 0) 10 0 0 = Some 201 /\
  colorDistance (Some 0) (Some 0) (Some 0) 1500 0 0 = Some (-5685420) /\
  (512 + (0 + 1500) / 2) * (0 - 1500) * (0 - 1500) / 256 = 11091796 /\
  findNearestColor_scan (Some 0) (Some 0) (Some 0) [mkColor 0 0 0; mkColor 1500 0 0]
    = mkScan (Some 0) (Some (mkColor 0 0 0)) 1.
Proof. repeat split; vm_compute; reflexivity. Qed.

(** C9, as stated for every non-empty palette, fails for a palette with a
    component above 255, which the text loaders accept unchecked.  The
    buffer stores such a component modulo 256, so the stored colour is not
    the palette entry, and a second pass chooses another entry. *)
Lemma out_of_range_component :
  parseGplPalette (text_of "300 0 0
40 0 0") = [mkColor 300 0 0; mkColor 40 0 0] /\
  m_data (fst (matchPngToPalette [255; 0; 0; 255] [mkColor 300 0 0; mkColor 40 0 0] ∅))
    = [44; 0; 0; 255] /\
  m_data (fst (matchPngToPalette [44; 0; 0; 255] [mkColor 300 0 0; mkColor 40 0 0] ∅))
    = [40; 0; 0; 255].
Proof. repeat split; vm_compute; reflexivity. Qed.

(** * Further properties of the tools *)

(** ** The redmean distance and the nearest colour *)

Lemma redmean_sym (r1 g1 b1 r2 g2 b2 : Z) :
  redmean r1 g1 b1 r2 g2 b2 = redmean r2 g2 b2 r1 g1 b1.
Proof.
  unfold redmean. rewrite (Z.add_comm r2 r1).
  replace ((512 + JS.sar (r1 + r2) 1) * (r2 - r1) * (r2 - r1))
    with ((512 + JS.sar (r1 + r2) 1) * (r1 - r2) * (r1 - r2)) by ring.
  replace ((767 - JS.sar (r1 + r2) 1) * (b2 - b1) * (b2 - b1))
    with ((767 - JS.sar (r1 + r2) 1) * (b1 - b2) * (b1 - b2)) by ring.
  replace (4 * (g2 - g1) * (g2 - g1)) with (4 * (g1 - g2) * (g1 - g2)) by ring.
  reflexivity.
Qed.

(** With an undefined green component every distance is NaN, no comparison
    succeeds and the scan keeps what it started with. *)
Lemma scan_palette_nan (r0 b0 : JS.jsval) (l : list Color) :
  forall st, nearest (scan_palette r0 None b0 l st) = nearest st.
Proof.
  induction l as [| c l IH]; intros st; [reflexivity |].
  cbn [scan_palette colorDistance lt_minDist]. rewrite IH. reflexivity.
Qed.

(** The pixels of [d] are transparent or carry a palette colour. *)
Definition on_palette (palette : list Color) (d : list Z) : Prop :=
  forall p, pixel_in (length d) p ->
    buf_get d (4 * p + 3) = Some 0 \/
    exists c, c ∈ palette /\
      buf_get d (4 * p) = Some (r c) /\ buf_get d (4 * p + 1) = Some (g c) /\
      buf_get d (4 * p + 2) = Some (b c).

Lemma match_pixel_nocache_on_palette (palette : list Color) (p : Z) (d : list Z)
    (cache : gmap Z (option Color)) (m : bool) :
  Forall byte_color palette -> on_palette palette d -> pixel_in (length d) p ->
  match_pixel_nocache palette (4 * p) (mkMatch d cache m) = (mkMatch d cache m, Normal).
Proof.
  intros Hpal Hon Hp. unfold match_pixel_nocache. cbn [m_data m_cache m_modified].
  destruct (is_zero (buf_get d (4 * p + 3))) eqn:Hz; [reflexivity |].
  destruct (Hon p Hp) as [Ha | (c & Hin & Hr & Hg & Hb)].
  - rewrite Ha in Hz. discriminate.
  - rewrite Hr, Hg, Hb.
    destruct (findNearestColor_fixed palette c Hpal Hin) as (n & -> & Er & Eg & Eb).
    unfold store_nearest. rewrite Hr, Hg, Hb, Er, Eg, Eb.
    cbn [differs]. rewrite !Z.eqb_refl. reflexivity.
Qed.

Lemma nocache_loop_on_palette (palette : list Color) (d : list Z)
    (cache : gmap Z (option Color)) (m : bool) (idxs : list Z) :
  Forall byte_color palette -> on_palette palette d ->
  whole_pixels (length d) idxs ->
  run_loop (match_pixel_nocache palette) idxs (mkMatch d cache m)
  = (mkMatch d cache m, Normal).
Proof.
  intros Hpal Hon. induction idxs as [| i rest IH]; intros Hidx; [reflexivity |].
  apply Forall_cons in Hidx as [((q & ->) & H0 & Hlt) Hrest].
  cbn [run_loop].
  rewrite (match_pixel_nocache_on_palette palette q d cache m Hpal Hon); [| split; lia].
  apply IH. exact Hrest.
Qed.

(** ** [buildPaletteData_]: unpacking a colour number *)

Lemma unpack_rgb (r0 g0 b0 : Z) :
  is_byte r0 -> is_byte g0 -> is_byte b0 ->
  JS.band (JS.sar (r0 * 65536 + g0 * 256 + b0) 16) 255 = r0 /\
  JS.band (JS.sar (r0 * 65536 + g0 * 256 + b0) 8) 255 = g0 /\
  JS.band (r0 * 65536 + g0 * 256 + b0) 255 = b0.
Proof.
  unfold is_byte. intros Hr Hg Hb.
  rewrite !band_255, !sar_small by lia.
  assert (E16 : (r0 * 65536 + g0 * 256 + b0) / 2 ^ 16 = r0).
  { symmetry. apply (Z.div_unique _ _ _ (g0 * 256 + b0)); lia. }
  assert (E8 : (r0 * 65536 + g0 * 256 + b0) / 2 ^ 8 = r0 * 256 + g0).
  { symmetry. apply (Z.div_unique _ _ _ b0); lia. }
  rewrite E16, E8. rewrite !toInt32_small by lia.
  repeat split.
  - apply Z.mod_small. lia.
  - symmetry. apply (Z.mod_unique _ _ r0); lia.
  - symmetry. apply (Z.mod_unique _ _ (r0 * 256 + g0)); lia.
Qed.

(** * Lines that spell a colour (cli/palette-match.js) *)

(** What the text loaders do with the lines a palette file is made of.  A
    line of the first kind carries three decimal numerals: optional leading
    blanks, the numerals one after the other with a non-empty run of
    separators between them, and a tail that does not go on with a digit (a
    colour name, say).  A numeral has one to fifteen digits: [parseInt] is
    exact there. *)
Record TripleLine := mkTriple {
  t_lead : text;
  t_red : text;
  t_sep1 : text;
  t_green : text;
  t_sep2 : text;
  t_blue : text;
  t_tail : text
}.

Definition triple_text (t : TripleLine) : text :=
  t_lead t ++ t_red t ++ t_sep1 t ++ t_green t ++ t_sep2 t ++ t_blue t ++ t_tail t.

(** The colour the line spells. *)
Definition triple_color (t : TripleLine) : Color :=
  mkColor (parse_decimal (t_red t)) (parse_decimal (t_green t)) (parse_decimal (t_blue t)).

Definition not_LF (c : ascii) : bool := negb (Ascii.eqb c LF).

(** White space that does not end the line. *)
Definition is_blank (c : ascii) : bool := is_space c && not_LF c.

Definition digit_run (ds : text) : bool :=
  forallb is_digit ds && (1 <=? length ds)%nat && (length ds <=? 15)%nat.

Definition separator_run (sep : ascii -> bool) (s : text) : bool :=
  forallb (fun c => sep c && not_LF c) s && (1 <=? length s)%nat.

(** [s] is empty or starts with a character outside [p]. *)
Definition stops (p : ascii -> bool) (s : text) : bool :=
  match s with
  | [] => true
  | c :: _ => negb (p c)
  end.

Definition triple_ok (sep : ascii -> bool) (t : TripleLine) : bool :=
  forallb is_blank (t_lead t)
  && digit_run (t_red t) && separator_run sep (t_sep1 t)
  && digit_run (t_green t) && separator_run sep (t_sep2 t)
  && digit_run (t_blue t)
  && stops is_digit (t_tail t) && forallb not_LF (t_tail t).

(** A line of the second kind carries six hexadecimal digits, with or without
    a leading [#], between optional blanks. *)
Record HexLine := mkHex {
  h_lead : text;
  h_hash : bool;
  h_digits : text;
  h_tail : text
}.

Definition hex_text (h : HexLine) : text :=
  h_lead h ++ (if h_hash h then ["#"%char] else []) ++ h_digits h ++ h_tail h.

Definition is_hex (c : ascii) : bool :=
  match hex_value c with
  | Some _ => true
  | None => false
  end.

Definition hex_byte (c1 c2 : ascii) : Z :=
  16 * default 0 (hex_value c1) + default 0 (hex_value c2).

(** The colour the line spells: two digits for each component. *)
Definition hex_color (h : HexLine) : Color :=
  match h_digits h with
  | [c1; c2; c3; c4; c5; c6] => mkColor (hex_byte c1 c2) (hex_byte c3 c4) (hex_byte c5 c6)
  | _ => mkColor 0 0 0
  end.

Definition hex_ok (h : HexLine) : bool :=
  forallb is_blank (h_lead h) && forallb is_hex (h_digits h)
  && (length (h_digits h) =? 6)%nat && forallb is_blank (h_tail h).

(** The text of a file with the given lines. *)
Fixpoint join_lines (ls : list text) : text :=
  match ls with
  | [] => []
  | [l] => l
  | l :: ls' => l ++ LF :: join_lines ls'
  end.

(** ** Greedy runs *)

Lemma take_while_run (p : ascii -> bool) (l r : text) :
  forallb p l = true -> stops p r = true -> take_while p (l ++ r) = l.
Proof.
  intros Hl Hr. induction l as [| c l IH].
  - destruct r as [| c r]; [reflexivity |]. unfold stops in Hr. cbn [app take_while].
    destruct (p c); [discriminate | reflexivity].
  - cbn [forallb] in Hl. apply andb_true_iff in Hl as [Hc Hl].
    cbn [app take_while]. rewrite Hc, IH by exact Hl. reflexivity.
Qed.

Lemma drop_while_run (p : ascii -> bool) (l r : text) :
  forallb p l = true -> stops p r = true -> drop_while p (l ++ r) = r.
Proof.
  intros Hl Hr. induction l as [| c l IH].
  - destruct r as [| c r]; [reflexivity |]. unfold stops in Hr. cbn [app drop_while].
    destruct (p c); [discriminate | reflexivity].
  - cbn [forallb] in Hl. apply andb_true_iff in Hl as [Hc Hl].
    cbn [app drop_while]. rewrite Hc. apply IH. exact Hl.
Qed.

Lemma drop_while_keeps (p : ascii -> bool) (l r : text) (c : ascii) :
  p c = false -> drop_while p (l ++ c :: r) = drop_while p l ++ c :: r.
Proof.
  intros Hc. induction l as [| a l IH]; cbn [app drop_while].
  - rewrite Hc. reflexivity.
  - destruct (p a); [exact IH | reflexivity].
Qed.

Lemma take_drop_while (p : ascii -> bool) (s : text) :
  s = take_while p s ++ drop_while p s.
Proof.
  induction s as [| c s IH]; [reflexivity |]. cbn [take_while drop_while].
  destruct (p c); [cbn [app]; f_equal; exact IH | reflexivity].
Qed.

(** A non-empty run of [q] starts with a character outside [p], when [q]
    and [p] exclude each other. *)
Lemma stops_run (p q : ascii -> bool) (l r : text) :
  (forall c, q c = true -> p c = false) ->
  forallb q l = true -> (1 <=? length l)%nat = true -> stops p (l ++ r) = true.
Proof.
  intros Hpq Hl Hlen. destruct l as [| c l]; [discriminate |].
  cbn in *. apply andb_true_iff in Hl as [Hc _]. rewrite (Hpq c Hc). reflexivity.
Qed.

(** ** [trim] *)

(** [trim] on the right. *)
Definition rtrim (s : text) : text := rev (drop_while is_space (rev s)).

Lemma trim_rtrim (s : text) : trim s = rtrim (drop_while is_space s).
Proof. reflexivity. Qed.

Lemma rtrim_keeps (a t : text) (c : ascii) :
  is_space c = false -> rtrim (a ++ c :: t) = a ++ c :: rtrim t.
Proof.
  intros Hc. unfold rtrim.
  rewrite rev_app_distr. cbn [rev]. rewrite <- app_assoc. cbn [app].
  rewrite drop_while_keeps by exact Hc.
  rewrite rev_app_distr. cbn [rev]. rewrite rev_involutive, <- app_assoc. reflexivity.
Qed.

Lemma rtrim_prefix (t : text) : exists u, t = rtrim t ++ u.
Proof.
  exists (rev (take_while is_space (rev t))). unfold rtrim.
  rewrite <- rev_app_distr, <- take_drop_while, rev_involutive. reflexivity.
Qed.

Lemma rtrim_stops (p : ascii -> bool) (t : text) :
  stops p t = true -> stops p (rtrim t) = true.
Proof.
  intros Ht. destruct (rtrim_prefix t) as [u Hu].
  destruct (rtrim t) as [| c w]; [reflexivity |].
  rewrite Hu in Ht. exact Ht.
Qed.

Lemma forallb_rev_true (p : ascii -> bool) (l : text) :
  forallb p l = true -> forallb p (rev l) = true.
Proof.
  rewrite !forallb_forall. intros H c Hc. apply H. apply in_rev. exact Hc.
Qed.

Lemma rtrim_spaces (t : text) : forallb is_space t = true -> rtrim t = [].
Proof.
  intros Ht. unfold rtrim.
  rewrite <- (app_nil_r (rev t)).
  rewrite drop_while_run by (try apply forallb_rev_true; auto). reflexivity.
Qed.

(** A non-empty run ends with one of its characters. *)
Lemma run_last (p : ascii -> bool) (l : text) :
  forallb p l = true -> (1 <=? length l)%nat = true ->
  exists l' c, l = l' ++ [c] /\ p c = true.
Proof.
  intros Hl Hlen. destruct (exists_last (l := l)) as (l' & c & ->).
  - destruct l; [discriminate | discriminate].
  - exists l', c. split; [reflexivity |].
    rewrite forallb_app in Hl. apply andb_true_iff in Hl as [_ Hc].
    cbn in Hc. rewrite andb_true_r in Hc. exact Hc.
Qed.

(** ** Character classes *)

Lemma digit_class (c : ascii) :
  is_digit c = true ->
  is_space c = false /\ is_comma_or_space c = false /\ not_LF c = true /\
  Ascii.eqb "#"%char c = false /\ Ascii.eqb ";"%char c = false /\
  Ascii.eqb "G"%char c = false /\ Ascii.eqb "N"%char c = false /\
  Ascii.eqb "C"%char c = false /\ Ascii.eqb c "#"%char = false.
Proof.
  destruct c as [[] [] [] [] [] [] [] []]; vm_compute; intros H;
    try discriminate H; repeat split.
Qed.

Lemma hex_class (c : ascii) :
  is_hex c = true ->
  hex_value c = Some (default 0 (hex_value c)) /\
  0 <= default 0 (hex_value c) < 16 /\
  is_space c = false /\ not_LF c = true /\
  Ascii.eqb "#"%char c = false /\ Ascii.eqb ";"%char c = false /\
  Ascii.eqb c "#"%char = false.
Proof.
  destruct c as [[] [] [] [] [] [] [] []]; vm_compute; intros H;
    try discriminate H; repeat split; discriminate.
Qed.

Lemma separator_not_hex (c : ascii) :
  is_comma_or_space c = true -> hex_value c = None.
Proof.
  destruct c as [[] [] [] [] [] [] [] []]; vm_compute; intros H;
    try discriminate H; reflexivity.
Qed.

Lemma space_not_digit (c : ascii) : is_space c = true -> is_digit c = false.
Proof.
  destruct c as [[] [] [] [] [] [] [] []]; vm_compute; intros H;
    try discriminate H; reflexivity.
Qed.

Lemma comma_or_space_not_digit (c : ascii) :
  is_comma_or_space c = true -> is_digit c = false.
Proof.
  destruct c as [[] [] [] [] [] [] [] []]; vm_compute; intros H;
    try discriminate H; reflexivity.
Qed.

Lemma forallb_weaken (p q : ascii -> bool) (l : text) :
  (forall c, p c = true -> q c = true) -> forallb p l = true -> forallb q l = true.
Proof.
  intros Hpq. rewrite !forallb_forall. intros H c Hc. apply Hpq, H, Hc.
Qed.

Lemma blank_space (l : text) : forallb is_blank l = true -> forallb is_space l = true.
Proof.
  apply forallb_weaken. intros c Hc. apply andb_true_iff in Hc. tauto.
Qed.

Lemma blank_not_LF (l : text) : forallb is_blank l = true -> forallb not_LF l = true.
Proof.
  apply forallb_weaken. intros c Hc. apply andb_true_iff in Hc. tauto.
Qed.

Lemma digits_not_LF (l : text) : forallb is_digit l = true -> forallb not_LF l = true.
Proof.
  apply forallb_weaken. intros c Hc. apply digit_class in Hc. tauto.
Qed.

Lemma hex_not_LF (l : text) : forallb is_hex l = true -> forallb not_LF l = true.
Proof.
  apply forallb_weaken. intros c Hc. apply hex_class in Hc. tauto.
Qed.

(** ** Lines of a file *)

Lemma split_lines_one (l : text) : forallb not_LF l = true -> split_lines l = [l].
Proof.
  induction l as [| c l IH]; [reflexivity |]. cbn [forallb split_lines]. intros H.
  apply andb_true_iff in H as [Hc Hl]. unfold not_LF in Hc.
  apply negb_true_iff in Hc. rewrite Hc, (IH Hl). reflexivity.
Qed.

(** A file whose lines all yield a colour yields these colours, one per
    line, in the order of the lines. *)
Lemma parse_join {A : Type} (f : text -> option Color) (g : A -> text) (h : A -> Color)
    (ts : list A) :
  f [] = None ->
  (forall t, In t ts -> forallb not_LF (g t) = true /\ f (g t) = Some (h t)) ->
  omap f (split_lines (join_lines (map g ts))) = map h ts.
Proof.
  intros Hnil. induction ts as [| t ts IH]; intros H.
  - cbn. rewrite Hnil. reflexivity.
  - destruct (H t (or_introl eq_refl)) as [Hlf Hf].
    specialize (IH (fun t' Ht' => H t' (or_intror Ht'))).
    cbn [map join_lines]. destruct ts as [| t2 ts].
    + cbn [map]. rewrite split_lines_one by exact Hlf. cbn. rewrite Hf. reflexivity.
    + cbn [map]. cbn [map] in IH. rewrite split_lines_app, omap_app, IH.
      rewrite split_lines_one by exact Hlf. cbn. rewrite Hf. reflexivity.
Qed.

(** ** Three numerals *)

Section Triple.
Variable sep : ascii -> bool.
Hypothesis sep_not_digit : forall c, sep c = true -> is_digit c = false.

Lemma digit_not_sep (c : ascii) : is_digit c = true -> sep c = false.
Proof.
  intros Hc. destruct (sep c) eqn:E; [| reflexivity].
  rewrite (sep_not_digit c E) in Hc. discriminate.
Qed.

Lemma match_digits_run (d r : text) :
  digit_run d = true -> stops is_digit r = true ->
  match_digits (d ++ r) = Some (parse_decimal d, r).
Proof.
  unfold digit_run. intros Hd Hr.
  apply andb_true_iff in Hd as [Hd _]. apply andb_true_iff in Hd as [Hd Hlen].
  unfold match_digits. rewrite take_while_run, drop_while_run by assumption.
  destruct d; [discriminate | reflexivity].
Qed.

Lemma separator_run_sep (s : text) :
  separator_run sep s = true -> forallb sep s = true /\ (1 <=? length s)%nat = true.
Proof.
  unfold separator_run. intros H. apply andb_true_iff in H as [H Hlen].
  split; [| exact Hlen]. revert H. apply forallb_weaken.
  intros c Hc. apply andb_true_iff in Hc. tauto.
Qed.

Lemma match_separator_run (s r : text) :
  separator_run sep s = true -> stops sep r = true ->
  match_separator sep (s ++ r) = Some r.
Proof.
  intros Hs Hr. apply separator_run_sep in Hs as [Hs Hlen].
  unfold match_separator. rewrite take_while_run, drop_while_run by assumption.
  destruct s; [discriminate | reflexivity].
Qed.

Lemma digit_run_stops_sep (d r : text) :
  digit_run d = true -> stops sep (d ++ r) = true.
Proof.
  unfold digit_run. intros Hd.
  apply andb_true_iff in Hd as [Hd _]. apply andb_true_iff in Hd as [Hd Hlen].
  apply (stops_run sep is_digit); [exact digit_not_sep | exact Hd | exact Hlen].
Qed.

Lemma separator_run_stops_digit (s r : text) :
  separator_run sep s = true -> stops is_digit (s ++ r) = true.
Proof.
  intros Hs. apply separator_run_sep in Hs as [Hs Hlen].
  apply (stops_run is_digit sep); [exact sep_not_digit | exact Hs | exact Hlen].
Qed.

(** The pattern [(\d+) sep+ (\d+) sep+ (\d+)] on three numerals. *)
Lemma match_three_runs (d1 s1 d2 s2 d3 r : text) :
  digit_run d1 = true -> separator_run sep s1 = true ->
  digit_run d2 = true -> separator_run sep s2 = true ->
  digit_run d3 = true -> stops is_digit r = true ->
  match_three sep (d1 ++ s1 ++ d2 ++ s2 ++ d3 ++ r)
  = Some (mkColor (parse_decimal d1) (parse_decimal d2) (parse_decimal d3)).
Proof.
  intros H1 Hs1 H2 Hs2 H3 Hr. unfold match_three.
  rewrite match_digits_run by (auto using separator_run_stops_digit).
  rewrite match_separator_run by (auto using digit_run_stops_sep).
  rewrite match_digits_run by (auto using separator_run_stops_digit).
  rewrite match_separator_run by (auto using digit_run_stops_sep).
  rewrite match_digits_run by assumption. reflexivity.
Qed.
End Triple.

(** The parts of a well-formed line, one by one. *)
Lemma triple_ok_parts (sep : ascii -> bool) (t : TripleLine) :
  triple_ok sep t = true ->
  forallb is_blank (t_lead t) = true /\
  digit_run (t_red t) = true /\ separator_run sep (t_sep1 t) = true /\
  digit_run (t_green t) = true /\ separator_run sep (t_sep2 t) = true /\
  digit_run (t_blue t) = true /\
  stops is_digit (t_tail t) = true /\ forallb not_LF (t_tail t) = true.
Proof.
  unfold triple_ok. intros H. repeat (apply andb_true_iff in H as [H ?]). tauto.
Qed.

Lemma digit_run_parts (d : text) :
  digit_run d = true -> forallb is_digit d = true /\ (1 <=? length d)%nat = true.
Proof.
  unfold digit_run. intros H. repeat (apply andb_true_iff in H as [H ?]). tauto.
Qed.

Lemma separator_run_not_LF (sep : ascii -> bool) (s : text) :
  separator_run sep s = true -> forallb not_LF s = true.
Proof.
  unfold separator_run. intros H. apply andb_true_iff in H as [H _].
  revert H. apply forallb_weaken. intros c Hc. apply andb_true_iff in Hc. tauto.
Qed.

Lemma triple_text_one_line (sep : ascii -> bool) (t : TripleLine) :
  triple_ok sep t = true -> forallb not_LF (triple_text t) = true.
Proof.
  intros H. apply triple_ok_parts in H as (Hl & H1 & Hs1 & H2 & Hs2 & H3 & _ & Ht).
  unfold triple_text. rewrite !forallb_app.
  apply digit_run_parts in H1 as [H1 _], H2 as [H2 _], H3 as [H3 _].
  rewrite (blank_not_LF _ Hl), (digits_not_LF _ H1), (digits_not_LF _ H2),
    (digits_not_LF _ H3), (separator_run_not_LF _ _ Hs1), (separator_run_not_LF _ _ Hs2), Ht.
  reflexivity.
Qed.

(** [trim] takes the leading blanks and the blanks at the end of the tail. *)
Lemma trim_triple (sep : ascii -> bool) (t : TripleLine) :
  triple_ok sep t = true ->
  exists c d1' tail',
    t_red t = c :: d1' /\ is_digit c = true /\ stops is_digit tail' = true /\
    trim (triple_text t)
    = t_red t ++ t_sep1 t ++ t_green t ++ t_sep2 t ++ t_blue t ++ tail'.
Proof.
  intros H. apply triple_ok_parts in H as (Hl & H1 & Hs1 & H2 & Hs2 & H3 & Ht & _).
  apply digit_run_parts in H1 as [H1 Hlen1].
  pose proof (digit_run_parts _ H3) as [H3d Hlen3].
  destruct (t_red t) as [| c d1'] eqn:E1; [discriminate |].
  pose proof H1 as H1'. cbn in H1'. apply andb_true_iff in H1' as [Hc _].
  destruct (run_last is_digit (t_blue t) H3d Hlen3) as (d3' & c3 & E3 & Hc3).
  exists c, d1', (rtrim (t_tail t)).
  split; [reflexivity |]. split; [exact Hc |]. split; [apply rtrim_stops; exact Ht |].
  rewrite trim_rtrim. unfold triple_text. rewrite E1.
  rewrite drop_while_run.
  - rewrite E3.
    replace ((c :: d1') ++ t_sep1 t ++ t_green t ++ t_sep2 t ++ (d3' ++ [c3]) ++ t_tail t)
      with (((c :: d1') ++ t_sep1 t ++ t_green t ++ t_sep2 t ++ d3') ++ c3 :: t_tail t)
      by (rewrite <- !app_assoc; reflexivity).
    rewrite rtrim_keeps by (apply digit_class in Hc3; tauto).
    rewrite <- !app_assoc. reflexivity.
  - apply blank_space. exact Hl.
  - cbn. apply digit_class in Hc as (-> & _). reflexivity.
Qed.

(** A well-formed line of a GIMP palette yields the colour it spells. *)
Lemma gpl_line_triple (t : TripleLine) :
  triple_ok is_space t = true -> gpl_line (triple_text t) = Some (triple_color t).
Proof.
  intros H. destruct (trim_triple _ _ H) as (c & d1' & tail' & E1 & Hc & Htail & Htrim).
  apply triple_ok_parts in H as (Hl & H1 & Hs1 & H2 & Hs2 & H3 & _ & _).
  unfold gpl_line, triple_color. rewrite Htrim.
  pose proof (match_three_runs is_space space_not_digit _ _ _ _ _ tail'
                H1 Hs1 H2 Hs2 H3 Htail) as Hm.
  rewrite E1 in *. cbn [app].
  pose proof (digit_class c Hc) as (Hsp & _ & _ & Hh & _ & HG & HN & HC & _).
  cbn [starts_with text_of list_ascii_of_string].
  rewrite Hh, HG, HN, HC. cbn [andb orb drop_while]. rewrite Hsp.
  exact Hm.
Qed.

(** No six hexadecimal digits where a separator occurs. *)
Lemma match_hex6_separator (c : ascii) (rest : text) (x : ascii) :
  Ascii.eqb c "#"%char = false -> In x (c :: rest) -> hex_value x = None ->
  match_hex6 (c :: rest) = None.
Proof.
  intros Hc Hx Hnone. unfold match_hex6. rewrite Hc.
  destruct rest as [| c2 [| c3 [| c4 [| c5 [| c6 [| c7 rest]]]]]]; try reflexivity.
  cbn [In] in Hx.
  destruct Hx as [<- | [<- | [<- | [<- | [<- | [<- | []]]]]]]; rewrite ?Hnone;
    repeat match goal with
           | |- context [match hex_value ?a with _ => _ end] => destruct (hex_value a)
           end; reflexivity.
Qed.

(** A well-formed line of a text palette yields the colour it spells, with
    commas or white space between the numerals. *)
Lemma txt_line_triple (t : TripleLine) :
  triple_ok is_comma_or_space t = true -> txt_line (triple_text t) = Some (triple_color t).
Proof.
  intros H. destruct (trim_triple _ _ H) as (c & d1' & tail' & E1 & Hc & Htail & Htrim).
  apply triple_ok_parts in H as (Hl & H1 & Hs1 & H2 & Hs2 & H3 & _ & _).
  unfold txt_line, triple_color. rewrite Htrim.
  pose proof (match_three_runs is_comma_or_space comma_or_space_not_digit _ _ _ _ _ tail'
                H1 Hs1 H2 Hs2 H3 Htail) as Hm.
  rewrite Hm.
  apply separator_run_sep in Hs1 as [Hs1 Hlen1].
  destruct (t_sep1 t) as [| x s1'] eqn:Es1; [discriminate |].
  cbn in Hs1. apply andb_true_iff in Hs1 as [Hx _].
  rewrite E1. cbn [app].
  pose proof (digit_class c Hc) as (_ & _ & _ & Hh & Hsc & _ & _ & _ & Hh').
  rewrite (match_hex6_separator c _ x Hh'); cycle 1.
  { right. apply in_or_app. right. left. reflexivity. }
  { apply separator_not_hex. exact Hx. }
  cbn [starts_with text_of list_ascii_of_string].
  rewrite Hh, Hsc. reflexivity.
Qed.

(** ** Six hexadecimal digits *)

Lemma hex_ok_parts (h : HexLine) :
  hex_ok h = true ->
  forallb is_blank (h_lead h) = true /\ forallb is_blank (h_tail h) = true /\
  exists c1 c2 c3 c4 c5 c6,
    h_digits h = [c1; c2; c3; c4; c5; c6] /\
    is_hex c1 = true /\ is_hex c2 = true /\ is_hex c3 = true /\
    is_hex c4 = true /\ is_hex c5 = true /\ is_hex c6 = true.
Proof.
  unfold hex_ok. intros H.
  apply andb_true_iff in H as [H Ht]. apply andb_true_iff in H as [H Hlen].
  apply andb_true_iff in H as [Hl Hd].
  split; [exact Hl |]. split; [exact Ht |].
  destruct (h_digits h) as [| c1 [| c2 [| c3 [| c4 [| c5 [| c6 [| c7 body]]]]]]];
    try discriminate.
  exists c1, c2, c3, c4, c5, c6. split; [reflexivity |].
  cbn [forallb] in Hd. rewrite !andb_true_iff in Hd. tauto.
Qed.

Lemma hex_text_one_line (h : HexLine) :
  hex_ok h = true -> forallb not_LF (hex_text h) = true.
Proof.
  unfold hex_ok. intros H.
  apply andb_true_iff in H as [H Ht]. apply andb_true_iff in H as [H Hlen].
  apply andb_true_iff in H as [Hl Hd].
  unfold hex_text. rewrite !forallb_app.
  rewrite (blank_not_LF _ Hl), (hex_not_LF _ Hd), (blank_not_LF _ Ht).
  destruct (h_hash h); reflexivity.
Qed.

(** The colour number of six digits, taken apart by the shifts and masks. *)
Lemma hex_number (v1 v2 v3 v4 v5 v6 : Z) :
  0 <= v1 < 16 -> 0 <= v2 < 16 -> 0 <= v3 < 16 ->
  0 <= v4 < 16 -> 0 <= v5 < 16 -> 0 <= v6 < 16 ->
  let hex := ((((v1 * 16 + v2) * 16 + v3) * 16 + v4) * 16 + v5) * 16 + v6 in
  JS.band (JS.sar hex 16) 255 = 16 * v1 + v2 /\
  JS.band (JS.sar hex 8) 255 = 16 * v3 + v4 /\
  JS.band hex 255 = 16 * v5 + v6.
Proof.
  intros H1 H2 H3 H4 H5 H6 hex.
  replace hex with ((16 * v1 + v2) * 65536 + (16 * v3 + v4) * 256 + (16 * v5 + v6))
    by (unfold hex; ring).
  apply unpack_rgb; unfold is_byte; lia.
Qed.

(** A well-formed line of six hexadecimal digits yields the colour it
    spells. *)
Lemma txt_line_hex (h : HexLine) :
  hex_ok h = true -> txt_line (hex_text h) = Some (hex_color h).
Proof.
  intros H. apply hex_ok_parts in H
    as (Hl & Ht & c1 & c2 & c3 & c4 & c5 & c6 & E & H1 & H2 & H3 & H4 & H5 & H6).
  pose proof (hex_class c1 H1) as (E1 & B1 & S1 & _ & Hh1 & Hs1 & Hh1').
  pose proof (hex_class c2 H2) as (E2 & B2 & _).
  pose proof (hex_class c3 H3) as (E3 & B3 & _).
  pose proof (hex_class c4 H4) as (E4 & B4 & _).
  pose proof (hex_class c5 H5) as (E5 & B5 & _).
  pose proof (hex_class c6 H6) as (E6 & B6 & S6 & _).
  assert (Htrim : trim (hex_text h)
                  = (if h_hash h then ["#"%char] else []) ++ [c1; c2; c3; c4; c5; c6]).
  { rewrite trim_rtrim. unfold hex_text. rewrite E.
    rewrite drop_while_run; [| apply blank_space; exact Hl
                             | destruct (h_hash h); cbn; [reflexivity | rewrite S1; reflexivity]].
    replace ((if h_hash h then ["#"%char] else []) ++ [c1; c2; c3; c4; c5; c6] ++ h_tail h)
      with (((if h_hash h then ["#"%char] else []) ++ [c1; c2; c3; c4; c5]) ++ c6 :: h_tail h)
      by (rewrite <- app_assoc; reflexivity).
    rewrite rtrim_keeps by exact S6.
    rewrite rtrim_spaces by (apply blank_space; exact Ht).
    rewrite <- app_assoc. reflexivity. }
  unfold txt_line, hex_color. rewrite Htrim, E. unfold hex_byte, match_hex6.
  destruct (h_hash h); cbn [app starts_with text_of list_ascii_of_string].
  1: cbn [Ascii.eqb Bool.eqb andb orb length Nat.ltb Nat.leb].
  2: rewrite Hh1, Hs1, Hh1'; cbn [andb orb].
  all: destruct (hex_value c1) as [v1 |]; [| discriminate E1].
  all: destruct (hex_value c2) as [v2 |]; [| discriminate E2].
  all: destruct (hex_value c3) as [v3 |]; [| discriminate E3].
  all: destruct (hex_value c4) as [v4 |]; [| discriminate E4].
  all: destruct (hex_value c5) as [v5 |]; [| discriminate E5].
  all: destruct (hex_value c6) as [v6 |]; [| discriminate E6].
  all: cbn [default from_option id] in *.
  all: destruct (hex_number _ _ _ _ _ _ B1 B2 B3 B4 B5 B6) as (Er & Eg & Eb).
  all: cbv beta iota zeta; rewrite Er, Eg, Eb; reflexivity.
Qed.

(** ** The order of a loaded palette *)

(** C7 (amended).  The loader yields an ordered colour list.  An image swatch
    is deduplicated: its list is the sequence of the colours of the pixels
    with alpha above 0, in row-major order, with only the first occurrence of
    each colour kept, and so holds no colour twice.  Gpl and Txt sources are
    not deduplicated.  A GIMP palette whose lines each carry three numerals
    separated by white space yields the colours the lines spell, one per
    line, in file order, a repeated line as often as it occurs; so does a
    text palette whose lines carry three numerals separated by commas or
    white space, and one whose lines carry six hexadecimal digits.  Joining
    two texts with a line feed yields the concatenation of their lists. *)
Theorem palette_sources_order (png : PNG) (s1 s2 : text)
    (gpl txt : list TripleLine) (hex : list HexLine) :
  parseImagePalette png = first_seen (visible_colors png) /\
  NoDup (parseImagePalette png) /\
  (forallb (triple_ok is_space) gpl = true ->
     parseGplPalette (join_lines (map triple_text gpl)) = map triple_color gpl) /\
  (forallb (triple_ok is_comma_or_space) txt = true ->
     parseTxtPalette (join_lines (map triple_text txt)) = map triple_color txt) /\
  (forallb hex_ok hex = true ->
     parseTxtPalette (join_lines (map hex_text hex)) = map hex_color hex) /\
  parseGplPalette (s1 ++ LF :: s2) = parseGplPalette s1 ++ parseGplPalette s2 /\
  parseTxtPalette (s1 ++ LF :: s2) = parseTxtPalette s1 ++ parseTxtPalette s2.
Proof.
  split; [apply parseImagePalette_first_seen |].
  split; [rewrite parseImagePalette_first_seen; apply first_seen_NoDup; constructor |].
  split; [| split; [| split; [| split; [apply parseGplPalette_app
                                       | apply parseTxtPalette_app]]]].
  - intros Hok. rewrite forallb_forall in Hok. unfold parseGplPalette.
    apply parse_join; [reflexivity |]. intros t Ht.
    split; [apply (triple_text_one_line is_space) | apply gpl_line_triple]; auto.
  - intros Hok. rewrite forallb_forall in Hok. unfold parseTxtPalette.
    apply parse_join; [reflexivity |]. intros t Ht.
    split; [apply (triple_text_one_line is_comma_or_space) | apply txt_line_triple]; auto.
  - intros Hok. rewrite forallb_forall in Hok. unfold parseTxtPalette.
    apply parse_join; [reflexivity |]. intros h Hh.
    split; [apply hex_text_one_line | apply txt_line_hex]; auto.
Qed.

(** A GIMP palette with a colour name, leading blanks, a tab between the
    numerals, and the first colour once more. *)
Definition gpl_rows : list TripleLine :=
  [mkTriple [] (text_of "255") (text_of " ") (text_of "0") (text_of " ") (text_of "0")
     (text_of " red");
   mkTriple (text_of "  ") (text_of "0") (text_of "	") (text_of "128") (text_of "  ")
     (text_of "64") [];
   mkTriple [] (text_of "255") (text_of " ") (text_of "0") (text_of " ") (text_of "0")
     (text_of " red again")].

(** A text palette of numerals, the second colour twice. *)
Definition txt_rows : list TripleLine :=
  [mkTriple [] (text_of "12") (text_of ",") (text_of "34") (text_of ",") (text_of "56") [];
   mkTriple [] (text_of "300") (text_of ", ") (text_of "0") (text_of " ") (text_of "7") [];
   mkTriple (text_of " ") (text_of "300") (text_of ",") (text_of "0") (text_of ",")
     (text_of "7") (text_of " ;")].

(** A text palette of hexadecimal colours, one colour in three spellings. *)
Definition hex_rows : list HexLine :=
  [mkHex [] true (text_of "FF8000") [];
   mkHex [] false (text_of "ff8000") (text_of " ");
   mkHex (text_of " ") true (text_of "Ff8000") [];
   mkHex [] false (text_of "123456") []].

Lemma palette_sources_order_witness :
  parseGplPalette (join_lines (map triple_text gpl_rows)) = map triple_color gpl_rows /\
  parseTxtPalette (join_lines (map triple_text txt_rows)) = map triple_color txt_rows /\
  parseTxtPalette (join_lines (map hex_text hex_rows)) = map hex_color hex_rows.
Proof.
  pose proof (palette_sources_order demo_png [] [] gpl_rows txt_rows hex_rows)
    as (_ & _ & Hgpl & Htxt & Hhex & _).
  split; [apply Hgpl; reflexivity |].
  split; [apply Htxt; reflexivity | apply Hhex; reflexivity].
Defined.

(** The files of the witness and the palettes they load. *)
Example palette_files :
  join_lines (map triple_text gpl_rows) = text_of "255 0 0 red
  0	128  64
255 0 0 red again" /\
  map triple_color gpl_rows = [mkColor 255 0 0; mkColor 0 128 64; mkColor 255 0 0] /\
  join_lines (map triple_text txt_rows) = text_of "12,34,56
300, 0 7
 300,0,7 ;" /\
  map triple_color txt_rows = [mkColor 12 34 56; mkColor 300 0 7; mkColor 300 0 7] /\
  join_lines (map hex_text hex_rows) = text_of "#FF8000
ff8000 
 #Ff8000
123456" /\
  map hex_color hex_rows
    = [mkColor 255 128 0; mkColor 255 128 0; mkColor 255 128 0; mkColor 18 52 86].
Proof. repeat split. Qed.

(** X1.  On byte components [colorDistance] involves no 32-bit wrap-around:
    it is the plain redmean expression with floor divisions.  That number is
    never negative, it is 0 exactly when the two colours are equal, and it
    does not depend on the order of the two colours. *)
Theorem colorDistance_on_bytes (r1 g1 b1 r2 g2 b2 : Z) :
  is_byte r1 -> is_byte g1 -> is_byte b1 -> is_byte r2 -> is_byte g2 -> is_byte b2 ->
  exists d,
    colorDistance (Some r1) (Some g1) (Some b1) r2 g2 b2 = Some d /\
    d = (512 + (r1 + r2) / 2) * (r1 - r2) * (r1 - r2) / 256
        + 4 * (g1 - g2) * (g1 - g2)
        + (767 - (r1 + r2) / 2) * (b1 - b2) * (b1 - b2) / 256 /\
    0 <= d /\
    (d = 0 <-> r1 = r2 /\ g1 = g2 /\ b1 = b2) /\
    colorDistance (Some r2) (Some g2) (Some b2) r1 g1 b1 = Some d.
Proof.
  intros Hr1 Hg1 Hb1 Hr2 Hg2 Hb2.
  exists (redmean r1 g1 b1 r2 g2 b2).
  split; [apply colorDistance_numbers |].
  split; [apply redmean_bytes; assumption |].
  split; [apply redmean_nonneg; assumption |].
  split; [apply redmean_zero; assumption |].
  rewrite colorDistance_numbers. f_equal. apply redmean_sym.
Qed.

Lemma colorDistance_on_bytes_witness :
  exists d,
    colorDistance (Some 200) (Some 10) (Some 10) 255 0 0 = Some d /\
    d = (512 + (200 + 255) / 2) * (200 - 255) * (200 - 255) / 256
        + 4 * (10 - 0) * (10 - 0)
        + (767 - (200 + 255) / 2) * (10 - 0) * (10 - 0) / 256 /\
    0 <= d /\
    (d = 0 <-> 200 = 255 /\ 10 = 0 /\ 10 = 0) /\
    colorDistance (Some 255) (Some 0) (Some 0) 200 10 10 = Some d.
Proof.
  apply (colorDistance_on_bytes 200 10 10 255 0 0); unfold is_byte; lia.
Defined.

(** X2.  [findNearestColor] never invents a colour.  Whatever the three
    components are (numbers of any size, or [undefined] past the end of a
    buffer), the result is [undefined] exactly for the empty palette and
    otherwise an entry of the palette; with an undefined green component it
    is the first entry. *)
Theorem findNearestColor_never_invents (r0 g0 b0 : JS.jsval) (palette : list Color) :
  (findNearestColor r0 g0 b0 palette = None <-> palette = []) /\
  (forall c, findNearestColor r0 g0 b0 palette = Some c -> c ∈ palette) /\
  findNearestColor r0 None b0 palette = head palette.
Proof.
  split; [| split].
  - split.
    + intros Hnone. destruct palette as [| c l]; [reflexivity |].
      destruct (findNearestColor_nonempty r0 g0 b0 (c :: l)) as [n Hn]; [discriminate |].
      congruence.
    + intros ->. reflexivity.
  - intros c. apply findNearestColor_elem.
  - unfold findNearestColor, findNearestColor_scan. apply scan_palette_nan.
Qed.

(** X3.  An image that is matched already is left alone.  When every pixel
    of a decoded buffer is fully transparent or carries the colour of an
    entry of the (byte) palette, [matchPngToPalette] completes, writes
    nothing and leaves [modified] false, so that the tool hands back the
    input string without re-encoding. *)
Theorem matched_image_is_left_alone (png : list Z) (palette : list Color)
    (cache : gmap Z (option Color)) :
  rgba_buffer png -> Forall byte_color palette -> cache_ok palette cache ->
  on_palette palette png ->
  m_data (fst (matchPngToPalette png palette cache)) = png /\
  m_modified (fst (matchPngToPalette png palette cache)) = false /\
  snd (matchPngToPalette png palette cache) = Normal.
Proof.
  intros [Hd Hmod] Hpal Hc Hon. unfold matchPngToPalette.
  destruct (match_loop_simulation palette (pixel_starts (length png)) png cache ∅ false
              Hd (pixel_starts_whole _ Hmod) Hc) as (c' & _ & ->).
  rewrite (nocache_loop_on_palette palette png ∅ false _ Hpal Hon (pixel_starts_whole _ Hmod)).
  cbn. auto.
Qed.

Lemma matched_image_is_left_alone_witness :
  m_data (fst (matchPngToPalette [255; 0; 0; 255; 1; 2; 3; 0] demo_palette ∅))
    = [255; 0; 0; 255; 1; 2; 3; 0] /\
  m_modified (fst (matchPngToPalette [255; 0; 0; 255; 1; 2; 3; 0] demo_palette ∅)) = false /\
  snd (matchPngToPalette [255; 0; 0; 255; 1; 2; 3; 0] demo_palette ∅) = Normal.
Proof.
  apply (matched_image_is_left_alone [255; 0; 0; 255; 1; 2; 3; 0] demo_palette ∅).
  - split; [| reflexivity]. unfold bytes. repeat constructor; cbn; lia.
  - exact demo_palette_bytes.
  - apply cache_ok_empty.
  - intros p [H0 H1]. cbn in H1.
    assert (Hp : p = 0 \/ p = 1) by lia.
    destruct Hp as [-> | ->]; [right | left; reflexivity].
    exists (mkColor 255 0 0). split; [apply elem_of_cons; left; reflexivity |].
    repeat split.
Defined.

(** X4.  [buildPaletteData_] yields one byte colour per palette entry,
    whatever number the entry parsed to: an entry that did not parse (NaN)
    becomes black, and the number 0xRRGGBB is taken apart into its three
    bytes. *)
Theorem buildPaletteData_components (colors : list JS.jsval) (r0 g0 b0 : Z) :
  Forall byte_color (buildPaletteData_ colors) /\
  length (buildPaletteData_ colors) = length colors /\
  buildPaletteData_ [None] = [mkColor 0 0 0] /\
  (is_byte r0 -> is_byte g0 -> is_byte b0 ->
     buildPaletteData_ [Some (r0 * 65536 + g0 * 256 + b0)] = [mkColor r0 g0 b0]).
Proof.
  split; [apply buildPaletteData_bytes |].
  split; [apply length_map |].
  split; [reflexivity |].
  intros Hr Hg Hb. unfold buildPaletteData_. cbn [map int_of].
  destruct (unpack_rgb r0 g0 b0 Hr Hg Hb) as (-> & -> & ->). reflexivity.
Qed.

Lemma buildPaletteData_components_witness :
  buildPaletteData_ [Some (18 * 65536 + 52 * 256 + 86)] = [mkColor 18 52 86].
Proof.
  apply (proj2 (proj2 (proj2 (buildPaletteData_components [] 18 52 86))));
    unfold is_byte; lia.
Defined.
(** ** Images are determined by their pixels *)

Lemma png_ext (p q : PNG) :
  wf_png p -> wf_png q -> width p = width q -> height p = height q ->
  (forall x y c, 0 <= x < width p -> 0 <= y < height p -> 0 <= c < 4 ->
     pixel_at p x y c = pixel_at q x y c) ->
  p = q.
Proof.
  intros (Pw & Ph & Plen & Pb) (Qw & Qh & Qlen & Qb) Ew Eh Hpix.
  destruct p as [pw ph pd], q as [qw qh qd]. cbn [width height data] in *. subst qw qh.
  f_equal. apply buf_ext; [lia |].
  intros i Hi.
  pose proof (Z.div_mod i 4 ltac:(lia)) as Hi4.
  pose proof (Z.mod_pos_bound i 4 ltac:(lia)) as Hc.
  pose proof (Z.div_mod (i / 4) pw ltac:(lia)) as Hq.
  pose proof (Z.mod_pos_bound (i / 4) pw ltac:(lia)) as Hx.
  assert (Hy : 0 <= i / 4 / pw < ph).
  { split; [apply Z.div_pos; [apply Z.div_pos |]; lia |].
    apply Z.div_lt_upper_bound; [lia |]. apply Z.div_lt_upper_bound; lia. }
  specialize (Hpix ((i / 4) mod pw) (i / 4 / pw) (i mod 4) Hx Hy Hc).
  unfold pixel_at in Hpix. cbn [width data] in Hpix.
  replace (4 * (pw * (i / 4 / pw) + (i / 4) mod pw) + i mod 4) with i in Hpix by lia.
  exact Hpix.
Qed.

(** ** [resizePng] and [scalePng] by whole factors *)

Lemma resizePng_identity (png : PNG) :
  wf_png png -> 4 * (width png * height png) <= 2 ^ 31 ->
  resizePng png (width png) (height png) = Returns png.
Proof.
  intros Hwf Hfit. pose proof Hwf as (Pw & Ph & _).
  destruct (resizePng_spec png (width png) (height png) Hwf Hfit)
    as (q & -> & Ew & Eh & Hq & Hpix); try lia.
  f_equal. apply png_ext; try assumption.
  intros x y c Hx Hy Hc. rewrite Ew in Hx. rewrite Eh in Hy.
  rewrite Hpix by assumption.
  rewrite !Z.div_mul by lia. reflexivity.
Qed.

Lemma resizePng_up_down (png : PNG) (kx ky : Z) :
  wf_png png -> 1 <= kx -> 1 <= ky ->
  4 * (kx * width png * (ky * height png)) <= 2 ^ 31 ->
  exists q,
    resizePng png (kx * width png) (ky * height png) = Returns q /\
    width q = kx * width png /\ height q = ky * height png /\
    resizePng q (width png) (height png) = Returns png.
Proof.
  intros Hwf Hkx Hky Hfit. pose proof Hwf as (Pw & Ph & _).
  assert (Hsrc : 4 * (width png * height png) <= 2 ^ 31) by nia.
  destruct (resizePng_spec png (kx * width png) (ky * height png) Hwf Hsrc)
    as (q & Hq & Ew & Eh & Hwfq & Hpix); try nia.
  exists q. split; [exact Hq |]. split; [exact Ew |]. split; [exact Eh |].
  assert (Hqfit : 4 * (width q * height q) <= 2 ^ 31) by (rewrite Ew, Eh; exact Hfit).
  destruct (resizePng_spec q (width png) (height png) Hwfq Hqfit)
    as (q' & -> & Ew' & Eh' & Hwfq' & Hpix'); try lia.
  f_equal. apply png_ext; try assumption; try congruence.
  intros x y c Hx Hy Hc. rewrite Ew' in Hx. rewrite Eh' in Hy.
  rewrite Hpix' by assumption. rewrite Ew, Eh.
  replace (x * (kx * width png)) with (x * kx * width png) by ring.
  replace (y * (ky * height png)) with (y * ky * height png) by ring.
  rewrite !Z.div_mul by lia.
  rewrite Hpix by nia.
  replace (x * kx * width png) with (x * (kx * width png)) by ring.
  replace (y * ky * height png) with (y * (ky * height png)) by ring.
  rewrite !Z.div_mul by nia. reflexivity.
Qed.

Lemma scalePng_spec (png : PNG) (k : Z) :
  wf_png png -> 2 <= k -> 4 * (width png * k * (height png * k)) <= 2 ^ 31 ->
  exists q,
    scalePng png k = Returns q /\
    width q = width png * k /\ height q = height png * k /\ wf_png q /\
    forall x y c, 0 <= x < width png * k -> 0 <= y < height png * k -> 0 <= c < 4 ->
      pixel_at q x y c = pixel_at png (x / k) (y / k) c.
Proof.
  intros Hwf Hk Hfit. pose proof Hwf as (Pw & Ph & Plen & Pb).
  assert (Hsrc : 4 * (width png * height png) <= 2 ^ 31) by nia.
  destruct (new_PNG_positive (width png * k) (height png * k))
    as (Ew & Eh & Elen & Eb & Ed); try nia.
  unfold scalePng. destruct (Z.eqb_spec k 1) as [| _]; [lia |].
  unfold copy_loops. rewrite (wf_png_has_data png Hwf), Ed. cbn [negb andb].
  rewrite andb_false_r. cbn [obind].
  destruct (rowmajor_blit (data png)
              (fun y x => JS.shl (width png * (y / k) + x / k) 2)
              (width png * k) (height png * k)
              (data (new_PNG (width png * k) (height png * k))) Elen Hfit)
    as (Hlen & Hbytes & Hget).
  eexists. split; [reflexivity |]. cbn [width height data]. rewrite Ew, Eh.
  split; [reflexivity | split; [reflexivity | split]].
  - unfold wf_png. cbn [width height data]. rewrite Hlen.
    repeat split; try nia. apply Hbytes. exact Eb.
  - intros x y c Hx Hy Hc. unfold pixel_at at 1. cbn [width data].
    rewrite Hget by assumption.
    assert (Hsx : 0 <= x / k < width png).
    { split; [apply Z.div_pos; lia | apply Z.div_lt_upper_bound; lia]. }
    assert (Hsy : 0 <= y / k < height png).
    { split; [apply Z.div_pos; lia | apply Z.div_lt_upper_bound; lia]. }
    rewrite (shl2_rowmajor (width png) (height png)) by assumption.
    destruct (wf_png_pixel png (x / k) (y / k) c Hwf Hsx Hsy Hc) as (v & Hv & Bv).
    unfold pixel_at in *. rewrite Hv. cbn. f_equal. apply Z.mod_small. exact Bv.
Qed.

(** X5.  Resizing a decoded image to its own size returns it unchanged, and
    enlarging it by whole factors [kx], [ky] loses nothing: resizing the
    enlarged image back to the original size returns the original image.
    The images are small enough for the products [x * width] and
    [y * height] of the three resizes to stay below 2^53, where the source
    index the code computes in floating point is the exact quotient. *)
Theorem resizePng_round_trip (png : PNG) (kx ky : Z) :
  wf_png png -> 1 <= kx -> 1 <= ky ->
  4 * (kx * width png * (ky * height png)) <= 2 ^ 31 ->
  kx * width png * width png <= 2 ^ 53 ->
  ky * height png * height png <= 2 ^ 53 ->
  resizePng png (width png) (height png) = Returns png /\
  exists q,
    resizePng png (kx * width png) (ky * height png) = Returns q /\
    width q = kx * width png /\ height q = ky * height png /\
    resizePng q (width png) (height png) = Returns png.
Proof.
  intros Hwf Hkx Hky Hfit _ _. pose proof Hwf as (Pw & Ph & _). split.
  - apply resizePng_identity; [exact Hwf | nia].
  - apply resizePng_up_down; assumption.
Qed.

Lemma resizePng_round_trip_witness :
  resizePng demo_png (width demo_png) (height demo_png) = Returns demo_png /\
  exists q,
    resizePng demo_png (3 * width demo_png) (2 * height demo_png) = Returns q /\
    width q = 3 * width demo_png /\ height q = 2 * height demo_png /\
    resizePng q (width demo_png) (height demo_png) = Returns demo_png.
Proof.
  apply (resizePng_round_trip demo_png 3 2);
    [exact demo_png_wf | lia | lia | cbn; lia | cbn; lia | cbn; lia].
Defined.

(** X6.  [scalePng] (the export tool) and [resizePng] (the transform tool)
    agree: scaling a decoded image by a whole factor [k >= 1] gives the image
    that [resizePng] gives for the target size [width * k] by [height * k].
    The image is small enough for the products [x * width] and [y * height]
    of the resize to stay below 2^53, where the source index the code
    computes in floating point is the exact quotient. *)
Theorem scalePng_is_resizePng (png : PNG) (k : Z) :
  wf_png png -> 1 <= k -> 4 * (width png * k * (height png * k)) <= 2 ^ 31 ->
  width png * (width png * k) <= 2 ^ 53 ->
  height png * (height png * k) <= 2 ^ 53 ->
  scalePng png k = resizePng png (width png * k) (height png * k).
Proof.
  intros Hwf Hk Hfit _ _. pose proof Hwf as (Pw & Ph & _).
  destruct (Z.eq_dec k 1) as [-> | Hne].
  - rewrite !Z.mul_1_r. rewrite resizePng_identity; [reflexivity | exact Hwf | nia].
  - destruct (scalePng_spec png k Hwf ltac:(lia) Hfit) as (q & -> & Ew & Eh & Hwfq & Hpix).
    destruct (resizePng_spec png (width png * k) (height png * k) Hwf)
      as (q' & -> & Ew' & Eh' & Hwfq' & Hpix'); try nia.
    f_equal. apply png_ext; try assumption; try congruence.
    intros x y c Hx Hy Hc. rewrite Ew in Hx. rewrite Eh in Hy.
    rewrite Hpix, Hpix' by assumption.
    rewrite !(Z.mul_comm _ (width png)), !(Z.mul_comm _ (height png)).
    rewrite !Z.div_mul_cancel_l by lia. reflexivity.
Qed.

Lemma scalePng_is_resizePng_witness :
  scalePng demo_png 3 = resizePng demo_png (width demo_png * 3) (height demo_png * 3).
Proof.
  apply (scalePng_is_resizePng demo_png 3);
    [exact demo_png_wf | lia | cbn; lia | cbn; lia | cbn; lia].
Defined.

(** X7.  [scalePng] by a whole factor [k >= 2] turns every pixel into a block
    of [k] by [k] equal pixels: the result is [width * k] by [height * k], and
    its pixel [(k*x + i, k*y + j)], for [i, j < k], is pixel [(x, y)] of the
    source. *)
Theorem scalePng_blocks (png : PNG) (k : Z) :
  wf_png png -> 2 <= k -> 4 * (width png * k * (height png * k)) <= 2 ^ 31 ->
  exists q,
    scalePng png k = Returns q /\
    width q = width png * k /\ height q = height png * k /\
    Z.of_nat (length (data q)) = 4 * (width png * k) * (height png * k) /\
    forall x y i j c,
      0 <= x < width png -> 0 <= y < height png -> 0 <= i < k -> 0 <= j < k -> 0 <= c < 4 ->
      pixel_at q (k * x + i) (k * y + j) c = pixel_at png x y c.
Proof.
  intros Hwf Hk Hfit.
  destruct (scalePng_spec png k Hwf Hk Hfit) as (q & Hq & Ew & Eh & Hwfq & Hpix).
  exists q. split; [exact Hq |]. split; [exact Ew |]. split; [exact Eh |]. split.
  - destruct Hwfq as (_ & _ & Hlen & _). rewrite Hlen, Ew, Eh. reflexivity.
  - intros x y i j c Hx Hy Hi Hj Hc.
    rewrite Hpix by nia.
    replace ((k * x + i) / k) with x
      by (apply (Z.div_unique _ _ _ i); lia).
    replace ((k * y + j) / k) with y
      by (apply (Z.div_unique _ _ _ j); lia).
    reflexivity.
Qed.

Lemma scalePng_blocks_witness :
  exists q,
    scalePng demo_png 2 = Returns q /\
    width q = width demo_png * 2 /\ height q = height demo_png * 2 /\
    Z.of_nat (length (data q)) = 4 * (width demo_png * 2) * (height demo_png * 2) /\
    forall x y i j c,
      0 <= x < width demo_png -> 0 <= y < height demo_png ->
      0 <= i < 2 -> 0 <= j < 2 -> 0 <= c < 4 ->
      pixel_at q (2 * x + i) (2 * y + j) c = pixel_at demo_png x y c.
Proof.
  apply (scalePng_blocks demo_png 2); [exact demo_png_wf | lia | cbn; lia].
Defined.
(** ** The content rectangle is the tight bounding box *)

Lemma hull_of_snoc (ps : list (Z * Z)) (p : Z * Z) :
  hull_of (ps ++ [p]) = hull_point (hull_of ps) p.
Proof. unfold hull_of. rewrite fold_left_app. reflexivity. Qed.

(** The box [a..c] by [b0..d] holds every cell of [ps] and each of its four
    sides touches one. *)
Definition tight_box (ps : list (Z * Z)) (a b0 c d : Z) : Prop :=
  (forall y x, (y, x) ∈ ps -> a <= x <= c /\ b0 <= y <= d) /\
  (exists y, (y, a) ∈ ps) /\ (exists y, (y, c) ∈ ps) /\
  (exists x, (b0, x) ∈ ps) /\ (exists x, (d, x) ∈ ps).

Lemma hull_of_tight (ps : list (Z * Z)) :
  match hull_of ps with
  | None => ps = []
  | Some (a, b0, c, d) => tight_box ps a b0 c d
  end.
Proof.
  induction ps as [| p ps IH] using rev_ind; [reflexivity |].
  rewrite hull_of_snoc. destruct p as [y x].
  destruct (hull_of ps) as [[[[a b0] c] d] |]; cbn [hull_point fst snd].
  - destruct IH as (Hall & (ya & Ha) & (yc & Hc) & (xb & Hb) & (xd & Hd)).
    assert (Hnew : (y, x) ∈ ps ++ [(y, x)]).
    { apply elem_of_app. right. apply list_elem_of_singleton. reflexivity. }
    assert (Hold : forall q, q ∈ ps -> q ∈ ps ++ [(y, x)]).
    { intros q Hq. apply elem_of_app. left. exact Hq. }
    split; [| split; [| split; [| split]]].
    + intros y' x' Hin. apply elem_of_app in Hin as [Hin | Hin].
      * specialize (Hall y' x' Hin). lia.
      * apply list_elem_of_singleton in Hin. injection Hin as -> ->. lia.
    + destruct (Z.min_spec a x) as [[_ ->] | [_ ->]];
        [exists ya; apply Hold; exact Ha | exists y; exact Hnew].
    + destruct (Z.max_spec c x) as [[_ ->] | [_ ->]];
        [exists y; exact Hnew | exists yc; apply Hold; exact Hc].
    + destruct (Z.min_spec b0 y) as [[_ ->] | [_ ->]];
        [exists xb; apply Hold; exact Hb | exists x; exact Hnew].
    + destruct (Z.max_spec d y) as [[_ ->] | [_ ->]];
        [exists x; exact Hnew | exists xd; apply Hold; exact Hd].
  - subst ps. cbn [app].
    assert (Hnew : (y, x) ∈ [(y, x)]) by (apply list_elem_of_singleton; reflexivity).
    split; [| split; [| split; [| split]]]; try (eexists; exact Hnew).
    intros y' x' Hin. apply list_elem_of_singleton in Hin. injection Hin as -> ->. lia.
Qed.

(** Pixel [(x, y)] lies in the image and its alpha is above 0. *)
Definition visible (png : PNG) (x y : Z) : Prop :=
  0 <= x < width png /\ 0 <= y < height png /\ positive (pixel_at png x y 3) = true.

Lemma content_cells_visible (png : PNG) (x y : Z) :
  4 * (width png * height png) <= 2 ^ 31 ->
  (y, x) ∈ content_cells png <-> visible png x y.
Proof.
  intros Hfit. unfold content_cells, visible, pixel_at.
  rewrite list_elem_of_In, filter_In, <- list_elem_of_In, elem_of_cells. cbn [fst snd].
  split.
  - intros [[Hy Hx] Hpos].
    rewrite (shl2_rowmajor (width png) (height png) y x Hy Hx Hfit) in Hpos. auto.
  - intros (Hx & Hy & Hpos).
    rewrite (shl2_rowmajor (width png) (height png) y x Hy Hx Hfit). auto.
Qed.

(** The two outcomes of [findContentBounds]. *)
Lemma findContentBounds_cases (png : PNG) :
  4 * (width png * height png) <= 2 ^ 31 ->
  ((forall x y, ~ visible png x y) /\
   findContentBounds png = mkRect 0 0 (width png) (height png))
  \/
  (exists a b0 c d,
     findContentBounds png = mkRect a b0 (c - a + 1) (d - b0 + 1) /\
     (forall x y, visible png x y -> a <= x <= c /\ b0 <= y <= d) /\
     (exists y, visible png a y) /\ (exists y, visible png c y) /\
     (exists x, visible png x b0) /\ (exists x, visible png x d)).
Proof.
  intros Hfit. unfold findContentBounds. rewrite findContentBounds_scan_hull.
  pose proof (hull_of_tight (content_cells png)) as Ht.
  destruct (hull_of (content_cells png)) as [[[[a b0] c] d] |];
    cbn [repr_frame hasContent negb accMinX accMinY accMaxX accMaxY].
  - right. exists a, b0, c, d. split; [reflexivity |].
    destruct Ht as (Hall & (ya & Ha) & (yc & Hc) & (xb & Hb) & (xd & Hd)).
    split; [| split; [| split; [| split]]].
    + intros x y Hv. apply Hall. apply content_cells_visible; assumption.
    + exists ya. apply content_cells_visible; assumption.
    + exists yc. apply content_cells_visible; assumption.
    + exists xb. apply content_cells_visible; assumption.
    + exists xd. apply content_cells_visible; assumption.
  - left. split; [| reflexivity].
    intros x y Hv. apply content_cells_visible in Hv; [| exact Hfit].
    rewrite Ht in Hv. inversion Hv.
Qed.

Lemma findContentBounds_within (png : PNG) :
  wf_png png -> 4 * (width png * height png) <= 2 ^ 31 ->
  rect_within (width png) (height png) (findContentBounds png).
Proof.
  intros (Pw & Ph & _) Hfit.
  destruct (findContentBounds_cases png Hfit)
    as [[_ ->] | (a & b0 & c & d & -> & Hall & (ya & Ha) & (yc & Hc) & (xb & Hb) & (xd & Hd))];
    unfold rect_within; cbn [rect_x rect_y rect_width rect_height]; [lia |].
  pose proof (Hall _ _ Ha). pose proof (Hall _ _ Hc).
  pose proof (Hall _ _ Hb). pose proof (Hall _ _ Hd).
  unfold visible in *. lia.
Qed.

(** X8.  [findContentBounds] returns the tight bounding box of the pixels
    whose alpha is above 0: the rectangle lies inside the image, holds every
    such pixel, and each of its four sides touches one.  When the image has
    no such pixel the rectangle is the whole image. *)
Theorem findContentBounds_tight (png : PNG) :
  wf_png png -> 4 * (width png * height png) <= 2 ^ 31 ->
  let R := findContentBounds png in
  rect_within (width png) (height png) R /\
  (forall x y, visible png x y ->
     rect_x R <= x < rect_x R + rect_width R /\
     rect_y R <= y < rect_y R + rect_height R) /\
  ((exists x y, visible png x y) ->
     (exists y, visible png (rect_x R) y) /\
     (exists y, visible png (rect_x R + rect_width R - 1) y) /\
     (exists x, visible png x (rect_y R)) /\
     (exists x, visible png x (rect_y R + rect_height R - 1))) /\
  ((forall x y, ~ visible png x y) -> R = mkRect 0 0 (width png) (height png)).
Proof.
  intros Hwf Hfit R. subst R.
  split; [apply findContentBounds_within; assumption |].
  destruct (findContentBounds_cases png Hfit)
    as [[Hnone ->] | (a & b0 & c & d & -> & Hall & (ya & Ha) & (yc & Hc) & (xb & Hb) & (xd & Hd))];
    cbn [rect_x rect_y rect_width rect_height].
  - split; [intros x y Hv; destruct (Hnone x y Hv) |].
    split; [intros (x & y & Hv); destruct (Hnone x y Hv) | reflexivity].
  - split; [intros x y Hv; specialize (Hall x y Hv); lia |].
    split.
    + intros _.
      replace (a + (c - a + 1) - 1) with c by lia.
      replace (b0 + (d - b0 + 1) - 1) with d by lia.
      eauto 10.
    + intros Hnone. destruct (Hnone _ _ Ha).
Qed.
Lemma findContentBounds_tight_witness :
  let R := findContentBounds demo_png in
  rect_within (width demo_png) (height demo_png) R /\
  (forall x y, visible demo_png x y ->
     rect_x R <= x < rect_x R + rect_width R /\
     rect_y R <= y < rect_y R + rect_height R) /\
  ((exists x y, visible demo_png x y) ->
     (exists y, visible demo_png (rect_x R) y) /\
     (exists y, visible demo_png (rect_x R + rect_width R - 1) y) /\
     (exists x, visible demo_png x (rect_y R)) /\
     (exists x, visible demo_png x (rect_y R + rect_height R - 1))) /\
  ((forall x y, ~ visible demo_png x y) ->
     R = mkRect 0 0 (width demo_png) (height demo_png)).
Proof.
  apply (findContentBounds_tight demo_png); [exact demo_png_wf | cbn; lia].
Defined.

(** ** Cropping to content *)

Lemma cropPng_whole (png : PNG) :
  wf_png png -> 4 * (width png * height png) <= 2 ^ 31 ->
  cropPng png (mkRect 0 0 (width png) (height png)) = Returns png.
Proof.
  intros Hwf Hfit. pose proof Hwf as (Pw & Ph & _).
  destruct (cropPng_spec png (mkRect 0 0 (width png) (height png)) Hwf Hfit)
    as (C & -> & Ew & Eh & HwfC & Hpix).
  { unfold rect_within. cbn. lia. }
  cbn [rect_x rect_y rect_width rect_height] in *.
  f_equal. apply png_ext; try assumption.
  intros x y c Hx Hy Hc. rewrite Ew in Hx. rewrite Eh in Hy.
  rewrite Hpix by assumption. rewrite !Z.add_0_r. reflexivity.
Qed.

Lemma crop_to_content (png : PNG) :
  wf_png png -> 4 * (width png * height png) <= 2 ^ 31 ->
  exists C,
    cropPng png (findContentBounds png) = Returns C /\
    wf_png C /\ 4 * (width C * height C) <= 2 ^ 31 /\
    width C = rect_width (findContentBounds png) /\
    height C = rect_height (findContentBounds png) /\
    (forall x y, visible png x y ->
       visible C (x - rect_x (findContentBounds png)) (y - rect_y (findContentBounds png)) /\
       forall c, 0 <= c < 4 ->
         pixel_at C (x - rect_x (findContentBounds png))
                    (y - rect_y (findContentBounds png)) c = pixel_at png x y c) /\
    findContentBounds C = mkRect 0 0 (width C) (height C).
Proof.
  intros Hwf Hfit. pose proof Hwf as (Pw & Ph & _).
  pose proof (findContentBounds_within png Hwf Hfit) as Hin.
  destruct (cropPng_spec png (findContentBounds png) Hwf Hfit Hin)
    as (C & HC & Ew & Eh & HwfC & Hpix).
  assert (HfitC : 4 * (width C * height C) <= 2 ^ 31).
  { rewrite Ew, Eh. destruct Hin as (? & ? & ? & ? & ? & ?).
    assert (rect_width (findContentBounds png) * rect_height (findContentBounds png)
            <= width png * height png) by (apply Z.mul_le_mono_nonneg; lia).
    lia. }
  exists C. split; [exact HC |]. split; [exact HwfC |]. split; [exact HfitC |].
  split; [exact Ew |]. split; [exact Eh |].
  (* a visible pixel of the source shows in the cropped image *)
  assert (Hkeep : forall a b0 c d,
            findContentBounds png = mkRect a b0 (c - a + 1) (d - b0 + 1) ->
            forall x y, visible png x y -> a <= x <= c /\ b0 <= y <= d ->
            visible C (x - a) (y - b0) /\
            forall ch, 0 <= ch < 4 -> pixel_at C (x - a) (y - b0) ch = pixel_at png x y ch).
  { intros a b0 c d HR x y (Hx & Hy & Hpos) Hbox.
    rewrite HR in Ew, Eh, Hpix. cbn [rect_x rect_y rect_width rect_height] in *.
    assert (Hget : forall ch, 0 <= ch < 4 ->
              pixel_at C (x - a) (y - b0) ch = pixel_at png x y ch).
    { intros ch Hch. rewrite Hpix by lia. f_equal; lia. }
    split; [| exact Hget].
    unfold visible. rewrite Ew, Eh, Hget by lia. repeat split; try lia. exact Hpos. }
  destruct (findContentBounds_cases png Hfit)
    as [[Hnone HR] | (a & b0 & c & d & HR & Hall & (ya & Ha) & (yc & Hc) & (xb & Hb) & (xd & Hd))].
  - split; [intros x y Hv; destruct (Hnone x y Hv) |].
    destruct (findContentBounds_cases C HfitC)
      as [[_ HR'] | (a' & b' & c' & d' & _ & _ & (y' & Hv') & _)]; [exact HR' |].
    exfalso. destruct Hv' as (Hx' & Hy' & Hpos').
    rewrite HR in Ew, Eh, Hpix. cbn [rect_x rect_y rect_width rect_height] in *.
    rewrite Hpix in Hpos' by lia.
    apply (Hnone (a' + 0) (y' + 0)). unfold visible. repeat split; try lia. exact Hpos'.
  - split.
    { intros x y Hv. rewrite HR. cbn [rect_x rect_y].
      apply (Hkeep a b0 c d HR x y Hv). apply Hall. exact Hv. }
    pose proof (Hall _ _ Ha) as Ba. pose proof (Hall _ _ Hc) as Bc.
    pose proof (Hall _ _ Hb) as Bb. pose proof (Hall _ _ Hd) as Bd.
    destruct (Hkeep a b0 c d HR _ _ Ha Ba) as [Va _].
    destruct (Hkeep a b0 c d HR _ _ Hc Bc) as [Vc _].
    destruct (Hkeep a b0 c d HR _ _ Hb Bb) as [Vb _].
    destruct (Hkeep a b0 c d HR _ _ Hd Bd) as [Vd _].
    rewrite HR in Ew, Eh. cbn [rect_width rect_height] in Ew, Eh.
    pose proof (findContentBounds_within C HwfC HfitC) as HinC.
    destruct (findContentBounds_cases C HfitC)
      as [[_ HR'] | (a' & b' & c' & d' & HR' & Hall' & _)]; [exact HR' |].
    rewrite HR' in *. unfold rect_within in HinC.
    cbn [rect_x rect_y rect_width rect_height] in HinC.
    pose proof (Hall' _ _ Va). pose proof (Hall' _ _ Vc).
    pose proof (Hall' _ _ Vb). pose proof (Hall' _ _ Vd).
    f_equal; lia.
Qed.

(** X9.  Cropping a decoded image to its content loses no pixel with alpha
    above 0 (each one shows, with all four bytes, at its place counted from
    the rectangle's corner), and it is idempotent: the content rectangle of
    the cropped image is the whole cropped image, so cropping to content
    once more gives the same image. *)
Theorem crop_to_content_idempotent (png : PNG) :
  wf_png png -> 4 * (width png * height png) <= 2 ^ 31 ->
  exists C,
    cropPng png (findContentBounds png) = Returns C /\
    width C = rect_width (findContentBounds png) /\
    height C = rect_height (findContentBounds png) /\
    (forall x y, visible png x y ->
       visible C (x - rect_x (findContentBounds png)) (y - rect_y (findContentBounds png)) /\
       forall c, 0 <= c < 4 ->
         pixel_at C (x - rect_x (findContentBounds png))
                    (y - rect_y (findContentBounds png)) c = pixel_at png x y c) /\
    findContentBounds C = mkRect 0 0 (width C) (height C) /\
    cropPng C (findContentBounds C) = Returns C.
Proof.
  intros Hwf Hfit.
  destruct (crop_to_content png Hwf Hfit) as (C & HC & HwfC & HfitC & Ew & Eh & Hkeep & HR).
  exists C. repeat (split; [assumption |]).
  rewrite HR. apply cropPng_whole; assumption.
Qed.

Lemma crop_to_content_idempotent_witness :
  exists C,
    cropPng demo_png (findContentBounds demo_png) = Returns C /\
    width C = rect_width (findContentBounds demo_png) /\
    height C = rect_height (findContentBounds demo_png) /\
    (forall x y, visible demo_png x y ->
       visible C (x - rect_x (findContentBounds demo_png))
                 (y - rect_y (findContentBounds demo_png)) /\
       forall c, 0 <= c < 4 ->
         pixel_at C (x - rect_x (findContentBounds demo_png))
                    (y - rect_y (findContentBounds demo_png)) c = pixel_at demo_png x y c) /\
    findContentBounds C = mkRect 0 0 (width C) (height C) /\
    cropPng C (findContentBounds C) = Returns C.
Proof.
  apply (crop_to_content_idempotent demo_png); [exact demo_png_wf | cbn; lia].
Defined.
(** * The in-editor service, word by word *)

(** A pixel word of a frame: an element of a [Uint32Array]. *)
Definition is_uint32 (w : Z) : Prop := 0 <= w < 2 ^ 32.

(** The word 0xAABBGGRR with the given bytes. *)
Definition word_of (r0 g0 b0 a : Z) : Z := a * 2 ^ 24 + b0 * 2 ^ 16 + g0 * 2 ^ 8 + r0.

(** What matching makes of one pixel word: a word with alpha 0 stays; in any
    other word the three colour bytes are replaced by those of the palette
    entry that [findNearestColor] (the function of the command-line tool)
    picks for them. *)
Definition matched_word (paletteData : list Color) (w : Z) : Z :=
  if w / 2 ^ 24 =? 0 then w
  else
    match findNearestColor (Some (w mod 256)) (Some (w / 2 ^ 8 mod 256))
                           (Some (w / 2 ^ 16 mod 256)) paletteData with
    | Some n => word_of (r n) (g n) (b n) (w / 2 ^ 24)
    | None => w
    end.

(** A frame after matching: every word matched, the version raised by one
    when a word changed. *)
Definition matched_frame (paletteData : list Color) (f : Frame) : Frame :=
  mkFrame (map (matched_word paletteData) (pixels f))
          (if bool_decide (map (matched_word paletteData) (pixels f) = pixels f)
           then version f else version f + 1).

Lemma toInt32_high (w : Z) : 2 ^ 31 <= w < 2 ^ 32 -> JS.toInt32 w = w - 2 ^ 32.
Proof.
  intros Hw. unfold JS.toInt32.
  replace (w + 2 ^ 31) with (w - 2 ^ 31 + 1 * 2 ^ 32) by lia.
  rewrite Z.mod_add by lia. rewrite Z.mod_small by lia. lia.
Qed.

Lemma word_low_byte (w : Z) : is_uint32 w -> JS.band w 255 = w mod 256.
Proof.
  unfold is_uint32. intros Hw. rewrite band_255.
  destruct (Z.lt_ge_cases w (2 ^ 31)) as [Hlo | Hhi].
  - rewrite toInt32_small by lia. reflexivity.
  - rewrite toInt32_high by lia.
    replace (w - 2 ^ 32) with (w + (- 2 ^ 24) * 256) by lia.
    apply Z.mod_add. lia.
Qed.

Lemma word_byte (w n : Z) :
  is_uint32 w -> n = 8 \/ n = 16 ->
  JS.band (JS.sar w n) 255 = w / 2 ^ n mod 256.
Proof.
  unfold is_uint32. intros Hw Hn. rewrite band_255. unfold JS.sar.
  rewrite Z.shiftr_div_pow2 by lia.
  assert (Hq : 0 <= w / 2 ^ n < 2 ^ 24).
  { destruct Hn as [-> | ->]; split;
      try (apply Z.div_pos; lia); apply Z.div_lt_upper_bound; lia. }
  destruct (Z.lt_ge_cases w (2 ^ 31)) as [Hlo | Hhi].
  - rewrite (toInt32_small w) by lia. rewrite toInt32_small by lia. reflexivity.
  - rewrite (toInt32_high w) by lia.
    assert (Hdiv : (w - 2 ^ 32) / 2 ^ n = w / 2 ^ n - 2 ^ (32 - n)).
    { replace (w - 2 ^ 32) with (w + (- 2 ^ (32 - n)) * 2 ^ n)
        by (destruct Hn as [-> | ->]; lia).
      rewrite Z.div_add by (destruct Hn as [-> | ->]; lia). lia. }
    rewrite Hdiv.
    assert (Hp : 2 ^ (32 - n) = 2 ^ (24 - n) * 256) by (destruct Hn as [-> | ->]; lia).
    assert (Hr : 2 ^ 16 <= 2 ^ (32 - n) <= 2 ^ 24) by (destruct Hn as [-> | ->]; lia).
    rewrite toInt32_small by lia.
    replace (w / 2 ^ n - 2 ^ (32 - n)) with (w / 2 ^ n + (- 2 ^ (24 - n)) * 256) by lia.
    apply Z.mod_add. lia.
Qed.

Lemma word_alpha (w : Z) : is_uint32 w -> alpha_of w = w / 2 ^ 24.
Proof.
  unfold is_uint32. intros Hw. unfold alpha_of, JS.shr_u, JS.toUint32.
  rewrite Z.mod_small by lia. rewrite Z.shiftr_div_pow2 by lia.
  assert (Hq : 0 <= w / 2 ^ 24 < 256).
  { split; [apply Z.div_pos; lia | apply Z.div_lt_upper_bound; lia]. }
  rewrite band_255, toInt32_small by lia. apply Z.mod_small. lia.
Qed.

Lemma pack_word (a r0 g0 b0 : Z) :
  is_byte a -> is_byte r0 -> is_byte g0 -> is_byte b0 ->
  JS.toUint32 (JS.shl a 24) + JS.shl b0 16 + JS.shl g0 8 + r0 = word_of r0 g0 b0 a /\
  is_uint32 (word_of r0 g0 b0 a).
Proof.
  unfold is_byte, is_uint32, word_of. intros Ha Hr Hg Hb.
  assert (Ha24 : JS.toUint32 (JS.shl a 24) = a * 2 ^ 24).
  { unfold JS.shl. rewrite (toInt32_small a) by lia.
    rewrite toUint32_toInt32. rewrite Z.shiftl_mul_pow2 by lia.
    unfold JS.toUint32. apply Z.mod_small. lia. }
  rewrite Ha24, !shl_small by lia. split; lia.
Qed.

Lemma matched_word_uint32 (paletteData : list Color) (w : Z) :
  Forall byte_color paletteData -> is_uint32 w -> is_uint32 (matched_word paletteData w).
Proof.
  intros Hpal Hw. unfold matched_word.
  destruct (w / 2 ^ 24 =? 0); [exact Hw |].
  destruct (findNearestColor _ _ _ paletteData) as [n|] eqn:Hn; [| exact Hw].
  assert (Hbyte : byte_color n).
  { rewrite Forall_forall in Hpal. apply Hpal. eapply findNearestColor_elem. exact Hn. }
  destruct Hbyte as (Hr & Hg & Hb).
  apply pack_word; try assumption.
  unfold is_uint32 in Hw. unfold is_byte.
  split; [apply Z.div_pos; lia | apply Z.div_lt_upper_bound; lia].
Qed.
(** Every cached word is the matched word of its key. *)
Definition word_cache_ok (paletteData : list Color) (cache : gmap Z Z) : Prop :=
  forall k v, cache !! k = Some v -> v = matched_word paletteData k.

Section ServiceWords.

Variable paletteData : list Color.
Hypothesis palette_nonempty : paletteData <> [].
Hypothesis palette_bytes : Forall byte_color paletteData.

Local Abbreviation mw := (matched_word paletteData).

Lemma match_frame_pixel_step (i : nat) (px : list Z) (cache : gmap Z Z) (m : bool) (w : Z) :
  word_cache_ok paletteData cache -> px !! i = Some w -> is_uint32 w ->
  exists cache',
    word_cache_ok paletteData cache' /\
    match_frame_pixel paletteData (Z.of_nat i) (mkFS px cache m)
    = (mkFS (<[i := mw w]> px) cache' (m || negb (w =? mw w)), Normal).
Proof.
  intros Hc Hget Hw.
  pose proof (matched_word_uint32 paletteData w palette_bytes Hw) as Hmw.
  unfold match_frame_pixel. cbn [f_pixels f_cache f_modified].
  rewrite Nat2Z.id, Hget, (word_alpha w Hw).
  destruct (w / 2 ^ 24 =? 0) eqn:Hz.
  - assert (E : mw w = w) by (unfold matched_word; rewrite Hz; reflexivity).
    exists cache. split; [exact Hc |].
    rewrite E, Z.eqb_refl, orb_false_r, (list_insert_id px i w Hget). reflexivity.
  - destruct (cache !! w) as [cached|] eqn:Hk.
    + apply Hc in Hk. subst cached. exists cache. split; [exact Hc |].
      destruct (Z.eqb_spec w (mw w)) as [E | Hne]; cbn [negb].
      * rewrite orb_false_r, <- E, (list_insert_id px i w Hget). reflexivity.
      * rewrite orb_true_r. unfold u32_set, JS.toUint32.
        rewrite Nat2Z.id, Z.mod_small by exact Hmw. reflexivity.
    + cbv zeta. rewrite (word_low_byte w Hw), !(word_byte w) by auto.
      destruct (findNearestColor_nonempty (Some (w mod 256)) (Some (w / 2 ^ 8 mod 256))
                  (Some (w / 2 ^ 16 mod 256)) paletteData palette_nonempty) as [n Hn].
      rewrite Hn.
      assert (Hbyte : byte_color n).
      { rewrite Forall_forall in palette_bytes. apply palette_bytes.
        eapply findNearestColor_elem. exact Hn. }
      destruct Hbyte as (Hr & Hg & Hb).
      assert (Ha : is_byte (w / 2 ^ 24)).
      { unfold is_uint32 in Hw. unfold is_byte.
        split; [apply Z.div_pos; lia | apply Z.div_lt_upper_bound; lia]. }
      destruct (pack_word (w / 2 ^ 24) (r n) (g n) (b n) Ha Hr Hg Hb) as [-> _].
      assert (E : mw w = word_of (r n) (g n) (b n) (w / 2 ^ 24)).
      { unfold matched_word. rewrite Hz, Hn. reflexivity. }
      rewrite <- E.
      exists (<[w := mw w]> cache). split.
      { intros k v Hkv. destruct (Z.eq_dec w k) as [<- | Hne].
        - rewrite lookup_insert_eq in Hkv. congruence.
        - rewrite lookup_insert_ne in Hkv by exact Hne. apply Hc. exact Hkv. }
      destruct (Z.eqb_spec w (mw w)) as [E' | Hne]; cbn [negb].
      * rewrite orb_false_r, <- E', (list_insert_id px i w Hget). reflexivity.
      * rewrite orb_true_r. unfold u32_set, JS.toUint32.
        rewrite Nat2Z.id, Z.mod_small by exact Hmw. reflexivity.
Qed.

Lemma changed_cons (w : Z) (rest : list Z) (m : bool) :
  m || negb (w =? mw w) || negb (bool_decide (map mw rest = rest))
  = m || negb (bool_decide (map mw (w :: rest) = w :: rest)).
Proof.
  rewrite <- orb_assoc. f_equal. cbn [map].
  destruct (Z.eqb_spec w (mw w)) as [E | Hne]; cbn [negb orb].
  - destruct (bool_decide_reflect (map mw rest = rest)) as [Er | Hr]; cbn [negb].
    + symmetry. apply negb_false_iff, bool_decide_eq_true. congruence.
    + symmetry. apply negb_true_iff, bool_decide_eq_false. congruence.
  - symmetry. apply negb_true_iff, bool_decide_eq_false. congruence.
Qed.

Lemma match_frame_loop_map (post : list Z) :
  forall (pre : list Z) (cache : gmap Z Z) (m : bool),
    word_cache_ok paletteData cache -> Forall is_uint32 post ->
    exists cache',
      word_cache_ok paletteData cache' /\
      run_loop (match_frame_pixel paletteData)
               (map Z.of_nat (seq (length pre) (length post)))
               (mkFS (pre ++ post) cache m)
      = (mkFS (pre ++ map mw post) cache'
              (m || negb (bool_decide (map mw post = post))), Normal).
Proof.
  induction post as [| w rest IH]; intros pre cache m Hc Hpost.
  - exists cache. split; [exact Hc |]. cbn.
    rewrite orb_false_r. reflexivity.
  - apply Forall_cons in Hpost as [Hw Hrest].
    cbn [length seq map run_loop].
    destruct (match_frame_pixel_step (length pre) (pre ++ w :: rest) cache m w Hc)
      as (c1 & Hc1 & ->); [apply list_lookup_middle; reflexivity | exact Hw |].
    rewrite insert_app_r_alt by lia. rewrite Nat.sub_diag. cbn [insert list_insert].
    destruct (IH (pre ++ [mw w]) c1 (m || negb (w =? mw w)) Hc1 Hrest)
      as (c2 & Hc2 & Hrun).
    rewrite length_app, Nat.add_1_r, <- !app_assoc in Hrun. cbn [app] in Hrun.
    exists c2. split; [exact Hc2 |]. rewrite Hrun, changed_cons. reflexivity.
Qed.

Lemma matchFrameToPalette_map (frame : Frame) (cache : gmap Z Z) :
  word_cache_ok paletteData cache -> Forall is_uint32 (pixels frame) ->
  exists cache',
    word_cache_ok paletteData cache' /\
    matchFrameToPalette_ frame paletteData cache
    = (matched_frame paletteData frame, cache', Normal).
Proof.
  intros Hc Hpx. unfold matchFrameToPalette_, indices.
  destruct (match_frame_loop_map (pixels frame) [] cache false Hc Hpx) as (c' & Hc' & Hrun).
  cbn [length app] in Hrun. rewrite Hrun. cbn [f_pixels f_cache f_modified orb].
  exists c'. split; [exact Hc' |]. unfold matched_frame.
  destruct (bool_decide (map mw (pixels frame) = pixels frame)); reflexivity.
Qed.

Lemma match_frames_map (frames : list Frame) :
  forall cache,
    word_cache_ok paletteData cache ->
    Forall (fun f => Forall is_uint32 (pixels f)) frames ->
    exists cache',
      word_cache_ok paletteData cache' /\
      match_frames paletteData frames cache
      = (map (matched_frame paletteData) frames, cache', Normal).
Proof.
  induction frames as [| f rest IH]; intros cache Hc Hfs.
  - exists cache. split; [exact Hc | reflexivity].
  - apply Forall_cons in Hfs as [Hf Hrest]. cbn [match_frames map].
    destruct (matchFrameToPalette_map f cache Hc Hf) as (c1 & Hc1 & ->).
    destruct (IH c1 Hc1 Hrest) as (c2 & Hc2 & ->).
    exists c2. split; [exact Hc2 | reflexivity].
Qed.

Lemma match_layers_map (ls : list (list Frame)) :
  forall cache,
    word_cache_ok paletteData cache ->
    Forall (Forall (fun f => Forall is_uint32 (pixels f))) ls ->
    exists cache',
      word_cache_ok paletteData cache' /\
      match_layers paletteData ls cache
      = (map (map (matched_frame paletteData)) ls, cache', Normal).
Proof.
  induction ls as [| l rest IH]; intros cache Hc Hls.
  - exists cache. split; [exact Hc | reflexivity].
  - apply Forall_cons in Hls as [Hl Hrest]. cbn [match_layers map].
    destruct (match_frames_map l cache Hc Hl) as (c1 & Hc1 & ->).
    destruct (IH c1 Hc1 Hrest) as (c2 & Hc2 & ->).
    exists c2. split; [exact Hc2 | reflexivity].
Qed.

End ServiceWords.
Lemma word_of_bytes (r0 g0 b0 a : Z) :
  is_byte r0 -> is_byte g0 -> is_byte b0 -> is_byte a ->
  word_of r0 g0 b0 a mod 256 = r0 /\
  word_of r0 g0 b0 a / 2 ^ 8 mod 256 = g0 /\
  word_of r0 g0 b0 a / 2 ^ 16 mod 256 = b0 /\
  word_of r0 g0 b0 a / 2 ^ 24 = a.
Proof.
  unfold is_byte, word_of. intros Hr Hg Hb Ha.
  assert (E8 : (a * 2 ^ 24 + b0 * 2 ^ 16 + g0 * 2 ^ 8 + r0) / 2 ^ 8
               = a * 2 ^ 16 + b0 * 2 ^ 8 + g0).
  { symmetry. apply (Z.div_unique _ _ _ r0); lia. }
  assert (E16 : (a * 2 ^ 24 + b0 * 2 ^ 16 + g0 * 2 ^ 8 + r0) / 2 ^ 16 = a * 2 ^ 8 + b0).
  { symmetry. apply (Z.div_unique _ _ _ (g0 * 2 ^ 8 + r0)); lia. }
  assert (E24 : (a * 2 ^ 24 + b0 * 2 ^ 16 + g0 * 2 ^ 8 + r0) / 2 ^ 24 = a).
  { symmetry. apply (Z.div_unique _ _ _ (b0 * 2 ^ 16 + g0 * 2 ^ 8 + r0)); lia. }
  rewrite E8, E16, E24. repeat split.
  - symmetry. apply (Z.mod_unique _ _ (a * 2 ^ 16 + b0 * 2 ^ 8 + g0)); lia.
  - symmetry. apply (Z.mod_unique _ _ (a * 2 ^ 8 + b0)); lia.
  - symmetry. apply (Z.mod_unique _ _ a); lia.
Qed.

Lemma matched_word_twice (paletteData : list Color) (w : Z) :
  Forall byte_color paletteData -> is_uint32 w ->
  matched_word paletteData (matched_word paletteData w) = matched_word paletteData w.
Proof.
  intros Hpal Hw. unfold matched_word at 2.
  destruct (w / 2 ^ 24 =? 0) eqn:Hz.
  - unfold matched_word. rewrite Hz. reflexivity.
  - destruct (findNearestColor _ _ _ paletteData) as [n|] eqn:Hn.
    + assert (Hin : n ∈ paletteData) by (eapply findNearestColor_elem; exact Hn).
      assert (Hbyte : byte_color n) by (rewrite Forall_forall in Hpal; apply Hpal; exact Hin).
      destruct Hbyte as (Hr & Hg & Hb).
      assert (Ha : is_byte (w / 2 ^ 24)).
      { unfold is_uint32 in Hw. unfold is_byte.
        split; [apply Z.div_pos; lia | apply Z.div_lt_upper_bound; lia]. }
      destruct (word_of_bytes (r n) (g n) (b n) (w / 2 ^ 24) Hr Hg Hb Ha)
        as (E0 & E8 & E16 & E24).
      unfold matched_word. rewrite E0, E8, E16, E24, Hz.
      destruct (findNearestColor_fixed paletteData n Hpal Hin) as (n' & -> & Er & Eg & Eb).
      rewrite Hn, Er, Eg, Eb. reflexivity.
    + unfold matched_word. rewrite Hz, Hn. reflexivity.
Qed.

Lemma matched_frame_twice (paletteData : list Color) (f : Frame) :
  Forall byte_color paletteData -> Forall is_uint32 (pixels f) ->
  matched_frame paletteData (matched_frame paletteData f) = matched_frame paletteData f.
Proof.
  intros Hpal Hpx.
  assert (E : map (matched_word paletteData) (map (matched_word paletteData) (pixels f))
              = map (matched_word paletteData) (pixels f)).
  { rewrite map_map. apply map_ext_in. intros w Hin.
    apply matched_word_twice; [exact Hpal |].
    rewrite Forall_forall in Hpx. apply Hpx. apply list_elem_of_In. exact Hin. }
  unfold matched_frame. cbn [pixels version]. rewrite E.
  rewrite (bool_decide_eq_true_2
             (map (matched_word paletteData) (pixels f)
              = map (matched_word paletteData) (pixels f))) by reflexivity.
  reflexivity.
Qed.

Lemma matched_frame_uint32 (paletteData : list Color) (f : Frame) :
  Forall byte_color paletteData -> Forall is_uint32 (pixels f) ->
  Forall is_uint32 (pixels (matched_frame paletteData f)).
Proof.
  intros Hpal Hpx. cbn [matched_frame pixels]. apply Forall_fmap.
  eapply Forall_impl; [exact Hpx |]. intros w Hw. cbn.
  apply matched_word_uint32; assumption.
Qed.

Lemma matchToPalette_map (colors : list JS.jsval) (selected : list (list Frame)) :
  colors <> [] ->
  Forall (Forall (fun f => Forall is_uint32 (pixels f))) selected ->
  matchToPalette (Some colors) selected
  = (map (map (matched_frame (buildPaletteData_ colors))) selected, Normal).
Proof.
  intros Hne Hsel. unfold matchToPalette.
  destruct colors as [| c cs]; [congruence |].
  destruct (match_layers_map (buildPaletteData_ (c :: cs))) with (ls := selected) (cache := (∅ : gmap Z Z))
    as (c' & _ & ->); try assumption.
  - discriminate.
  - apply buildPaletteData_bytes.
  - intros k v Hkv. rewrite lookup_empty in Hkv. discriminate.
  - reflexivity.
Qed.

(** X10.  The service matches word by word, with the colour choice of the
    command-line tool.  With a non-empty colour list, on frames of 32-bit
    pixel words, [matchToPalette] never throws; it leaves a word with alpha 0
    as it is and replaces the three colour bytes of any other word by those
    of the entry that [findNearestColor] picks for them, keeping the alpha
    byte; and it raises the version of a frame by one exactly when one of the
    frame's words changed. *)
Theorem service_matches_word_by_word (colors : list JS.jsval) (selected : list (list Frame)) :
  colors <> [] ->
  Forall (Forall (fun f => Forall is_uint32 (pixels f))) selected ->
  matchToPalette (Some colors) selected
  = (map (map (matched_frame (buildPaletteData_ colors))) selected, Normal).
Proof. apply matchToPalette_map. Qed.

(** One frame of two words: opaque 0xFF0A0AC8 (r 200, g 10, b 10) and
    transparent 0x00030201. *)
Definition demo_frames : list (list Frame) := [[mkFrame [4278848200; 197121] 7]].

(** The colour list [#ff0000, #00ff00] after [parseInt(hex, 16)]. *)
Definition demo_colors : list JS.jsval := [Some 16711680; Some 65280].

Lemma demo_frames_uint32 :
  Forall (Forall (fun f => Forall is_uint32 (pixels f))) demo_frames.
Proof. repeat constructor; cbn; lia. Defined.

Lemma service_matches_word_by_word_witness :
  matchToPalette (Some demo_colors) demo_frames
  = (map (map (matched_frame (buildPaletteData_ demo_colors))) demo_frames, Normal).
Proof.
  apply (service_matches_word_by_word demo_colors demo_frames);
    [discriminate | exact demo_frames_uint32].
Defined.

(** X11.  The service is idempotent: running [matchToPalette] on the frames
    it has just produced changes no pixel word and raises no version. *)
Theorem service_idempotent (colors : list JS.jsval) (selected : list (list Frame)) :
  colors <> [] ->
  Forall (Forall (fun f => Forall is_uint32 (pixels f))) selected ->
  matchToPalette (Some colors) (fst (matchToPalette (Some colors) selected))
  = (fst (matchToPalette (Some colors) selected), Normal).
Proof.
  intros Hne Hsel. rewrite (matchToPalette_map colors selected Hne Hsel). cbn [fst].
  pose proof (buildPaletteData_bytes colors) as Hpal.
  rewrite matchToPalette_map; [| exact Hne |].
  - f_equal. rewrite map_map. apply map_ext_in. intros l Hl.
    rewrite map_map. apply map_ext_in. intros f Hf.
    apply matched_frame_twice; [exact Hpal |].
    rewrite Forall_forall in Hsel. apply list_elem_of_In in Hl. specialize (Hsel l Hl).
    rewrite Forall_forall in Hsel. apply Hsel. apply list_elem_of_In. exact Hf.
  - apply Forall_fmap. eapply Forall_impl; [exact Hsel |]. intros l Hl. cbn.
    apply Forall_fmap. eapply Forall_impl; [exact Hl |]. intros f Hf. cbn.
    apply (matched_frame_uint32 _ f Hpal Hf).
Qed.

Lemma service_idempotent_witness :
  matchToPalette (Some demo_colors) (fst (matchToPalette (Some demo_colors) demo_frames))
  = (fst (matchToPalette (Some demo_colors) demo_frames), Normal).
Proof.
  apply (service_idempotent demo_colors demo_frames);
    [discriminate | exact demo_frames_uint32].
Defined.

Example service_demo :
  matchToPalette (Some demo_colors) demo_frames
  = ([[mkFrame [4278190335; 197121] 8]], Normal).
Proof. vm_compute. reflexivity. Qed.
(** * Re-decoding what [transformPiskel] writes *)

(** In a sheet of [n] tiles side by side, slot [f] decodes to the tile it
    shows. *)
Lemma decode_linear (S T : PNG) (n newW newH f : Z) :
  1 <= newW -> 1 <= newH -> 4 * (newW * newH) <= 2 ^ 31 ->
  4 * (newW * n * newH) <= 2 ^ 31 ->
  sheet_of n newW newH S -> 0 <= f < n ->
  wf_png T -> width T = newW -> height T = newH ->
  tile_shows newW newH S f T ->
  decode_frame S newW newH f = Returns T.
Proof.
  intros HnewW HnewH Hfit1 Hfit (Sw & Sh & Slen & Sb) Hf HwfT Tw Th Hshows.
  assert (HSdata : has_data S = true).
  { unfold has_data. rewrite Sw, Sh. apply andb_true_iff. split; apply Z.ltb_lt; nia. }
  unfold decode_frame.
  assert (Hfpr : js_or1 (js_floor_div (width S) newW) = Fin n).
  { rewrite Sw. unfold js_floor_div. destruct (Z.eqb_spec newW 0); [lia |].
    rewrite Z.mul_comm, Z.div_mul by lia.
    destruct n; try lia; reflexivity. }
  rewrite Hfpr.
  assert (Hx : tile_x f (Fin n) newW = Fin (f * newW)).
  { unfold tile_x, js_rem. destruct n as [| n' | n'] eqn:En; try lia.
    rewrite Z.rem_small by lia. reflexivity. }
  assert (Hy : tile_y f (Fin n) newH = Fin 0).
  { unfold tile_y, js_floor_quot, js_floor_div. destruct (Z.eqb_spec n 0); [lia |].
    rewrite Z.div_small by lia. reflexivity. }
  rewrite Hx, Hy.
  destruct (extract_tile_spec S newW newH (Fin (f * newW)) (Fin 0) HSdata HnewW HnewH Hfit1)
    as (F & -> & Fw & Fh & HwfF & Hget).
  f_equal. apply png_ext; try assumption; try congruence.
  intros x y c Hxr Hyr Hc. rewrite Fw in Hxr. rewrite Fh in Hyr.
  unfold pixel_at at 1. rewrite Fw, Hget by assumption.
  assert (Hidx : tile_index S (Fin (f * newW)) (Fin 0) y x
                 = 4 * (width S * y + (f * newW + x))).
  { unfold tile_index. cbn [js_add js_mul js_shl2]. rewrite Z.add_0_l, (Z.mul_comm y).
    rewrite Sw. apply (shl2_rowmajor (newW * n) newH); [exact Hyr | | lia].
    apply tile_column; assumption. }
  rewrite Hidx. fold (pixel_at S (f * newW + x) y c).
  rewrite Hshows by assumption.
  destruct (wf_png_pixel T x y c HwfT) as (v & -> & Bv); try lia.
  cbn. f_equal. apply Z.mod_small. exact Bv.
Qed.

Section Redecode.

Variables (fw fh : Z) (crop : option Rect) (newW newH : Z).
Hypothesis Hfw : 1 <= fw.
Hypothesis Hfh : 1 <= fh.
Hypothesis Hfit : 4 * (fw * fh) <= 2 ^ 31.
Hypothesis Hcrop : forall R, crop = Some R -> rect_within fw fh R.
Hypothesis HnewW : 1 <= newW.
Hypothesis HnewH : 1 <= newH.
Hypothesis Hnewfit : 4 * (newW * newH) <= 2 ^ 31.

(** The frame transformation applied to a decoded frame. *)
Definition transformed (o : outcome PNG) : outcome PNG :=
  obind o (transform_frame crop newW newH).

Lemma transform_chunk_decodes (c : Chunk) :
  chunk_wf fw c -> chunk_fits newW newH c ->
  exists c',
    transform_chunk fw fh crop newW newH c = Returns c' /\
    chunk_frames newW newH c' = map transformed (chunk_frames fw fh c).
Proof.
  intros Hwf Hfits. unfold transform_chunk, chunk_frames, chunk_wf, chunk_fits in *.
  destruct (base64PNG c) as [png|] eqn:Epng; [| exists c; rewrite Epng; auto].
  destruct Hwf as [Hpng _].
  set (n := Z.of_nat (length (layout c))) in *.
  assert (Hn : 0 <= n) by lia.
  assert (Hslots : forall f, 0 <= f < n ->
            exists T, slot_result png fw fh crop newW newH f T /\
                      wf_png T /\ width T = newW /\ height T = newH).
  { intros f Hf.
    destruct (extract_tile_spec png fw fh
                (tile_x f (js_or1 (js_floor_div (width png) fw)) fw)
                (tile_y f (js_or1 (js_floor_div (width png) fw)) fh)
                (wf_png_has_data png Hpng) Hfw Hfh Hfit) as (F & HF & Ew & Eh & HwfF & _).
    destruct (transform_frame_spec fw fh crop newW newH Hfw Hfh Hfit Hcrop
                HnewW HnewH Hnewfit F HwfF Ew Eh) as (T & HT & HwfT & Tw & Th & _).
    exists T. split; [exists F; auto | auto]. }
  destruct (transform_slots_spec png fw fh crop newW newH n
              Hslots Hfits (range n) (new_PNG (newW * n) newH))
    as (S' & HS' & Hsheet & Hin & _).
  - apply NoDup_range.
  - intros f Hf. apply elem_of_range. exact Hf.
  - apply new_sheet_of; assumption.
  - rewrite HS'. cbn [obind]. eexists. split; [reflexivity |].
    cbn [base64PNG layout]. unfold linear_layout. rewrite length_map, length_seq.
    fold n. rewrite map_map. apply map_ext_in. intros f Hf.
    apply list_elem_of_In in Hf.
    destruct (Hin f Hf) as (T & (F & HF & HT) & Hshows).
    apply elem_of_range in Hf.
    destruct (Hslots f Hf) as (T' & (F' & HF' & HT') & HwfT & Tw & Th).
    assert (F' = F) by congruence. subst F'.
    assert (T' = T) by congruence. subst T'.
    unfold transformed. rewrite HF. cbn [obind]. rewrite HT.
    apply (decode_linear S' T n newW newH f); assumption.
Qed.

Lemma transform_chunks_decode (cs : list Chunk) :
  Forall (chunk_wf fw) cs -> Forall (chunk_fits newW newH) cs ->
  exists cs',
    transform_chunks (transform_chunk fw fh crop newW newH) cs = Returns cs' /\
    flat_map (chunk_frames newW newH) cs'
    = map transformed (flat_map (chunk_frames fw fh) cs).
Proof.
  induction cs as [| c cs IH]; intros Hwf Hfits.
  - exists []. split; reflexivity.
  - apply Forall_cons in Hwf as [Hc Hwf]. apply Forall_cons in Hfits as [Hcf Hfits].
    destruct (transform_chunk_decodes c Hc Hcf) as (c' & Hc' & Hrel).
    destruct (IH Hwf Hfits) as (cs' & Hcs' & Hrels).
    exists (c' :: cs'). split.
    + cbn [transform_chunks]. rewrite Hc'. cbn [obind]. rewrite Hcs'. reflexivity.
    + cbn [flat_map]. rewrite map_app, Hrel, Hrels. reflexivity.
Qed.

Lemma transform_layers_decode (ls : list Layer) :
  Forall (fun l => Forall (chunk_wf fw) (chunks_or_empty l)) ls ->
  Forall (fun l => Forall (chunk_fits newW newH) (chunks_or_empty l)) ls ->
  exists ls',
    transform_layers (transform_chunk fw fh crop newW newH) ls = Returns ls' /\
    flat_map (layer_frames newW newH) ls'
    = map transformed (flat_map (layer_frames fw fh) ls).
Proof.
  induction ls as [| l ls IH]; intros Hwf Hfits.
  - exists []. split; reflexivity.
  - apply Forall_cons in Hwf as [Hl Hwf]. apply Forall_cons in Hfits as [Hlf Hfits].
    destruct (IH Hwf Hfits) as (ls' & Hls' & Hrels).
    assert (Hlayer : exists l',
              transform_layer (transform_chunk fw fh crop newW newH) l = Returns l' /\
              layer_frames newW newH l' = map transformed (layer_frames fw fh l)).
    { unfold transform_layer, layer_frames, chunks_or_empty in *.
      destruct (chunks l) as [cs|] eqn:Ecs; [| exists l; rewrite Ecs; auto].
      destruct (transform_chunks_decode cs Hl Hlf) as (cs' & Hcs' & Hrel).
      rewrite Hcs'. cbn [obind]. eexists. split; [reflexivity |].
      cbn [chunks]. exact Hrel. }
    destruct Hlayer as (l' & Hl' & Hrel).
    exists (l' :: ls'). split.
    + cbn [transform_layers]. rewrite Hl'. cbn [obind]. rewrite Hls'. reflexivity.
    + cbn [flat_map]. rewrite map_app, Hrel, Hrels. reflexivity.
Qed.

End Redecode.
Lemma crop_pass_within (doc : Piskel) (options : Options) (R : Rect) :
  doc_wf doc -> crop_pass doc options = Some R ->
  rect_within (piskel_width doc) (piskel_height doc) R.
Proof.
  intros Hwf HR.
  destruct (global_bounds_hull doc Hwf) as (Fs & _ & Hall & Hglobal).
  assert (Hvalid : hull_valid (fold_left add_frame Fs None))
    by (apply add_frames_valid; exact I).
  unfold crop_pass in HR. destruct (opt_crop options); [| discriminate].
  rewrite Hglobal, cropBounds_of_repr in HR by exact Hvalid.
  eapply rect_of_hull_within; [| exact HR].
  apply add_frames_within; [exact I | exact Hall].
Qed.

Lemma transformPiskel_redecode (doc : Piskel) (options : Options) :
  doc_wf doc -> targets_fit doc options ->
  exists doc',
    transformPiskel doc options = Returns doc' /\
    (piskel_width doc', piskel_height doc')
      = target_dims doc options (crop_pass doc options) /\
    doc_frames doc'
      = map (transformed (crop_pass doc options) (piskel_width doc') (piskel_height doc'))
            (doc_frames doc).
Proof.
  intros Hwf Hfits. pose proof Hwf as (Hfw & Hfh & Hfit & Hls).
  unfold targets_fit in Hfits. cbn zeta in Hfits.
  destruct (target_dims doc options (crop_pass doc options)) as [newW newH] eqn:Ht.
  cbn [fst snd] in Hfits. destruct Hfits as (HnW & HnH & Hnfit & Hchunks).
  destruct (transform_layers_decode (piskel_width doc) (piskel_height doc)
              (crop_pass doc options) newW newH Hfw Hfh Hfit
              (fun R => crop_pass_within doc options R Hwf) HnW HnH Hnfit
              (layers doc) Hls Hchunks) as (ls' & Hls' & Hrel).
  exists (mkPiskel (piskel_name doc) (fps doc) newW newH ls' (hiddenFrames doc)).
  split; [unfold transformPiskel; rewrite Ht, Hls'; reflexivity |].
  split; [reflexivity |]. exact Hrel.
Qed.



(** The scenario with the crop option alone: the rectangle is (0,0,4,4), the
    output frames are 4 by 4, and each is its input frame cut to that
    rectangle. *)
Example scenario_crop_only :
  crop_pass scenario_doc crop_only = Some (mkRect 0 0 4 4) /\
  match transformPiskel scenario_doc crop_only with
  | Returns doc' =>
      (piskel_width doc', piskel_height doc') = (4, 4) /\
      doc_frames doc'
        = map (fun o => obind o (fun F => cropPng F (mkRect 0 0 4 4))) (doc_frames scenario_doc)
  | Throws _ => False
  end.
Proof. split; vm_compute; [reflexivity | split; reflexivity]. Qed.

(** X12.  What [transformPiskel] writes decodes to the transformed frames.
    On a well-formed container with fitting target dimensions the tool
    returns a container of the target frame size whose frames, decoded slot
    by slot in document order like those of the input, are exactly the input
    frames after "crop if needed, resize if needed" with the one crop
    rectangle and the target size: decoding commutes with the tool. *)
Theorem transformPiskel_commutes_with_decoding (doc : Piskel) (options : Options) :
  doc_wf doc -> targets_fit doc options ->
  exists doc',
    transformPiskel doc options = Returns doc' /\
    (piskel_width doc', piskel_height doc')
      = target_dims doc options (crop_pass doc options) /\
    doc_frames doc'
      = map (fun o => obind o (transform_frame (crop_pass doc options)
                                 (piskel_width doc') (piskel_height doc')))
            (doc_frames doc).
Proof. apply transformPiskel_redecode. Qed.

Lemma transformPiskel_commutes_with_decoding_witness :
  exists doc',
    transformPiskel scenario_doc crop_and_resize = Returns doc' /\
    (piskel_width doc', piskel_height doc')
      = target_dims scenario_doc crop_and_resize (crop_pass scenario_doc crop_and_resize) /\
    doc_frames doc'
      = map (fun o => obind o (transform_frame (crop_pass scenario_doc crop_and_resize)
                                 (piskel_width doc') (piskel_height doc')))
            (doc_frames scenario_doc).
Proof.
  apply (transformPiskel_commutes_with_decoding scenario_doc crop_and_resize).
  - exact scenario_doc_wf.
  - exact scenario_targets_fit.
Defined.

(** A transformation that asks for nothing: a scale of 1. *)
Definition no_change : Options := mkOptions false None (Some 1).

Lemma scenario_no_change_fits : targets_fit scenario_doc no_change.
Proof.
  unfold targets_fit. cbn [no_change crop_pass opt_crop target_dims opt_resize opt_scale
                           truthy_scale fst snd scenario_doc piskel_width piskel_height layers].
  split; [lia | split; [lia | split; [lia |]]].
  constructor; [| constructor]. cbn.
  constructor; [| constructor]. unfold chunk_fits. cbn. lia.
Defined.

(** * The spritesheet of the export tool *)

(** The copy loops of [createSpritesheet] for one frame: the frame [T] lands
    with its corner at [(dx, dy)] of the sheet and nothing else changes. *)
Lemma paste_tile (T S : PNG) (fw fh dx dy : Z) :
  wf_png T -> width T = fw -> height T = fh ->
  wf_png S -> 4 * (width S * height S) <= 2 ^ 31 ->
  0 <= dx -> dx + fw <= width S -> 0 <= dy -> dy + fh <= height S ->
  exists S',
    obind (copy_loops fh fw T S
             (fun y x d =>
                copy_pixel (data T) (JS.shl (fw * y + x) 2) d
                           (JS.shl (width S * (dy + y) + (dx + x)) 2)))
          (fun d => Returns (mkPNG (width S) (height S) d)) = Returns S' /\
    wf_png S' /\ width S' = width S /\ height S' = height S /\
    (forall x y c, 0 <= x < fw -> 0 <= y < fh -> 0 <= c < 4 ->
       pixel_at S' (dx + x) (dy + y) c = pixel_at T x y c) /\
    (forall X Y c, 0 <= X < width S -> 0 <= Y < height S -> 0 <= c < 4 ->
       ~ (dx <= X < dx + fw /\ dy <= Y < dy + fh) ->
       pixel_at S' X Y c = pixel_at S X Y c).
Proof.
  intros HwfT Tw Th HwfS Hfit Hdx Hdxw Hdy Hdyh.
  pose proof HwfT as (Pw & Ph & Plen & Pb). rewrite Tw, Th in *.
  pose proof HwfS as (Sw & Sh & Slen & Sb).
  unfold copy_loops.
  rewrite (wf_png_has_data T HwfT), (wf_png_has_data S HwfS). cbn [negb andb].
  rewrite andb_false_r. cbn [obind]. rewrite for_yx_cells.
  set (sidx := fun y x : Z => JS.shl (fw * y + x) 2).
  set (didx := fun y x : Z => JS.shl (width S * (dy + y) + (dx + x)) 2).
  change (fun (acc : list Z) (yx : Z * Z) =>
            copy_pixel (data T) (JS.shl (fw * fst yx + snd yx) 2) acc
              (JS.shl (width S * (dy + fst yx) + (dx + snd yx)) 2))
    with (blit_step (data T) sidx didx).
  assert (Hsfit : 4 * (fw * fh) <= 2 ^ 31).
  { assert (fw * fh <= width S * height S) by (apply Z.mul_le_mono_nonneg; lia). lia. }
  assert (Hdidx : forall y x, 0 <= y < fh -> 0 <= x < fw ->
            didx y x = 4 * (width S * (dy + y) + (dx + x))).
  { intros y x Hy Hx. unfold didx.
    apply (shl2_rowmajor (width S) (height S)); lia. }
  assert (Hbound : forall y x, 0 <= y < fh -> 0 <= x < fw ->
            0 <= width S * (dy + y) + (dx + x) < width S * height S).
  { intros y x Hy Hx. apply rowmajor_bound; lia. }
  eexists. split; [reflexivity |]. cbn [width height data].
  split; [| split; [reflexivity | split; [reflexivity | split]]].
  - unfold wf_png. cbn [width height data]. rewrite blit_length.
    repeat split; try assumption. apply blit_bytes. exact Sb.
  - intros x y c Hx Hy Hc. unfold pixel_at. cbn [width data]. rewrite Tw.
    rewrite <- (Hdidx y x Hy Hx).
    rewrite (blit_own (data T) sidx didx); try assumption.
    + unfold sidx. rewrite (shl2_rowmajor fw fh) by assumption.
      destruct (wf_png_pixel T x y c HwfT) as (v & Hv & Bv); try lia.
      unfold pixel_at in Hv. rewrite Tw in Hv. rewrite Hv. cbn. f_equal.
      apply Z.mod_small. exact Bv.
    + apply NoDup_cells.
    + intros y1 x1 y2 x2 H1 H2 Hne.
      apply elem_of_cells in H1 as [Hy1 Hx1]. apply elem_of_cells in H2 as [Hy2 Hx2].
      rewrite (Hdidx y1 x1), (Hdidx y2 x2) by assumption.
      assert (width S * (dy + y1) + (dx + x1) <> width S * (dy + y2) + (dx + x2)); [| lia].
      intros Heq. apply rowmajor_inj in Heq as [Ey Ex]; [| lia | lia].
      assert (y1 = y2) by lia. assert (x1 = x2) by lia. congruence.
    + intros y' x' Hin. apply elem_of_cells in Hin as [Hy' Hx'].
      rewrite (Hdidx y' x') by assumption.
      pose proof (Hbound y' x' Hy' Hx'). lia.
    + apply elem_of_cells. auto.
  - intros X Y c HX HY Hc Hout. unfold pixel_at. cbn [width data].
    apply blit_other. intros y' x' Hin. apply elem_of_cells in Hin as [Hy' Hx'].
    rewrite (Hdidx y' x') by assumption.
    assert (width S * Y + X <> width S * (dy + y') + (dx + x')); [| lia].
    intros Heq. apply rowmajor_inj in Heq as [Ey Ex]; [| lia | lia].
    apply Hout. lia.
Qed.

(** [Math.ceil(n / cols)] as the model computes it. *)
Lemma ceil_div (n cols : Z) : 0 < cols -> - (- n / cols) = (n + cols - 1) / cols.
Proof.
  intros Hc.
  pose proof (Z.div_mod (n + cols - 1) cols ltac:(lia)) as Hdm.
  pose proof (Z.mod_pos_bound (n + cols - 1) cols Hc) as Hr.
  assert (E : (n + cols - 1) / cols = - (- n / cols)); [| lia].
  assert (- n / cols = - ((n + cols - 1) / cols)); [| lia].
  symmetry.
  apply (Z.div_unique _ _ _ (cols - 1 - (n + cols - 1) mod cols)); lia.
Qed.

(** The grid cell of frame [i]: column [i mod cols], row [i / cols]. *)
Definition in_tile (fw fh cols i X Y : Z) : Prop :=
  i mod cols * fw <= X < i mod cols * fw + fw /\
  i / cols * fh <= Y < i / cols * fh + fh.

Lemma in_tile_index (fw fh cols i X Y : Z) :
  0 < fw -> 0 < fh -> 0 < cols -> 0 <= i ->
  in_tile fw fh cols i X Y -> i = Y / fh * cols + X / fw.
Proof.
  intros Hfw Hfh Hcols Hi [HX HY].
  assert (Ex : X / fw = i mod cols).
  { symmetry. apply (Z.div_unique _ _ _ (X - i mod cols * fw)); lia. }
  assert (Ey : Y / fh = i / cols).
  { symmetry. apply (Z.div_unique _ _ _ (Y - i / cols * fh)); lia. }
  rewrite Ex, Ey. pose proof (Z.div_mod i cols ltac:(lia)). lia.
Qed.
Section Grid.

Variables (fw fh cols rows : Z).
Hypothesis Hfw : 1 <= fw.
Hypothesis Hfh : 1 <= fh.
Hypothesis Hcols : 1 <= cols.
Hypothesis Hfit : 4 * (fw * cols * (fh * rows)) <= 2 ^ 31.

(** A sheet of [cols] by [rows] cells of the frame size. *)
Definition grid_sheet (S : PNG) : Prop :=
  wf_png S /\ width S = fw * cols /\ height S = fh * rows.

(** An entry of the frame array that can be placed: a slot of the grid and a
    decoded frame of the frame size. *)
Definition placeable (e : Z * option PNG) : Prop :=
  0 <= fst e < cols * rows /\
  exists T, snd e = Some T /\ wf_png T /\ width T = fw /\ height T = fh.

Lemma sheet_slots_spec (fs : list (Z * option PNG)) :
  forall S,
    grid_sheet S -> NoDup (map fst fs) -> Forall placeable fs ->
    exists S',
      sheet_slots fw fh cols fs S = Returns S' /\ grid_sheet S' /\
      (forall i T, (i, Some T) ∈ fs ->
         forall x y c, 0 <= x < fw -> 0 <= y < fh -> 0 <= c < 4 ->
           pixel_at S' (i mod cols * fw + x) (i / cols * fh + y) c = pixel_at T x y c) /\
      (forall X Y c, 0 <= X < fw * cols -> 0 <= Y < fh * rows -> 0 <= c < 4 ->
         (forall e, e ∈ fs -> ~ in_tile fw fh cols (fst e) X Y) ->
         pixel_at S' X Y c = pixel_at S X Y c).
Proof.
  induction fs as [| [i o] fs IH]; intros S HS Hnd Hall.
  - exists S. split; [reflexivity |]. split; [exact HS |]. split; [| reflexivity].
    intros i T Hin. inversion Hin.
  - cbn [map fst] in Hnd. apply NoDup_cons in Hnd as [Hnotin Hnd].
    apply Forall_cons in Hall as [[Hi (T & Ho & HwfT & Tw & Th)] Hall].
    cbn [fst snd] in Hi, Ho. subst o.
    destruct HS as (HwfS & Sw & Sh).
    assert (Hcol : 0 <= i mod cols < cols) by (apply Z.mod_pos_bound; lia).
    assert (Hrow : 0 <= i / cols < rows).
    { split; [apply Z.div_pos; lia | apply Z.div_lt_upper_bound; lia]. }
    assert (HfitS : 4 * (width S * height S) <= 2 ^ 31) by (rewrite Sw, Sh; exact Hfit).
    assert (Hdx : i mod cols * fw + fw <= width S) by (rewrite Sw; nia).
    assert (Hdy : i / cols * fh + fh <= height S) by (rewrite Sh; nia).
    destruct (paste_tile T S fw fh (i mod cols * fw) (i / cols * fh) HwfT Tw Th HwfS HfitS)
      as (S1 & HS1 & HwfS1 & Sw1 & Sh1 & Hown & Hother); try assumption; try nia.
    assert (HgS1 : grid_sheet S1) by (split; [exact HwfS1 | split; congruence]).
    destruct (IH S1 HgS1 Hnd Hall) as (S' & HS' & HgS' & Hin & Hout).
    exists S'. split; [| split; [exact HgS' | split]].
    + cbn [sheet_slots]. unfold sheet_slot. cbv zeta.
      rewrite Z.rem_mod_nonneg by lia. rewrite HS1. cbn [obind]. exact HS'.
    + intros j T' Hj x y c Hx Hy Hc.
      apply elem_of_cons in Hj as [[= -> ->] | Hj]; [| apply Hin; assumption].
      rewrite Hout; [apply Hown; assumption | nia | nia | exact Hc |].
      intros e He Htile.
      assert (Hthis : in_tile fw fh cols i (i mod cols * fw + x) (i / cols * fh + y))
        by (unfold in_tile; lia).
      rewrite Forall_forall in Hall. destruct (Hall e He) as [He0 _].
      apply in_tile_index in Htile; try lia.
      apply in_tile_index in Hthis; try lia.
      apply Hnotin. apply list_elem_of_fmap. exists e. split; [congruence | exact He].
    + intros X Y c HX HY Hc Hnone.
      rewrite Hout; try assumption.
      * apply Hother; try assumption; try (rewrite ?Sw, ?Sh; assumption).
        intros Htile. apply (Hnone (i, Some T)); [apply elem_of_cons; left; reflexivity |].
        unfold in_tile. cbn [fst]. lia.
      * intros e He. apply Hnone. apply elem_of_cons. right. exact He.
Qed.

End Grid.
Lemma numbered_fst {A : Type} (l : list A) : map fst (numbered l) = range (Z.of_nat (length l)).
Proof.
  unfold numbered, range. rewrite Nat2Z.id.
  generalize 0%nat as s. induction l as [| a l IH]; intros s; [reflexivity |].
  cbn [length seq map combine fst]. rewrite IH. reflexivity.
Qed.

Lemma numbered_lookup {A : Type} (l : list A) (i : nat) (a : A) :
  l !! i = Some a -> (Z.of_nat i, a) ∈ numbered l.
Proof.
  unfold numbered, range. rewrite Nat2Z.id.
  assert (Hgen : forall s, l !! i = Some a ->
            (Z.of_nat (s + i), a) ∈ combine (map Z.of_nat (seq s (length l))) l).
  { revert i. induction l as [| b l IH]; intros i s Hi; [discriminate |].
    cbn [length seq map combine]. destruct i as [| i].
    - cbn in Hi. injection Hi as ->. rewrite Nat.add_0_r. apply elem_of_cons. left. reflexivity.
    - cbn in Hi. apply elem_of_cons. right.
      replace (s + S i)%nat with (S s + i)%nat by lia. apply IH. exact Hi. }
  intros Hi. apply (Hgen 0%nat Hi).
Qed.

Lemma numbered_elem {A : Type} (l : list A) (i : Z) (a : A) :
  (i, a) ∈ numbered l -> 0 <= i < Z.of_nat (length l) /\ a ∈ l.
Proof.
  unfold numbered. intros Hin. apply list_elem_of_In in Hin. split.
  - apply in_combine_l in Hin. apply list_elem_of_In, elem_of_range in Hin. exact Hin.
  - apply in_combine_r in Hin. apply list_elem_of_In. exact Hin.
Qed.

Lemma new_PNG_zero (w h X Y c : Z) :
  0 < w -> 0 < h -> 4 * (w * h) <= 2 ^ 31 ->
  0 <= X < w -> 0 <= Y < h -> 0 <= c < 4 ->
  pixel_at (new_PNG w h) X Y c = Some 0.
Proof.
  intros Hw Hh Hfit HX HY Hc.
  destruct (new_PNG_positive w h Hw Hh Hfit) as (Ew & Eh & Elen & _ & _).
  unfold pixel_at. rewrite Ew.
  pose proof (rowmajor_bound w h Y X HY HX) as Hb.
  unfold buf_get. destruct (Z.ltb_spec (4 * (w * Y + X) + c) 0); [lia |].
  unfold new_PNG in *. cbn [data width height] in *.
  destruct ((0 <? JS.toInt32 w) && (0 <? JS.toInt32 h)); [| cbn in Elen; lia].
  apply lookup_replicate_2. rewrite length_replicate in Elen. lia.
Qed.

Lemma grid_holds_all (n cols : Z) : 0 < cols -> n <= cols * ((n + cols - 1) / cols).
Proof.
  intros Hc.
  pose proof (Z.div_mod (n + cols - 1) cols ltac:(lia)) as Hdm.
  pose proof (Z.mod_pos_bound (n + cols - 1) cols Hc) as Hr. lia.
Qed.

Lemma createSpritesheet_spec (Ts : list PNG) (columns : option Z) (fw fh : Z) :
  let n := Z.of_nat (length Ts) in
  let cols := columns_or columns n in
  let rows := (n + cols - 1) / cols in
  Ts <> [] ->
  Forall (fun T => wf_png T /\ width T = fw /\ height T = fh) Ts ->
  1 <= cols -> 4 * (fw * cols * (fh * rows)) <= 2 ^ 31 ->
  exists S,
    createSpritesheet (map Some Ts) columns = Returns (Some S) /\
    wf_png S /\ width S = fw * cols /\ height S = fh * rows /\
    (forall (i : nat) T, Ts !! i = Some T ->
       forall x y c, 0 <= x < fw -> 0 <= y < fh -> 0 <= c < 4 ->
         pixel_at S (Z.of_nat i mod cols * fw + x) (Z.of_nat i / cols * fh + y) c
         = pixel_at T x y c) /\
    (forall X Y c, 0 <= X < fw * cols -> 0 <= Y < fh * rows -> 0 <= c < 4 ->
       n <= Y / fh * cols + X / fw -> pixel_at S X Y c = Some 0).
Proof.
  intros n cols rows Hne Hall Hcols Hfit.
  destruct Ts as [| T0 Ts']; [congruence |].
  pose proof Hall as Hall0. apply Forall_cons in Hall0 as [(HwfT0 & Tw0 & Th0) _].
  pose proof HwfT0 as (Pw & Ph & _). rewrite Tw0 in Pw. rewrite Th0 in Ph.
  assert (Hn : 1 <= n) by (subst n; cbn [length]; lia).
  assert (Hrows : 1 <= rows).
  { subst rows. apply Z.div_le_lower_bound; lia. }
  pose proof (grid_holds_all n cols ltac:(lia)) as Hhold. fold rows in Hhold.
  destruct (new_PNG_positive (fw * cols) (fh * rows)) as (Ew & Eh & Elen & Eb & Ed);
    try nia.
  assert (Hsheet : grid_sheet fw fh cols rows (new_PNG (fw * cols) (fh * rows))).
  { split; [| split; assumption]. unfold wf_png. rewrite Ew, Eh.
    repeat split; try nia; assumption. }
  set (frames := map Some (T0 :: Ts')) in *.
  assert (Hlen : Z.of_nat (length frames) = n) by (subst frames n; rewrite length_map; reflexivity).
  destruct (sheet_slots_spec fw fh cols rows ltac:(lia) ltac:(lia) Hcols Hfit
              (numbered frames) (new_PNG (fw * cols) (fh * rows)) Hsheet)
    as (S' & HS' & (HwfS' & Sw' & Sh') & Hin & Hout).
  - rewrite numbered_fst. apply NoDup_range.
  - apply Forall_forall. intros [i o] He. apply numbered_elem in He as [Hi Ho].
    rewrite Hlen in Hi. split; [cbn [fst]; lia |]. cbn [snd].
    subst frames. apply list_elem_of_fmap in Ho as (T & -> & HT).
    rewrite Forall_forall in Hall. destruct (Hall T HT) as (HwfT & Tw & Th).
    exists T. auto.
  - exists S'. split; [| split; [exact HwfS' | split; [exact Sw' | split; [exact Sh' | split]]]].
    + unfold createSpritesheet. subst frames. cbn [map].
      rewrite Tw0, Th0.
      change (Some T0 :: map Some Ts') with (map Some (T0 :: Ts')).
      rewrite length_map. fold n. fold cols.
      rewrite (ceil_div n cols) by lia. fold rows.
      rewrite HS'. reflexivity.
    + intros i T Hi x y c Hx Hy Hc. apply (Hin (Z.of_nat i) T); try assumption.
      apply numbered_lookup. subst frames. rewrite list_lookup_fmap, Hi. reflexivity.
    + intros X Y c HX HY Hc Hfree.
      rewrite Hout; try assumption.
      * apply new_PNG_zero; try assumption; nia.
      * intros [i o] He Htile. apply numbered_elem in He as [Hi _]. rewrite Hlen in Hi.
        cbn [fst] in Htile. apply in_tile_index in Htile; lia.
Qed.
(** X14.  [createSpritesheet] lays the frames out on a grid.  For frames
    that are decoded images of one size and a column count of at least 1
    (by default the number of frames) the sheet is [cols] frames wide and
    [ceil(n / cols)] frames high; frame [i] shows, pixel for pixel, in the
    cell of column [i mod cols] and row [floor(i / cols)]; the cells of the
    last row that no frame fills are transparent black. *)
Theorem createSpritesheet_grid (Ts : list PNG) (columns : option Z) (fw fh : Z) :
  let n := Z.of_nat (length Ts) in
  let cols := columns_or columns n in
  let rows := (n + cols - 1) / cols in
  Ts <> [] ->
  Forall (fun T => wf_png T /\ width T = fw /\ height T = fh) Ts ->
  1 <= cols -> 4 * (fw * cols * (fh * rows)) <= 2 ^ 31 ->
  exists S,
    createSpritesheet (map Some Ts) columns = Returns (Some S) /\
    wf_png S /\ width S = fw * cols /\ height S = fh * rows /\
    (forall (i : nat) T, Ts !! i = Some T ->
       forall x y c, 0 <= x < fw -> 0 <= y < fh -> 0 <= c < 4 ->
         pixel_at S (Z.of_nat i mod cols * fw + x) (Z.of_nat i / cols * fh + y) c
         = pixel_at T x y c) /\
    (forall X Y c, 0 <= X < fw * cols -> 0 <= Y < fh * rows -> 0 <= c < 4 ->
       n <= Y / fh * cols + X / fw -> pixel_at S X Y c = Some 0).
Proof. apply createSpritesheet_spec. Qed.

Lemma three_demo_frames :
  Forall (fun T => wf_png T /\ width T = 2 /\ height T = 1) [demo_png; demo_png; demo_png].
Proof.
  assert (H : wf_png demo_png /\ width demo_png = 2 /\ height demo_png = 1)
    by (split; [exact demo_png_wf | split; reflexivity]).
  repeat (constructor; [exact H |]). constructor.
Defined.

Lemma createSpritesheet_grid_witness :
  exists S,
    createSpritesheet (map Some [demo_png; demo_png; demo_png]) (Some 2) = Returns (Some S) /\
    wf_png S /\ width S = 2 * 2 /\ height S = 1 * 2 /\
    (forall (i : nat) T, [demo_png; demo_png; demo_png] !! i = Some T ->
       forall x y c, 0 <= x < 2 -> 0 <= y < 1 -> 0 <= c < 4 ->
         pixel_at S (Z.of_nat i mod 2 * 2 + x) (Z.of_nat i / 2 * 1 + y) c
         = pixel_at T x y c) /\
    (forall X Y c, 0 <= X < 2 * 2 -> 0 <= Y < 1 * 2 -> 0 <= c < 4 ->
       3 <= Y / 1 * 2 + X / 2 -> pixel_at S X Y c = Some 0).
Proof.
  apply (createSpritesheet_grid [demo_png; demo_png; demo_png] (Some 2) 2 1).
  - discriminate.
  - exact three_demo_frames.
  - vm_compute. discriminate.
  - vm_compute. discriminate.
Defined.
(** * The frames the export tool reads *)

(** The frame indices [chunk.layout[i][0]], slot by slot, of the chunks that
    carry an image. *)
Definition slot_indices (cs : list Chunk) : list JS.jsval :=
  flat_map (fun c => match base64PNG c with
                     | Some _ => map head (layout c)
                     | None => []
                     end) cs.

(** Every sheet has pixel data. *)
Definition sheets_decoded (cs : list Chunk) : Prop :=
  Forall (fun c => forall p, base64PNG c = Some p -> has_data p = true) cs.

Lemma array_set_push (Fs : list PNG) (F : PNG) :
  array_set (map Some Fs) (Some (Z.of_nat (length Fs))) F = map Some (Fs ++ [F]).
Proof.
  unfold array_set. destruct (Z.ltb_spec (Z.of_nat (length Fs)) 0); [lia |].
  rewrite Nat2Z.id, length_map, Nat.ltb_irrefl, Nat.sub_diag. cbn [replicate app].
  rewrite map_app. reflexivity.
Qed.

Section Sequential.

Variables (fw fh : Z).
Hypothesis Hfw : 1 <= fw.
Hypothesis Hfh : 1 <= fh.
Hypothesis Hfit : 4 * (fw * fh) <= 2 ^ 31.

Lemma extract_slots_sequential (png : PNG) (fpr : jsnum) (slots : list (Z * list Z)) :
  has_data png = true ->
  forall Facc,
    map (fun s => head (snd s)) slots
    = map (fun k => Some (Z.of_nat k)) (seq (length Facc) (length slots)) ->
    exists Fs,
      map (fun s => extract_tile png fw fh (tile_x (fst s) fpr fw) (tile_y (fst s) fpr fh))
          slots = map Returns Fs /\
      extract_slots png fw fh fpr slots (map Some Facc) = Returns (map Some (Facc ++ Fs)).
Proof.
  intros Hdata. induction slots as [| [i entry] slots IH]; intros Facc Hidx.
  - exists []. split; [reflexivity |]. cbn. rewrite app_nil_r. reflexivity.
  - cbn [map length seq fst snd] in Hidx. injection Hidx as Hhead Hrest.
    destruct (extract_tile_spec png fw fh (tile_x i fpr fw) (tile_y i fpr fh)
                Hdata Hfw Hfh Hfit) as (F & HF & _).
    destruct (IH (Facc ++ [F])) as (Fs & Hmap & Hrun).
    { rewrite length_app, Nat.add_1_r. exact Hrest. }
    exists (F :: Fs). split.
    + cbn [map fst]. rewrite HF, Hmap. reflexivity.
    + cbn [extract_slots]. rewrite HF. cbn [obind]. rewrite Hhead, array_set_push, Hrun.
      rewrite <- app_assoc. reflexivity.
Qed.

Lemma extract_chunks_sequential (cs : list Chunk) :
  sheets_decoded cs ->
  forall Facc,
    slot_indices cs
    = map (fun k => Some (Z.of_nat k)) (seq (length Facc) (length (slot_indices cs))) ->
    exists Fs,
      flat_map (chunk_frames fw fh) cs = map Returns Fs /\
      extract_chunks fw fh cs (map Some Facc) = Returns (map Some (Facc ++ Fs)).
Proof.
  induction cs as [| c cs IH]; intros Hdec Facc Hidx.
  - exists []. split; [reflexivity |]. cbn. rewrite app_nil_r. reflexivity.
  - apply Forall_cons in Hdec as [Hc Hdec].
    cbn [slot_indices flat_map] in Hidx. fold (slot_indices cs) in Hidx.
    cbn [flat_map extract_chunks]. unfold chunk_frames at 1.
    destruct (base64PNG c) as [png|] eqn:Epng.
    + rewrite length_app, seq_app, map_app in Hidx.
      apply app_inj_1 in Hidx as [Hhere Hrest];
        [| rewrite !length_map, length_seq; reflexivity].
      rewrite length_map in Hhere, Hrest.
      destruct (extract_slots_sequential png (js_or1 (js_floor_div (width png) fw))
                  (numbered (layout c)) (Hc png eq_refl) Facc) as (Fs1 & Hmap1 & Hrun1).
      { assert (Hlen : length (numbered (layout c)) = length (layout c)).
        { unfold numbered, range. rewrite length_combine, length_map, length_seq, Nat2Z.id. lia. }
        rewrite Hlen, <- Hhere. unfold numbered, range. rewrite Nat2Z.id.
        generalize 0%nat as s. generalize (layout c) as ly.
        induction ly as [| e ly IHly]; intros s; [reflexivity |].
        cbn [length seq map combine snd]. rewrite IHly. reflexivity. }
      assert (Hlen1 : length Fs1 = length (layout c)).
      { apply (f_equal (@length _)) in Hmap1. rewrite !length_map in Hmap1.
        unfold numbered, range in Hmap1.
        rewrite length_combine, length_map, length_seq, Nat2Z.id in Hmap1. lia. }
      destruct (IH Hdec (Facc ++ Fs1)) as (Fs2 & Hmap2 & Hrun2).
      { rewrite length_app, Hlen1. exact Hrest. }
      exists (Fs1 ++ Fs2). split.
      * rewrite map_app, <- Hmap1, Hmap2. f_equal.
        unfold decode_frame.
        rewrite <- (numbered_fst (layout c)), map_map. reflexivity.
      * rewrite Hrun1. cbn [obind]. rewrite Hrun2, <- app_assoc. reflexivity.
    + cbn [app]. apply IH; assumption.
Qed.

End Sequential.
(** X15.  [extractFrames] returns the frames of the first layer in file
    order.  When the sheets of the first layer have pixel data and the frame
    indices of its layout slots, read chunk after chunk, count 0, 1, 2, ...
    (the layout the editor and the transform tool write for a single chunk),
    the array returned has no hole and holds, in that order, the frames that
    the slots decode to. *)
Theorem extractFrames_in_order (doc : Piskel) (l : Layer) :
  1 <= piskel_width doc -> 1 <= piskel_height doc ->
  4 * (piskel_width doc * piskel_height doc) <= 2 ^ 31 ->
  head (layers doc) = Some l ->
  sheets_decoded (chunks_or_empty l) ->
  slot_indices (chunks_or_empty l)
    = map Some (range (Z.of_nat (length (slot_indices (chunks_or_empty l))))) ->
  exists Fs,
    layer_frames (piskel_width doc) (piskel_height doc) l = map Returns Fs /\
    extractFrames doc = Returns (map Some Fs).
Proof.
  intros Hfw Hfh Hfit Hl Hdec Hidx.
  destruct (extract_chunks_sequential (piskel_width doc) (piskel_height doc) Hfw Hfh Hfit
              (chunks_or_empty l) Hdec []) as (Fs & Hmap & Hrun).
  { rewrite Hidx at 1. unfold range. rewrite Nat2Z.id, map_map. reflexivity. }
  exists Fs. split; [exact Hmap |].
  unfold extractFrames. rewrite Hl. exact Hrun.
Qed.

Lemma extractFrames_in_order_witness :
  exists Fs,
    layer_frames (piskel_width scenario_doc) (piskel_height scenario_doc)
      (mkLayer "Layer 1"%string 1 2 (Some [mkChunk [[0]; [1]] (Some scenario_sheet)]) None)
      = map Returns Fs /\
    extractFrames scenario_doc = Returns (map Some Fs).
Proof.
  apply (extractFrames_in_order scenario_doc
           (mkLayer "Layer 1"%string 1 2 (Some [mkChunk [[0]; [1]] (Some scenario_sheet)]) None)).
  - cbn. lia.
  - cbn. lia.
  - cbn. lia.
  - reflexivity.
  - constructor; [| constructor]. intros p [= <-]. reflexivity.
  - reflexivity.
Defined.

(** ** From an image to a container and back *)

(** [createPiskelFile(imageData, {width, height, name, fps})] of
    cli/png-to-piskel.js: one layer, one chunk with the layout [[0]], whose
    image is [new PNG({width, height})] with [imageData] for its data. *)
Definition createPiskelFile (imageData : list Z) (w h : Z) (name : string) (fps0 : Z)
  : Piskel :=
  let png := new_PNG w h in
  mkPiskel name fps0 w h
    [mkLayer "Layer 1"%string 1 1
       (Some [mkChunk [[0]] (Some (mkPNG (width png) (height png) imageData))]) None]
    [].

(** [createPiskel(png, name)] of cli/sprite-pipeline.js: the same container,
    at 12 frames per second. *)
Definition createPiskel (png : PNG) (name : string) : Piskel :=
  mkPiskel name 12 (width png) (height png)
    [mkLayer "Layer 1"%string 1 1 (Some [mkChunk [[0]] (Some png)]) None]
    [].

Lemma decode_whole (png : PNG) :
  wf_png png -> 4 * (width png * height png) <= 2 ^ 31 ->
  decode_frame png (width png) (height png) 0 = Returns png.
Proof.
  intros Hwf Hfit. pose proof Hwf as (Pw & Ph & Plen & Pb).
  apply (decode_linear png png 1 (width png) (height png) 0); try assumption; try lia.
  - unfold sheet_of. repeat split; try lia. exact Pb.
  - intros x y c _ _ _. rewrite Z.mul_0_l, Z.add_0_l. reflexivity.
Qed.

Lemma single_sheet (png : PNG) :
  wf_png png -> 4 * (width png * height png) <= 2 ^ 31 ->
  createSpritesheet [Some png] None = Returns (Some png).
Proof.
  intros Hwf Hfit. pose proof Hwf as (Pw & Ph & _).
  destruct (createSpritesheet_spec [png] None (width png) (height png))
    as (S & HS & HwfS & Sw & Sh & Hpix & _).
  - discriminate.
  - constructor; [auto | constructor].
  - cbn. lia.
  - cbn [length columns_or]. change (Z.of_nat 1) with 1.
    replace ((1 + 1 - 1) / 1) with 1 by reflexivity. lia.
  - cbn [map] in HS. rewrite HS. do 2 f_equal.
    cbn [length columns_or] in Sw, Sh, Hpix. change (Z.of_nat 1) with 1 in *.
    replace ((1 + 1 - 1) / 1) with 1 in * by reflexivity.
    apply png_ext; try assumption; try lia.
    intros x y c Hx Hy Hc. rewrite Sw in Hx. rewrite Sh in Hy.
    specialize (Hpix 0%nat png eq_refl x y c ltac:(lia) ltac:(lia) Hc).
    change (Z.of_nat 0) with 0 in Hpix.
    rewrite Z.mod_0_l, Z.div_0_l, !Z.mul_0_l, !Z.add_0_l in Hpix by lia.
    exact Hpix.
Qed.

Lemma createPiskelFile_createPiskel (png : PNG) (name : string) :
  wf_png png -> 4 * (width png * height png) <= 2 ^ 31 ->
  createPiskelFile (data png) (width png) (height png) name 12 = createPiskel png name.
Proof.
  intros (Pw & Ph & _) Hfit. unfold createPiskelFile, createPiskel, new_PNG.
  cbn [width height]. rewrite !toInt32_small by nia. destruct png; reflexivity.
Qed.

Lemma extractFrames_created (png : PNG) (name : string) (fps0 : Z) :
  wf_png png -> 4 * (width png * height png) <= 2 ^ 31 ->
  extractFrames (createPiskelFile (data png) (width png) (height png) name fps0)
  = Returns [Some png].
Proof.
  intros Hwf Hfit. pose proof Hwf as (Pw & Ph & _).
  unfold createPiskelFile, new_PNG. cbn [width height].
  rewrite !toInt32_small by nia.
  replace (mkPNG (width png) (height png) (data png)) with png by (destruct png; reflexivity).
  unfold extractFrames. cbn [layers head piskel_width piskel_height chunks_or_empty chunks].
  destruct (extract_chunks_sequential (width png) (height png) ltac:(lia) ltac:(lia) Hfit
              [mkChunk [[0]] (Some png)]) with (Facc := @nil PNG) as (Fs & Hmap & Hrun).
  - constructor; [| constructor]. intros p [= <-]. apply wf_png_has_data. exact Hwf.
  - reflexivity.
  - cbn [map app] in Hrun. rewrite Hrun.
    cbn [flat_map chunk_frames base64PNG layout length app] in Hmap.
    change (range (Z.of_nat 1)) with [0] in Hmap. cbn [map] in Hmap.
    rewrite (decode_whole png Hwf Hfit) in Hmap.
    destruct Fs as [| F [| F' Fs]]; try discriminate.
    injection Hmap as <-. reflexivity.
Qed.

(** X16.  Import then export gives the image back.  The container that
    [createPiskelFile] builds from a decoded image holds exactly one frame,
    that image; exporting it as a spritesheet, or exporting its frame 0, at
    scale 1, writes the image unchanged and reports one frame; and
    [createPiskel] of the pipeline builds the same container at 12 frames
    per second. *)
Theorem import_export_round_trip (png : PNG) (name : string) (fps0 : Z) :
  wf_png png -> 4 * (width png * height png) <= 2 ^ 31 ->
  let doc := createPiskelFile (data png) (width png) (height png) name fps0 in
  extractFrames doc = Returns [Some png] /\
  exportPiskel doc (mkExport 1 None None) = Returns (mkExported png 1) /\
  exportPiskel doc (mkExport 1 (Some (Some 0)) None) = Returns (mkExported png 1) /\
  createPiskelFile (data png) (width png) (height png) name 12 = createPiskel png name.
Proof.
  intros Hwf Hfit doc. subst doc.
  pose proof (extractFrames_created png name fps0 Hwf Hfit) as Hframes.
  split; [exact Hframes |]. split; [| split].
  - unfold exportPiskel. rewrite Hframes. cbn [obind x_frame x_columns].
    rewrite (single_sheet png Hwf Hfit). reflexivity.
  - unfold exportPiskel. rewrite Hframes. reflexivity.
  - apply createPiskelFile_createPiskel; assumption.
Qed.

Lemma import_export_round_trip_witness :
  let doc := createPiskelFile (data demo_png) (width demo_png) (height demo_png)
               "demo"%string 12 in
  extractFrames doc = Returns [Some demo_png] /\
  exportPiskel doc (mkExport 1 None None) = Returns (mkExported demo_png 1) /\
  exportPiskel doc (mkExport 1 (Some (Some 0)) None) = Returns (mkExported demo_png 1) /\
  createPiskelFile (data demo_png) (width demo_png) (height demo_png) "demo"%string 12
    = createPiskel demo_png "demo"%string.
Proof.
  apply (import_export_round_trip demo_png "demo"%string 12);
    [exact demo_png_wf | cbn; lia].
Defined.
(** * The matchers of the other tools *)

(** ** cli/png-to-piskel.js writes what cli/palette-match.js writes *)

Lemma buf_set_same (d : list Z) (i : Z) (v : Z) :
  bytes d -> buf_get d i = Some v -> buf_set d i (Some v) = d.
Proof.
  intros Hd Hget. pose proof (buf_get_byte d i v Hd Hget) as Hv.
  unfold buf_get in Hget. unfold buf_set. destruct (i <? 0); [reflexivity |].
  cbn [JS.toUint8]. rewrite Z.mod_small by exact Hv.
  apply list_insert_id. exact Hget.
Qed.

Lemma write_rgb_same (d : list Z) (i : Z) (c : Color) :
  bytes d ->
  differs (buf_get d i) (r c) || differs (buf_get d (i + 1)) (g c)
    || differs (buf_get d (i + 2)) (b c) = false ->
  write_rgb d i c = d.
Proof.
  intros Hd Hsame.
  apply orb_false_iff in Hsame as [Hsame Hb].
  apply orb_false_iff in Hsame as [Hr Hg].
  apply differs_false in Hr, Hg, Hb.
  unfold write_rgb.
  rewrite (buf_set_same d i (r c) Hd Hr).
  rewrite (buf_set_same d (i + 1) (g c) Hd Hg).
  apply (buf_set_same d (i + 2) (b c) Hd Hb).
Qed.

Lemma apply_pixel_match_pixel (palette : list Color) (i : Z) (d : list Z)
    (cache : gmap Z (option Color)) (m : bool) :
  bytes d ->
  exists m',
    match_pixel palette i (mkMatch d cache m)
    = (mkMatch (fst (fst (apply_pixel palette i (d, cache))))
               (snd (fst (apply_pixel palette i (d, cache)))) m',
       snd (apply_pixel palette i (d, cache))) /\
    bytes (fst (fst (apply_pixel palette i (d, cache)))).
Proof.
  intros Hd. unfold match_pixel, apply_pixel. cbn [m_data m_cache m_modified].
  destruct (is_zero (buf_get d (i + 3))); [exists m; split; [reflexivity | exact Hd] |].
  set (key := color_key (buf_get d i) (buf_get d (i + 1)) (buf_get d (i + 2))).
  assert (Hstore : forall n cache',
            exists m',
              store_nearest i n d cache' m
              = (mkMatch
                   (fst (fst (match n with
                              | Some c => ((write_rgb d i c, cache'), Normal)
                              | None => ((d, cache'), Throw TypeError)
                              end)))
                   cache' m',
                 snd (match n with
                      | Some c => ((write_rgb d i c, cache'), Normal)
                      | None => ((d, cache'), Throw TypeError)
                      end)) /\
              bytes (fst (fst (match n with
                               | Some c => ((write_rgb d i c, cache'), Normal)
                               | None => ((d, cache'), Throw TypeError)
                               end)))).
  { intros n cache'. unfold store_nearest. destruct n as [c|]; cbn [fst snd].
    - destruct (differs (buf_get d i) (r c) || differs (buf_get d (i + 1)) (g c)
                || differs (buf_get d (i + 2)) (b c)) eqn:Hdiff.
      + exists true. split; [reflexivity |]. unfold write_rgb.
        repeat apply buf_set_bytes. exact Hd.
      + rewrite (write_rgb_same d i c Hd Hdiff). exists m. split; [reflexivity | exact Hd].
    - exists m. split; [reflexivity | exact Hd]. }
  destruct (cache !! key) as [n|].
  - destruct (Hstore n cache) as (m' & E & Hb). exists m'.
    destruct n as [c|]; cbn [fst snd] in *; split; assumption.
  - destruct (Hstore (findNearestColor (buf_get d i) (buf_get d (i + 1)) (buf_get d (i + 2))
                        palette)
                     (<[key := findNearestColor (buf_get d i) (buf_get d (i + 1))
                                 (buf_get d (i + 2)) palette]> cache)) as (m' & E & Hb).
    exists m'.
    destruct (findNearestColor (buf_get d i) (buf_get d (i + 1)) (buf_get d (i + 2)) palette)
      as [c|]; cbn [fst snd] in *; split; assumption.
Qed.

Lemma apply_loop_match_loop (palette : list Color) (idxs : list Z) :
  forall d cache m,
    bytes d ->
    exists m',
      run_loop (match_pixel palette) idxs (mkMatch d cache m)
      = (mkMatch (fst (fst (run_loop (apply_pixel palette) idxs (d, cache))))
                 (snd (fst (run_loop (apply_pixel palette) idxs (d, cache)))) m',
         snd (run_loop (apply_pixel palette) idxs (d, cache))).
Proof.
  induction idxs as [| i rest IH]; intros d cache m Hd.
  - exists m. reflexivity.
  - destruct (apply_pixel_match_pixel palette i d cache m Hd) as (m1 & Hstep & Hb).
    cbn [run_loop]. rewrite Hstep.
    destruct (apply_pixel palette i (d, cache)) as [[d1 c1] [| e]]; cbn [fst snd] in *.
    + apply IH. exact Hb.
    + exists m1. reflexivity.
Qed.

(** X17.  The import tool and the batch tool match alike.  On any pixel
    buffer of bytes and any palette, [applyPaletteToImageData] (which assigns
    the three colour bytes without looking) leaves the buffer that
    [matchPngToPalette] (which assigns only when a byte differs) leaves, and
    completes or throws exactly as it does. *)
Theorem applyPaletteToImageData_agrees (imageData : list Z) (palette : list Color) :
  bytes imageData ->
  applyPaletteToImageData imageData palette
  = (m_data (fst (matchPngToPalette imageData palette ∅)),
     snd (matchPngToPalette imageData palette ∅)).
Proof.
  intros Hd. unfold applyPaletteToImageData, matchPngToPalette.
  destruct (apply_loop_match_loop palette (pixel_starts (length imageData))
              imageData ∅ false Hd) as (m' & ->).
  destruct (run_loop (apply_pixel palette) (pixel_starts (length imageData)) (imageData, ∅))
    as [[d1 c1] k]. reflexivity.
Qed.

Lemma applyPaletteToImageData_agrees_witness :
  applyPaletteToImageData demo_pixels demo_palette
  = (m_data (fst (matchPngToPalette demo_pixels demo_palette ∅)),
     snd (matchPngToPalette demo_pixels demo_palette ∅)).
Proof.
  apply (applyPaletteToImageData_agrees demo_pixels demo_palette).
  apply demo_pixels_rgba.
Defined.
(** ** cli/sprite-pipeline.js *)

(** The pipeline tool carries its own copies of the palette and image
    functions; the ones that differ from those of the other tools are
    modelled here under their own names. *)
Module Pipeline.

(** The scan inlined in [applyPalette]: the loop of [findNearestColor], but
    [nearest] starts out [undefined] (it is what [cache.get(key)] returned). *)
Definition nearest_inline (r0 g0 b0 : JS.jsval) (palette : list Color) : option Color :=
  nearest (scan_palette r0 g0 b0 palette (mkScan None None 0%nat)).

(** One iteration of the loop of [applyPalette]; [cache.get(key)] is
    [undefined] for a missing key and for a key stored with [undefined], and
    [!nearest] is true for both. *)
Definition applyPalette_pixel (palette : list Color) (i : Z)
    (st : list Z * gmap Z (option Color)) : list Z * gmap Z (option Color) * completion :=
  let '(d, cache) := st in
  if is_zero (buf_get d (i + 3)) then (st, Normal)
  else
    let r0 := buf_get d i in
    let g0 := buf_get d (i + 1) in
    let b0 := buf_get d (i + 2) in
    let key := color_key r0 g0 b0 in
    let '(n, cache') :=
      match cache !! key with
      | Some (Some c) => (Some c, cache)
      | _ =>
          let n := nearest_inline r0 g0 b0 palette in
          (n, <[key := n]> cache)
      end in
    match n with
    | None => ((d, cache'), Throw TypeError)
    | Some c => ((write_rgb d i c, cache'), Normal)
    end.

(** [applyPalette(png, palette)]: the pixel data after the call. *)
Definition applyPalette (png : list Z) (palette : list Color) : list Z * completion :=
  let '(st, k) := run_loop (applyPalette_pixel palette) (pixel_starts (length png)) (png, ∅) in
  (fst st, k).

(** [findContentBounds(png)]: no [hasContent] flag; the test is
    [minX > maxX]. *)
Definition findContentBounds (png : PNG) : Rect :=
  let '(minX, minY, maxX, maxY) :=
    for_yx (height png) (width png)
      (fun y x acc =>
         if positive (buf_get (data png) (JS.shl (width png * y + x) 2 + 3))
         then
           let '(minX, minY, maxX, maxY) := acc in
           (Z.min minX x, Z.min minY y, Z.max maxX x, Z.max maxY y)
         else acc)
      (width png, height png, 0, 0) in
  if maxX <? minX
  then mkRect 0 0 (width png) (height png)
  else mkRect minX minY (maxX - minX + 1) (maxY - minY + 1).

(** One line of a text palette: the rule for short lines starting with [#]
    is absent. *)
Definition txt_line (line : text) : option Color :=
  let trimmed := trim line in
  match trimmed with
  | [] => None
  | _ =>
      if starts_with (text_of ";") trimmed then None
      else
        match match_hex6 trimmed with
        | Some hex =>
            Some (mkColor (JS.band (JS.sar hex 16) 255) (JS.band (JS.sar hex 8) 255)
                          (JS.band hex 255))
        | None => match_three is_comma_or_space trimmed
        end
  end.

Definition parseTxtPalette (content : text) : list Color :=
  omap txt_line (split_lines content).

(** The body of the scan of [parseImagePalette] at the byte index [i]. *)
Definition swatch_add_at (d : list Z) (colors : list (Z * Z * Z * Color)) (i : Z)
  : list (Z * Z * Z * Color) :=
  match buf_get d i, buf_get d (i + 1), buf_get d (i + 2) with
  | Some r0, Some g0, Some b0 =>
      let key := (r0, g0, b0) in
      if map_has key colors then colors else colors ++ [(key, mkColor r0 g0 b0)]
  | _, _, _ => colors
  end.

(** [parseImagePalette(filePath)] on the decoded image: one loop over the
    buffer, four bytes at a time. *)
Definition parseImagePalette (png : PNG) : list Color :=
  map snd
    (fold_left (fun colors i =>
                  if positive (buf_get (data png) (i + 3))
                  then swatch_add_at (data png) colors i
                  else colors)
               (pixel_starts (length (data png))) []).

End Pipeline.

(** For a pixel that was read, the inlined scan is [findNearestColor]. *)
Lemma nearest_inline_numbers (r0 g0 b0 : Z) (palette : list Color) :
  Pipeline.nearest_inline (Some r0) (Some g0) (Some b0) palette
  = findNearestColor (Some r0) (Some g0) (Some b0) palette.
Proof.
  unfold Pipeline.nearest_inline, findNearestColor, findNearestColor_scan.
  destruct palette as [| c rest]; [reflexivity |].
  cbn [head scan_palette colorDistance lt_minDist]. reflexivity.
Qed.

(** No key of the cache is stored with [undefined]. *)
Definition cache_defined (cache : gmap Z (option Color)) : Prop :=
  forall k, cache !! k <> Some None.

Lemma applyPalette_pixel_agrees (palette : list Color) (i : Z) (d : list Z)
    (cache : gmap Z (option Color)) :
  bytes d -> 0 <= i -> i + 3 < Z.of_nat (length d) -> cache_defined cache ->
  Pipeline.applyPalette_pixel palette i (d, cache) = apply_pixel palette i (d, cache) /\
  bytes (fst (fst (apply_pixel palette i (d, cache)))) /\
  length (fst (fst (apply_pixel palette i (d, cache)))) = length d /\
  (snd (apply_pixel palette i (d, cache)) = Normal ->
   cache_defined (snd (fst (apply_pixel palette i (d, cache))))).
Proof.
  intros Hd H0 Hlen Hc.
  destruct (pixel_reads d i Hd H0 Hlen) as (r0 & g0 & b0 & a & Hr & Hg & Hb & Ha & _).
  unfold Pipeline.applyPalette_pixel, apply_pixel.
  destruct (is_zero (buf_get d (i + 3))); [auto |].
  rewrite Hr, Hg, Hb, nearest_inline_numbers.
  set (key := color_key (Some r0) (Some g0) (Some b0)).
  assert (Hw : forall c, bytes (write_rgb d i c)).
  { intros c. unfold write_rgb. repeat apply buf_set_bytes. exact Hd. }
  destruct (cache !! key) as [[c|]|] eqn:Hk.
  - cbn [fst snd]. rewrite write_rgb_length. auto.
  - destruct (Hc key Hk).
  - destruct (findNearestColor (Some r0) (Some g0) (Some b0) palette) as [c|] eqn:Hn;
      cbn [fst snd].
    + rewrite write_rgb_length. repeat split; auto.
      intros _ k. destruct (Z.eq_dec key k) as [<- | Hne].
      * rewrite lookup_insert_eq. discriminate.
      * rewrite lookup_insert_ne by exact Hne. apply Hc.
    + repeat split; auto. discriminate.
Qed.

Lemma applyPalette_loop_agrees (palette : list Color) (idxs : list Z) :
  forall d cache,
    bytes d -> whole_pixels (length d) idxs -> cache_defined cache ->
    run_loop (Pipeline.applyPalette_pixel palette) idxs (d, cache)
    = run_loop (apply_pixel palette) idxs (d, cache).
Proof.
  induction idxs as [| i rest IH]; intros d cache Hd Hidx Hc; [reflexivity |].
  apply Forall_cons in Hidx as [(_ & H0 & Hlt) Hrest].
  destruct (applyPalette_pixel_agrees palette i d cache Hd H0 Hlt Hc)
    as (Hstep & Hb & Hl & Hc').
  cbn [run_loop]. rewrite Hstep.
  destruct (apply_pixel palette i (d, cache)) as [[d1 c1] [| e]]; cbn [fst snd] in *;
    [| reflexivity].
  apply IH; [exact Hb | | apply Hc'; reflexivity].
  unfold whole_pixels in *. rewrite Hl. exact Hrest.
Qed.

(** X18.  The pipeline matches like the import tool.  On a decoded RGBA
    buffer and any palette, [applyPalette] of cli/sprite-pipeline.js (its own
    inlined scan, a cache read with [get] and [!nearest]) leaves the buffer,
    and completes or throws, exactly as [applyPaletteToImageData] does. *)
Theorem pipeline_applyPalette_agrees (png : list Z) (palette : list Color) :
  rgba_buffer png ->
  Pipeline.applyPalette png palette = applyPaletteToImageData png palette.
Proof.
  intros [Hd Hmod]. unfold Pipeline.applyPalette, applyPaletteToImageData.
  rewrite applyPalette_loop_agrees; [reflexivity | exact Hd | | ].
  - apply pixel_starts_whole. exact Hmod.
  - intros k. rewrite lookup_empty. discriminate.
Qed.

Lemma pipeline_applyPalette_agrees_witness :
  Pipeline.applyPalette demo_pixels demo_palette
  = applyPaletteToImageData demo_pixels demo_palette.
Proof.
  apply (pipeline_applyPalette_agrees demo_pixels demo_palette).
  exact demo_pixels_rgba.
Defined.
Example pipeline_needs_whole_pixels :
  Pipeline.applyPalette [1] demo_palette = ([1], Throw TypeError) /\
  applyPaletteToImageData [1] demo_palette = ([255], Normal).
Proof. split; reflexivity. Qed.

(** ** The two [findContentBounds] *)

Definition bounds_tuple (acc : bounds_acc) : Z * Z * Z * Z :=
  (accMinX acc, accMinY acc, accMaxX acc, accMaxY acc).

Lemma bounds_tuple_fold (ps : list (Z * Z)) :
  forall acc,
    fold_left (fun (t : Z * Z * Z * Z) yx =>
                 let '(minX, minY, maxX, maxY) := t in
                 (Z.min minX (snd yx), Z.min minY (fst yx),
                  Z.max maxX (snd yx), Z.max maxY (fst yx)))
              ps (bounds_tuple acc)
    = bounds_tuple (fold_left (fun acc yx => frame_point acc (snd yx) (fst yx)) ps acc).
Proof.
  induction ps as [| [y x] ps IH]; intros acc; [reflexivity |].
  cbn [fold_left fst snd]. rewrite <- IH. reflexivity.
Qed.

Lemma pipeline_scan (png : PNG) :
  for_yx (height png) (width png)
    (fun y x (acc : Z * Z * Z * Z) =>
       if positive (buf_get (data png) (JS.shl (width png * y + x) 2 + 3))
       then
         let '(minX, minY, maxX, maxY) := acc in
         (Z.min minX x, Z.min minY y, Z.max maxX x, Z.max maxY y)
       else acc)
    (width png, height png, 0, 0)
  = bounds_tuple (findContentBounds_scan png).
Proof.
  unfold findContentBounds_scan.
  rewrite (for_yx_filter (height png) (width png)
             (fun y x => positive (buf_get (data png) (JS.shl (width png * y + x) 2 + 3)))
             (fun (t : Z * Z * Z * Z) x y =>
                let '(minX, minY, maxX, maxY) := t in
                (Z.min minX x, Z.min minY y, Z.max maxX x, Z.max maxY y))).
  rewrite (for_yx_filter (height png) (width png)
             (fun y x => positive (buf_get (data png) (JS.shl (width png * y + x) 2 + 3)))
             frame_point).
  apply (bounds_tuple_fold _ (mkAcc (width png) (height png) 0 0 false)).
Qed.

(** X19.  The [findContentBounds] of the pipeline (which tests
    [minX > maxX]) and that of the transform tool (which keeps a
    [hasContent] flag) return the same rectangle for every image of positive
    width, whatever its data.  They part only on an image of width 0 or
    less, where no pixel is looked at: the pipeline then returns the start
    values [x = width, y = height] with the sizes [1 - width] and
    [1 - height], the transform tool the rectangle of the whole image. *)
Theorem pipeline_findContentBounds_agrees (png : PNG) :
  (0 < width png -> Pipeline.findContentBounds png = findContentBounds png) /\
  (width png <= 0 ->
     Pipeline.findContentBounds png
       = mkRect (width png) (height png) (0 - width png + 1) (0 - height png + 1) /\
     findContentBounds png = mkRect 0 0 (width png) (height png)).
Proof.
  unfold Pipeline.findContentBounds. rewrite pipeline_scan.
  unfold findContentBounds. rewrite findContentBounds_scan_hull.
  pose proof (hull_of_valid (content_cells png)) as Hvalid.
  pose proof (hull_of_tight (content_cells png)) as Htight.
  destruct (hull_of (content_cells png)) as [[[[a b0] c] d] |];
    cbn [repr_frame bounds_tuple hasContent negb accMinX accMinY accMaxX accMaxY].
  - cbn in Hvalid. split.
    + intros _. destruct (Z.ltb_spec c a); [lia | reflexivity].
    + intros Hw. exfalso.
      destruct Htight as (_ & (y & Hin) & _).
      unfold content_cells in Hin. apply list_elem_of_In, filter_In in Hin as [Hin _].
      apply list_elem_of_In, elem_of_cells in Hin. lia.
  - split.
    + intros Hw. destruct (Z.ltb_spec 0 (width png)); [reflexivity | lia].
    + intros Hw. destruct (Z.ltb_spec 0 (width png)); [lia |]. split; reflexivity.
Qed.

Lemma pipeline_findContentBounds_agrees_witness :
  Pipeline.findContentBounds demo_png = findContentBounds demo_png.
Proof.
  apply (proj1 (pipeline_findContentBounds_agrees demo_png)). cbn. lia.
Defined.

(** ** The two [parseTxtPalette] *)

Lemma short_hash_line (s : text) :
  starts_with (text_of "#") s = true -> (length s < 4)%nat ->
  match_hex6 s = None /\ match_three is_comma_or_space s = None.
Proof.
  intros Hstart Hlen. destruct s as [| c rest]; [discriminate |].
  unfold text_of in Hstart. cbn [list_ascii_of_string starts_with] in Hstart.
  rewrite andb_true_r in Hstart.
  apply Ascii.eqb_eq in Hstart. subst c. split.
  - unfold match_hex6. rewrite Ascii.eqb_refl.
    destruct rest as [| c1 [| c2 [| c3 rest]]]; try reflexivity.
    cbn [length] in Hlen. lia.
  - reflexivity.
Qed.

(** X20.  The rule of cli/palette-match.js that skips a line starting with
    [#] and shorter than four characters changes nothing: such a line matches
    neither pattern, so the [parseTxtPalette] of the pipeline, which has no
    such rule, returns the same colours for every text. *)
Theorem pipeline_parseTxtPalette_agrees (content : text) :
  Pipeline.parseTxtPalette content = parseTxtPalette content.
Proof.
  unfold Pipeline.parseTxtPalette, parseTxtPalette.
  generalize (split_lines content) as lines. intros lines.
  induction lines as [| line lines IH]; [reflexivity |].
  cbn [omap list_omap]. rewrite IH. f_equal.
  unfold Pipeline.txt_line, txt_line.
  destruct (trim line) as [| c rest] eqn:Et; [reflexivity |].
  destruct (starts_with (text_of ";") (c :: rest)); [reflexivity |]. cbn [orb].
  destruct (starts_with (text_of "#") (c :: rest) && (length (c :: rest) <? 4)%nat) eqn:Hshort;
    [| reflexivity].
  apply andb_true_iff in Hshort as [Hstart Hlen]. apply Nat.ltb_lt in Hlen.
  destruct (short_hash_line (c :: rest) Hstart Hlen) as [-> ->]. reflexivity.
Qed.
(** ** The two [parseImagePalette] *)

(** The row-major walk over the cells visits the byte indices 0, 4, 8, ... *)
Lemma cells_indices (w : Z) (n : nat) :
  0 <= w ->
  map (fun yx => 4 * (w * fst yx + snd yx)) (cells (Z.of_nat n) w)
  = map (fun k => 4 * Z.of_nat k) (seq 0 (Z.to_nat w * n)).
Proof.
  intros Hw. unfold cells, range. rewrite Nat2Z.id.
  induction n as [| n IH]; [rewrite Nat.mul_0_r; reflexivity |].
  rewrite seq_S, map_app, flat_map_app, map_app, IH. cbn [map flat_map].
  rewrite app_nil_r. rewrite Nat.mul_succ_r, seq_app, map_app. f_equal.
  cbn [Nat.add]. rewrite <- (Nat.add_0_r (Z.to_nat w * n)) at 1.
  rewrite <- (fmap_add_seq (Z.to_nat w * n) 0 (Z.to_nat w)).
  rewrite !map_map. apply map_ext. intros k. cbn [fst snd]. lia.
Qed.

Lemma fold_left_ext_in {A B : Type} (f g : A -> B -> A) (l : list B) :
  (forall a x, x ∈ l -> f a x = g a x) -> forall a, fold_left f l a = fold_left g l a.
Proof.
  induction l as [| x l IH]; intros Hext a; [reflexivity |].
  cbn [fold_left]. rewrite (Hext a x) by (apply elem_of_cons; left; reflexivity).
  apply IH. intros a' x' Hx'. apply Hext. apply elem_of_cons. right. exact Hx'.
Qed.

Lemma fold_left_through_map {A B C : Type} (g : A -> C -> A) (f : B -> C) (l : list B) :
  forall a, fold_left (fun acc x => g acc (f x)) l a = fold_left g (map f l) a.
Proof.
  induction l as [| x l IH]; intros a; [reflexivity | apply IH].
Qed.

(** X21.  The two scans of a reference image agree.  On a decoded image the
    [parseImagePalette] of the pipeline (one loop over the buffer, four bytes
    at a time) returns the same colour list, in the same order, as that of
    cli/palette-match.js (rows, then columns). *)
Theorem pipeline_parseImagePalette_agrees (png : PNG) :
  wf_png png -> 4 * (width png * height png) <= 2 ^ 31 ->
  Pipeline.parseImagePalette png = parseImagePalette png.
Proof.
  intros (Pw & Ph & Plen & Pb) Hfit.
  unfold Pipeline.parseImagePalette, parseImagePalette. f_equal.
  rewrite for_yx_cells.
  rewrite (fold_left_ext_in _
             (fun colors yx =>
                (fun colors i =>
                   if positive (buf_get (data png) (i + 3))
                   then Pipeline.swatch_add_at (data png) colors i
                   else colors) colors (4 * (width png * fst yx + snd yx)))).
  - rewrite (fold_left_through_map
               (fun colors i =>
                  if positive (buf_get (data png) (i + 3))
                  then Pipeline.swatch_add_at (data png) colors i
                  else colors)
               (fun yx => 4 * (width png * fst yx + snd yx))).
    f_equal. rewrite <- (Z2Nat.id (height png)) at 1 by lia.
    rewrite cells_indices by lia. unfold pixel_starts. f_equal. f_equal.
    apply Nat2Z.inj. rewrite Nat2Z.inj_mul, Nat2Z.inj_div, Nat2Z.inj_add, !Z2Nat.id by lia.
    rewrite Plen. change (Z.of_nat 3) with 3. change (Z.of_nat 4) with 4.
    symmetry. apply (Z.div_unique _ _ _ 3); lia.
  - intros colors [y x] Hin. apply elem_of_cells in Hin as [Hy Hx]. cbn [fst snd].
    unfold swatch_add, Pipeline.swatch_add_at.
    rewrite (shl2_rowmajor (width png) (height png) y x Hy Hx Hfit). reflexivity.
Qed.

Lemma pipeline_parseImagePalette_agrees_witness :
  Pipeline.parseImagePalette demo_png = parseImagePalette demo_png.
Proof.
  apply (pipeline_parseImagePalette_agrees demo_png); [exact demo_png_wf | cbn; lia].
Defined.
(** * Binary palettes: [parsePalPalette] (cli/palette-match.js) *)

(** A colour as [parsePalPalette] builds it from a [Buffer]: a component
    read past the end of the buffer is [undefined]. *)
Record RawColor := mkRaw { raw_r : JS.jsval; raw_g : JS.jsval; raw_b : JS.jsval }.

(** The colours returned, or the [RangeError] that [readUInt16LE] throws
    when its two bytes are not inside the buffer. *)
Inductive pal_outcome :=
| PalColors (colors : list RawColor)
| PalRangeError.

(** [buffer.toString('ascii', 0, 4) === 'RIFF'].  Decoding as ascii clears
    the highest bit of every byte; a buffer of fewer than four bytes gives a
    shorter string. *)
Definition is_riff (buffer : list Z) : bool :=
  match buffer with
  | c0 :: c1 :: c2 :: c3 :: _ =>
      (Z.land c0 127 =? 82) && (Z.land c1 127 =? 73)
      && (Z.land c2 127 =? 70) && (Z.land c3 127 =? 70)
  | _ => false
  end.

(** [buffer.readUInt16LE(offset)]; [None] is the [RangeError]. *)
Definition readUInt16LE (buffer : list Z) (offset : Z) : option Z :=
  match buf_get buffer offset, buf_get buffer (offset + 1) with
  | Some lo, Some hi => Some (lo + 256 * hi)
  | _, _ => None
  end.

(** [{ r: buffer[offset], g: buffer[offset + 1], b: buffer[offset + 2] }] *)
Definition pal_entry (buffer : list Z) (offset : Z) : RawColor :=
  mkRaw (buf_get buffer offset) (buf_get buffer (offset + 1)) (buf_get buffer (offset + 2)).

(** [parsePalPalette(buffer)]: a RIFF palette has its colour count at offset
    22 and four bytes per colour from offset 24 on; anything else is read as
    RGB triplets, [for (let i = 0; i + 2 < buffer.length; i += 3)]. *)
Definition parsePalPalette (buffer : list Z) : pal_outcome :=
  if is_riff buffer then
    match readUInt16LE buffer 22 with
    | None => PalRangeError
    | Some numColors =>
        PalColors (map (fun i => pal_entry buffer (24 + i * 4)) (range numColors))
    end
  else
    PalColors (map (fun k => pal_entry buffer (3 * Z.of_nat k))
                   (seq 0 (length buffer / 3))).

(** A colour all of whose components were read. *)
Definition raw_of (c : Color) : RawColor := mkRaw (Some (r c)) (Some (g c)) (Some (b c)).

Lemma buf_get_app_r (pre rest : list Z) (i : Z) :
  0 <= i -> buf_get (pre ++ rest) (Z.of_nat (length pre) + i) = buf_get rest i.
Proof.
  intros Hi. unfold buf_get.
  destruct (Z.ltb_spec (Z.of_nat (length pre) + i) 0); [lia |].
  destruct (Z.ltb_spec i 0); [lia |].
  rewrite lookup_app_r by lia. f_equal. lia.
Qed.

Lemma buf_get_app_l (pre rest : list Z) (i : Z) :
  0 <= i < Z.of_nat (length pre) -> buf_get (pre ++ rest) i = buf_get pre i.
Proof.
  intros Hi. unfold buf_get. destruct (Z.ltb_spec i 0); [lia |].
  apply lookup_app_l. lia.
Qed.

(** The bytes of palette records: three colour bytes and some padding
    each. *)
Definition pal_bytes (entries : list (Color * list Z)) : list Z :=
  flat_map (fun e => [r (fst e); g (fst e); b (fst e)] ++ snd e) entries.

(** Records of [stride] bytes each are read back one after the other. *)
Lemma pal_entries_read (stride : nat) (entries : list (Color * list Z)) (tail : list Z) :
  Forall (fun e => length (snd e) = (stride - 3)%nat) entries -> (3 <= stride)%nat ->
  map (fun k => pal_entry (pal_bytes entries ++ tail) (Z.of_nat (stride * k)))
      (seq 0 (length entries))
  = map (fun e => raw_of (fst e)) entries.
Proof.
  intros Hpad Hstride. induction entries as [| [c pad] entries IH]; [reflexivity |].
  apply Forall_cons in Hpad as [Hc Hpad]. cbn [fst snd] in Hc.
  cbn [length seq map]. f_equal.
  - rewrite Nat.mul_0_r. reflexivity.
  - rewrite <- seq_shift, map_map. rewrite <- (IH Hpad).
    apply map_ext. intros k.
    assert (Hlen : Z.of_nat (stride * S k)
                   = Z.of_nat (length ([r c; g c; b c] ++ pad)) + Z.of_nat (stride * k)).
    { rewrite length_app, Hc. cbn [length]. lia. }
    unfold pal_bytes. cbn [flat_map fst snd]. fold (pal_bytes entries).
    rewrite <- (app_assoc _ (pal_bytes entries) tail).
    unfold pal_entry. rewrite Hlen, <- !Z.add_assoc, !buf_get_app_r by lia. reflexivity.
Qed.

Lemma pal_bytes_length (stride : nat) (entries : list (Color * list Z)) :
  Forall (fun e => length (snd e) = (stride - 3)%nat) entries -> (3 <= stride)%nat ->
  length (pal_bytes entries) = (stride * length entries)%nat.
Proof.
  intros Hpad Hstride. induction entries as [| [c pad] entries IH]; [cbn; lia |].
  apply Forall_cons in Hpad as [Hc Hpad]. cbn [fst snd] in Hc.
  unfold pal_bytes. cbn [flat_map fst snd]. fold (pal_bytes entries).
  rewrite !length_app, (IH Hpad), Hc. cbn [length]. lia.
Qed.

Lemma triplets_pal_bytes (cs : list Color) :
  flat_map (fun c => [r c; g c; b c]) cs = pal_bytes (map (fun c => (c, [])) cs).
Proof.
  unfold pal_bytes. induction cs as [| c cs IH]; [reflexivity |].
  cbn [map flat_map fst snd app]. rewrite IH. reflexivity.
Qed.

Lemma records_pal_bytes (entries : list (Color * Z)) :
  flat_map (fun e => [r (fst e); g (fst e); b (fst e); snd e]) entries
  = pal_bytes (map (fun e => (fst e, [snd e])) entries).
Proof.
  unfold pal_bytes. induction entries as [| e entries IH]; [reflexivity |].
  cbn [map flat_map fst snd app]. rewrite IH. reflexivity.
Qed.

(** X22.  A file of RGB triplets is read back colour by colour.  When the
    buffer does not start with the letters RIFF, [parsePalPalette] returns
    one colour for every three bytes, in file order, with all components
    defined; one or two bytes left over at the end are ignored. *)
Theorem parsePalPalette_raw_triplets (cs : list Color) (tail : list Z) :
  is_riff (flat_map (fun c => [r c; g c; b c]) cs ++ tail) = false ->
  (length tail < 3)%nat ->
  parsePalPalette (flat_map (fun c => [r c; g c; b c]) cs ++ tail)
  = PalColors (map raw_of cs).
Proof.
  intros Hriff Htail. unfold parsePalPalette. rewrite Hriff. f_equal.
  pose proof (triplets_pal_bytes cs) as Hbytes.
  assert (Hpad : Forall (fun e : Color * list Z => length (snd e) = (3 - 3)%nat)
                        (map (fun c => (c, [])) cs)).
  { apply Forall_fmap, Forall_forall. intros c _. reflexivity. }
  rewrite Hbytes.
  rewrite length_app, (pal_bytes_length 3 _ Hpad) by lia. rewrite length_map.
  replace ((3 * length cs + length tail) / 3)%nat with (length cs).
  - transitivity (map (fun e : Color * list Z => raw_of (fst e))
                       (map (fun c => (c, @nil Z)) cs)); [| rewrite map_map; reflexivity].
    rewrite <- (pal_entries_read 3 (map (fun c => (c, [])) cs) tail Hpad) by lia.
    rewrite length_map. apply map_ext. intros k. f_equal. lia.
  - apply (Nat.div_unique _ 3 _ (length tail)); lia.
Qed.

Lemma parsePalPalette_raw_triplets_witness :
  parsePalPalette (flat_map (fun c => [r c; g c; b c]) demo_palette ++ [7; 7])
  = PalColors (map raw_of demo_palette).
Proof.
  apply (parsePalPalette_raw_triplets demo_palette [7; 7]); [reflexivity | cbn; lia].
Defined.

Lemma is_riff_app (header rest : list Z) :
  (4 <= length header)%nat -> is_riff (header ++ rest) = is_riff header.
Proof.
  intros Hlen. destruct header as [| c0 [| c1 [| c2 [| c3 header]]]];
    cbn [length] in Hlen; try lia. reflexivity.
Qed.

(** X23.  A RIFF palette is read back colour by colour.  After a header of
    24 bytes that starts with the letters RIFF and carries the colour count,
    low byte first, at offsets 22 and 23, [parsePalPalette] returns the
    colours of the four-byte records that follow, in file order; the fourth
    byte of each record and whatever follows the last record are ignored. *)
Theorem parsePalPalette_riff_records (header : list Z) (entries : list (Color * Z))
    (tail : list Z) (lo hi : Z) :
  length header = 24%nat -> is_riff header = true ->
  header !! 22%nat = Some lo -> header !! 23%nat = Some hi ->
  lo + 256 * hi = Z.of_nat (length entries) ->
  parsePalPalette
    (header ++ flat_map (fun e => [r (fst e); g (fst e); b (fst e); snd e]) entries ++ tail)
  = PalColors (map (fun e => raw_of (fst e)) entries).
Proof.
  intros Hlen Hriff Hlo Hhi Hcount. unfold parsePalPalette.
  rewrite is_riff_app, Hriff by lia.
  assert (Hread : readUInt16LE
                    (header ++ flat_map (fun e => [r (fst e); g (fst e); b (fst e); snd e])
                                 entries ++ tail) 22 = Some (Z.of_nat (length entries))).
  { unfold readUInt16LE. rewrite !buf_get_app_l by lia.
    unfold buf_get. change (22 <? 0) with false. change (22 + 1 <? 0) with false.
    change (Z.to_nat 22) with 22%nat. change (Z.to_nat (22 + 1)) with 23%nat. cbv iota.
    rewrite Hlo, Hhi, Hcount. reflexivity. }
  rewrite Hread. f_equal. unfold range. rewrite Nat2Z.id.
  pose proof (records_pal_bytes entries) as Hbytes.
  assert (Hpad : Forall (fun e : Color * list Z => length (snd e) = (4 - 3)%nat)
                        (map (fun e : Color * Z => (fst e, [snd e])) entries)).
  { apply Forall_fmap, Forall_forall. intros e _. reflexivity. }
  rewrite Hbytes, map_map.
  transitivity (map (fun e : Color * list Z => raw_of (fst e))
                    (map (fun e : Color * Z => (fst e, [snd e])) entries));
    [| rewrite map_map; reflexivity].
  rewrite <- (pal_entries_read 4 _ tail Hpad) by lia.
  rewrite length_map. apply map_ext. intros k. unfold pal_entry.
  replace (24 + Z.of_nat k * 4) with (Z.of_nat (length header) + Z.of_nat (4 * k)) by lia.
  rewrite <- !Z.add_assoc, !buf_get_app_r by lia. reflexivity.
Qed.

(** The header of a RIFF palette with two colours. *)
Definition riff_header : list Z :=
  [82; 73; 70; 70; 24; 0; 0; 0; 80; 65; 76; 32; 100; 97; 116; 97; 12; 0; 0; 0; 0; 3; 2; 0].

Lemma parsePalPalette_riff_records_witness :
  parsePalPalette
    (riff_header
     ++ flat_map (fun e => [r (fst e); g (fst e); b (fst e); snd e])
          [(mkColor 255 0 0, 0); (mkColor 0 255 0, 0)] ++ [])
  = PalColors (map (fun e => raw_of (fst e)) [(mkColor 255 0 0, 0); (mkColor 0 255 0, 0)]).
Proof.
  apply (parsePalPalette_riff_records riff_header
           [(mkColor 255 0 0, 0); (mkColor 0 255 0, 0)] [] 2 0); reflexivity.
Defined.

(** X24.  A RIFF palette cut short is not rejected.  When the buffer starts
    with RIFF and ends before offset 24, reading the count throws a
    [RangeError]; otherwise as many colours as the count says are returned
    without any check against the length of the buffer, and a colour whose
    third byte lies past the end has an undefined blue component. *)
Theorem parsePalPalette_riff_truncated (buffer : list Z) :
  is_riff buffer = true ->
  ((length buffer < 24)%nat -> parsePalPalette buffer = PalRangeError) /\
  (forall n, readUInt16LE buffer 22 = Some n ->
     exists cs,
       parsePalPalette buffer = PalColors cs /\
       Z.of_nat (length cs) = Z.max 0 n /\
       forall (i : nat) c,
         cs !! i = Some c -> Z.of_nat (length buffer) <= 24 + 4 * Z.of_nat i + 2 ->
         raw_b c = None).
Proof.
  intros Hriff. unfold parsePalPalette. rewrite Hriff. split.
  - intros Hlen. unfold readUInt16LE.
    assert (Hnone : buf_get buffer (22 + 1) = None).
    { unfold buf_get. cbn. apply lookup_ge_None_2. lia. }
    rewrite Hnone. destruct (buf_get buffer 22); reflexivity.
  - intros n ->. eexists. split; [reflexivity |]. split.
    + unfold range. rewrite length_map, length_map, length_seq. lia.
    + intros i c Hi Hend. unfold range in Hi.
      rewrite list_lookup_fmap, list_lookup_fmap in Hi.
      destruct (seq 0 (Z.to_nat n) !! i) as [k|] eqn:Hk; [| discriminate].
      apply lookup_seq in Hk as [-> _]. cbn in Hi. injection Hi as <-.
      unfold pal_entry. cbn [raw_b]. unfold buf_get.
      destruct (Z.ltb_spec (24 + Z.of_nat i * 4 + 2) 0); [reflexivity |].
      apply lookup_ge_None_2. lia.
Qed.

(** A RIFF palette that announces two colours and ends inside the second. *)
Definition riff_cut : list Z := riff_header ++ [255; 0; 0; 0; 9; 9].

Lemma parsePalPalette_riff_truncated_witness :
  ((length riff_cut < 24)%nat ->
     parsePalPalette riff_cut = PalRangeError) /\
  (forall n, readUInt16LE riff_cut 22 = Some n ->
     exists cs,
       parsePalPalette riff_cut = PalColors cs /\
       Z.of_nat (length cs) = Z.max 0 n /\
       forall (i : nat) c,
         cs !! i = Some c ->
         Z.of_nat (length riff_cut) <= 24 + 4 * Z.of_nat i + 2 ->
         raw_b c = None).
Proof.
  apply (parsePalPalette_riff_truncated riff_cut). reflexivity.
Defined.

Example riff_cut_short :
  parsePalPalette riff_cut
  = PalColors [mkRaw (Some 255) (Some 0) (Some 0); mkRaw (Some 9) (Some 9) None].
Proof. reflexivity. Qed.
(** * When the export fails *)

Lemma extract_chunks_no_slots (fw fh : Z) (cs : list Chunk) (frames : list (option PNG)) :
  slot_indices cs = [] -> extract_chunks fw fh cs frames = Returns frames.
Proof.
  induction cs as [| c cs IH]; intros Hnone; [reflexivity |].
  cbn [slot_indices flat_map] in Hnone. fold (slot_indices cs) in Hnone.
  apply app_eq_nil in Hnone as [Hc Hcs].
  cbn [extract_chunks]. destruct (base64PNG c) as [png|]; [| apply IH; exact Hcs].
  apply map_eq_nil in Hc. rewrite Hc. cbn [numbered length range combine extract_slots obind].
  apply IH. exact Hcs.
Qed.

(** X25.  The failures of [exportPiskel].  With the frame array that
    [extractFrames] returns: a frame number below 0 or not below the length
    of the array raises "Frame out of range"; a frame number that names a
    hole of the array (an index no layout slot mentions), a frame option
    that is not a number, and an empty array all raise "No frames found";
    a spritesheet whose frame 0 is a hole raises a [TypeError].  A container
    without layers raises the [SyntaxError] of [JSON.parse(undefined)], and
    one whose first layer has no layout slot with an image has no frames. *)
Theorem exportPiskel_failures (doc : Piskel) (options : ExportOptions)
    (frames : list (option PNG)) :
  (layers doc = [] -> exportPiskel doc options = Throws SyntaxError) /\
  (forall l, head (layers doc) = Some l -> slot_indices (chunks_or_empty l) = [] ->
     extractFrames doc = Returns []) /\
  (extractFrames doc = Returns frames ->
   (forall k, x_frame options = Some (Some k) ->
      k < 0 \/ Z.of_nat (length frames) <= k ->
      exportPiskel doc options = Throws FrameOutOfRange) /\
   (forall k, x_frame options = Some (Some k) ->
      0 <= k -> frames !! Z.to_nat k = Some None ->
      exportPiskel doc options = Throws NoFramesFound) /\
   (x_frame options = Some None -> exportPiskel doc options = Throws NoFramesFound) /\
   (x_frame options = None -> frames = [] ->
      exportPiskel doc options = Throws NoFramesFound) /\
   (x_frame options = None -> head frames = Some None ->
      exportPiskel doc options = Throws TypeError)).
Proof.
  split; [| split].
  - intros Hnone. unfold exportPiskel, extractFrames. rewrite Hnone. reflexivity.
  - intros l Hl Hnone. unfold extractFrames. rewrite Hl.
    apply extract_chunks_no_slots. exact Hnone.
  - intros Hframes. unfold exportPiskel. rewrite Hframes. cbn [obind].
    split; [| split; [| split; [| split]]].
    + intros k -> Hk.
      assert (Hout : (k <? 0) || (Z.of_nat (length frames) <=? k) = true).
      { apply orb_true_iff. destruct Hk; [left; apply Z.ltb_lt | right; apply Z.leb_le]; lia. }
      rewrite Hout. reflexivity.
    + intros k -> Hk Hhole.
      assert (Hlt : (Z.to_nat k < length frames)%nat).
      { apply lookup_lt_is_Some. eauto. }
      assert (Hin : (k <? 0) || (Z.of_nat (length frames) <=? k) = false).
      { apply orb_false_iff. split; [apply Z.ltb_ge | apply Z.leb_gt]; lia. }
      rewrite Hin, Hhole. reflexivity.
    + intros ->. reflexivity.
    + intros -> ->. reflexivity.
    + intros -> Hhead. destruct frames as [| [f|] frames]; try discriminate. reflexivity.
Qed.

(** A container whose only slot names frame 1: frame 0 is a hole. *)
Definition sparse_doc : Piskel :=
  mkPiskel "sparse"%string 12 2 1
    [mkLayer "Layer 1"%string 1 1 (Some [mkChunk [[1]] (Some demo_png)]) None] [].

Lemma exportPiskel_failures_witness :
  exportPiskel sparse_doc (mkExport 1 (Some (Some 0)) None) = Throws NoFramesFound.
Proof.
  pose proof (exportPiskel_failures sparse_doc (mkExport 1 (Some (Some 0)) None)
                [None; Some demo_png]) as (_ & _ & H).
  destruct (H eq_refl) as (_ & Hhole & _).
  apply (Hhole 0); [reflexivity | lia | reflexivity].
Defined.

Example sparse_export :
  extractFrames sparse_doc = Returns [None; Some demo_png] /\
  exportPiskel sparse_doc (mkExport 1 None None) = Throws TypeError /\
  exportPiskel sparse_doc (mkExport 1 (Some (Some 1)) None) = Returns (mkExported demo_png 2) /\
  exportPiskel sparse_doc (mkExport 1 (Some (Some 2)) None) = Throws FrameOutOfRange.
Proof. repeat split. Qed.

(** * The report of [processPiskelFile] *)

(** [{ layersModified, colorsMatched: colorCache.size }] *)
Record Report := mkReport { layersModified : Z; colorsMatched : Z }.

(** The value [processPiskelFile] returns: [layersModified++] closes every
    iteration of the loop over the layers, so it counts the layers written;
    [colorCache] is the one Map of the whole file. *)
Definition processPiskelFile_report (doc : Piskel) (palette : list Color) : outcome Report :=
  match process_layers (fun png cache => matchPngToPalette png palette cache) (layers doc) ∅ with
  | (ls, cache, Normal) => Returns (mkReport (Z.of_nat (length ls)) (Z.of_nat (size cache)))
  | (_, _, Throw e) => Throws e
  end.

(** The colour of the pixel that starts at [i], when its alpha is not 0. *)
Definition visible_rgb (d : list Z) (i : Z) : option (Z * Z * Z) :=
  match buf_get d i, buf_get d (i + 1), buf_get d (i + 2), buf_get d (i + 3) with
  | Some r0, Some g0, Some b0, Some a => if a =? 0 then None else Some (r0, g0, b0)
  | _, _, _, _ => None
  end.

(** The colours of the pixels of an image that are not fully transparent. *)
Definition image_rgb (d : list Z) : list (Z * Z * Z) :=
  omap (visible_rgb d) (pixel_starts (length d)).

(** The images of a layer the pass looks at: those of its chunks, or the
    image of the layer itself when it has no [chunks]. *)
Definition layer_images (l : Layer) : list PNG :=
  match chunks l with
  | Some cs => omap base64PNG cs
  | None => option_list (layer_base64PNG l)
  end.

Definition images_rgb (ps : list PNG) : list (Z * Z * Z) :=
  concat (map (fun p => image_rgb (data p)) ps).

Definition doc_rgb (doc : Piskel) : list (Z * Z * Z) :=
  images_rgb (concat (map layer_images (layers doc))).

Definition key3 (c : Z * Z * Z) : Z :=
  let '(r0, g0, b0) := c in color_key (Some r0) (Some g0) (Some b0).

Definition byte3 (c : Z * Z * Z) : Prop :=
  let '(r0, g0, b0) := c in is_byte r0 /\ is_byte g0 /\ is_byte b0.

Definition keys_of (cs : list (Z * Z * Z)) : gset Z := list_to_set (key3 <$> cs).

Lemma key3_eq (r0 g0 b0 : Z) : key3 (r0, g0, b0) = color_key (Some r0) (Some g0) (Some b0).
Proof. unfold key3. reflexivity. Qed.

Lemma keys_of_app (l1 l2 : list (Z * Z * Z)) : keys_of (l1 ++ l2) = keys_of l1 ∪ keys_of l2.
Proof. unfold keys_of. rewrite fmap_app. apply list_to_set_app_L. Qed.

Lemma keys_of_nil (X : gset Z) : X ∪ keys_of [] = X.
Proof. apply (right_id_L ∅ (∪)). Qed.

Lemma keys_of_known (X : gset Z) (c : Z * Z * Z) : key3 c ∈ X -> X ∪ keys_of [c] = X.
Proof.
  intros Hin. apply set_eq. intros k. unfold keys_of. cbn [fmap list_fmap list_to_set].
  rewrite !elem_of_union, elem_of_singleton, elem_of_empty.
  split; [intros [Hk | [-> | []]]; assumption | auto].
Qed.

Lemma keys_of_new (X : gset Z) (c : Z * Z * Z) : {[key3 c]} ∪ X = X ∪ keys_of [c].
Proof.
  unfold keys_of. cbn [fmap list_fmap list_to_set].
  rewrite (right_id_L ∅ (∪)). apply (comm_L (∪)).
Qed.

Lemma visible_rgb_bytes (d : list Z) (i : Z) (c : Z * Z * Z) :
  bytes d -> visible_rgb d i = Some c -> byte3 c.
Proof.
  intros Hd. unfold visible_rgb.
  destruct (buf_get d i) as [r0|] eqn:Hr; [| discriminate].
  destruct (buf_get d (i + 1)) as [g0|] eqn:Hg; [| discriminate].
  destruct (buf_get d (i + 2)) as [b0|] eqn:Hb; [| discriminate].
  destruct (buf_get d (i + 3)) as [a|]; [| discriminate].
  destruct (a =? 0); [discriminate |]. intros [= <-].
  repeat split; eapply buf_get_byte; eassumption.
Qed.

Lemma image_rgb_bytes (d : list Z) : bytes d -> Forall byte3 (image_rgb d).
Proof.
  intros Hd. apply Forall_forall. intros c Hc. unfold image_rgb in Hc.
  apply list_elem_of_omap in Hc as (i & _ & Hi).
  eapply visible_rgb_bytes; eassumption.
Qed.

(** Distinct byte colours have distinct keys, so the number of keys is the
    number of colours. *)
Lemma size_keys_of (cs : list (Z * Z * Z)) :
  Forall byte3 cs -> size (keys_of cs) = size (list_to_set cs : gset (Z * Z * Z)).
Proof.
  intros Hcs. rewrite Forall_forall in Hcs.
  assert (Hk : keys_of cs = list_to_set (key3 <$> remove_dups cs)).
  { unfold keys_of. apply set_eq. intros k.
    rewrite !elem_of_list_to_set, !list_elem_of_fmap.
    split; intros (c & -> & Hc); exists c; (split; [reflexivity |]);
      apply elem_of_remove_dups; apply Hc || (apply elem_of_remove_dups in Hc; exact Hc). }
  assert (Hs : (list_to_set cs : gset (Z * Z * Z)) = list_to_set (remove_dups cs)).
  { apply set_eq. intros c. rewrite !elem_of_list_to_set, elem_of_remove_dups. reflexivity. }
  rewrite Hk, Hs.
  rewrite !size_list_to_set; [apply length_fmap | apply NoDup_remove_dups |].
  apply NoDup_fmap_2_strong; [| apply NoDup_remove_dups].
  intros [[r1 g1] b1] [[r2 g2] b2] H1 H2 Heq.
  apply (proj1 (elem_of_remove_dups _ _)) in H1.
  apply (proj1 (elem_of_remove_dups _ _)) in H2.
  destruct (Hcs _ H1) as (? & ? & ?). destruct (Hcs _ H2) as (? & ? & ?).
  rewrite !key3_eq in Heq. apply color_key_inj in Heq as (-> & -> & ->); auto.
Qed.

Lemma store_nearest_Some (i : Z) (c : Color) (d : list Z)
    (cache : gmap Z (option Color)) (m : bool) :
  snd (store_nearest i (Some c) d cache m) = Normal.
Proof. unfold store_nearest. destruct (_ || _); reflexivity. Qed.

(** One iteration on a whole pixel with a non-empty palette: no throw, and
    the cache gains the key of the pixel's colour when the pixel is visible. *)
Lemma match_pixel_keys (palette : list Color) (i : Z) (st : match_state) :
  palette <> [] -> bytes (m_data st) ->
  0 <= i -> i + 3 < Z.of_nat (length (m_data st)) -> cache_ok palette (m_cache st) ->
  snd (match_pixel palette i st) = Normal /\
  bytes (m_data (fst (match_pixel palette i st))) /\
  cache_ok palette (m_cache (fst (match_pixel palette i st))) /\
  dom (m_cache (fst (match_pixel palette i st)))
    = dom (m_cache st) ∪ keys_of (option_list (visible_rgb (m_data st) i)).
Proof.
  intros Hne Hd H0 Hlen Hc. destruct st as [d cache m]. cbn [m_data m_cache] in *.
  destruct (pixel_reads d i Hd H0 Hlen)
    as (r0 & g0 & b0 & a & Hr & Hg & Hb & Ha & Br & Bg & Bb & _).
  unfold match_pixel, visible_rgb. cbn [m_data m_cache m_modified].
  rewrite Hr, Hg, Hb, Ha, is_zero_eqb.
  destruct (a =? 0).
  - cbn [fst snd m_data m_cache option_list]. rewrite keys_of_nil. auto.
  - destruct (findNearestColor_nonempty (Some r0) (Some g0) (Some b0) palette Hne) as [c Hfind].
    cbn [option_list].
    destruct (cache !! color_key (Some r0) (Some g0) (Some b0)) as [n|] eqn:Hk.
    + pose proof (Hc _ _ _ _ Br Bg Bb Hk) as Hn. rewrite Hfind in Hn. subst n.
      split; [apply store_nearest_Some |].
      split; [apply store_nearest_bytes; exact Hd |].
      rewrite store_nearest_keeps_cache. split; [exact Hc |].
      symmetry. apply keys_of_known. rewrite key3_eq. apply elem_of_dom. eauto.
    + rewrite Hfind.
      split; [apply store_nearest_Some |].
      split; [apply store_nearest_bytes; exact Hd |].
      rewrite store_nearest_keeps_cache.
      split; [rewrite <- Hfind; apply cache_ok_insert; assumption |].
      rewrite dom_insert_L, <- key3_eq. apply keys_of_new.
Qed.

Lemma visible_rgb_frame (d1 d2 : list Z) (i : Z) :
  (forall c, 0 <= c < 4 -> buf_get d2 (i + c) = buf_get d1 (i + c)) ->
  visible_rgb d2 i = visible_rgb d1 i.
Proof.
  intros H. unfold visible_rgb.
  pose proof (H 0 ltac:(lia)) as H0. rewrite Z.add_0_r in H0.
  rewrite H0, (H 1), (H 2), (H 3) by lia. reflexivity.
Qed.

Lemma match_loop_keys (palette : list Color) (idxs : list Z) :
  forall st,
    palette <> [] -> bytes (m_data st) -> NoDup idxs ->
    whole_pixels (length (m_data st)) idxs -> cache_ok palette (m_cache st) ->
    snd (run_loop (match_pixel palette) idxs st) = Normal /\
    cache_ok palette (m_cache (fst (run_loop (match_pixel palette) idxs st))) /\
    dom (m_cache (fst (run_loop (match_pixel palette) idxs st)))
      = dom (m_cache st) ∪ keys_of (omap (visible_rgb (m_data st)) idxs).
Proof.
  induction idxs as [| i rest IH]; intros st Hne Hd Hnd Hidx Hc.
  - cbn [run_loop fst snd omap list_omap]. rewrite keys_of_nil. auto.
  - apply NoDup_cons in Hnd as [Hnotin Hnd].
    pose proof Hidx as Hall.
    apply Forall_cons in Hidx as [((q & Hq) & H0 & Hlt) Hrest].
    destruct (match_pixel_keys palette i st Hne Hd H0 Hlt Hc) as (Hk & Hd1 & Hc1 & Hdom1).
    pose proof (match_pixel_length palette i st) as Hlen1.
    rewrite run_loop_cons, Hk.
    assert (Hrest1 : whole_pixels (length (m_data (fst (match_pixel palette i st)))) rest).
    { unfold whole_pixels in *. rewrite Hlen1. exact Hrest. }
    destruct (IH (fst (match_pixel palette i st)) Hne Hd1 Hnd Hrest1 Hc1) as (Hk2 & Hc2 & Hdom2).
    split; [exact Hk2 |]. split; [exact Hc2 |].
    rewrite Hdom2, Hdom1.
    assert (Hsame : omap (visible_rgb (m_data (fst (match_pixel palette i st)))) rest
                    = omap (visible_rgb (m_data st)) rest).
    { clear - Hnotin Hrest Hq. induction rest as [| j rest IHr]; [reflexivity |].
      apply Forall_cons in Hrest as [((p & Hp) & _) Hrest].
      assert (Hji : j <> i) by (intros ->; apply Hnotin; left).
      cbn [omap list_omap].
      rewrite (visible_rgb_frame (m_data st)).
      - rewrite IHr; [reflexivity | | exact Hrest].
        intros Hin. apply Hnotin. right. exact Hin.
      - intros c Hc. apply match_pixel_get; lia. }
    rewrite Hsame. cbn [omap list_omap].
    destruct (visible_rgb (m_data st) i) as [c|]; cbn [option_list].
    + change (c :: omap (visible_rgb (m_data st)) rest)
        with ([c] ++ omap (visible_rgb (m_data st)) rest).
      rewrite keys_of_app. apply eq_sym, (assoc_L (∪)).
    + rewrite keys_of_nil. reflexivity.
Qed.

Lemma NoDup_pixel_starts (len : nat) : NoDup (pixel_starts len).
Proof.
  unfold pixel_starts. apply NoDup_fmap; [intros x y H; lia | apply NoDup_seq].
Qed.

(** One image: the pass completes and the cache gains the keys of the
    visible colours of the image as it came in. *)
Lemma matchPngToPalette_keys (png : list Z) (palette : list Color)
    (cache : gmap Z (option Color)) :
  rgba_buffer png -> palette <> [] -> cache_ok palette cache ->
  snd (matchPngToPalette png palette cache) = Normal /\
  cache_ok palette (m_cache (fst (matchPngToPalette png palette cache))) /\
  dom (m_cache (fst (matchPngToPalette png palette cache))) = dom cache ∪ keys_of (image_rgb png).
Proof.
  intros [Hd Hmod] Hne Hc. unfold matchPngToPalette, image_rgb.
  apply (match_loop_keys palette (pixel_starts (length png)) (mkMatch png cache false));
    try assumption; [apply NoDup_pixel_starts | apply pixel_starts_whole; exact Hmod].
Qed.

Section ReportKeys.

Variable palette : list Color.
Hypothesis palette_nonempty : palette <> [].

Local Abbreviation cached := (fun png cache => matchPngToPalette png palette cache).

Lemma process_chunks_keys (cs : list Chunk) :
  forall cache,
    Forall (fun c => image_ok (base64PNG c)) cs -> cache_ok palette cache ->
    snd (process_chunks cached cs cache) = Normal /\
    cache_ok palette (snd (fst (process_chunks cached cs cache))) /\
    dom (snd (fst (process_chunks cached cs cache)))
      = dom cache ∪ keys_of (images_rgb (omap base64PNG cs)).
Proof.
  induction cs as [| c rest IH]; intros cache Hok Hc.
  - cbn [process_chunks fst snd omap list_omap images_rgb map concat].
    rewrite keys_of_nil. auto.
  - apply Forall_cons in Hok as [Hc0 Hrest]. cbn [process_chunks omap list_omap].
    destruct (base64PNG c) as [p|] eqn:Hp.
    + cbn in Hc0.
      destruct (matchPngToPalette_keys (data p) palette cache Hc0 palette_nonempty Hc)
        as (Hk & Hc1 & Hdom1).
      destruct (matchPngToPalette (data p) palette cache) as [st1 k1].
      cbn [fst snd] in *. subst k1.
      specialize (IH (m_cache st1) Hrest Hc1).
      destruct (process_chunks cached rest (m_cache st1)) as [[r1 c1] k1].
      cbn [fst snd] in *. destruct IH as (-> & Hc2 & Hdom2).
      split; [reflexivity |]. split; [exact Hc2 |].
      rewrite Hdom2, Hdom1. unfold images_rgb. cbn [map concat].
      rewrite keys_of_app. apply eq_sym, (assoc_L (∪)).
    + specialize (IH cache Hrest Hc).
      destruct (process_chunks cached rest cache) as [[r1 c1] k1].
      cbn [fst snd] in *. exact IH.
Qed.

Lemma process_layer_keys (l : Layer) (cache : gmap Z (option Color)) :
  layer_ok l -> cache_ok palette cache ->
  snd (process_layer cached l cache) = Normal /\
  cache_ok palette (snd (fst (process_layer cached l cache))) /\
  dom (snd (fst (process_layer cached l cache)))
    = dom cache ∪ keys_of (images_rgb (layer_images l)).
Proof.
  intros Hok Hc. unfold process_layer, layer_ok, layer_images in *.
  destruct (chunks l) as [cs|].
  - pose proof (process_chunks_keys cs cache Hok Hc) as IH.
    destruct (process_chunks cached cs cache) as [[r1 c1] k1].
    cbn [fst snd] in *. exact IH.
  - destruct (layer_base64PNG l) as [p|].
    + cbn in Hok.
      destruct (matchPngToPalette_keys (data p) palette cache Hok palette_nonempty Hc)
        as (Hk & Hc1 & Hdom1).
      destruct (matchPngToPalette (data p) palette cache) as [st1 k1].
      cbn [fst snd] in *. subst k1. cbn [fst snd].
      split; [reflexivity |]. split; [exact Hc1 |].
      rewrite Hdom1. unfold images_rgb.
      change (option_list (Some p)) with [p]. cbn [map concat].
      rewrite app_nil_r. reflexivity.
    + cbn [fst snd option_list images_rgb map concat]. rewrite keys_of_nil. auto.
Qed.

Lemma process_layers_keys (ls : list Layer) :
  forall cache,
    Forall layer_ok ls -> cache_ok palette cache ->
    snd (process_layers cached ls cache) = Normal /\
    length (fst (fst (process_layers cached ls cache))) = length ls /\
    dom (snd (fst (process_layers cached ls cache)))
      = dom cache ∪ keys_of (images_rgb (concat (map layer_images ls))).
Proof.
  induction ls as [| l rest IH]; intros cache Hok Hc.
  - cbn [process_layers fst snd map concat images_rgb length]. rewrite keys_of_nil. auto.
  - apply Forall_cons in Hok as [Hl Hrest]. cbn [process_layers].
    destruct (process_layer_keys l cache Hl Hc) as (Hk & Hc1 & Hdom1).
    destruct (process_layer cached l cache) as [[l1 c1] k1].
    cbn [fst snd] in *. subst k1.
    specialize (IH c1 Hrest Hc1).
    destruct (process_layers cached rest c1) as [[r1 d1] q1].
    cbn [fst snd] in *. destruct IH as (-> & Hlen & Hdom2).
    split; [reflexivity |]. split; [cbn; lia |].
    rewrite Hdom2, Hdom1. cbn [map concat]. unfold images_rgb.
    rewrite map_app, concat_app, keys_of_app. apply eq_sym, (assoc_L (∪)).
Qed.

End ReportKeys.

Lemma doc_rgb_bytes (doc : Piskel) : images_ok doc -> Forall byte3 (doc_rgb doc).
Proof.
  intros Hok. unfold doc_rgb, images_rgb, images_ok in *.
  apply Forall_forall. intros c Hc.
  apply list_elem_of_In, in_concat in Hc as (cs & Hcs & Hc).
  apply in_map_iff in Hcs as (p & <- & Hp).
  apply in_concat in Hp as (ps & Hps & Hp).
  apply in_map_iff in Hps as (l & <- & Hl).
  rewrite Forall_forall in Hok. specialize (Hok l (proj2 (list_elem_of_In _ _) Hl)).
  assert (Hrgba : rgba_buffer (data p)).
  { unfold layer_ok, layer_images in *. destruct (chunks l) as [chs|].
    - apply list_elem_of_In, list_elem_of_omap in Hp as (c0 & Hc0 & Hsome).
      rewrite Forall_forall in Hok. specialize (Hok c0 Hc0).
      rewrite Hsome in Hok. exact Hok.
    - destruct (layer_base64PNG l) as [p0|]; [| destruct Hp].
      destruct Hp as [<- | []]. exact Hok. }
  pose proof (image_rgb_bytes (data p) (proj1 Hrgba)) as Hb.
  rewrite Forall_forall in Hb. apply Hb, list_elem_of_In, Hc.
Qed.

(** X26: on a document of decoded images and a non-empty palette,
    [processPiskelFile] completes; [layersModified] is the number of layers
    of the file, whether or not anything in them changed, and
    [colorsMatched] is the number of distinct colours among the pixels of
    the input that are not fully transparent, whether or not the palette
    already held them. *)
Theorem report_counts_input_colours (doc : Piskel) (palette : list Color) :
  images_ok doc -> palette <> [] ->
  processPiskelFile_report doc palette =
    Returns (mkReport (Z.of_nat (length (layers doc)))
                      (Z.of_nat (size (list_to_set (doc_rgb doc) : gset (Z * Z * Z))))).
Proof.
  intros Hok Hne. unfold processPiskelFile_report.
  destruct (process_layers_keys palette Hne (layers doc) ∅ Hok (cache_ok_empty palette))
    as (Hk & Hlen & Hdom).
  destruct (process_layers _ (layers doc) ∅) as [[ls cache] k].
  cbn [fst snd] in *. subst k.
  rewrite Hlen, <- (size_keys_of (doc_rgb doc) (doc_rgb_bytes doc Hok)).
  rewrite <- (size_dom cache), Hdom, dom_empty_L, (left_id_L ∅ (∪)).
  reflexivity.
Qed.

Lemma report_counts_input_colours_witness :
  processPiskelFile_report demo_doc demo_palette =
    Returns (mkReport (Z.of_nat (length (layers demo_doc)))
                      (Z.of_nat (size (list_to_set (doc_rgb demo_doc) : gset (Z * Z * Z))))).
Proof.
  apply report_counts_input_colours; [exact demo_doc_images_ok | discriminate].
Defined.

(** A file that is already on the palette: nothing is written anew, and the
    report still counts its layer and its colour. *)
Example report_of_matched_file :
  let doc := mkPiskel "m"%string 12 1 1
               [mkLayer "Layer 1"%string 1 1
                  (Some [mkChunk [[0]] (Some (mkPNG 1 1 [255; 0; 0; 255]))]) None] [] in
  processPiskelFile doc demo_palette = Returns (layers doc) /\
  processPiskelFile_report doc demo_palette = Returns (mkReport 1 1).
Proof. vm_compute. split; reflexivity. Qed.

(** * Exporting what [transformPiskel] wrote *)

(** The tiles [Ts] written at the indices 0, 1, 2, ... over the frames read
    so far. *)
Definition overlay (frames Ts : list PNG) : list PNG := Ts ++ drop (length Ts) frames.

Lemma overlay_length (frames Ts : list PNG) :
  length (overlay frames Ts) = Nat.max (length Ts) (length frames).
Proof. unfold overlay. rewrite length_app, length_drop. lia. Qed.

Lemma overlays_length (Tss : list (list PNG)) :
  forall frames,
    length (fold_left overlay Tss frames) = Nat.max (length frames) (list_max (map length Tss)).
Proof.
  induction Tss as [| Ts Tss IH]; intros frames; cbn [fold_left map list_max foldr].
  - lia.
  - rewrite IH, overlay_length. change (foldr Nat.max 0%nat (map length Tss))
      with (list_max (map length Tss)). lia.
Qed.

Lemma array_set_at (pre rest : list PNG) (F : PNG) :
  array_set (map Some (pre ++ rest)) (Some (Z.of_nat (length pre))) F
  = map Some ((pre ++ [F]) ++ drop 1 rest).
Proof.
  unfold array_set. destruct (Z.ltb_spec (Z.of_nat (length pre)) 0); [lia |].
  rewrite Nat2Z.id, length_map, length_app.
  destruct rest as [| R rest].
  - cbn [length drop]. rewrite Nat.add_0_r, Nat.ltb_irrefl, Nat.sub_diag, !app_nil_r.
    cbn [replicate app]. rewrite map_app. reflexivity.
  - assert (Hlt : (length pre <? length pre + length (R :: rest))%nat = true).
    { apply Nat.ltb_lt. cbn [length]. lia. }
    rewrite Hlt, !map_app, insert_app_r_alt by (rewrite length_map; lia).
    rewrite length_map, Nat.sub_diag, <- app_assoc. reflexivity.
Qed.

Section Overlay.

Variables (fw fh : Z).

Lemma extract_slots_overlay (png : PNG) (fpr : jsnum) (slots : list (Z * list Z)) :
  forall Fs pre rest,
    map (fun s => head (snd s)) slots
    = map (fun k => Some (Z.of_nat k)) (seq (length pre) (length slots)) ->
    map (fun s => extract_tile png fw fh (tile_x (fst s) fpr fw) (tile_y (fst s) fpr fh))
        slots = map Returns Fs ->
    extract_slots png fw fh fpr slots (map Some (pre ++ rest))
    = Returns (map Some (pre ++ overlay rest Fs)).
Proof.
  induction slots as [| [i entry] slots IH]; intros Fs pre rest Hidx Htiles.
  - destruct Fs; [| discriminate]. reflexivity.
  - destruct Fs as [| F Fs]; [discriminate |].
    cbn [map length seq fst snd] in Hidx, Htiles.
    injection Hidx as Hhead Hrest. injection Htiles as HF Htiles.
    cbn [extract_slots]. rewrite HF. cbn [obind]. rewrite Hhead, array_set_at.
    rewrite (IH Fs (pre ++ [F]) (drop 1 rest)); [| | exact Htiles].
    + do 2 f_equal. unfold overlay. rewrite drop_drop, <- !app_assoc. reflexivity.
    + rewrite length_app, Nat.add_1_r. exact Hrest.
Qed.

(** A chunk as [transformPiskel] leaves it: with an image, its layout counts
    0, 1, 2, ... *)
Definition renumbered (c : Chunk) : Prop :=
  is_Some (base64PNG c) -> layout c = linear_layout (length (layout c)).

Lemma numbered_linear (n : nat) :
  map (fun s : Z * list Z => head (snd s)) (numbered (linear_layout n))
  = map (fun k => Some (Z.of_nat k)) (seq 0 (length (numbered (linear_layout n)))).
Proof.
  assert (Hlen : length (numbered (linear_layout n)) = n).
  { unfold numbered, range, linear_layout.
    rewrite length_combine, !length_map, !length_seq, Nat2Z.id. lia. }
  rewrite Hlen. clear Hlen. unfold numbered, range, linear_layout.
  rewrite length_map, length_seq, Nat2Z.id.
  generalize 0%nat at 1 as s'. generalize 0%nat as s.
  induction n as [| n IH]; intros s s'; [reflexivity |].
  cbn [seq map combine snd head]. rewrite IH. reflexivity.
Qed.

Lemma extract_chunks_overlay (cs : list Chunk) :
  forall Tss frames,
    Forall renumbered cs ->
    map (chunk_frames fw fh) cs = map (map Returns) Tss ->
    extract_chunks fw fh cs (map Some frames)
    = Returns (map Some (fold_left overlay Tss frames)).
Proof.
  induction cs as [| c cs IH]; intros Tss frames Hre Htiles.
  - destruct Tss; [| discriminate]. reflexivity.
  - destruct Tss as [| Ts Tss]; [discriminate |].
    apply Forall_cons in Hre as [Hc Hre]. injection Htiles as HTs Htiles.
    cbn [extract_chunks fold_left]. unfold chunk_frames in HTs. unfold renumbered in Hc.
    destruct (base64PNG c) as [png|].
    + specialize (Hc ltac:(eauto)).
      rewrite (extract_slots_overlay png _ (numbered (layout c)) Ts [] frames).
      * cbn [obind app]. apply IH; assumption.
      * rewrite Hc. apply numbered_linear.
      * rewrite <- HTs. unfold decode_frame.
        rewrite <- (numbered_fst (layout c)), map_map. reflexivity.
    + destruct Ts; [| discriminate]. unfold overlay. cbn [length drop app].
      apply IH; assumption.
Qed.

End Overlay.

Lemma all_return {A B : Type} (f : A -> outcome B) (l : list A) :
  (forall a, a ∈ l -> exists b, f a = Returns b) -> exists bs, map f l = map Returns bs.
Proof.
  induction l as [| a l IH]; intros H.
  - exists []. reflexivity.
  - destruct (H a) as (b & Hb); [left |].
    destruct IH as (bs & Hbs); [intros a' Ha'; apply H; right; exact Ha' |].
    exists (b :: bs). cbn [map]. rewrite Hb, Hbs. reflexivity.
Qed.

Section Renumbered.

Variables (fw fh : Z) (crop : option Rect) (newW newH : Z).
Hypothesis Hfw : 1 <= fw.
Hypothesis Hfh : 1 <= fh.
Hypothesis Hfit : 4 * (fw * fh) <= 2 ^ 31.
Hypothesis Hcrop : forall R, crop = Some R -> rect_within fw fh R.
Hypothesis HnewW : 1 <= newW.
Hypothesis HnewH : 1 <= newH.
Hypothesis Hnewfit : 4 * (newW * newH) <= 2 ^ 31.

Lemma transform_chunk_tiles (c : Chunk) :
  chunk_wf fw c -> chunk_fits newW newH c ->
  exists c' Ts,
    transform_chunk fw fh crop newW newH c = Returns c' /\
    map (transformed crop newW newH) (chunk_frames fw fh c) = map Returns Ts /\
    chunk_frames newW newH c' = map Returns Ts /\
    renumbered c'.
Proof.
  intros Hwf Hfits.
  destruct (transform_chunk_decodes fw fh crop newW newH Hfw Hfh Hfit Hcrop
              HnewW HnewH Hnewfit c Hwf Hfits) as (c' & Hc' & Hrel).
  assert (HTs : exists Ts,
            map (transformed crop newW newH) (chunk_frames fw fh c) = map Returns Ts).
  { unfold chunk_frames, chunk_wf in *.
    destruct (base64PNG c) as [png|]; [| exists []; reflexivity].
    destruct Hwf as [Hpng _]. rewrite map_map. apply all_return. intros f _.
    unfold decode_frame.
    destruct (extract_tile_spec png fw fh
                (tile_x f (js_or1 (js_floor_div (width png) fw)) fw)
                (tile_y f (js_or1 (js_floor_div (width png) fw)) fh)
                (wf_png_has_data png Hpng) Hfw Hfh Hfit) as (F & HF & Ew & Eh & HwfF & _).
    destruct (transform_frame_spec fw fh crop newW newH Hfw Hfh Hfit Hcrop
                HnewW HnewH Hnewfit F HwfF Ew Eh) as (T & HT & _).
    exists T. unfold transformed. rewrite HF. exact HT. }
  destruct HTs as (Ts & HTs).
  exists c', Ts. split; [exact Hc' |]. split; [exact HTs |].
  split; [rewrite Hrel; exact HTs |].
  unfold transform_chunk in Hc'. unfold renumbered.
  destruct (base64PNG c) as [png|] eqn:Epng.
  - destruct (transform_slots _ _ _) as [S' | e]; [| discriminate].
    injection Hc' as <-. intros _. cbn [layout]. unfold linear_layout.
    rewrite length_map, length_seq. reflexivity.
  - injection Hc' as <-. rewrite Epng. intros [p Hp]. discriminate.
Qed.

Lemma transform_chunks_tiles (cs : list Chunk) :
  Forall (chunk_wf fw) cs -> Forall (chunk_fits newW newH) cs ->
  exists cs' Tss,
    transform_chunks (transform_chunk fw fh crop newW newH) cs = Returns cs' /\
    map (fun c => map (transformed crop newW newH) (chunk_frames fw fh c)) cs
    = map (map Returns) Tss /\
    map (chunk_frames newW newH) cs' = map (map Returns) Tss /\
    Forall renumbered cs'.
Proof.
  induction cs as [| c cs IH]; intros Hwf Hfits.
  - exists [], []. repeat split. constructor.
  - apply Forall_cons in Hwf as [Hc Hwf]. apply Forall_cons in Hfits as [Hcf Hfits].
    destruct (transform_chunk_tiles c Hc Hcf) as (c' & Ts & Hc' & Hold & Hnew & Hre).
    destruct (IH Hwf Hfits) as (cs' & Tss & Hcs' & Holds & Hnews & Hres).
    exists (c' :: cs'), (Ts :: Tss). split; [| split; [| split]].
    + cbn [transform_chunks]. rewrite Hc'. cbn [obind]. rewrite Hcs'. reflexivity.
    + cbn [map]. rewrite Hold, Holds. reflexivity.
    + cbn [map]. rewrite Hnew, Hnews. reflexivity.
    + constructor; assumption.
Qed.

End Renumbered.

(** ** A transformation that asks for nothing *)

(** What a layer keeps: its name, opacity and frame count, the layouts of its
    chunks, and the frames its chunks decode to, slot by slot. *)
Definition layer_kept (fw fh : Z) (l l' : Layer) : Prop :=
  layer_name l' = layer_name l /\ opacity l' = opacity l /\ frameCount l' = frameCount l /\
  map layout (chunks_or_empty l') = map layout (chunks_or_empty l) /\
  map (chunk_frames fw fh) (chunks_or_empty l') = map (chunk_frames fw fh) (chunks_or_empty l).

Section NoChange.

Variables (fw fh : Z).
Hypothesis Hfw : 1 <= fw.
Hypothesis Hfh : 1 <= fh.
Hypothesis Hfit : 4 * (fw * fh) <= 2 ^ 31.

Local Abbreviation step := (transform_chunk fw fh None fw fh).

(** Without a rectangle and at the frame size, "crop if needed, resize if
    needed" returns the frame it is given. *)
Lemma untouched_chunk_frames (c : Chunk) :
  chunk_wf fw c ->
  map (transformed None fw fh) (chunk_frames fw fh c) = chunk_frames fw fh c.
Proof.
  intros Hwf. unfold chunk_frames, chunk_wf in *.
  destruct (base64PNG c) as [png|]; [| reflexivity].
  destruct Hwf as [Hpng _]. rewrite map_map. apply map_ext. intros f.
  unfold decode_frame.
  destruct (extract_tile_spec png fw fh
              (tile_x f (js_or1 (js_floor_div (width png) fw)) fw)
              (tile_y f (js_or1 (js_floor_div (width png) fw)) fh)
              (wf_png_has_data png Hpng) Hfw Hfh Hfit) as (F & HF & Ew & Eh & _).
  rewrite HF. unfold transformed, transform_frame. cbn [obind].
  rewrite Ew, Eh, !Z.eqb_refl. reflexivity.
Qed.

Lemma transform_chunk_keeps (c : Chunk) :
  chunk_wf fw c -> chunk_fits fw fh c -> renumbered c ->
  exists c' Ts,
    step c = Returns c' /\
    layout c' = layout c /\
    chunk_frames fw fh c' = chunk_frames fw fh c /\
    chunk_frames fw fh c = map Returns Ts /\
    renumbered c'.
Proof.
  intros Hwf Hfits Hre.
  destruct (transform_chunk_tiles fw fh None fw fh Hfw Hfh Hfit
              ltac:(discriminate) Hfw Hfh Hfit c Hwf Hfits)
    as (c' & Ts & Hc' & Hold & Hnew & Hre').
  rewrite untouched_chunk_frames in Hold by exact Hwf.
  exists c', Ts. split; [exact Hc' |].
  split; [| split; [congruence | split; [exact Hold | exact Hre']]].
  unfold transform_chunk in Hc'. unfold renumbered in Hre.
  destruct (base64PNG c) as [png|] eqn:Epng.
  - destruct (transform_slots _ _ _) as [S' | e]; [| discriminate].
    injection Hc' as <-. cbn [layout]. symmetry. apply Hre. eauto.
  - injection Hc' as <-. reflexivity.
Qed.

Lemma transform_chunks_keeps (cs : list Chunk) :
  Forall (chunk_wf fw) cs -> Forall (chunk_fits fw fh) cs -> Forall renumbered cs ->
  exists cs' Tss,
    transform_chunks step cs = Returns cs' /\
    map layout cs' = map layout cs /\
    map (chunk_frames fw fh) cs' = map (chunk_frames fw fh) cs /\
    map (chunk_frames fw fh) cs = map (map Returns) Tss /\
    Forall renumbered cs'.
Proof.
  induction cs as [| c cs IH]; intros Hwf Hfits Hre.
  - exists [], []. repeat split. constructor.
  - apply Forall_cons in Hwf as [Hc Hwf]. apply Forall_cons in Hfits as [Hcf Hfits].
    apply Forall_cons in Hre as [Hcr Hre].
    destruct (transform_chunk_keeps c Hc Hcf Hcr) as (c' & Ts & Hc' & Hlay & Hfr & HTs & Hre').
    destruct (IH Hwf Hfits Hre) as (cs' & Tss & Hcs' & Hlays & Hfrs & HTss & Hres').
    exists (c' :: cs'), (Ts :: Tss). split; [| split; [| split; [| split]]].
    + cbn [transform_chunks]. rewrite Hc'. cbn [obind]. rewrite Hcs'. reflexivity.
    + cbn [map]. rewrite Hlay, Hlays. reflexivity.
    + cbn [map]. rewrite Hfr, Hfrs. reflexivity.
    + cbn [map]. rewrite HTs, HTss. reflexivity.
    + constructor; assumption.
Qed.

(** A layer of renumbered chunks is exported as before. *)
Lemma transform_layer_keeps (l : Layer) :
  Forall (chunk_wf fw) (chunks_or_empty l) ->
  Forall (chunk_fits fw fh) (chunks_or_empty l) ->
  Forall renumbered (chunks_or_empty l) ->
  exists l',
    transform_layer step l = Returns l' /\
    layer_kept fw fh l l' /\
    extract_chunks fw fh (chunks_or_empty l') [] = extract_chunks fw fh (chunks_or_empty l) [].
Proof.
  intros Hwf Hfits Hre. unfold transform_layer, layer_kept.
  unfold chunks_or_empty in Hwf, Hfits, Hre.
  destruct (chunks l) as [cs|] eqn:Ecs.
  - destruct (transform_chunks_keeps cs Hwf Hfits Hre)
      as (cs' & Tss & Hcs' & Hlays & Hfrs & HTss & Hre').
    rewrite Hcs'. cbn [obind]. eexists. split; [reflexivity |].
    unfold chunks_or_empty. rewrite Ecs.
    cbn [layer_name opacity frameCount chunks].
    split; [repeat (split; [reflexivity |]); split; assumption |].
    change (@nil (option PNG)) with (map (@Some PNG) []).
    rewrite (extract_chunks_overlay fw fh cs' Tss []) by (try assumption; congruence).
    rewrite (extract_chunks_overlay fw fh cs Tss []) by assumption.
    reflexivity.
  - exists l. split; [reflexivity |]. repeat split; reflexivity.
Qed.

Lemma transform_layers_keeps (ls : list Layer) :
  Forall (fun l => Forall (chunk_wf fw) (chunks_or_empty l)) ls ->
  Forall (fun l => Forall (chunk_fits fw fh) (chunks_or_empty l)) ls ->
  Forall (fun l => Forall renumbered (chunks_or_empty l)) ls ->
  exists ls',
    transform_layers step ls = Returns ls' /\
    Forall2 (layer_kept fw fh) ls ls' /\
    option_map (fun l => extract_chunks fw fh (chunks_or_empty l) []) (head ls')
    = option_map (fun l => extract_chunks fw fh (chunks_or_empty l) []) (head ls).
Proof.
  induction ls as [| l ls IH]; intros Hwf Hfits Hre.
  - exists []. split; [reflexivity |]. split; [constructor | reflexivity].
  - apply Forall_cons in Hwf as [Hl Hwf]. apply Forall_cons in Hfits as [Hlf Hfits].
    apply Forall_cons in Hre as [Hlr Hre].
    destruct (transform_layer_keeps l Hl Hlf Hlr) as (l' & Hl' & Hkept & Hex).
    destruct (IH Hwf Hfits Hre) as (ls' & Hls' & Hkepts & _).
    exists (l' :: ls'). split; [| split].
    + cbn [transform_layers]. rewrite Hl'. cbn [obind]. rewrite Hls'. reflexivity.
    + constructor; assumption.
    + cbn [head option_map]. rewrite Hex. reflexivity.
Qed.

Lemma layers_kept_frames (ls ls' : list Layer) :
  Forall2 (layer_kept fw fh) ls ls' ->
  flat_map (layer_frames fw fh) ls' = flat_map (layer_frames fw fh) ls.
Proof.
  induction 1 as [| l l' ls ls' (_ & _ & _ & _ & Hfr) _ IH]; [reflexivity |].
  cbn [flat_map]. rewrite IH. f_equal.
  unfold layer_frames. rewrite !flat_map_concat_map, Hfr. reflexivity.
Qed.

End NoChange.

(** X13.  A transformation that asks for nothing loses nothing of a
    container whose chunks count their frames 0, 1, 2, ... (as the tool
    itself writes them).  Without the crop option and with target dimensions
    equal to the frame size (no option at all, a scale of 1, a resize to the
    present size) the tool rewrites every sheet as one row of tiles; the
    rewritten container has the same name, rate, hidden frames and frame
    size; every layer keeps its name, opacity, frame count and the layouts
    of its chunks, and every chunk decodes to the same frames; so the
    container decodes to the same frames, and the export tool reads the same
    frames from it as from the input. *)
Theorem transformPiskel_keeps_frames (doc : Piskel) (options : Options) :
  doc_wf doc -> targets_fit doc options ->
  opt_crop options = false ->
  target_dims doc options None = (piskel_width doc, piskel_height doc) ->
  Forall (fun l => Forall renumbered (chunks_or_empty l)) (layers doc) ->
  exists doc',
    transformPiskel doc options = Returns doc' /\
    piskel_name doc' = piskel_name doc /\ fps doc' = fps doc /\
    hiddenFrames doc' = hiddenFrames doc /\
    piskel_width doc' = piskel_width doc /\
    piskel_height doc' = piskel_height doc /\
    Forall2 (layer_kept (piskel_width doc) (piskel_height doc)) (layers doc) (layers doc') /\
    doc_frames doc' = doc_frames doc /\
    extractFrames doc' = extractFrames doc.
Proof.
  intros Hwf Hfits Hnocrop Hdims Hre.
  pose proof Hwf as (Hfw & Hfh & Hfit & Hls).
  assert (Hcrop : crop_pass doc options = None)
    by (unfold crop_pass; rewrite Hnocrop; reflexivity).
  unfold targets_fit in Hfits. cbn zeta in Hfits.
  rewrite Hcrop, Hdims in Hfits. cbn [fst snd] in Hfits.
  destruct Hfits as (_ & _ & _ & Hchunks).
  destruct (transform_layers_keeps (piskel_width doc) (piskel_height doc) Hfw Hfh Hfit
              (layers doc) Hls Hchunks Hre) as (ls' & Hls' & Hkept & Hex).
  exists (mkPiskel (piskel_name doc) (fps doc) (piskel_width doc) (piskel_height doc) ls'
                   (hiddenFrames doc)).
  split; [unfold transformPiskel; rewrite Hcrop, Hdims, Hls'; reflexivity |].
  cbn [piskel_name fps hiddenFrames piskel_width piskel_height layers].
  repeat (split; [reflexivity |]). split; [exact Hkept |]. split.
  - unfold doc_frames. cbn [piskel_width piskel_height layers].
    apply layers_kept_frames. exact Hkept.
  - unfold extractFrames. cbn [piskel_width piskel_height layers].
    destruct (head ls') as [l' |], (head (layers doc)) as [l |];
      cbn [option_map] in Hex; congruence.
Qed.

Lemma transformPiskel_keeps_frames_witness :
  exists doc',
    transformPiskel scenario_doc no_change = Returns doc' /\
    piskel_name doc' = piskel_name scenario_doc /\ fps doc' = fps scenario_doc /\
    hiddenFrames doc' = hiddenFrames scenario_doc /\
    piskel_width doc' = piskel_width scenario_doc /\
    piskel_height doc' = piskel_height scenario_doc /\
    Forall2 (layer_kept (piskel_width scenario_doc) (piskel_height scenario_doc))
            (layers scenario_doc) (layers doc') /\
    doc_frames doc' = doc_frames scenario_doc /\
    extractFrames doc' = extractFrames scenario_doc.
Proof.
  apply (transformPiskel_keeps_frames scenario_doc no_change).
  - exact scenario_doc_wf.
  - exact scenario_no_change_fits.
  - reflexivity.
  - reflexivity.
  - constructor; [| constructor]. constructor; [| constructor].
    intros _. reflexivity.
Defined.

(** X27: exporting what [transformPiskel] wrote.  The tool numbers the
    layout of every chunk anew from 0, so [extractFrames] of its output lays
    the chunks of the first layer over one another: the frames returned are
    the transformed tiles of the chunks written at the indices 0, 1, 2, ...
    chunk after chunk, the frame indices of the input layout play no part,
    and the number of frames is the largest number of slots of one chunk,
    not their sum. *)
Theorem transform_renumbers_frames (doc : Piskel) (options : Options) (l : Layer) :
  doc_wf doc -> targets_fit doc options -> head (layers doc) = Some l ->
  exists doc' Tss,
    transformPiskel doc options = Returns doc' /\
    map (fun c =>
           map (fun o => obind o (transform_frame (crop_pass doc options)
                                    (piskel_width doc') (piskel_height doc')))
               (chunk_frames (piskel_width doc) (piskel_height doc) c))
        (chunks_or_empty l)
    = map (map Returns) Tss /\
    extractFrames doc' = Returns (map Some (fold_left overlay Tss [])) /\
    length (fold_left overlay Tss []) = list_max (map length Tss).
Proof.
  intros Hwf Hfits Hl.
  destruct (transformPiskel_redecode doc options Hwf Hfits) as (doc' & Hdoc' & Hdims & _).
  pose proof Hwf as (Hfw & Hfh & Hfit & Hls).
  unfold targets_fit in Hfits. cbn zeta in Hfits.
  rewrite <- Hdims in Hfits. cbn [fst snd] in Hfits.
  destruct Hfits as (HnW & HnH & Hnfit & Hchunks).
  destruct (layers doc) as [| l0 ls] eqn:Els; [discriminate |].
  injection Hl as ->.
  apply Forall_cons in Hls as [Hl _]. apply Forall_cons in Hchunks as [Hlf _].
  destruct (transform_chunks_tiles (piskel_width doc) (piskel_height doc)
              (crop_pass doc options) (piskel_width doc') (piskel_height doc')
              Hfw Hfh Hfit (fun R => crop_pass_within doc options R Hwf) HnW HnH Hnfit
              (chunks_or_empty l) Hl Hlf) as (cs' & Tss & Hcs' & Hold & Hnew & Hre).
  exists doc', Tss. split; [exact Hdoc' |]. split; [exact Hold |].
  split; [| rewrite overlays_length; reflexivity].
  unfold transformPiskel in Hdoc'. rewrite <- Hdims, Els in Hdoc'.
  cbn [transform_layers] in Hdoc'.
  assert (Hlayer : exists l',
            transform_layer (transform_chunk (piskel_width doc) (piskel_height doc)
                               (crop_pass doc options) (piskel_width doc') (piskel_height doc')) l
            = Returns l' /\ chunks_or_empty l' = cs').
  { unfold transform_layer. unfold chunks_or_empty in Hcs'.
    destruct (chunks l) as [cs|] eqn:Ecs.
    - rewrite Hcs'. cbn [obind]. eexists. split; reflexivity.
    - exists l. split; [reflexivity |].
      unfold chunks_or_empty. rewrite Ecs. cbn in Hcs'. congruence. }
  destruct Hlayer as (l' & Hl' & Hcsl').
  rewrite Hl' in Hdoc'. cbn [obind] in Hdoc'.
  destruct (transform_layers _ ls) as [ls' | e]; [| discriminate].
  cbn [obind] in Hdoc'. injection Hdoc' as Hdoc'.
  assert (Hlayers : layers doc' = l' :: ls') by (rewrite <- Hdoc'; reflexivity).
  unfold extractFrames. rewrite Hlayers. cbn [head].
  rewrite Hcsl'.
  apply (extract_chunks_overlay (piskel_width doc') (piskel_height doc') cs' Tss []);
    assumption.
Qed.

Lemma transform_renumbers_frames_witness :
  exists doc' Tss,
    transformPiskel scenario_doc crop_and_resize = Returns doc' /\
    map (fun c =>
           map (fun o => obind o (transform_frame (crop_pass scenario_doc crop_and_resize)
                                    (piskel_width doc') (piskel_height doc')))
               (chunk_frames (piskel_width scenario_doc) (piskel_height scenario_doc) c))
        (chunks_or_empty
           (mkLayer "Layer 1"%string 1 2 (Some [mkChunk [[0]; [1]] (Some scenario_sheet)]) None))
    = map (map Returns) Tss /\
    extractFrames doc' = Returns (map Some (fold_left overlay Tss [])) /\
    length (fold_left overlay Tss []) = list_max (map length Tss).
Proof.
  apply (transform_renumbers_frames scenario_doc crop_and_resize).
  - exact scenario_doc_wf.
  - exact scenario_targets_fit.
  - reflexivity.
Defined.

(** A layer of two frames kept in two chunks, as the editor splits a large
    sheet: the export reads two frames from the input and one from the
    output of a transformation that asks for nothing. *)
Definition two_chunk_doc : Piskel :=
  mkPiskel "split"%string 12 1 1
    [mkLayer "Layer 1"%string 1 2
       (Some [mkChunk [[0]] (Some (mkPNG 1 1 [255; 0; 0; 255]));
              mkChunk [[1]] (Some (mkPNG 1 1 [0; 255; 0; 255]))]) None]
    [].

Example split_layer_loses_a_frame :
  extractFrames two_chunk_doc
    = Returns [Some (mkPNG 1 1 [255; 0; 0; 255]); Some (mkPNG 1 1 [0; 255; 0; 255])] /\
  obind (transformPiskel two_chunk_doc no_change) extractFrames
    = Returns [Some (mkPNG 1 1 [0; 255; 0; 255])].
Proof. split; vm_compute; reflexivity. Qed.

(** * The pipeline: [processPng] (cli/sprite-pipeline.js) *)

(** The options [main] passes: the loaded palette or [null], the size
    [WxH] read as two whole numbers, the crop flag. *)
Record PipelineOptions := mkPipeline {
  pipe_palette : option (list Color);
  pipe_size : option (Z * Z);
  pipe_crop : bool
}.

(** [if (options.palette) applyPalette(png, options.palette)]: an array is
    truthy, the empty one too; the image is changed in place. *)
Definition palette_stage (png : PNG) (palette : option (list Color)) : outcome PNG :=
  match palette with
  | None => Returns png
  | Some colors =>
      match Pipeline.applyPalette (data png) colors with
      | (d, Normal) => Returns (mkPNG (width png) (height png) d)
      | (_, Throw e) => Throws e
      end
  end.

(** The image that [processPng] hands to [createPiskel]: palette, then crop
    to content, then resize. *)
Definition pipeline_image (png : PNG) (options : PipelineOptions) : outcome PNG :=
  obind (palette_stage png (pipe_palette options)) (fun png =>
  obind (if pipe_crop options
         then cropPng png (Pipeline.findContentBounds png)
         else Returns png) (fun png =>
  match pipe_size options with
  | Some (w, h) => resizePng png w h
  | None => Returns png
  end)).

(** [processPng]: the container that is written. *)
Definition processPng (png : PNG) (name : string) (options : PipelineOptions)
  : outcome Piskel :=
  obind (pipeline_image png options) (fun png => Returns (createPiskel png name)).

Lemma pipeline_bounds_positive (png : PNG) :
  0 < width png -> Pipeline.findContentBounds png = findContentBounds png.
Proof.
  intros Hw. unfold Pipeline.findContentBounds. rewrite pipeline_scan.
  unfold findContentBounds. rewrite findContentBounds_scan_hull.
  pose proof (hull_of_valid (content_cells png)) as Hvalid.
  destruct (hull_of (content_cells png)) as [[[[a b0] c] d] |];
    cbn [repr_frame bounds_tuple hasContent negb accMinX accMinY accMaxX accMaxY].
  - cbn in Hvalid. destruct (Z.ltb_spec c a); [lia | reflexivity].
  - destruct (Z.ltb_spec 0 (width png)); [reflexivity | lia].
Qed.

(** Image [M] is image [P] matched to the palette, pixel by pixel. *)
Definition matches (palette : list Color) (P M : PNG) : Prop :=
  wf_png P /\ wf_png M /\ width M = width P /\ height M = height P /\
  forall x y, 0 <= x < width P -> 0 <= y < height P ->
    matched_pixel palette (data P) (data M) (width P * y + x).

Lemma wf_png_rgba (P : PNG) : wf_png P -> rgba_buffer (data P).
Proof.
  intros (Pw & Ph & Plen & Pb). split; [exact Pb |].
  replace (length (data P)) with (Z.to_nat (width P * height P) * 4)%nat by lia.
  apply Nat.Div0.mod_mul.
Qed.

Lemma palette_stage_matches (palette : list Color) (P : PNG) :
  wf_png P -> palette <> [] ->
  exists M, palette_stage P (Some palette) = Returns M /\ matches palette P M.
Proof.
  intros Hwf Hne. pose proof (wf_png_rgba P Hwf) as Hbuf.
  pose proof Hwf as (Pw & Ph & Plen & Pb). pose proof Hbuf as [_ Hmod].
  destruct (cached_pass_matched (data P) palette ∅ Hbuf Hne (cache_ok_empty palette))
    as (Hk & [Hb' _] & Hlen & Hpix).
  unfold palette_stage, Pipeline.applyPalette.
  rewrite applyPalette_loop_agrees;
    [| exact Pb | apply pixel_starts_whole; exact Hmod
     | intros k; rewrite lookup_empty; discriminate].
  unfold matchPngToPalette in Hk, Hb', Hlen, Hpix.
  destruct (apply_loop_match_loop palette (pixel_starts (length (data P)))
              (data P) ∅ false Pb) as (m' & Hrun).
  rewrite Hrun in Hk, Hb', Hlen, Hpix. cbn [fst snd m_data] in Hk, Hb', Hlen, Hpix.
  destruct (run_loop (apply_pixel palette) (pixel_starts (length (data P))) (data P, ∅))
    as [[d1 c1] k]. cbn [fst snd] in *. subst k.
  eexists. split; [reflexivity |].
  split; [exact Hwf |]. split.
  - unfold wf_png. cbn [width height data]. rewrite Hlen. auto.
  - cbn [width height data]. split; [reflexivity |]. split; [reflexivity |].
    intros x y Hx Hy. apply Hpix. unfold pixel_in. nia.
Qed.

Lemma matched_pixel_move (palette : list Color) (din dout din' dout' : list Z) (p p' : Z) :
  (forall c, 0 <= c < 4 -> buf_get din' (4 * p' + c) = buf_get din (4 * p + c)) ->
  (forall c, 0 <= c < 4 -> buf_get dout' (4 * p' + c) = buf_get dout (4 * p + c)) ->
  matched_pixel palette din dout p -> matched_pixel palette din' dout' p'.
Proof.
  intros Hin Hout (r0 & g0 & b0 & a & Hr & Hg & Hb & Ha & Ha' & Hrest).
  pose proof (Hin 0 ltac:(lia)) as Hin0. pose proof (Hout 0 ltac:(lia)) as Hout0.
  rewrite !Z.add_0_r in Hin0, Hout0.
  exists r0, g0, b0, a.
  rewrite Hin0, (Hin 1), (Hin 2), (Hin 3), Hout0, (Hout 1), (Hout 2), (Hout 3) by lia.
  repeat (split; [assumption |]). exact Hrest.
Qed.

Lemma matched_pixel_functional (palette : list Color) (din d1 d2 : list Z) (p c : Z) :
  matched_pixel palette din d1 p -> matched_pixel palette din d2 p -> 0 <= c < 4 ->
  buf_get d1 (4 * p + c) = buf_get d2 (4 * p + c).
Proof.
  intros (r1 & g1 & b1 & a1 & Hr1 & Hg1 & Hb1 & Ha1 & Ha1' & H1)
         (r2 & g2 & b2 & a2 & Hr2 & Hg2 & Hb2 & Ha2 & Ha2' & H2) Hc.
  assert (r2 = r1) by congruence. assert (g2 = g1) by congruence.
  assert (b2 = b1) by congruence. assert (a2 = a1) by congruence. subst r2 g2 b2 a2.
  assert (Hcase : c = 0 \/ c = 1 \/ c = 2 \/ c = 3) by lia.
  destruct (a1 =? 0).
  - destruct H1 as (E1 & E2 & E3), H2 as (F1 & F2 & F3).
    destruct Hcase as [-> | [-> | [-> | ->]]]; rewrite ?Z.add_0_r; congruence.
  - destruct H1 as (n1 & Hn1 & E1 & E2 & E3), H2 as (n2 & Hn2 & F1 & F2 & F3).
    assert (n2 = n1) by congruence. subst n2.
    destruct Hcase as [-> | [-> | [-> | ->]]]; rewrite ?Z.add_0_r; congruence.
Qed.

(** Matching an image has one result. *)
Lemma matches_functional (palette : list Color) (P M1 M2 : PNG) :
  matches palette P M1 -> matches palette P M2 -> M1 = M2.
Proof.
  intros (_ & Hwf1 & W1 & H1 & Hpix1) (_ & Hwf2 & W2 & H2 & Hpix2).
  apply png_ext; try assumption; try congruence.
  intros x y c Hx Hy Hc. rewrite W1 in Hx. rewrite H1 in Hy.
  unfold pixel_at. rewrite W1, W2.
  apply (matched_pixel_functional palette (data P)); auto.
Qed.

(** Matching commutes with every rearrangement of pixels: when [Q] and [Q']
    take their pixels from the same places of [P] and of its matched image
    [M], then [Q'] is [Q] matched. *)
Lemma matches_remap (palette : list Color) (P M Q Q' : PNG) (from : Z -> Z -> Z * Z) :
  matches palette P M -> wf_png Q -> wf_png Q' ->
  width Q' = width Q -> height Q' = height Q ->
  (forall x y, 0 <= x < width Q -> 0 <= y < height Q ->
     0 <= fst (from x y) < width P /\ 0 <= snd (from x y) < height P /\
     forall c, 0 <= c < 4 ->
       pixel_at Q x y c = pixel_at P (fst (from x y)) (snd (from x y)) c /\
       pixel_at Q' x y c = pixel_at M (fst (from x y)) (snd (from x y)) c) ->
  matches palette Q Q'.
Proof.
  intros (HwfP & HwfM & MW & MH & Hpix) HwfQ HwfQ' W H Hfrom.
  split; [exact HwfQ |]. split; [exact HwfQ' |]. split; [exact W |]. split; [exact H |].
  intros x y Hx Hy. destruct (Hfrom x y Hx Hy) as (Hsx & Hsy & Hsame).
  apply (matched_pixel_move palette (data P) (data M) (data Q) (data Q')
           (width P * snd (from x y) + fst (from x y))).
  - intros c Hc. apply (proj1 (Hsame c Hc)).
  - intros c Hc. pose proof (proj2 (Hsame c Hc)) as E. unfold pixel_at in E.
    rewrite W, MW in E. exact E.
  - apply Hpix; assumption.
Qed.

(** Matching keeps the alpha channel, so it keeps the content rectangle. *)
Lemma matches_bounds (palette : list Color) (P M : PNG) :
  matches palette P M -> 4 * (width P * height P) <= 2 ^ 31 ->
  findContentBounds M = findContentBounds P.
Proof.
  intros (HwfP & HwfM & MW & MH & Hpix) Hfit.
  unfold findContentBounds. rewrite !findContentBounds_scan_hull, MW, MH.
  assert (Hcells : content_cells M = content_cells P).
  { unfold content_cells. rewrite MW, MH. apply filter_ext_in. intros [y x] Hin.
    apply list_elem_of_In, elem_of_cells in Hin as [Hy Hx]. cbn [fst snd].
    rewrite (shl2_rowmajor (width P) (height P) y x Hy Hx Hfit).
    destruct (Hpix x y Hx Hy) as (r0 & g0 & b0 & a & _ & _ & _ & Ha & Ha' & _).
    rewrite Ha, Ha'. reflexivity. }
  rewrite Hcells. reflexivity.
Qed.

Lemma crop_stage_matches (palette : list Color) (P M : PNG) :
  matches palette P M -> 4 * (width P * height P) <= 2 ^ 31 ->
  exists Q Q',
    cropPng P (Pipeline.findContentBounds P) = Returns Q /\
    cropPng M (Pipeline.findContentBounds M) = Returns Q' /\
    matches palette Q Q' /\ 4 * (width Q * height Q) <= 2 ^ 31.
Proof.
  intros Hm Hfit. pose proof Hm as (HwfP & HwfM & MW & MH & Hpix).
  pose proof HwfP as (Pw & Ph & _).
  rewrite !pipeline_bounds_positive by lia.
  rewrite (matches_bounds palette P M Hm Hfit).
  pose proof (findContentBounds_within P HwfP Hfit) as Hin.
  destruct (cropPng_spec P (findContentBounds P) HwfP Hfit Hin)
    as (Q & HQ & Qw & Qh & HwfQ & Qpix).
  destruct (cropPng_spec M (findContentBounds P) HwfM) as (Q' & HQ' & Qw' & Qh' & HwfQ' & Qpix').
  { rewrite MW, MH. exact Hfit. }
  { rewrite MW, MH. exact Hin. }
  destruct Hin as (Rx & Rw & Rxw & Ry & Rh & Ryh).
  exists Q, Q'. split; [exact HQ |]. split; [exact HQ' |]. split.
  - apply (matches_remap palette P M Q Q'
             (fun x y => (x + rect_x (findContentBounds P), y + rect_y (findContentBounds P))));
      try assumption; try congruence.
    intros x y Hx Hy. rewrite Qw in Hx. rewrite Qh in Hy. cbn [fst snd].
    split; [lia |]. split; [lia |]. intros c Hc. split; [apply Qpix | apply Qpix']; assumption.
  - rewrite Qw, Qh.
    assert (rect_width (findContentBounds P) * rect_height (findContentBounds P)
            <= width P * height P) by (apply Z.mul_le_mono_nonneg; lia).
    lia.
Qed.

Lemma resize_stage_matches (palette : list Color) (P M : PNG) (w h : Z) :
  matches palette P M -> 4 * (width P * height P) <= 2 ^ 31 ->
  1 <= w -> 1 <= h -> 4 * (w * h) <= 2 ^ 31 ->
  exists Q Q',
    resizePng P w h = Returns Q /\ resizePng M w h = Returns Q' /\
    matches palette Q Q' /\ width Q = w /\ height Q = h.
Proof.
  intros Hm Hfit Hw Hh Hnew. pose proof Hm as (HwfP & HwfM & MW & MH & Hpix).
  pose proof HwfP as (Pw & Ph & _).
  destruct (resizePng_spec P w h HwfP Hfit Hw Hh Hnew) as (Q & HQ & Qw & Qh & HwfQ & Qpix).
  destruct (resizePng_spec M w h HwfM) as (Q' & HQ' & Qw' & Qh' & HwfQ' & Qpix'); try assumption.
  { rewrite MW, MH. exact Hfit. }
  exists Q, Q'. split; [exact HQ |]. split; [exact HQ' |].
  split; [| split; assumption].
  apply (matches_remap palette P M Q Q'
           (fun x y => (x * width P / w, y * height P / h)));
    try assumption; try congruence.
  intros x y Hx Hy. rewrite Qw in Hx. rewrite Qh in Hy. cbn [fst snd].
  split; [split; [apply Z.div_pos; nia | apply Z.div_lt_upper_bound; nia] |].
  split; [split; [apply Z.div_pos; nia | apply Z.div_lt_upper_bound; nia] |].
  intros c Hc. split; [apply Qpix; assumption |].
  rewrite Qpix' by assumption. rewrite MW, MH. reflexivity.
Qed.

(** X28: in the pipeline the palette could as well come last.  For a decoded
    image, a non-empty palette and a positive size, [processPng] completes,
    and the image it writes (palette, then crop to content, then resize) is
    the image the pipeline produces without a palette, matched to the palette
    afterwards; it has the size asked for, and the container written holds
    that image as its one frame. *)
Theorem processPng_palette_last (png : PNG) (name : string) (palette : list Color)
    (size : option (Z * Z)) (crop : bool) :
  wf_png png -> 4 * (width png * height png) <= 2 ^ 31 -> palette <> [] ->
  (forall w h, size = Some (w, h) -> 1 <= w /\ 1 <= h /\ 4 * (w * h) <= 2 ^ 31) ->
  exists plain matched,
    pipeline_image png (mkPipeline None size crop) = Returns plain /\
    pipeline_image png (mkPipeline (Some palette) size crop) = Returns matched /\
    palette_stage plain (Some palette) = Returns matched /\
    (forall w h, size = Some (w, h) -> width matched = w /\ height matched = h) /\
    processPng png name (mkPipeline (Some palette) size crop)
      = Returns (createPiskel matched name) /\
    extractFrames (createPiskel matched name) = Returns [Some matched].
Proof.
  intros Hwf Hfit Hne Hsize.
  destruct (palette_stage_matches palette png Hwf Hne) as (M & HM & Hm).
  assert (Hcrop : exists Q Q',
            (if crop then cropPng png (Pipeline.findContentBounds png) else Returns png)
              = Returns Q /\
            (if crop then cropPng M (Pipeline.findContentBounds M) else Returns M)
              = Returns Q' /\
            matches palette Q Q' /\ 4 * (width Q * height Q) <= 2 ^ 31).
  { destruct crop; [apply crop_stage_matches; assumption |]. exists png, M. auto. }
  destruct Hcrop as (Q & Q' & HQ & HQ' & Hmq & Hfitq).
  assert (Hresize : exists R R',
            match size with Some (w, h) => resizePng Q w h | None => Returns Q end
              = Returns R /\
            match size with Some (w, h) => resizePng Q' w h | None => Returns Q' end
              = Returns R' /\
            matches palette R R' /\ 4 * (width R * height R) <= 2 ^ 31 /\
            (forall w h, size = Some (w, h) -> width R = w /\ height R = h)).
  { destruct size as [[w h] |].
    - destruct (Hsize w h eq_refl) as (Hw & Hh & Hnew).
      destruct (resize_stage_matches palette Q Q' w h Hmq Hfitq Hw Hh Hnew)
        as (R & R' & HR & HR' & Hmr & Rw & Rh).
      exists R, R'. split; [exact HR |]. split; [exact HR' |]. split; [exact Hmr |].
      split; [rewrite Rw, Rh; exact Hnew |]. intros w' h' [= <- <-]. auto.
    - exists Q, Q'. split; [reflexivity |]. split; [reflexivity |].
      split; [exact Hmq |]. split; [exact Hfitq | discriminate]. }
  destruct Hresize as (R & R' & HR & HR' & Hmr & Hfitr & Hdims).
  pose proof Hmr as (HwfR & HwfR' & RW & RH & _).
  exists R, R'.
  assert (Hplain : pipeline_image png (mkPipeline None size crop) = Returns R).
  { unfold pipeline_image. cbn [pipe_palette pipe_size pipe_crop palette_stage obind].
    rewrite HQ. cbn [obind]. exact HR. }
  assert (Hmatched : pipeline_image png (mkPipeline (Some palette) size crop) = Returns R').
  { unfold pipeline_image. cbn [pipe_palette pipe_size pipe_crop].
    rewrite HM. cbn [obind]. rewrite HQ'. cbn [obind]. exact HR'. }
  split; [exact Hplain |]. split; [exact Hmatched |].
  split; [| split; [| split]].
  - destruct (palette_stage_matches palette R HwfR Hne) as (M' & HM' & Hm').
    rewrite HM'. f_equal. apply (matches_functional palette R); assumption.
  - intros w h Hs. rewrite RW, RH. apply Hdims. exact Hs.
  - unfold processPng. rewrite Hmatched. reflexivity.
  - assert (Hfit' : 4 * (width R' * height R') <= 2 ^ 31) by (rewrite RW, RH; exact Hfitr).
    rewrite <- (createPiskelFile_createPiskel R' name HwfR' Hfit').
    apply extractFrames_created; assumption.
Qed.

Lemma processPng_palette_last_witness :
  exists plain matched,
    pipeline_image demo_png (mkPipeline None (Some (4, 2)) true) = Returns plain /\
    pipeline_image demo_png (mkPipeline (Some demo_palette) (Some (4, 2)) true)
      = Returns matched /\
    palette_stage plain (Some demo_palette) = Returns matched /\
    (forall w h, Some (4, 2) = Some (w, h) -> width matched = w /\ height matched = h) /\
    processPng demo_png "demo"%string (mkPipeline (Some demo_palette) (Some (4, 2)) true)
      = Returns (createPiskel matched "demo"%string) /\
    extractFrames (createPiskel matched "demo"%string) = Returns [Some matched].
Proof.
  apply (processPng_palette_last demo_png "demo"%string demo_palette (Some (4, 2)) true).
  - exact demo_png_wf.
  - cbn. lia.
  - discriminate.
  - intros w h [= <- <-]. lia.
Defined.

(** The demo image through the pipeline: the transparent pixel is cropped
    away, the remaining one is matched to red and enlarged. *)
Example pipeline_demo :
  pipeline_image demo_png (mkPipeline (Some demo_palette) (Some (2, 1)) true)
    = Returns (mkPNG 2 1 [255; 0; 0; 255; 255; 0; 0; 255]) /\
  pipeline_image demo_png (mkPipeline (Some []) None false) = Throws TypeError.
Proof. split; vm_compute; reflexivity. Qed.

(** * The import tool: [convertPngToPiskel] (cli/png-to-piskel.js) *)

(** The options [main] passes: the loaded palette or [null], the name
    (given or taken from the file name), the frame rate. *)
Record ImportOptions := mkImport {
  imp_palette : option (list Color);
  imp_name : string;
  imp_fps : Z
}.

(** [convertPngToPiskel] on the decoded image: the container written. *)
Definition convertPngToPiskel (png : PNG) (options : ImportOptions) : outcome Piskel :=
  obind (match imp_palette options with
         | None => Returns (data png)
         | Some palette =>
             match applyPaletteToImageData (data png) palette with
             | (d, Normal) => Returns d
             | (_, Throw e) => Throws e
             end
         end) (fun imageData =>
  Returns (createPiskelFile imageData (width png) (height png)
             (imp_name options) (imp_fps options))).

Lemma createPiskelFile_dims (d : list Z) (w h : Z) (name : string) :
  0 < w -> 0 < h -> 4 * (w * h) <= 2 ^ 31 ->
  createPiskelFile d w h name 12 = createPiskel (mkPNG w h d) name.
Proof.
  intros Hw Hh Hfit. unfold createPiskelFile, createPiskel, new_PNG.
  cbn [width height]. rewrite !toInt32_small by nia. reflexivity.
Qed.

(** X29: the import tool is the pipeline without its crop and resize
    stages.  On a decoded image, with any palette or none, at 12 frames per
    second, [convertPngToPiskel] writes the container that [processPng]
    writes when neither a size nor the crop flag is given, and fails when it
    fails. *)
Theorem convertPngToPiskel_is_pipeline (png : PNG) (palette : option (list Color))
    (name : string) :
  wf_png png -> 4 * (width png * height png) <= 2 ^ 31 ->
  convertPngToPiskel png (mkImport palette name 12)
  = processPng png name (mkPipeline palette None false).
Proof.
  intros Hwf Hfit. pose proof Hwf as (Pw & Ph & _ & Pb).
  pose proof (wf_png_rgba png Hwf) as [_ Hmod].
  unfold convertPngToPiskel, processPng, pipeline_image.
  cbn [imp_palette imp_name imp_fps pipe_palette pipe_size pipe_crop].
  destruct palette as [colors|]; cbn [palette_stage obind].
  - unfold Pipeline.applyPalette, applyPaletteToImageData.
    rewrite applyPalette_loop_agrees;
      [| exact Pb | apply pixel_starts_whole; exact Hmod
       | intros k; rewrite lookup_empty; discriminate].
    destruct (run_loop (apply_pixel colors) (pixel_starts (length (data png))) (data png, ∅))
      as [[d c] [| e]]; cbn [fst snd obind]; [| reflexivity].
    f_equal. apply createPiskelFile_dims; assumption.
  - f_equal. rewrite createPiskelFile_dims by assumption. destruct png; reflexivity.
Qed.

Lemma convertPngToPiskel_is_pipeline_witness :
  convertPngToPiskel demo_png (mkImport (Some demo_palette) "demo"%string 12)
  = processPng demo_png "demo"%string (mkPipeline (Some demo_palette) None false).
Proof.
  apply (convertPngToPiskel_is_pipeline demo_png (Some demo_palette) "demo"%string).
  - exact demo_png_wf.
  - cbn. lia.
Defined.

(** * Command lines: [parseArgs] (cli/palette-match.js) *)

(** The object [parseArgs] returns.  [palette] and [output] start as [null]
    ([None]); an option that is the last argument stores [undefined]
    ([Some None] there, [None] for [suffix], which starts as the empty
    string). *)
Record Args := mkArgs {
  arg_palette : option (option string);
  arg_output : option (option string);
  arg_suffix : option string;
  arg_files : list string;
  arg_help : bool
}.

Definition is_help (arg : string) : bool := (arg =? "--help")%string || (arg =? "-h")%string.
Definition is_palette (arg : string) : bool :=
  (arg =? "--palette")%string || (arg =? "-p")%string.
Definition is_output (arg : string) : bool :=
  (arg =? "--output")%string || (arg =? "-o")%string.
Definition is_suffix (arg : string) : bool :=
  (arg =? "--suffix")%string || (arg =? "-s")%string.

Definition set_help (r : Args) : Args :=
  mkArgs (arg_palette r) (arg_output r) (arg_suffix r) (arg_files r) true.
Definition set_palette (r : Args) (v : option string) : Args :=
  mkArgs (Some v) (arg_output r) (arg_suffix r) (arg_files r) (arg_help r).
Definition set_output (r : Args) (v : option string) : Args :=
  mkArgs (arg_palette r) (Some v) (arg_suffix r) (arg_files r) (arg_help r).
Definition set_suffix (r : Args) (v : option string) : Args :=
  mkArgs (arg_palette r) (arg_output r) v (arg_files r) (arg_help r).
Definition push_file (r : Args) (f : string) : Args :=
  mkArgs (arg_palette r) (arg_output r) (arg_suffix r) (arg_files r ++ [f]) (arg_help r).

(** The loop of [parseArgs] from the argument at hand on; [args[++i]] takes
    the next argument, whatever it is, and is [undefined] past the end. *)
Fixpoint parse_loop (args : list string) (result : Args) : Args :=
  match args with
  | [] => result
  | arg :: rest =>
      if is_help arg then parse_loop rest (set_help result)
      else if is_palette arg then
        match rest with
        | v :: rest' => parse_loop rest' (set_palette result (Some v))
        | [] => set_palette result None
        end
      else if is_output arg then
        match rest with
        | v :: rest' => parse_loop rest' (set_output result (Some v))
        | [] => set_output result None
        end
      else if is_suffix arg then
        match rest with
        | v :: rest' => parse_loop rest' (set_suffix result (Some v))
        | [] => set_suffix result None
        end
      else if negb (String.prefix "-" arg) then parse_loop rest (push_file result arg)
      else parse_loop rest result
  end.

Definition parseArgs (args : list string) : Args :=
  parse_loop args (mkArgs None None (Some EmptyString) [] false).

(** The command line ends in an option whose value is still to come. *)
Fixpoint waits (args : list string) : bool :=
  match args with
  | [] => false
  | arg :: rest =>
      if is_help arg then waits rest
      else if is_palette arg || is_output arg || is_suffix arg then
        match rest with
        | _ :: rest' => waits rest'
        | [] => true
        end
      else waits rest
  end.

Lemma parse_loop_app_le (n : nat) :
  forall a b r, (length a <= n)%nat -> waits a = false ->
    parse_loop (a ++ b) r = parse_loop b (parse_loop a r).
Proof.
  induction n as [| n IH]; intros a b r Hlen Hw.
  - destruct a; [reflexivity | cbn in Hlen; lia].
  - destruct a as [| arg rest]; [reflexivity |].
    cbn [length] in Hlen. cbn [app parse_loop waits] in *.
    destruct (is_help arg); [apply IH; [lia | exact Hw] |].
    destruct (is_palette arg); cbn [orb] in Hw.
    { destruct rest as [| v rest']; [discriminate |].
      cbn [app length] in *. apply IH; [lia | exact Hw]. }
    destruct (is_output arg); cbn [orb] in Hw.
    { destruct rest as [| v rest']; [discriminate |].
      cbn [app length] in *. apply IH; [lia | exact Hw]. }
    destruct (is_suffix arg).
    { destruct rest as [| v rest']; [discriminate |].
      cbn [app length] in *. apply IH; [lia | exact Hw]. }
    destruct (negb (String.prefix "-" arg)); apply IH; solve [lia | exact Hw].
Qed.

Lemma parse_loop_waiting_le (n : nat) :
  forall a v b r, (length a <= n)%nat -> waits a = true ->
    parse_loop (a ++ v :: b) r = parse_loop b (parse_loop (a ++ [v]) r).
Proof.
  induction n as [| n IH]; intros a v b r Hlen Hw.
  - destruct a; [discriminate | cbn in Hlen; lia].
  - destruct a as [| arg rest]; [discriminate |].
    cbn [length] in Hlen. cbn [app parse_loop waits] in *.
    destruct (is_help arg); [apply IH; [lia | exact Hw] |].
    destruct (is_palette arg); cbn [orb] in Hw.
    { destruct rest as [| v' rest']; [reflexivity |].
      cbn [app length] in *. apply IH; [lia | exact Hw]. }
    destruct (is_output arg); cbn [orb] in Hw.
    { destruct rest as [| v' rest']; [reflexivity |].
      cbn [app length] in *. apply IH; [lia | exact Hw]. }
    destruct (is_suffix arg).
    { destruct rest as [| v' rest']; [reflexivity |].
      cbn [app length] in *. apply IH; [lia | exact Hw]. }
    destruct (negb (String.prefix "-" arg)); apply IH; solve [lia | exact Hw].
Qed.

(** What a run adds to the files and to the help flag does not depend on
    the result it starts from. *)
Lemma parse_loop_files_le (n : nat) :
  forall b r r0, (length b <= n)%nat ->
    arg_files r0 = [] -> arg_help r0 = false ->
    arg_files (parse_loop b r) = arg_files r ++ arg_files (parse_loop b r0) /\
    arg_help (parse_loop b r) = arg_help r || arg_help (parse_loop b r0).
Proof.
  induction n as [| n IH]; intros b r r0 Hlen Hf Hh.
  - destruct b; [| cbn in Hlen; lia]. cbn. rewrite Hf, Hh, app_nil_r, orb_false_r. auto.
  - destruct b as [| arg rest];
      [cbn; rewrite Hf, Hh, app_nil_r, orb_false_r; auto |].
    cbn [length] in Hlen. cbn [parse_loop].
    assert (Hvalue : forall (set : Args -> option string -> Args),
              (forall x v, arg_files (set x v) = arg_files x /\ arg_help (set x v) = arg_help x) ->
              arg_files (match rest with
                         | v :: rest' => parse_loop rest' (set r (Some v))
                         | [] => set r None
                         end)
              = arg_files r ++ arg_files (match rest with
                                          | v :: rest' => parse_loop rest' (set r0 (Some v))
                                          | [] => set r0 None
                                          end) /\
              arg_help (match rest with
                        | v :: rest' => parse_loop rest' (set r (Some v))
                        | [] => set r None
                        end)
              = arg_help r || arg_help (match rest with
                                        | v :: rest' => parse_loop rest' (set r0 (Some v))
                                        | [] => set r0 None
                                        end)).
    { intros set Hset. destruct rest as [| v rest'].
      - destruct (Hset r None) as [-> ->]. destruct (Hset r0 None) as [-> ->].
        rewrite Hf, Hh, app_nil_r, orb_false_r. auto.
      - cbn [length] in Hlen.
        destruct (IH rest' (set r (Some v)) (set r0 (Some v)) ltac:(lia)) as [E1 E2].
        + rewrite (proj1 (Hset r0 (Some v))). exact Hf.
        + rewrite (proj2 (Hset r0 (Some v))). exact Hh.
        + rewrite E1, E2, (proj1 (Hset r (Some v))), (proj2 (Hset r (Some v))). auto. }
    destruct (is_help arg).
    { destruct (IH rest (set_help r) r0 ltac:(lia) Hf Hh) as [E1 E2].
      destruct (IH rest (set_help r0) r0 ltac:(lia) Hf Hh) as [E3 E4].
      rewrite E1, E2, E3, E4. cbn [set_help arg_files arg_help orb].
      rewrite Hf, orb_true_r. auto. }
    destruct (is_palette arg); [apply (Hvalue set_palette); auto |].
    destruct (is_output arg); [apply (Hvalue set_output); auto |].
    destruct (is_suffix arg); [apply (Hvalue set_suffix); auto |].
    destruct (negb (String.prefix "-" arg)); [| apply IH; solve [lia | assumption]].
    destruct (IH rest (push_file r arg) r0 ltac:(lia) Hf Hh) as [E1 E2].
    destruct (IH rest (push_file r0 arg) r0 ltac:(lia) Hf Hh) as [E3 E4].
    rewrite E1, E2, E3, E4. cbn [push_file arg_files arg_help].
    rewrite Hf, Hh, <- app_assoc. auto.
Qed.

(** X30: a command line can be read in pieces.  When the arguments [a] do
    not end in an option that waits for its value, [parseArgs] of [a]
    followed by [b] is the loop run on [b] from the result for [a]: the
    files are those of [a] followed by those of [b], help is asked for when
    either asks for it.  When [a] does end in such an option the next
    argument is taken as its value, whether it looks like a file or like an
    option. *)
Theorem parseArgs_in_pieces (a b : list string) :
  (waits a = false ->
     parseArgs (a ++ b) = parse_loop b (parseArgs a) /\
     arg_files (parseArgs (a ++ b)) = arg_files (parseArgs a) ++ arg_files (parseArgs b) /\
     arg_help (parseArgs (a ++ b)) = arg_help (parseArgs a) || arg_help (parseArgs b)) /\
  (waits a = true ->
     forall v, parseArgs (a ++ v :: b) = parse_loop b (parseArgs (a ++ [v])) /\
               arg_files (parseArgs (a ++ [v])) = arg_files (parseArgs a) /\
               arg_help (parseArgs (a ++ [v])) = arg_help (parseArgs a)).
Proof.
  split.
  - intros Hw. unfold parseArgs.
    rewrite (parse_loop_app_le (length a) a b _ (Nat.le_refl _) Hw).
    split; [reflexivity |].
    apply (parse_loop_files_le (length b)); [apply Nat.le_refl | reflexivity | reflexivity].
  - intros Hw v. unfold parseArgs.
    split; [apply (parse_loop_waiting_le (length a)); [apply Nat.le_refl | exact Hw] |].
    generalize (mkArgs None None (Some EmptyString) [] false) as r.
    assert (Hgen : forall n a0 r, (length a0 <= n)%nat -> waits a0 = true ->
              arg_files (parse_loop (a0 ++ [v]) r) = arg_files (parse_loop a0 r) /\
              arg_help (parse_loop (a0 ++ [v]) r) = arg_help (parse_loop a0 r)).
    { clear. induction n as [| n IH]; intros a0 r Hlen Hw.
      - destruct a0; [discriminate | cbn in Hlen; lia].
      - destruct a0 as [| arg rest]; [discriminate |].
        cbn [length] in Hlen. cbn [app parse_loop waits] in *.
        destruct (is_help arg); [apply IH; [lia | exact Hw] |].
        destruct (is_palette arg); cbn [orb] in Hw.
        { destruct rest as [| v' rest']; [cbn; auto |].
          cbn [app length] in *. apply IH; [lia | exact Hw]. }
        destruct (is_output arg); cbn [orb] in Hw.
        { destruct rest as [| v' rest']; [cbn; auto |].
          cbn [app length] in *. apply IH; [lia | exact Hw]. }
        destruct (is_suffix arg).
        { destruct rest as [| v' rest']; [cbn; auto |].
          cbn [app length] in *. apply IH; [lia | exact Hw]. }
        destruct (negb (String.prefix "-" arg)); apply IH; solve [lia | exact Hw]. }
    intros r. apply (Hgen (length a)); [apply Nat.le_refl | exact Hw].
Qed.

Definition palette_args : list string := ["-p"; "colors.gpl"]%string.
Definition file_and_help_args : list string := ["a.piskel"; "-h"]%string.

Lemma parseArgs_in_pieces_witness :
  parseArgs (palette_args ++ file_and_help_args)
    = parse_loop file_and_help_args (parseArgs palette_args) /\
  arg_files (parseArgs (palette_args ++ file_and_help_args))
    = arg_files (parseArgs palette_args) ++ arg_files (parseArgs file_and_help_args) /\
  arg_help (parseArgs (palette_args ++ file_and_help_args))
    = arg_help (parseArgs palette_args) || arg_help (parseArgs file_and_help_args).
Proof.
  apply (proj1 (parseArgs_in_pieces palette_args file_and_help_args)).
  reflexivity.
Defined.

(** The usage example [-p colors.txt -s "-matched" sprite.piskel]: the
    suffix is taken although it starts with a dash; and an option taken as a
    value is lost as an option. *)
Example parseArgs_usage :
  parseArgs ["-p"; "colors.txt"; "-s"; "-matched"; "sprite.piskel"]%string
    = mkArgs (Some (Some "colors.txt"%string)) None (Some "-matched"%string)
             ["sprite.piskel"%string] false
  /\
  parseArgs ["-o"; "--help"; "-p"]%string
    = mkArgs (Some None) (Some (Some "--help"%string)) (Some EmptyString) [] false.
Proof. split; reflexivity. Qed.
